(** * The profile distributor: a shallow embedding of pkg/distributor/distributor.go

    The push path of the distributor is embedded function by function:
    label normalisation, size accounting, the rate-limit gate, the split of
    profiles by sample labels, tokens, shard selection and the quorum
    tracking of the replicated push.  Go integers are integers of [Z] with
    their wrap-around written out, strings are byte strings, slices are
    lists, and the collaborators the distributor reaches through Go
    interfaces (limits, ring, rate limiter, validation, pprof) are type
    classes. *)

From Stdlib Require Import ZArith List Lia Ascii String.
From Stdlib Require Import Sorting.Sorted Sorting.Permutation.
From Stdlib.Strings Require Import Byte.
From stdpp Require Import gmap strings list fin_maps.

Local Open Scope Z_scope.

(** ** Go integers *)

Module GoInt.

(** Conversion to an unsigned integer type of [w] bits. *)
Definition unsigned (w : Z) (x : Z) : Z := x mod 2 ^ w.

(** Conversion to a signed integer type of [w] bits (two's complement). *)
Definition signed (w : Z) (x : Z) : Z :=
  (x + 2 ^ (w - 1)) mod 2 ^ w - 2 ^ (w - 1).

Definition uint32 : Z -> Z := unsigned 32.
Definition uint64 : Z -> Z := unsigned 64.
Definition int32 : Z -> Z := signed 32.
Definition int64 : Z -> Z := signed 64.

(** [int] is 64 bits wide on the platforms the distributor is built for. *)
Definition int : Z -> Z := signed 64.

(** [len] of a slice or a string, as an [int]. *)
Definition len {A : Type} (l : list A) : Z := Z.of_nat (length l).
Definition strlen (s : string) : Z := Z.of_nat (String.length s).

(** [x % y] truncates towards zero; the sign follows the dividend. *)
Definition rem (x y : Z) : Z := Z.rem x y.

End GoInt.

(** ** hash/fnv, the 32-bit hashes *)

Module fnv.

Definition offset32 : Z := 2166136261.
Definition prime32 : Z := 16777619.

(** [[]byte(s)]: the bytes of a string. *)
Definition bytes (s : string) : list byte := String.list_byte_of_string s.

Definition byteval (c : byte) : Z := Z.of_N (Byte.to_N c).

(** [New32] returns the FNV-1 state [sum32], initialised to [offset32]. *)
Definition New32 : Z := offset32.

(** [Write] on [sum32]: for each byte, [hash *= prime32] and then
    [hash ^= sum32(c)]. *)
Definition Write (s : Z) (data : list byte) : Z :=
  fold_left
    (fun hash c => Z.lxor (GoInt.uint32 (hash * prime32)) (byteval c))
    data s.

Definition Sum32 (s : Z) : Z := s.

(** FNV-1 over a whole byte string, as the hash is specified: multiply,
    then xor. *)
Fixpoint fnv1_from (h : Z) (data : list byte) : Z :=
  match data with
  | [] => h
  | c :: data' =>
      fnv1_from (Z.lxor (GoInt.uint32 (h * prime32)) (byteval c)) data'
  end.
Definition FNV1_32 (data : list byte) : Z := fnv1_from offset32 data.

(** FNV-1a over a whole byte string, as the hash is specified: xor, then
    multiply. *)
Fixpoint fnv1a_from (h : Z) (data : list byte) : Z :=
  match data with
  | [] => h
  | c :: data' =>
      fnv1a_from (GoInt.uint32 (Z.lxor h (byteval c) * prime32)) data'
  end.
Definition FNV1a32 (data : list byte) : Z := fnv1a_from offset32 data.

End fnv.

(** ** Tokens *)

(** [TokenFor] generates the token used for finding ingesters from the
    ring. *)
Definition TokenFor (tenantID labels : string) : Z :=
  let h := fnv.New32 in
  let h := fnv.Write h (fnv.bytes tenantID) in
  let h := fnv.Write h (fnv.bytes labels) in
  fnv.Sum32 h.

(** The double quote character, for label strings written out in examples. *)
Definition dquote : string := String "034"%char EmptyString.

(** The canonical string of a one-label set, [{name="value"}]. *)
Definition one_label_string (name value : string) : string :=
  "{" +:+ name +:+ "=" +:+ dquote +:+ value +:+ dquote +:+ "}".

(** ** Labels (pkg/model) *)

(** [typesv1.LabelPair]. *)
Record LabelPair : Type := { Name : string; Value : string }.

#[global] Instance LabelPair_eq_dec : EqDecision LabelPair.
Proof. solve_decision. Defined.

(** [phlaremodel.Labels] is a slice of label pairs. *)
Abbreviation Labels := (list LabelPair).

Module phlaremodel.

(** Modelled from the spec: the constant [LabelNameServiceName] is declared
    in pkg/model; the spec names the label [service_name]. *)
Definition LabelNameServiceName : string := "service_name".

(** Modelled from the spec: the constant [LabelNameSessionID] is declared in
    pkg/model; the spec names the label [session_id]. *)
Definition LabelNameSessionID : string := "session_id".

(** Modelled from the spec: [Labels.Less], of the [sort.Interface] of
    [Labels] (pkg/model), orders labels by name, ascending. *)
Definition Less (a b : LabelPair) : bool := String.ltb (Name a) (Name b).

(** Modelled from the spec: [Labels.Get] (pkg/model) returns the value of
    the first label of that name, and the empty string when there is
    none. *)
Fixpoint Get (ls : Labels) (name : string) : string :=
  match ls with
  | [] => ""
  | l :: ls' => if String.eqb (Name l) name then Value l else Get ls' name
  end.

(** Modelled from the spec: [Labels.GetLabel] (pkg/model) returns the first
    label of that name, if any. *)
Fixpoint GetLabel (ls : Labels) (name : string) : option LabelPair :=
  match ls with
  | [] => None
  | l :: ls' => if String.eqb (Name l) name then Some l else GetLabel ls' name
  end.

(** Modelled from the spec: [Labels.Delete] (pkg/model) strips the labels of
    that name and keeps the others in their order. *)
Definition Delete (ls : Labels) (name : string) : Labels :=
  List.filter (fun l => negb (String.eqb (Name l) name)) ls.

(** Modelled from the spec: [Labels.Clone] (pkg/model) copies the slice and
    its pairs. *)
Definition Clone (ls : Labels) : Labels :=
  List.map (fun l => {| Name := Name l; Value := Value l |}) ls.

(** Modelled from the spec: [Labels.Unique] (pkg/model) de-duplicates a
    sorted label list by name and keeps the first occurrence: a label is
    dropped when its name is the name of the last label kept. *)
Fixpoint unique_after (last : LabelPair) (ls : Labels) : Labels :=
  match ls with
  | [] => []
  | l :: ls' =>
      if String.eqb (Name l) (Name last) then unique_after last ls'
      else l :: unique_after l ls'
  end.
Definition Unique (ls : Labels) : Labels :=
  match ls with
  | [] => []
  | l :: ls' => l :: unique_after l ls'
  end.

(** The write through the pointer [GetLabel] returns: the value of the
    first label of that name is replaced, in place. *)
Fixpoint setValue (ls : Labels) (name value : string) : Labels :=
  match ls with
  | [] => []
  | l :: ls' =>
      if String.eqb (Name l) name
      then {| Name := Name l; Value := value |} :: ls'
      else l :: setValue ls' name value
  end.

(** [SessionID] is an unsigned 64-bit integer.  Its parser and its printer
    are in pkg/model; the distributor only relies on their types, so they
    are an interface here. *)
Class SessionIDCodec : Type := {
  ParseSessionID : string -> option Z;
  SessionID_String : Z -> string
}.

End phlaremodel.

(** ** The sort package *)

Module sort.

(** The order a sort of [Labels] leaves: no label is [Less] than the one
    before it. *)
Definition ordered (a b : LabelPair) : Prop := phlaremodel.Less b a = false.

(** [sort.Stable] on [Labels]: the sorted permutation that keeps labels of
    equal name in their order.  Insertion into the sorted tail, in front of
    the first label that is not smaller, computes it. *)
Fixpoint insert (x : LabelPair) (ls : Labels) : Labels :=
  match ls with
  | [] => [x]
  | y :: ls' =>
      if phlaremodel.Less y x then y :: insert x ls' else x :: y :: ls'
  end.
Fixpoint Stable (ls : Labels) : Labels :=
  match ls with
  | [] => []
  | x :: ls' => insert x (Stable ls')
  end.

(** [sort.Sort] on [Labels] is not stable: it returns some sorted
    permutation.  Any function with that contract stands for it. *)
Class Sorter : Type := { Sort : Labels -> Labels }.

(** The contract of [sort.Sort]. *)
Definition sorts (S : Sorter) : Prop :=
  forall ls, Permutation (Sort ls) ls /\ Sorted ordered (Sort ls).

(** The stable sort as [sort.Sort]. *)
Definition stableSorter : Sorter := {| Sort := Stable |}.

End sort.

(** ** Profiles (api/gen/proto/go/google/v1 and pkg/pprof) *)

Module googlev1.

(** [googlev1.Label]: indices into the string table of the profile. *)
Record Label : Type := { Key : Z; Str : Z; Num : Z; NumUnit : Z }.

(** [googlev1.Sample]. *)
Record Sample : Type := {
  LocationId : list Z;
  SampleValue : list Z;
  SampleLabel : list Label
}.

(** [googlev1.Profile], with the fields the distributor reads. *)
Record Profile : Type := {
  StringTable : list string;
  ProfileSample : list Sample;
  TimeNanos : Z
}.

(** [p.StringTable[i]]: indexing panics out of range, [None] here. *)
Definition stringAt (p : Profile) (i : Z) : option string :=
  if i <? 0 then None else StringTable p !! Z.to_nat i.

End googlev1.

(** ** Session limits *)

(** [Limits], the per-tenant limits the distributor reads. *)
Class Limits : Type := {
  MaxSessionsPerSeries : string -> Z;
  IngestionTenantShardSize : string -> Z;
  IngestionRateBytes : string -> Z
}.

(** [limitMaxSessionsPerSeries]. *)
Definition limitMaxSessionsPerSeries {L : Limits} {C : phlaremodel.SessionIDCodec}
    (tenantID : string) (labels : Labels) : Labels :=
  let maxSessionsPerSeries := MaxSessionsPerSeries tenantID in
  if maxSessionsPerSeries =? 0
  then phlaremodel.Delete labels phlaremodel.LabelNameSessionID
  else
    match phlaremodel.GetLabel labels phlaremodel.LabelNameSessionID with
    | None => labels
    | Some sessionIDLabel =>
        match phlaremodel.ParseSessionID (Value sessionIDLabel) with
        | None => phlaremodel.Delete labels phlaremodel.LabelNameSessionID
        | Some sessionID =>
            phlaremodel.setValue labels phlaremodel.LabelNameSessionID
              (phlaremodel.SessionID_String
                 (GoInt.uint64
                    (GoInt.rem (GoInt.int sessionID) maxSessionsPerSeries)))
        end
    end.

(** ** Merging series and sample labels *)

(** The label pair a sample label resolves to through the string table. *)
Definition resolveLabel (p : googlev1.Profile) (l : googlev1.Label)
    : option LabelPair :=
  match googlev1.stringAt p (googlev1.Key l),
        googlev1.stringAt p (googlev1.Str l) with
  | Some n, Some v => Some {| Name := n; Value := v |}
  | _, _ => None
  end.

(** The loop of [mergeSeriesAndSampleLabels] that appends the resolved
    sample labels. *)
Fixpoint appendResolved (p : googlev1.Profile) (m : Labels)
    (pl : list googlev1.Label) : option Labels :=
  match pl with
  | [] => Some m
  | l :: pl' =>
      match resolveLabel p l with
      | Some lp => appendResolved p (m ++ [lp]) pl'
      | None => None
      end
  end.

(** [mergeSeriesAndSampleLabels] merges sample labels with series labels.
    Series labels take precedence. *)
Definition mergeSeriesAndSampleLabels (p : googlev1.Profile) (sl : Labels)
    (pl : list googlev1.Label) : option Labels :=
  match appendResolved p (phlaremodel.Clone sl) pl with
  | Some m => Some (phlaremodel.Unique (sort.Stable m))
  | None => None
  end.

(** ** Profiles as the pprof package handles them (pkg/pprof) *)

Module pprof.

(** [pprof.SampleGroup]: samples that share a set of labels. *)
Record SampleGroup : Type := {
  GroupLabels : list googlev1.Label;
  GroupSamples : list googlev1.Sample
}.

(** Modelled from the spec: the constants [ProfileIDLabelName] and
    [SpanIDLabelName] are declared in pkg/pprof; the spec has the sample
    label [profile_id] renamed to [span_id]. *)
Definition ProfileIDLabelName : string := "profile_id".
Definition SpanIDLabelName : string := "span_id".

(** The operations of pkg/pprof the distributor calls.  Their code is not
    part of the distributor; each is a function of the profile it reads. *)
Class Ops : Type := {
  (** [p.Normalize()], in place. *)
  Normalize : googlev1.Profile -> googlev1.Profile;
  (** [pprof.RenameLabel(p, oldName, newName)], in place. *)
  RenameLabel : googlev1.Profile -> string -> string -> googlev1.Profile;
  (** [pprof.GroupSamplesWithoutLabels(p, names...)]. *)
  GroupSamplesWithoutLabels : googlev1.Profile -> string -> list SampleGroup;
  (** [e.ExportSamples(dst, samples)] for the exporter [e] of a source
      profile and a fresh [dst]: the profile [dst] becomes. *)
  ExportSamples : googlev1.Profile -> list googlev1.Sample -> googlev1.Profile;
  (** [p.SizeBytes()] and [p.SizeVT()]. *)
  SizeBytes : googlev1.Profile -> Z;
  SizeVT : googlev1.Profile -> Z;
  (** [p.WriteTo(w)]: the bytes written, or an error. *)
  WriteTo : googlev1.Profile -> option (list byte)
}.

End pprof.

(** ** Requests (pkg/distributor/model) *)

Module distributormodel.

(** Modelled from the spec: [RawProfileType] is a string type declared in
    pkg/distributor/model, one of its values names the pprof format. *)
Definition RawProfileTypePPROF : string := "pprof".

(** [distributormodel.ProfileSample]. *)
Record ProfileSample : Type := {
  Profile : googlev1.Profile;
  RawProfile : list byte;
  ID : string
}.

(** [distributormodel.ProfileSeries]. *)
Record ProfileSeries : Type := {
  SeriesLabels : Labels;
  Samples : list ProfileSample
}.

(** [distributormodel.PushRequest]. *)
Record PushRequest : Type := {
  Series : list ProfileSeries;
  RawProfileSize : Z;
  RawProfileType : string
}.

End distributormodel.

(** ** Label normalisation *)

(** The body of the first loop of [PushParsed], for the labels of one
    series: [service_name] is appended with the value [unspecified] when
    [Get] finds no value for it, and the labels are sorted. *)
Definition normalizeLabels {S : sort.Sorter} (labels : Labels) : Labels :=
  let serviceName := phlaremodel.Get labels phlaremodel.LabelNameServiceName in
  let labels :=
    if String.eqb serviceName ""
    then labels ++ [{| Name := phlaremodel.LabelNameServiceName;
                       Value := "unspecified" |}]
    else labels in
  sort.Sort labels.

Definition normalizeSeries {S : sort.Sorter}
    (series : distributormodel.ProfileSeries) : distributormodel.ProfileSeries :=
  {| distributormodel.SeriesLabels :=
       normalizeLabels (distributormodel.SeriesLabels series);
     distributormodel.Samples := distributormodel.Samples series |}.

(** ** Splitting profiles by sample labels *)

(** [exportSamples] copies the samples, clears the slots they came from in
    the source profile, and exports the copy into a new profile. *)
Definition exportSamples {P : pprof.Ops} (source : googlev1.Profile)
    (samples : list googlev1.Sample) : googlev1.Profile :=
  let samplesCopy := samples in
  pprof.ExportSamples source samplesCopy.

(** The profile of a sample once [extractSampleSeries] has normalised it
    and renamed its [profile_id] labels. *)
Definition prepared {P : pprof.Ops} (p : googlev1.Profile) : googlev1.Profile :=
  pprof.RenameLabel (pprof.Normalize p)
    pprof.ProfileIDLabelName pprof.SpanIDLabelName.

(** The inner loop of [extractSampleSeries] over the groups of one profile:
    one new series per group.  A sample label that does not resolve
    panics ([None]). *)
Fixpoint exportGroups {P : pprof.Ops} (p : googlev1.Profile)
    (seriesLabels : Labels) (groups : list pprof.SampleGroup)
    : option (list distributormodel.ProfileSeries * list googlev1.Profile) :=
  match groups with
  | [] => Some ([], [])
  | group :: groups' =>
      let profile := exportSamples p (pprof.GroupSamples group) in
      match mergeSeriesAndSampleLabels p seriesLabels (pprof.GroupLabels group) with
      | None => None
      | Some labels =>
          match exportGroups p seriesLabels groups' with
          | None => None
          | Some (series, profiles) =>
              Some ({| distributormodel.SeriesLabels := labels;
                       distributormodel.Samples :=
                         [{| distributormodel.Profile := profile;
                             distributormodel.RawProfile := [];
                             distributormodel.ID := "" |}] |} :: series,
                    profile :: profiles)
          end
      end
  end.

(** The loop of [extractSampleSeries] over the samples of one series.  It
    returns the samples kept in [s], the series split off and the profiles
    allocated for them. *)
Fixpoint extractSamples {P : pprof.Ops} (seriesLabels : Labels)
    (samples : list distributormodel.ProfileSample)
    : option (list distributormodel.ProfileSample *
              list distributormodel.ProfileSeries * list googlev1.Profile) :=
  match samples with
  | [] => Some ([], [], [])
  | raw :: samples' =>
      let p := prepared (distributormodel.Profile raw) in
      let groups := pprof.GroupSamplesWithoutLabels p pprof.SpanIDLabelName in
      let unlabelled :=
        match groups with
        | [] => true
        | [g] => (length (pprof.GroupLabels g) =? 0)%nat
        | _ => false
        end in
      match extractSamples seriesLabels samples' with
      | None => None
      | Some (kept, split, profiles) =>
          if unlabelled
          then Some ({| distributormodel.Profile := p;
                        distributormodel.RawProfile := distributormodel.RawProfile raw;
                        distributormodel.ID := distributormodel.ID raw |} :: kept,
                     split, profiles)
          else
            match exportGroups p seriesLabels groups with
            | None => None
            | Some (split1, profiles1) =>
                Some (kept, split1 ++ split, profiles1 ++ profiles)
            end
      end
  end.

(** [extractSampleSeries]. *)
Fixpoint extractSeries {P : pprof.Ops}
    (series : list distributormodel.ProfileSeries)
    : option (list distributormodel.ProfileSeries * list googlev1.Profile) :=
  match series with
  | [] => Some ([], [])
  | sr :: series' =>
      match extractSamples (distributormodel.SeriesLabels sr)
              (distributormodel.Samples sr) with
      | None => None
      | Some (kept, split, profiles) =>
          let s := {| distributormodel.SeriesLabels := distributormodel.SeriesLabels sr;
                      distributormodel.Samples := kept |} in
          match extractSeries series' with
          | None => None
          | Some (rest, profiles') =>
              Some (split ++ (if (0 <? length kept)%nat then [s] else []) ++ rest,
                    profiles ++ profiles')
          end
      end
  end.

Definition extractSampleSeries {P : pprof.Ops}
    (req : distributormodel.PushRequest)
    : option (list distributormodel.ProfileSeries * list googlev1.Profile) :=
  extractSeries (distributormodel.Series req).

(** The number of pprof samples a list of samples and a list of series
    carry. *)
Definition samplesOf (samples : list distributormodel.ProfileSample) : nat :=
  sum_list_with
    (fun raw => length (googlev1.ProfileSample (distributormodel.Profile raw)))
    samples.


(** ** The collaborators of the push path *)

Module validation.

(** Modelled from the spec: the reason [RateLimited] is declared in
    pkg/validation; the spec has the discard counters updated under the
    reason [rate_limited]. *)
Definition RateLimited : string := "rate_limited".

(** [validation.ValidateProfile] and [validation.ValidateLabels], with the
    limits of the distributor: [None] when the check passes, the reason of
    the error ([validation.ReasonOf]) otherwise. *)
Class Ops : Type := {
  ValidateProfile :
    forall (tenantID : string) (prof : googlev1.Profile) (uncompressedSize : Z)
           (ls : Labels) (now : Z), option string;
  ValidateLabels : forall (tenantID : string) (ls : Labels), option string
}.

End validation.

Module limiter.

(** [AllowN(now, tenantID, n)] of the rate limiter of dskit, as it answers
    the call of this push. *)
Class RateLimiter : Type := {
  AllowN : forall (now : Z) (tenantID : string) (n : Z), bool
}.

End limiter.

Module ring.

(** [ring.InstanceDesc], with the field the distributor reads. *)
Record InstanceDesc : Type := { Addr : string }.

(** [ring.ReplicationSet]. *)
Record ReplicationSet : Type := {
  Instances : list InstanceDesc;
  MaxErrors : Z
}.

(** [ring.ReadRing]: [ShuffleShard(tenantID, size)] followed by
    [Get(key, ring.Write, ...)] on the subring; [None] is the error. *)
Class ReadRing : Type := {
  ShuffleShardGet : forall (tenantID : string) (size : Z) (key : Z),
      option ReplicationSet
}.

End ring.

(** What else the push reads from its surroundings: the clock, the
    identifiers [uuid.NewString] hands out, and the canonical string
    [phlaremodel.LabelPairsString] of a label set. *)
Class Environment : Type := {
  Now : Z;
  TimeNow : Z;
  NewString : nat -> string;
  LabelPairsString : Labels -> string
}.

(** ** Errors, counters and the trace of a push *)

(** The codes of [connect.NewError] the distributor uses. *)
Inductive Code : Type :=
  | CodeUnauthenticated
  | CodeInvalidArgument
  | CodeResourceExhausted.

(** What [PushParsed] returns as its error. *)
Inductive PushError : Type :=
  | ConnectError (code : Code)   (** [connect.NewError(code, err)] *)
  | RingError                    (** the error of [subRing.Get] *)
  | WriteError                   (** the error of [p.WriteTo] *)
  | IngesterError (addr : string) (** the error of a push to an ingester *)
  | ContextError.                (** [ctx.Err()] *)

(** The calls whose place in a push matters. *)
Inductive Event : Type :=
  | AllowNCalled (tenantID : string) (n : Z) (allowed : bool)
  | ExtractSampleSeriesCalled
  | SendProfilesStarted (ingester : string).

#[global] Instance Event_eq_dec : EqDecision Event.
Proof. solve_decision. Defined.

(** The state a push acts on: the discard counters of pkg/validation, each
    keyed by reason and tenant, and the number of identifiers handed out.
    A counter holds the sum of the integers passed to [Add], which converts
    them to [float64]. *)
Record World : Type := {
  DiscardedProfiles : gmap (string * string) Z;
  DiscardedBytes : gmap (string * string) Z;
  uuids : nat
}.

(** [counter.WithLabelValues(reason, tenantID).Add(float64(v))]. *)
Definition counterAdd (reason tenantID : string) (v : Z)
    (counter : gmap (string * string) Z) : gmap (string * string) Z :=
  <[(reason, tenantID) := default 0 (counter !! (reason, tenantID)) + v]> counter.

Definition counterValue (reason tenantID : string)
    (counter : gmap (string * string) Z) : Z :=
  default 0 (counter !! (reason, tenantID)).

(** A step of a push ends in a value, in a returned error, or in a
    panic. *)
Inductive Result (A : Type) : Type :=
  | Done (a : A)
  | Failed (e : PushError)
  | Panicked.
Arguments Done {A} a.
Arguments Failed {A} e.
Arguments Panicked {A}.

(** What a step leaves: the state, the calls it made, its result. *)
Record Outcome (A : Type) : Type := {
  world : World;
  trace : list Event;
  result : Result A
}.
Arguments world {A} o.
Arguments trace {A} o.
Arguments result {A} o.

(** The state, trace and error monad of the push path. *)
Definition M (A : Type) : Type := World -> Outcome A.

Definition ret {A : Type} (a : A) : M A :=
  fun w => {| world := w; trace := []; result := Done a |}.

Definition bind {A B : Type} (m : M A) (k : A -> M B) : M B :=
  fun w =>
    let o := m w in
    match result o with
    | Done a =>
        let o' := k a (world o) in
        {| world := world o'; trace := trace o ++ trace o'; result := result o' |}
    | Failed e => {| world := world o; trace := trace o; result := Failed e |}
    | Panicked => {| world := world o; trace := trace o; result := Panicked |}
    end.

Definition fail {A : Type} (e : PushError) : M A :=
  fun w => {| world := w; trace := []; result := Failed e |}.

Definition panic {A : Type} : M A :=
  fun w => {| world := w; trace := []; result := Panicked |}.

Definition emit (e : Event) : M unit :=
  fun w => {| world := w; trace := [e]; result := Done tt |}.

(** The two [Add] calls every discard makes. *)
Definition discard (reason tenantID : string) (totalProfiles totalBytes : Z)
    : M unit :=
  fun w =>
    {| world :=
         {| DiscardedProfiles :=
              counterAdd reason tenantID totalProfiles (DiscardedProfiles w);
            DiscardedBytes :=
              counterAdd reason tenantID totalBytes (DiscardedBytes w);
            uuids := uuids w |};
       trace := [];
       result := Done tt |}.

(** [uuid.NewString()]. *)
Definition newUUID {E : Environment} : M string :=
  fun w =>
    {| world :=
         {| DiscardedProfiles := DiscardedProfiles w;
            DiscardedBytes := DiscardedBytes w;
            uuids := S (uuids w) |};
       trace := [];
       result := Done (NewString (uuids w)) |}.

(** [d.ingestionRateLimiter.AllowN(time.Now(), tenantID, n)]. *)
Definition allowN {E : Environment} {R : limiter.RateLimiter}
    (tenantID : string) (n : Z) : M bool :=
  fun w =>
    let allowed := limiter.AllowN TimeNow tenantID n in
    {| world := w;
       trace := [AllowNCalled tenantID n allowed];
       result := Done allowed |}.

(** The monad in stdpp's notation: [x ← m; k] and [m;; k]. *)
#[global] Instance M_ret : MRet M := @ret.
#[global] Instance M_bind : MBind M := fun A B k m => bind m k.

(** ** The quorum trackers *)

(** [profileTracker]; the two counters are [atomic.Int32]. *)
Record profileTracker : Type := {
  profile : distributormodel.ProfileSeries;
  minSuccess : Z;
  maxFailures : Z;
  succeeded : Z;
  failed : Z
}.

(** [pushTracker]; a channel is the list of the messages it buffers, at
    most one. *)
Record pushTracker : Type := {
  samplesPending : Z;
  samplesFailed : Z;
  done : list unit;
  err : list PushError
}.

(** ** PushParsed, up to the fan-out *)

Section PushPath.

Context {L : Limits} {C : phlaremodel.SessionIDCodec} {Srt : sort.Sorter}
        {P : pprof.Ops} {V : validation.Ops} {R : limiter.RateLimiter}
        {G : ring.ReadRing} {E : Environment}.

(** The inner loop of the size accounting over the labels of a series. *)
Definition addLabelSizes (labels : Labels) (totalBytes : Z) : Z :=
  fold_left
    (fun total lbs =>
       let total := GoInt.int64 (total + GoInt.int64 (GoInt.strlen (Name lbs))) in
       GoInt.int64 (total + GoInt.int64 (GoInt.strlen (Value lbs))))
    labels totalBytes.

(** [decompressedSize] of a profile. *)
Definition decompressedSize (haveRawPprof : bool) (p : googlev1.Profile) : Z :=
  if haveRawPprof then pprof.SizeBytes p else pprof.SizeVT p.

(** The loop over the samples of a series: count, measure, validate. *)
Fixpoint measureSamples (tenantID : string) (haveRawPprof : bool)
    (labels : Labels) (samples : list distributormodel.ProfileSample)
    (totalBytes totalProfiles : Z) : M (Z * Z) :=
  match samples with
  | [] => mret (totalBytes, totalProfiles)
  | raw :: samples' =>
      let totalProfiles := GoInt.int64 (totalProfiles + 1) in
      let p := distributormodel.Profile raw in
      let size := decompressedSize haveRawPprof p in
      let totalBytes := GoInt.int64 (totalBytes + GoInt.int64 size) in
      match validation.ValidateProfile tenantID p size labels Now with
      | Some reason =>
          discard reason tenantID totalProfiles totalBytes;;
          fail (ConnectError CodeInvalidArgument)
      | None =>
          measureSamples tenantID haveRawPprof labels samples'
            totalBytes totalProfiles
      end
  end.

(** The loop over the series: label sizes, session limit, samples. *)
Fixpoint measureSeries (tenantID : string) (haveRawPprof : bool)
    (series : list distributormodel.ProfileSeries)
    (totalBytes totalProfiles : Z)
    : M (list distributormodel.ProfileSeries * (Z * Z)) :=
  match series with
  | [] => mret ([], (totalBytes, totalProfiles))
  | sr :: series' =>
      let totalBytes := addLabelSizes (distributormodel.SeriesLabels sr) totalBytes in
      let labels := limitMaxSessionsPerSeries tenantID (distributormodel.SeriesLabels sr) in
      totals ← measureSamples tenantID haveRawPprof labels
                 (distributormodel.Samples sr) totalBytes totalProfiles;
      rest ← measureSeries tenantID haveRawPprof series' totals.1 totals.2;
      mret ({| distributormodel.SeriesLabels := labels;
               distributormodel.Samples := distributormodel.Samples sr |} :: rest.1,
            rest.2)
  end.

(** The loop that validates the labels of the split series and computes
    their tokens. *)
Fixpoint tokens (tenantID : string) (totalBytes totalProfiles : Z)
    (profileSeries : list distributormodel.ProfileSeries) : M (list Z) :=
  match profileSeries with
  | [] => mret []
  | series :: rest =>
      match validation.ValidateLabels tenantID (distributormodel.SeriesLabels series) with
      | Some reason =>
          discard reason tenantID totalProfiles totalBytes;;
          fail (ConnectError CodeInvalidArgument)
      | None =>
          keys ← tokens tenantID totalBytes totalProfiles rest;
          mret (TokenFor tenantID
                  (LabelPairsString (distributormodel.SeriesLabels series)) :: keys)
      end
  end.

(** The loop that writes each profile back into its buffer and gives the
    sample a fresh id. *)
Fixpoint rewriteSamples (samples : list distributormodel.ProfileSample)
    : M (list distributormodel.ProfileSample) :=
  match samples with
  | [] => mret []
  | raw :: samples' =>
      let p := distributormodel.Profile raw in
      match pprof.WriteTo p with
      | None => fail WriteError
      | Some bw =>
          id ← newUUID;
          rest ← rewriteSamples samples';
          mret ({| distributormodel.Profile := p;
                   distributormodel.RawProfile := bw;
                   distributormodel.ID := id |} :: rest)
      end
  end.

Fixpoint newTrackers (profileSeries : list distributormodel.ProfileSeries)
    : M (list profileTracker) :=
  match profileSeries with
  | [] => mret []
  | series :: rest =>
      samples ← rewriteSamples (distributormodel.Samples series);
      profiles ← newTrackers rest;
      mret ({| profile :=
                 {| distributormodel.SeriesLabels := distributormodel.SeriesLabels series;
                    distributormodel.Samples := samples |};
               minSuccess := 0; maxFailures := 0;
               succeeded := 0; failed := 0 |} :: profiles)
  end.

(** [samplesByIngester[addr] = append(samplesByIngester[addr], profiles[i])],
    a tracker being the index it has in [profiles]. *)
Definition appendTracker (addr : string) (i : nat)
    (samplesByIngester : gmap string (list nat)) : gmap string (list nat) :=
  <[addr := default [] (samplesByIngester !! addr) ++ [i]]> samplesByIngester.

(** The loop over the instances of one replication set. *)
Definition assignInstances (i : nat) (instances : list ring.InstanceDesc)
    (maps : gmap string (list nat) * gmap string ring.InstanceDesc)
    : gmap string (list nat) * gmap string ring.InstanceDesc :=
  fold_left
    (fun maps ingester =>
       (appendTracker (ring.Addr ingester) i maps.1,
        <[ring.Addr ingester := ingester]> maps.2))
    instances maps.

(** The quorum of a replication set, written into its tracker. *)
Definition setQuorum (replicationSet : ring.ReplicationSet)
    (tracker : profileTracker) : profileTracker :=
  {| profile := profile tracker;
     minSuccess :=
       GoInt.int (GoInt.len (ring.Instances replicationSet) -
                  ring.MaxErrors replicationSet);
     maxFailures := ring.MaxErrors replicationSet;
     succeeded := succeeded tracker;
     failed := failed tracker |}.

(** The loop over the keys: shard selection. *)
Fixpoint shardSelect (tenantID : string) (i : nat) (keys : list Z)
    (profiles : list profileTracker)
    (maps : gmap string (list nat) * gmap string ring.InstanceDesc)
    : M (list profileTracker *
         (gmap string (list nat) * gmap string ring.InstanceDesc)) :=
  match keys with
  | [] => mret (profiles, maps)
  | key :: keys' =>
      match ring.ShuffleShardGet tenantID (IngestionTenantShardSize tenantID) key with
      | None => fail RingError
      | Some replicationSet =>
          shardSelect tenantID (S i) keys'
            (alter (setQuorum replicationSet) i profiles)
            (assignInstances i (ring.Instances replicationSet) maps)
      end
  end.

End PushPath.

(** ** The fan-out *)

(** Where a [sendProfiles] goroutine stands: in [sendProfilesErr], at the
    head of its loop, or before one of the operations on the push tracker
    that follow an increment of a profile tracker. *)
Inductive Point : Type :=
  | Calling
  | AtLoop
  | AtPending         (** before [samplesPending.Dec()] *)
  | AtDone            (** before [done <- struct{}{}] *)
  | AtSamplesFailed   (** before [samplesFailed.Inc()] *)
  | AtErr.            (** before [err <- err] *)

#[global] Instance Point_eq_dec : EqDecision Point.
Proof. solve_decision. Defined.

(** A goroutine of the fan-out: the ingester, the trackers it was given (as
    indices into [profiles]), the error [sendProfilesErr] returned ([None]
    is nil), the number of trackers it has incremented, and its point. *)
Record Sender : Type := {
  ingester : ring.InstanceDesc;
  profileTrackers : list nat;
  sendErr : option PushError;
  index : nat;
  point : Point
}.

(** The caller waits in the [select], or has returned: [None] is the
    response, [Some] an error. *)
Inductive Caller : Type :=
  | Waiting
  | Returned (e : option PushError).

(** The state of a push from the fan-out on. *)
Record Fanout : Type := {
  trackers : list profileTracker;
  push : pushTracker;
  senders : list Sender;
  caller : Caller
}.

(** The context of the request: its tenant, if the caller is
    authenticated ([tenant.ExtractTenantIDFromContext]). *)
Record Context : Type := { TenantID : option string }.

Section Dispatch.

Context {L : Limits} {C : phlaremodel.SessionIDCodec} {Srt : sort.Sorter}
        {P : pprof.Ops} {V : validation.Ops} {R : limiter.RateLimiter}
        {G : ring.ReadRing} {E : Environment}.

(** The loop that starts a goroutine per ingester. *)
Fixpoint spawn (ingesterDescs : gmap string ring.InstanceDesc)
    (entries : list (string * list nat)) : M (list Sender) :=
  match entries with
  | [] => mret []
  | (addr, samples) :: entries' =>
      emit (SendProfilesStarted addr);;
      rest ← spawn ingesterDescs entries';
      mret ({| ingester := default {| ring.Addr := "" |} (ingesterDescs !! addr);
               profileTrackers := samples;
               sendErr := None;
               index := 0;
               point := Calling |} :: rest)
  end.

(** The push tracker and the goroutines of a push. *)
Definition dispatch (profiles : list profileTracker)
    (maps : gmap string (list nat) * gmap string ring.InstanceDesc) : M Fanout :=
  let tracker :=
    {| samplesPending := GoInt.int32 (GoInt.len profiles);
       samplesFailed := 0;
       done := [];
       err := [] |} in
  started ← spawn maps.2 (map_to_list maps.1);
  mret {| trackers := profiles; push := tracker;
          senders := started; caller := Waiting |}.

(** [PushParsed], up to the [select]. *)
Definition PushParsed (ctx : Context) (req : distributormodel.PushRequest)
    : M Fanout :=
  match TenantID ctx with
  | None => fail (ConnectError CodeUnauthenticated)
  | Some tenantID =>
      let series := List.map normalizeSeries (distributormodel.Series req) in
      let haveRawPprof :=
        String.eqb (distributormodel.RawProfileType req)
          distributormodel.RawProfileTypePPROF in
      measured ← measureSeries tenantID haveRawPprof series 0 0;
      let series := measured.1 in
      let totalPushUncompressedBytes := measured.2.1 in
      let totalProfiles := measured.2.2 in
      if totalProfiles =? 0 then fail (ConnectError CodeInvalidArgument)
      else
        allowed ← allowN tenantID (GoInt.int totalPushUncompressedBytes);
        if negb allowed then
          discard validation.RateLimited tenantID totalProfiles
            totalPushUncompressedBytes;;
          fail (ConnectError CodeResourceExhausted)
        else
          emit ExtractSampleSeriesCalled;;
          match extractSeries series with
          | None => panic
          | Some (profileSeries, newProfiles) =>
              keys ← tokens tenantID totalPushUncompressedBytes totalProfiles
                       profileSeries;
              profiles ← newTrackers profileSeries;
              selected ← shardSelect tenantID 0 keys profiles (∅, ∅);
              dispatch selected.1 selected.2
          end
  end.

End Dispatch.

(** ** sendProfiles and the select, step by step *)

Definition setSender (s : nat) (sd : Sender) (st : Fanout) : Fanout :=
  {| trackers := trackers st; push := push st;
     senders := <[s := sd]> (senders st); caller := caller st |}.

Definition setTracker (t : nat) (tr : profileTracker) (st : Fanout) : Fanout :=
  {| trackers := <[t := tr]> (trackers st); push := push st;
     senders := senders st; caller := caller st |}.

Definition setPush (pt : pushTracker) (st : Fanout) : Fanout :=
  {| trackers := trackers st; push := pt;
     senders := senders st; caller := caller st |}.

Definition setCaller (c : Caller) (st : Fanout) : Fanout :=
  {| trackers := trackers st; push := push st;
     senders := senders st; caller := c |}.

Definition at_ (pt : Point) (sd : Sender) : Sender :=
  {| ingester := ingester sd; profileTrackers := profileTrackers sd;
     sendErr := sendErr sd; index := index sd; point := pt |}.

Definition next (pt : Point) (sd : Sender) : Sender :=
  {| ingester := ingester sd; profileTrackers := profileTrackers sd;
     sendErr := sendErr sd; index := S (index sd); point := pt |}.

Definition returned (e : option PushError) (sd : Sender) : Sender :=
  {| ingester := ingester sd; profileTrackers := profileTrackers sd;
     sendErr := e; index := index sd; point := AtLoop |}.

(** One atomic operation of one goroutine, or of the caller. *)
Inductive step : Fanout -> Fanout -> Prop :=
  (** [sendProfilesErr] returns, with an error or without. *)
  | step_call st s sd e :
      senders st !! s = Some sd -> point sd = Calling ->
      step st (setSender s (returned e sd) st)
  (** [profileTrackers[i].succeeded.Inc()], compared with [minSuccess]. *)
  | step_succeeded st s sd t tr :
      senders st !! s = Some sd -> point sd = AtLoop -> sendErr sd = None ->
      profileTrackers sd !! index sd = Some t -> trackers st !! t = Some tr ->
      let v := GoInt.int32 (succeeded tr + 1) in
      step st
        (setSender s
           (next (if v =? GoInt.int32 (minSuccess tr) then AtPending else AtLoop) sd)
           (setTracker t
              {| profile := profile tr; minSuccess := minSuccess tr;
                 maxFailures := maxFailures tr; succeeded := v;
                 failed := failed tr |} st))
  (** [pushTracker.samplesPending.Dec()], compared with 0. *)
  | step_pending st s sd :
      senders st !! s = Some sd -> point sd = AtPending ->
      let v := GoInt.int32 (samplesPending (push st) - 1) in
      step st
        (setSender s (at_ (if v =? 0 then AtDone else AtLoop) sd)
           (setPush
              {| samplesPending := v; samplesFailed := samplesFailed (push st);
                 done := done (push st); err := err (push st) |} st))
  (** [pushTracker.done <- struct{}{}]; the channel has room for one. *)
  | step_done st s sd :
      senders st !! s = Some sd -> point sd = AtDone -> done (push st) = [] ->
      step st
        (setSender s (at_ AtLoop sd)
           (setPush
              {| samplesPending := samplesPending (push st);
                 samplesFailed := samplesFailed (push st);
                 done := [tt]; err := err (push st) |} st))
  (** [profileTrackers[i].failed.Inc()], compared with [maxFailures]. *)
  | step_failed st s sd t tr e :
      senders st !! s = Some sd -> point sd = AtLoop -> sendErr sd = Some e ->
      profileTrackers sd !! index sd = Some t -> trackers st !! t = Some tr ->
      let v := GoInt.int32 (failed tr + 1) in
      step st
        (setSender s
           (next (if v <=? GoInt.int32 (maxFailures tr) then AtLoop
                  else AtSamplesFailed) sd)
           (setTracker t
              {| profile := profile tr; minSuccess := minSuccess tr;
                 maxFailures := maxFailures tr; succeeded := succeeded tr;
                 failed := v |} st))
  (** [pushTracker.samplesFailed.Inc()], compared with 1. *)
  | step_samplesFailed st s sd :
      senders st !! s = Some sd -> point sd = AtSamplesFailed ->
      let v := GoInt.int32 (samplesFailed (push st) + 1) in
      step st
        (setSender s (at_ (if v =? 1 then AtErr else AtLoop) sd)
           (setPush
              {| samplesPending := samplesPending (push st); samplesFailed := v;
                 done := done (push st); err := err (push st) |} st))
  (** [pushTracker.err <- err]; the channel has room for one. *)
  | step_err st s sd e :
      senders st !! s = Some sd -> point sd = AtErr -> sendErr sd = Some e ->
      err (push st) = [] ->
      step st
        (setSender s (at_ AtLoop sd)
           (setPush
              {| samplesPending := samplesPending (push st);
                 samplesFailed := samplesFailed (push st);
                 done := done (push st); err := [e] |} st))
  (** The [select] of the caller receives from [err]. *)
  | step_select_err st e rest :
      caller st = Waiting -> err (push st) = e :: rest ->
      step st
        (setCaller (Returned (Some e))
           (setPush
              {| samplesPending := samplesPending (push st);
                 samplesFailed := samplesFailed (push st);
                 done := done (push st); err := rest |} st))
  (** The [select] of the caller receives from [done]. *)
  | step_select_done st u rest :
      caller st = Waiting -> done (push st) = u :: rest ->
      step st
        (setCaller (Returned None)
           (setPush
              {| samplesPending := samplesPending (push st);
                 samplesFailed := samplesFailed (push st);
                 done := rest; err := err (push st) |} st))
  (** The [select] of the caller receives from [ctx.Done()]. *)
  | step_select_ctx st :
      caller st = Waiting ->
      step st (setCaller (Returned (Some ContextError)) st).

(** The states a push reaches from its fan-out. *)
Definition reaches : Fanout -> Fanout -> Prop := rtc step.

(** The acknowledgements a series has received: the pushes that carried it
    and returned without error, a push counting once for each time it
    carried the series. *)
Definition acknowledged (t : nat) (sd : Sender) : nat :=
  match point sd, sendErr sd with
  | Calling, _ => 0
  | _, Some _ => 0
  | _, None => length (List.filter (Nat.eqb t) (profileTrackers sd))
  end.

Definition acknowledgements (st : Fanout) (t : nat) : nat :=
  sum_list_with (acknowledged t) (senders st).

(** ** Running a push under a schedule *)

(** What a scheduler picks: a goroutine, which then does its next atomic
    operation ([e] is what [sendProfilesErr] returns, should the goroutine
    be in that call), or one of the cases of the [select]. *)
Inductive Action : Type :=
  | Advance (s : nat) (e : option PushError)
  | SelectErr
  | SelectDone
  | SelectCtx.

(** The state after an action, if the action is enabled. *)
Definition exec (a : Action) (st : Fanout) : option Fanout :=
  match a with
  | Advance s e =>
      match senders st !! s with
      | None => None
      | Some sd =>
          match point sd with
          | Calling => Some (setSender s (returned e sd) st)
          | AtLoop =>
              match profileTrackers sd !! index sd with
              | None => None
              | Some t =>
                  match trackers st !! t with
                  | None => None
                  | Some tr =>
                      match sendErr sd with
                      | None =>
                          let v := GoInt.int32 (succeeded tr + 1) in
                          Some
                            (setSender s
                               (next (if v =? GoInt.int32 (minSuccess tr)
                                      then AtPending else AtLoop) sd)
                               (setTracker t
                                  {| profile := profile tr;
                                     minSuccess := minSuccess tr;
                                     maxFailures := maxFailures tr;
                                     succeeded := v;
                                     failed := failed tr |} st))
                      | Some _ =>
                          let v := GoInt.int32 (failed tr + 1) in
                          Some
                            (setSender s
                               (next (if v <=? GoInt.int32 (maxFailures tr)
                                      then AtLoop else AtSamplesFailed) sd)
                               (setTracker t
                                  {| profile := profile tr;
                                     minSuccess := minSuccess tr;
                                     maxFailures := maxFailures tr;
                                     succeeded := succeeded tr;
                                     failed := v |} st))
                      end
                  end
              end
          | AtPending =>
              let v := GoInt.int32 (samplesPending (push st) - 1) in
              Some
                (setSender s (at_ (if v =? 0 then AtDone else AtLoop) sd)
                   (setPush
                      {| samplesPending := v;
                         samplesFailed := samplesFailed (push st);
                         done := done (push st); err := err (push st) |} st))
          | AtDone =>
              match done (push st) with
              | [] =>
                  Some
                    (setSender s (at_ AtLoop sd)
                       (setPush
                          {| samplesPending := samplesPending (push st);
                             samplesFailed := samplesFailed (push st);
                             done := [tt]; err := err (push st) |} st))
              | _ :: _ => None
              end
          | AtSamplesFailed =>
              let v := GoInt.int32 (samplesFailed (push st) + 1) in
              Some
                (setSender s (at_ (if v =? 1 then AtErr else AtLoop) sd)
                   (setPush
                      {| samplesPending := samplesPending (push st);
                         samplesFailed := v;
                         done := done (push st); err := err (push st) |} st))
          | AtErr =>
              match sendErr sd, err (push st) with
              | Some e', [] =>
                  Some
                    (setSender s (at_ AtLoop sd)
                       (setPush
                          {| samplesPending := samplesPending (push st);
                             samplesFailed := samplesFailed (push st);
                             done := done (push st); err := [e'] |} st))
              | _, _ => None
              end
          end
      end
  | SelectErr =>
      match caller st, err (push st) with
      | Waiting, e :: rest =>
          Some
            (setCaller (Returned (Some e))
               (setPush
                  {| samplesPending := samplesPending (push st);
                     samplesFailed := samplesFailed (push st);
                     done := done (push st); err := rest |} st))
      | _, _ => None
      end
  | SelectDone =>
      match caller st, done (push st) with
      | Waiting, _ :: rest =>
          Some
            (setCaller (Returned None)
               (setPush
                  {| samplesPending := samplesPending (push st);
                     samplesFailed := samplesFailed (push st);
                     done := rest; err := err (push st) |} st))
      | _, _ => None
      end
  | SelectCtx =>
      match caller st with
      | Waiting => Some (setCaller (Returned (Some ContextError)) st)
      | Returned _ => None
      end
  end.

(** The state after a schedule, if each of its actions is enabled in
    turn. *)
Fixpoint run (schedule : list Action) (st : Fanout) : option Fanout :=
  match schedule with
  | [] => Some st
  | a :: schedule' =>
      match exec a st with
      | Some st' => run schedule' st'
      | None => None
      end
  end.

(** ** profileSizeBytes *)

(** The profile once [p.Sample = nil] has run. *)
Definition withoutSamples (p : googlev1.Profile) : googlev1.Profile :=
  {| googlev1.StringTable := googlev1.StringTable p;
     googlev1.ProfileSample := [];
     googlev1.TimeNanos := googlev1.TimeNanos p |}.

(** [len(p.StringTable[l.Key]) + len(p.StringTable[l.Str]) +
    len(p.StringTable[l.NumUnit])]; an index out of range panics. *)
Definition labelStringsLen (p : googlev1.Profile) (l : googlev1.Label)
    : option Z :=
  match googlev1.stringAt p (googlev1.Key l) with
  | None => None
  | Some key =>
      match googlev1.stringAt p (googlev1.Str l) with
      | None => None
      | Some str =>
          match googlev1.stringAt p (googlev1.NumUnit l) with
          | None => None
          | Some numUnit =>
              Some (GoInt.int (GoInt.int (GoInt.strlen key + GoInt.strlen str) +
                               GoInt.strlen numUnit))
          end
      end
  end.

(** The inner loop of [profileSizeBytes], over the labels of a sample. *)
Fixpoint countLabels (p : googlev1.Profile) (labels : list googlev1.Label)
    (samplesLabels : Z) : option Z :=
  match labels with
  | [] => Some samplesLabels
  | l :: labels' =>
      match labelStringsLen p l with
      | None => None
      | Some n => countLabels p labels' (GoInt.int (samplesLabels + n))
      end
  end.

(** The outer loop of [profileSizeBytes], over the samples. *)
Fixpoint countSampleLabels (p : googlev1.Profile) (samples : list googlev1.Sample)
    (samplesLabels : Z) : option Z :=
  match samples with
  | [] => Some samplesLabels
  | s :: samples' =>
      match countLabels p (googlev1.SampleLabel s) samplesLabels with
      | None => None
      | Some n => countSampleLabels p samples' n
      end
  end.

(** [profileSizeBytes] returns the size of symbols and samples in bytes;
    [None] is the panic of an index out of range. *)
Definition profileSizeBytes {P : pprof.Ops} (p : googlev1.Profile)
    : option (Z * Z) :=
  let fullSize := pprof.SizeVT p in
  let samplesSlice := googlev1.ProfileSample p in
  let p := withoutSamples p in
  let symbols := GoInt.int64 (pprof.SizeVT p) in
  let samples := GoInt.int64 (GoInt.int64 fullSize - symbols) in
  match countSampleLabels p samplesSlice 0 with
  | None => None
  | Some samplesLabels =>
      let symbols := GoInt.int64 (symbols - GoInt.int64 samplesLabels) in
      let samples := GoInt.int64 (samples + GoInt.int64 samplesLabels) in
      Some (symbols, samples)
  end.

(** ** Push *)

Module pushv1.

(** [pushv1.RawSample]. *)
Record RawSample : Type := { RawProfile : list byte; ID : string }.

(** [pushv1.RawProfileSeries]. *)
Record RawProfileSeries : Type := {
  Labels : list LabelPair;
  Samples : list RawSample
}.

(** [pushv1.PushRequest]. *)
Record PushRequest : Type := { Series : list RawProfileSeries }.

End pushv1.

(** [pprof.RawFromBytes], the parser of pkg/pprof: the profile, or [None]
    for its error. *)
Class RawDecoder : Type := {
  RawFromBytes : list byte -> option googlev1.Profile
}.

(** The inner loop of [Push] over the samples of a series; [size] is
    [req.RawProfileSize].  [None] is the return with the parse error. *)
Fixpoint parseSamples {D : RawDecoder} (samples : list pushv1.RawSample)
    (size : Z) : option (list distributormodel.ProfileSample * Z) :=
  match samples with
  | [] => Some ([], size)
  | grpcSample :: samples' =>
      match RawFromBytes (pushv1.RawProfile grpcSample) with
      | None => None
      | Some profile =>
          let sample :=
            {| distributormodel.Profile := profile;
               distributormodel.RawProfile := pushv1.RawProfile grpcSample;
               distributormodel.ID := pushv1.ID grpcSample |} in
          let size := GoInt.int (size + GoInt.len (pushv1.RawProfile grpcSample)) in
          match parseSamples samples' size with
          | None => None
          | Some (rest, size) => Some (sample :: rest, size)
          end
      end
  end.

(** The outer loop of [Push] over the series of the request. *)
Fixpoint parseSeries {D : RawDecoder} (grpcSeries : list pushv1.RawProfileSeries)
    (size : Z) : option (list distributormodel.ProfileSeries * Z) :=
  match grpcSeries with
  | [] => Some ([], size)
  | grpcSeries1 :: grpcSeries' =>
      match parseSamples (pushv1.Samples grpcSeries1) size with
      | None => None
      | Some (samples, size) =>
          let series :=
            {| distributormodel.SeriesLabels := pushv1.Labels grpcSeries1;
               distributormodel.Samples := samples |} in
          match parseSeries grpcSeries' size with
          | None => None
          | Some (rest, size) => Some (series :: rest, size)
          end
      end
  end.

(** [Push]: the request is parsed sample by sample and handed to
    [PushParsed]; its [RawProfileType] is left at the zero value. *)
Definition Push {L : Limits} {C : phlaremodel.SessionIDCodec} {Srt : sort.Sorter}
    {P : pprof.Ops} {V : validation.Ops} {R : limiter.RateLimiter}
    {G : ring.ReadRing} {E : Environment} {D : RawDecoder}
    (ctx : Context) (grpcReq : pushv1.PushRequest) : M Fanout :=
  match parseSeries (pushv1.Series grpcReq) 0 with
  | None => fail (ConnectError CodeInvalidArgument)
  | Some (series, size) =>
      PushParsed ctx
        {| distributormodel.Series := series;
           distributormodel.RawProfileSize := size;
           distributormodel.RawProfileType := "" |}
  end.

(** ** The vocabulary of the properties *)

(** Labels sorted ascending by name with no name twice: each label is
    [Less] than every label after it. *)
Definition ascending (ls : Labels) : Prop :=
  StronglySorted (fun a b => phlaremodel.Less a b = true) ls.




(** The sample as [extractSampleSeries] keeps it: the same sample, its
    profile prepared in place. *)
Definition keptSample {P : pprof.Ops} (raw : distributormodel.ProfileSample)
    : distributormodel.ProfileSample :=
  {| distributormodel.Profile := prepared (distributormodel.Profile raw);
     distributormodel.RawProfile := distributormodel.RawProfile raw;
     distributormodel.ID := distributormodel.ID raw |}.

(** No sample labels in the profile: no group, or one group with no
    labels. *)
Definition unlabelled {P : pprof.Ops} (p : googlev1.Profile) : Prop :=
  let groups := pprof.GroupSamplesWithoutLabels p pprof.SpanIDLabelName in
  groups = [] \/ exists g, groups = [g] /\ pprof.GroupLabels g = [].

(** The labels of every group resolve through the string table. *)
Definition groupsResolve {P : pprof.Ops}
    (raw : distributormodel.ProfileSample) : Prop :=
  let p := prepared (distributormodel.Profile raw) in
  Forall
    (fun g => Forall (fun l => is_Some (resolveLabel p l)) (pprof.GroupLabels g))
    (pprof.GroupSamplesWithoutLabels p pprof.SpanIDLabelName).

(** A step that makes none of the traced calls. *)
Definition silent {A : Type} (m : M A) : Prop := forall w, trace (m w) = [].

(** The bytes of the labels of a series, and of the profiles of its
    samples. *)
Definition labelBytes (labels : Labels) : Z :=
  fold_right (fun lbs n => GoInt.strlen (Name lbs) + GoInt.strlen (Value lbs) + n)
    0 labels.

Definition profileBytes {P : pprof.Ops} (haveRawPprof : bool)
    (samples : list distributormodel.ProfileSample) : Z :=
  fold_right
    (fun raw n => decompressedSize haveRawPprof (distributormodel.Profile raw) + n)
    0 samples.

(** The uncompressed bytes and the profiles of a list of series, before
    they are cut to 64 bits. *)
Definition bytesOf {P : pprof.Ops} (haveRawPprof : bool)
    (series : list distributormodel.ProfileSeries) : Z :=
  fold_right
    (fun sr n =>
       labelBytes (distributormodel.SeriesLabels sr) +
       profileBytes haveRawPprof (distributormodel.Samples sr) + n)
    0 series.

Definition profilesOf (series : list distributormodel.ProfileSeries) : Z :=
  fold_right (fun sr n => GoInt.len (distributormodel.Samples sr) + n) 0 series.

(** A tracker as [PushParsed] allocates it for a series. *)
Definition freshTracker (series : distributormodel.ProfileSeries)
    (tracker : profileTracker) : Prop :=
  distributormodel.SeriesLabels (profile tracker) =
    distributormodel.SeriesLabels series /\
  succeeded tracker = 0 /\ failed tracker = 0 /\ minSuccess tracker = 0.

(** How often a tracker occurs among the trackers of a goroutine. *)
Definition occurrences (t : nat) (l : list nat) : nat :=
  length (List.filter (Nat.eqb t) l).

(** The increments of [succeeded] a goroutine has made on a tracker. *)
Definition registeredBy (t : nat) (sd : Sender) : nat :=
  match point sd, sendErr sd with
  | Calling, _ => 0
  | _, Some _ => 0
  | _, None => occurrences t (take (index sd) (profileTrackers sd))
  end.

Definition registered (st : Fanout) (t : nat) : nat :=
  sum_list_with (registeredBy t) (senders st).

(** The pushes that carry a tracker, whatever they return. *)
Definition capacity (st : Fanout) (t : nat) : nat :=
  sum_list_with (fun sd => occurrences t (profileTrackers sd)) (senders st).

(** A tracker that has seen its [minSuccess]-th success. *)
Definition reachedb (tr : profileTracker) : bool :=
  (1 <=? minSuccess tr) && (minSuccess tr <=? succeeded tr).

Definition reachedCount (st : Fanout) : nat :=
  sum_list_with (fun tr => if reachedb tr then 1%nat else 0%nat) (trackers st).

Definition pendingb (sd : Sender) : bool :=
  if decide (point sd = AtPending) then true else false.

Definition pendingCount (st : Fanout) : nat :=
  sum_list_with (fun sd => if pendingb sd then 1%nat else 0%nat) (senders st).

(** What holds of every state of a push. *)
Record invariant (st : Fanout) : Prop := {
  inv_len : Z.of_nat (length (trackers st)) < 2 ^ 31;
  inv_min :
    Forall (fun tr => - 2 ^ 31 <= minSuccess tr < 2 ^ 31) (trackers st);
  inv_cap : forall t, Z.of_nat (capacity st t) < 2 ^ 31;
  inv_calling :
    Forall (fun sd => point sd = Calling -> index sd = 0%nat) (senders st);
  inv_succeeded :
    forall t tr, trackers st !! t = Some tr ->
                 succeeded tr = Z.of_nat (registered st t);
  inv_pending :
    exists decs : nat,
      samplesPending (push st) =
        Z.of_nat (length (trackers st)) - Z.of_nat decs /\
      (decs + pendingCount st = reachedCount st)%nat;
  inv_done :
    (exists sd, sd ∈ senders st /\ point sd = AtDone) \/
    done (push st) <> [] \/ caller st = Returned None ->
    reachedCount st = length (trackers st)
}.

(** The ring returns replication sets of fewer than [2^31] instances that
    tolerate between 0 and [2^31 - 1] errors: sizes and quorums fit the
    32-bit counters of the trackers. *)
Definition ringFits32 {L : Limits} {G : ring.ReadRing} : Prop :=
  forall tenantID size key replicationSet,
    ring.ShuffleShardGet tenantID size key = Some replicationSet ->
    GoInt.len (ring.Instances replicationSet) < 2 ^ 31 /\
    0 <= ring.MaxErrors replicationSet < 2 ^ 31.

(** How often a tracker was handed to the ingesters. *)
Definition assigned (t : nat) (m : gmap string (list nat)) : nat :=
  sum_list_with (fun entry => occurrences t entry.2) (map_to_list m).

(** An index that [p.StringTable[i]] panics on. *)
Definition outOfRange (p : googlev1.Profile) (i : Z) : Prop :=
  i < 0 \/ GoInt.len (googlev1.StringTable p) <= i.

(** The sample [extractSampleSeries] builds around a profile it exported:
    [&distributormodel.ProfileSample{Profile: profile}]. *)
Definition exportedSample (profile : googlev1.Profile)
    : distributormodel.ProfileSample :=
  {| distributormodel.Profile := profile;
     distributormodel.RawProfile := [];
     distributormodel.ID := "" |}.

(** A series as [extractSampleSeries] keeps it when none of its profiles
    has sample labels: the labels, and every sample with its profile
    prepared. *)
Definition keptSeries {P : pprof.Ops} (sr : distributormodel.ProfileSeries)
    : distributormodel.ProfileSeries :=
  {| distributormodel.SeriesLabels := distributormodel.SeriesLabels sr;
     distributormodel.Samples := List.map keptSample (distributormodel.Samples sr) |}.

(** The sample [Push] builds from a raw sample and the profile parsed from
    it. *)
Definition parsedSample {D : RawDecoder} (grpcSample : pushv1.RawSample)
    (sample : distributormodel.ProfileSample) : Prop :=
  RawFromBytes (pushv1.RawProfile grpcSample) =
    Some (distributormodel.Profile sample) /\
  distributormodel.RawProfile sample = pushv1.RawProfile grpcSample /\
  distributormodel.ID sample = pushv1.ID grpcSample.

(** The bytes of the raw profiles of a request. *)
Definition rawBytes (grpcSeries : list pushv1.RawProfileSeries) : Z :=
  fold_right
    (fun sr n =>
       fold_right (fun g m => GoInt.len (pushv1.RawProfile g) + m) 0
         (pushv1.Samples sr) + n)
    0 grpcSeries.

(** The discard counters of two states agree. *)
Definition sameCounters (w w' : World) : Prop :=
  DiscardedProfiles w' = DiscardedProfiles w /\
  DiscardedBytes w' = DiscardedBytes w.

(** The address a goroutine pushes to. *)
Definition addrOf (sd : Sender) : string := ring.Addr (ingester sd).

(** How many instances of a replication set have an address. *)
Definition instancesAt (addr : string) (instances : list ring.InstanceDesc)
    : nat :=
  length (List.filter (fun d => String.eqb (ring.Addr d) addr) instances).

(** The samples of the series of the trackers, in the order of the
    trackers. *)
Definition trackedSamples (profiles : list profileTracker)
    : list distributormodel.ProfileSample :=
  concat (List.map (fun tr => distributormodel.Samples (profile tr)) profiles).

(** How many instances at an address the ring returns for a key. *)
Definition routedTo {L : Limits} {G : ring.ReadRing} (addr tenantID : string)
    (key : Z) : nat :=
  match ring.ShuffleShardGet tenantID (IngestionTenantShardSize tenantID) key with
  | Some replicationSet => instancesAt addr (ring.Instances replicationSet)
  | None => 0
  end.

(** Each address that has trackers has its descriptor, filed under its
    own address. *)
Definition descsFiled
    (maps : gmap string (list nat) * gmap string ring.InstanceDesc) : Prop :=
  forall addr l, maps.1 !! addr = Some l ->
    exists d, maps.2 !! addr = Some d /\ ring.Addr d = addr.

(** The atomic operations a goroutine has left at most: the call, and for
    each tracker it has not come to an increment and the two operations on
    the push tracker that can follow it. *)
Definition remaining (sd : Sender) : nat :=
  (3 * (length (profileTrackers sd) - index sd) +
   match point sd with
   | Calling => 1
   | AtLoop => 0
   | AtPending => 2
   | AtDone => 1
   | AtSamplesFailed => 2
   | AtErr => 1
   end)%nat.

(** The operations a push has left at most: those of its goroutines and
    the [select] of the caller. *)
Definition work (st : Fanout) : nat :=
  (sum_list_with remaining (senders st) +
   match caller st with
   | Waiting => 1
   | Returned _ => 0
   end)%nat.

(** The goroutines that stand at a point. *)
Definition standing (pt : Point) (st : Fanout) : nat :=
  sum_list_with (fun sd => if decide (point sd = pt) then 1%nat else 0%nat)
    (senders st).

(** What is on its way through [done]: the goroutines about to send on it,
    the message it buffers, and the caller that has received it. *)
Definition doneTokens (st : Fanout) : nat :=
  (standing AtDone st + length (done (push st)) +
   match caller st with
   | Returned None => 1
   | _ => 0
   end)%nat.

(** What is on its way into [err]: the goroutines about to send on it and
    the message it buffers. *)
Definition errTokens (st : Fanout) : nat :=
  (standing AtErr st + length (err (push st)))%nat.

(** A goroutine that has left its loop. *)
Definition finished (sd : Sender) : Prop :=
  point sd = AtLoop /\ index sd = length (profileTrackers sd).

(** The goroutines hold trackers of the push, and those past the count of
    failures have an error to report. *)
Record indexed (st : Fanout) : Prop := {
  idx_valid :
    Forall
      (fun sd =>
         Forall (fun t => (t < length (trackers st))%nat) (profileTrackers sd))
      (senders st);
  idx_le :
    Forall (fun sd => (index sd <= length (profileTrackers sd))%nat) (senders st);
  idx_calling :
    Forall (fun sd => point sd = Calling -> index sd = 0%nat) (senders st);
  idx_err :
    Forall
      (fun sd => point sd = AtSamplesFailed \/ point sd = AtErr ->
                 sendErr sd <> None)
      (senders st)
}.

(** At most one message ever travels through [done], and it does when
    [samplesPending] has come down to 0. *)
Record doneOnce (st : Fanout) : Prop := {
  once_le : (doneTokens st <= 1)%nat;
  once_zero : doneTokens st = 1%nat -> samplesPending (push st) = 0;
  once_one :
    samplesPending (push st) = 0 -> (0 < length (trackers st))%nat ->
    doneTokens st = 1%nat
}.

(** The increments of [failed] a goroutine has made on a tracker. *)
Definition failedBy (t : nat) (sd : Sender) : nat :=
  match point sd, sendErr sd with
  | Calling, _ => 0
  | _, None => 0
  | _, Some _ => occurrences t (take (index sd) (profileTrackers sd))
  end.

Definition failedCount (st : Fanout) (t : nat) : nat :=
  sum_list_with (failedBy t) (senders st).

(** The failed pushes that carried a series, a push counting once for each
    time it carried the series. *)
Definition failures (st : Fanout) (t : nat) : nat :=
  sum_list_with
    (fun sd =>
       match point sd, sendErr sd with
       | Calling, _ => 0%nat
       | _, None => 0%nat
       | _, Some _ => occurrences t (profileTrackers sd)
       end)
    (senders st).

(** Some series has failed on more ingesters than it tolerates. *)
Definition exceeded (st : Fanout) : Prop :=
  exists t tr, trackers st !! t = Some tr /\ maxFailures tr < failed tr.

(** The series the goroutines carry, all of them together. *)
Definition carried (st : Fanout) : nat :=
  sum_list_with (fun sd => length (profileTrackers sd)) (senders st).

(** The trackers the goroutines have incremented, all of them together. *)
Definition visited (st : Fanout) : nat :=
  sum_list_with index (senders st).

(** What holds of the count of failures in every state of a push. *)
Record failing (st : Fanout) : Prop := {
  f_total : Z.of_nat (carried st) < 2 ^ 31;
  f_max : Forall (fun tr => 0 <= maxFailures tr < 2 ^ 31) (trackers st);
  f_failed :
    forall t tr, trackers st !! t = Some tr ->
                 failed tr = Z.of_nat (failedCount st t);
  f_sf :
    0 <= samplesFailed (push st) /\
    samplesFailed (push st) + Z.of_nat (standing AtSamplesFailed st) <=
      Z.of_nat (visited st);
  f_err : (errTokens st <= 1)%nat;
  f_err_zero : samplesFailed (push st) = 0 -> errTokens st = 0%nat;
  f_exceeded :
    (0 < standing AtSamplesFailed st)%nat \/ samplesFailed (push st) <> 0 ->
    exceeded st;
  f_caller :
    forall e, caller st = Returned (Some e) -> e = ContextError \/ exceeded st
}.

(** How many instances the ring returns for a key. *)
Definition replicasOf {L : Limits} {G : ring.ReadRing} (tenantID : string)
    (key : Z) : nat :=
  match ring.ShuffleShardGet tenantID (IngestionTenantShardSize tenantID) key with
  | Some replicationSet => length (ring.Instances replicationSet)
  | None => 0
  end.

(** Every replication set of the ring tolerates fewer errors than it has
    instances: its quorum is at least one. *)
Definition ringQuorate {L : Limits} {G : ring.ReadRing} : Prop :=
  forall tenantID size key replicationSet,
    ring.ShuffleShardGet tenantID size key = Some replicationSet ->
    ring.MaxErrors replicationSet < GoInt.len (ring.Instances replicationSet).

(** The increments of [samplesFailed] the trackers call for: one for each
    failure of a series beyond its [maxFailures]. *)
Definition excess (st : Fanout) : nat :=
  sum_list_with (fun tr => Z.to_nat (failed tr - maxFailures tr)) (trackers st).

(** [samplesFailed] counts the failures beyond [maxFailures], and its first
    increment puts an error on its way to the caller. *)
Record tallied (st : Fanout) : Prop := {
  t_excess :
    samplesFailed (push st) + Z.of_nat (standing AtSamplesFailed st) =
      Z.of_nat (excess st);
  t_err :
    caller st = Waiting -> samplesFailed (push st) <> 0 -> errTokens st = 1%nat
}.

(** An error that a push to an ingester has returned. *)
Definition reportedBy (st : Fanout) (e : PushError) : Prop :=
  exists sd, sd ∈ senders st /\ point sd <> Calling /\ sendErr sd = Some e.

(** What travels through [err] is the error of a push to an ingester. *)
Record reporting (st : Fanout) : Prop := {
  r_err : forall e, e ∈ err (push st) -> reportedBy st e;
  r_caller :
    forall e, caller st = Returned (Some e) ->
              e = ContextError \/ reportedBy st e
}.

(** What stays of a tracker once its quorum is set. *)
Definition quorumOf (tr : profileTracker)
    : distributormodel.ProfileSeries * Z * Z :=
  (profile tr, minSuccess tr, maxFailures tr).

(** A profile that [validation.ValidateProfile] lets through, under the
    labels of its series. *)
Definition validProfile {P : pprof.Ops} {V : validation.Ops} {E : Environment}
    (tenantID : string) (haveRawPprof : bool) (labels : Labels)
    (raw : distributormodel.ProfileSample) : Prop :=
  validation.ValidateProfile tenantID (distributormodel.Profile raw)
    (decompressedSize haveRawPprof (distributormodel.Profile raw)) labels Now =
  None.

(** A series all of whose profiles are let through, under its labels after
    the session limit. *)
Definition validSeries {L : Limits} {C : phlaremodel.SessionIDCodec}
    {P : pprof.Ops} {V : validation.Ops} {E : Environment}
    (tenantID : string) (haveRawPprof : bool)
    (sr : distributormodel.ProfileSeries) : Prop :=
  Forall
    (validProfile tenantID haveRawPprof
       (limitMaxSessionsPerSeries tenantID (distributormodel.SeriesLabels sr)))
    (distributormodel.Samples sr).

(** A sample whose profile [profileSizeBytes] measures without a panic. *)
Definition sized {P : pprof.Ops} (raw : distributormodel.ProfileSample) : Prop :=
  is_Some (profileSizeBytes (distributormodel.Profile raw)).

(** The state after one discard: both counters of a reason and a tenant
    have grown, nothing else has changed. *)
Definition discarded (reason tenantID : string) (profiles bytes : Z)
    (w : World) : World :=
  {| DiscardedProfiles :=
       counterAdd reason tenantID profiles (DiscardedProfiles w);
     DiscardedBytes := counterAdd reason tenantID bytes (DiscardedBytes w);
     uuids := uuids w |}.



(** ** Session ids in hexadecimal *)

Module SessionHex.

(** The value of a hexadecimal digit. *)
Definition hexDigit (c : ascii) : option Z :=
  let n := Z.of_nat (nat_of_ascii c) in
  if (48 <=? n) && (n <=? 57) then Some (n - 48)
  else if (97 <=? n) && (n <=? 102) then Some (n - 87)
  else if (65 <=? n) && (n <=? 70) then Some (n - 55)
  else None.

Fixpoint parseHexFrom (acc : Z) (s : string) : option Z :=
  match s with
  | EmptyString => Some acc
  | String c s' =>
      match hexDigit c with
      | Some d => parseHexFrom (acc * 16 + d) s'
      | None => None
      end
  end.

Definition hexChar (d : Z) : ascii :=
  ascii_of_nat (Z.to_nat (if d <? 10 then 48 + d else 87 + d)).

Fixpoint renderHex (digits : nat) (v : Z) (acc : string) : string :=
  match digits with
  | O => acc
  | S digits' => renderHex digits' (v / 16) (String (hexChar (v mod 16)) acc)
  end.

(** Modelled from the spec: [ParseSessionID] and [SessionID.String] are in
    pkg/model.  The spec has the session id as a hexadecimal integer that is
    rendered back in the same textual form; here that form is the sixteen
    hexadecimal digits of the 64-bit id. *)
Definition codec : phlaremodel.SessionIDCodec := {|
  phlaremodel.ParseSessionID s :=
    if (String.length s =? 16)%nat then parseHexFrom 0 s else None;
  phlaremodel.SessionID_String v := renderHex 16 v ""
|}.

End SessionHex.

(** ** Example data *)

Module Example.

Definition label (name value : string) : LabelPair :=
  {| Name := name; Value := value |}.

(** A profile whose string table names a sample label [span_name=render]
    and a sample label [service_name=other]. *)
Definition profile : googlev1.Profile :=
  {| googlev1.StringTable := [""; "span_name"; "render"; "service_name"; "other"];
     googlev1.ProfileSample := [];
     googlev1.TimeNanos := 0 |}.

Definition seriesLabels : Labels :=
  [label "__name__" "cpu"; label "service_name" "svc"].

Definition sampleLabels : list googlev1.Label :=
  [ {| googlev1.Key := 3; googlev1.Str := 4; googlev1.Num := 0; googlev1.NumUnit := 0 |};
    {| googlev1.Key := 1; googlev1.Str := 2; googlev1.Num := 0; googlev1.NumUnit := 0 |} ].

(** A stand-in for the operations of pkg/pprof, to run the distributor on
    examples: samples are grouped by their labels other than the one
    excluded, in the order the groups first occur, and a group is exported
    as a profile of exactly its samples over the string table of the
    source. *)
#[export] Instance Label_eq_dec : EqDecision googlev1.Label.
Proof. solve_decision. Defined.

Definition labelsWithout (p : googlev1.Profile) (name : string)
    (sample : googlev1.Sample) : list googlev1.Label :=
  List.filter
    (fun l =>
       match googlev1.stringAt p (googlev1.Key l) with
       | Some k => negb (String.eqb k name)
       | None => true
       end)
    (googlev1.SampleLabel sample).

Fixpoint addToGroup (key : list googlev1.Label) (sample : googlev1.Sample)
    (groups : list pprof.SampleGroup) : list pprof.SampleGroup :=
  match groups with
  | [] => [{| pprof.GroupLabels := key; pprof.GroupSamples := [sample] |}]
  | g :: groups' =>
      if decide (pprof.GroupLabels g = key)
      then {| pprof.GroupLabels := key;
              pprof.GroupSamples := pprof.GroupSamples g ++ [sample] |} :: groups'
      else g :: addToGroup key sample groups'
  end.

Definition groupSamples (p : googlev1.Profile) (name : string)
    : list pprof.SampleGroup :=
  fold_left (fun groups sample => addToGroup (labelsWithout p name sample) sample groups)
    (googlev1.ProfileSample p) [].

Definition ops : pprof.Ops :=
  {| pprof.Normalize p := p;
     pprof.RenameLabel p oldName newName :=
       {| googlev1.StringTable :=
            List.map (fun s => if String.eqb s oldName then newName else s)
              (googlev1.StringTable p);
          googlev1.ProfileSample := googlev1.ProfileSample p;
          googlev1.TimeNanos := googlev1.TimeNanos p |};
     pprof.GroupSamplesWithoutLabels := groupSamples;
     pprof.ExportSamples source samples :=
       {| googlev1.StringTable := googlev1.StringTable source;
          googlev1.ProfileSample := samples;
          googlev1.TimeNanos := googlev1.TimeNanos source |};
     pprof.SizeBytes p := 16 * GoInt.len (googlev1.ProfileSample p);
     pprof.SizeVT p := 16 * GoInt.len (googlev1.ProfileSample p);
     pprof.WriteTo p := Some [] |}.

Definition sampleWith (key str : Z) : googlev1.Sample :=
  {| googlev1.LocationId := [1];
     googlev1.SampleValue := [1];
     googlev1.SampleLabel :=
       [{| googlev1.Key := key; googlev1.Str := str;
           googlev1.Num := 0; googlev1.NumUnit := 0 |}] |}.

(** A profile with three samples, labelled [region=eu], [region=us] and
    [region=eu]. *)
Definition regionProfile : googlev1.Profile :=
  {| googlev1.StringTable := [""; "region"; "eu"; "us"];
     googlev1.ProfileSample := [sampleWith 1 2; sampleWith 1 3; sampleWith 1 2];
     googlev1.TimeNanos := 0 |}.

(** A profile with two samples without labels. *)
Definition plainProfile : googlev1.Profile :=
  {| googlev1.StringTable := [""];
     googlev1.ProfileSample :=
       [{| googlev1.LocationId := [1]; googlev1.SampleValue := [1];
           googlev1.SampleLabel := [] |};
        {| googlev1.LocationId := [2]; googlev1.SampleValue := [5];
           googlev1.SampleLabel := [] |}];
     googlev1.TimeNanos := 0 |}.

Definition rawSample (p : googlev1.Profile) (id : string)
    : distributormodel.ProfileSample :=
  {| distributormodel.Profile := p;
     distributormodel.RawProfile := [];
     distributormodel.ID := id |}.

(** A request of one series with a labelled and an unlabelled profile. *)
Definition request : distributormodel.PushRequest :=
  {| distributormodel.Series :=
       [{| distributormodel.SeriesLabels := seriesLabels;
           distributormodel.Samples :=
             [rawSample regionProfile "a"; rawSample plainProfile "b"] |}];
     distributormodel.RawProfileSize := 0;
     distributormodel.RawProfileType := distributormodel.RawProfileTypePPROF |}.

(** Limits with [MaxSessionsPerSeries] set to 8 for every tenant. *)
Definition limits8 : Limits :=
  {| MaxSessionsPerSeries := fun _ => 8;
     IngestionTenantShardSize := fun _ => 0;
     IngestionRateBytes := fun _ => 1000 |}.

(** Validation that lets every profile and every label set through. *)
Definition validationOps : validation.Ops :=
  {| validation.ValidateProfile := fun _ _ _ _ _ => None;
     validation.ValidateLabels := fun _ _ => None |}.


(** A rate limiter that allows everything. *)
Definition limiterOpen : limiter.RateLimiter :=
  {| limiter.AllowN := fun _ _ _ => true |}.

(** A ring of three ingesters, replication factor 3, one error tolerated. *)
Definition ring3 : ring.ReadRing :=
  {| ring.ShuffleShardGet := fun _ _ _ =>
       Some {| ring.Instances :=
                 [{| ring.Addr := "ingester-1" |};
                  {| ring.Addr := "ingester-2" |};
                  {| ring.Addr := "ingester-3" |}];
               ring.MaxErrors := 1 |} |}.

Definition environment : Environment :=
  {| Now := 0; TimeNow := 0;
     NewString := fun n => "uuid";
     LabelPairsString := fun ls =>
       fold_right (fun l s => Name l +:+ "=" +:+ Value l +:+ "," +:+ s) "" ls |}.

Definition world0 : World :=
  {| DiscardedProfiles := ∅; DiscardedBytes := ∅; uuids := 0 |}.

Definition context : Context := {| TenantID := Some "t1" |}.

(** A schedule for a push to three ingesters of three series each: the
    first push succeeds, the third fails, the second succeeds and brings
    every series to its second success, and the caller takes [done]. *)
Definition schedule : list Action :=
  [Advance 0 None; Advance 0 None; Advance 0 None; Advance 0 None;
   Advance 2 (Some (IngesterError "ingester-2"));
   Advance 2 None; Advance 2 None; Advance 2 None;
   Advance 1 None;
   Advance 1 None; Advance 1 None;
   Advance 1 None; Advance 1 None;
   Advance 1 None; Advance 1 None;
   Advance 1 None;
   SelectDone].

(** Limits with [MaxSessionsPerSeries] set to 0 for every tenant: session
    ids are dropped. *)
Definition limits0 : Limits :=
  {| MaxSessionsPerSeries := fun _ => 0;
     IngestionTenantShardSize := fun _ => 0;
     IngestionRateBytes := fun _ => 1000 |}.

(** A request without sample labels: a series with one profile, and a
    series without samples. *)
Definition plainRequest : distributormodel.PushRequest :=
  {| distributormodel.Series :=
       [{| distributormodel.SeriesLabels := seriesLabels;
           distributormodel.Samples := [rawSample plainProfile "b"] |};
        {| distributormodel.SeriesLabels := [label "__name__" "memory"];
           distributormodel.Samples := [] |}];
     distributormodel.RawProfileSize := 0;
     distributormodel.RawProfileType := distributormodel.RawProfileTypePPROF |}.

(** Sizes for the examples of [profileSizeBytes]: 10 bytes for each string
    of the string table and 16 for each sample. *)
Definition sizedOps : pprof.Ops :=
  {| pprof.Normalize := pprof.Normalize (Ops := ops);
     pprof.RenameLabel := pprof.RenameLabel (Ops := ops);
     pprof.GroupSamplesWithoutLabels := groupSamples;
     pprof.ExportSamples := pprof.ExportSamples (Ops := ops);
     pprof.SizeBytes p :=
       10 * GoInt.len (googlev1.StringTable p) +
       16 * GoInt.len (googlev1.ProfileSample p);
     pprof.SizeVT p :=
       10 * GoInt.len (googlev1.StringTable p) +
       16 * GoInt.len (googlev1.ProfileSample p);
     pprof.WriteTo p := Some [] |}.

(** A parser for the examples: the empty buffer is not a profile, any
    other buffer is [plainProfile]. *)
Definition decoder : RawDecoder :=
  {| RawFromBytes bytes :=
       match bytes with
       | [] => None
       | _ :: _ => Some plainProfile
       end |}.

(** A push of one series with two raw profiles, and the same push with an
    empty buffer in the place of the second. *)
Definition grpcRequest : pushv1.PushRequest :=
  {| pushv1.Series :=
       [{| pushv1.Labels := seriesLabels;
           pushv1.Samples :=
             [{| pushv1.RawProfile := [Byte.x01; Byte.x02]; pushv1.ID := "a" |};
              {| pushv1.RawProfile := [Byte.x03]; pushv1.ID := "b" |}] |}] |}.

Definition brokenRequest : pushv1.PushRequest :=
  {| pushv1.Series :=
       [{| pushv1.Labels := seriesLabels;
           pushv1.Samples :=
             [{| pushv1.RawProfile := [Byte.x01; Byte.x02]; pushv1.ID := "a" |};
              {| pushv1.RawProfile := []; pushv1.ID := "b" |}] |}] |}.

(** A context without a tenant. *)
Definition anonymous : Context := {| TenantID := None |}.

(** A request whose only series has no samples. *)
Definition emptyRequest : distributormodel.PushRequest :=
  {| distributormodel.Series :=
       [{| distributormodel.SeriesLabels := seriesLabels;
           distributormodel.Samples := [] |}];
     distributormodel.RawProfileSize := 0;
     distributormodel.RawProfileType := distributormodel.RawProfileTypePPROF |}.

(** A schedule under which every goroutine runs to its end while the
    caller still waits: the pushes of the example schedule, without the
    [select]. *)
Definition scheduleWaiting : list Action :=
  [Advance 0 None; Advance 0 None; Advance 0 None; Advance 0 None;
   Advance 2 (Some (IngesterError "ingester-2"));
   Advance 2 None; Advance 2 None; Advance 2 None;
   Advance 1 None;
   Advance 1 None; Advance 1 None;
   Advance 1 None; Advance 1 None;
   Advance 1 None; Advance 1 None;
   Advance 1 None].

(** A schedule under which two pushes fail: the first failure is within
    what the series tolerate, the second is not, and the caller takes
    [err]. *)
Definition scheduleFailing : list Action :=
  [Advance 0 (Some (IngesterError "ingester-3"));
   Advance 0 None; Advance 0 None; Advance 0 None;
   Advance 1 (Some (IngesterError "ingester-1"));
   Advance 1 None; Advance 1 None; Advance 1 None;
   SelectErr].

(** Validation that turns down profiles of more than 40 bytes. *)
Definition validationSized : validation.Ops :=
  {| validation.ValidateProfile := fun _ _ size _ _ =>
       if 40 <? size then Some "profile_size_limit" else None;
     validation.ValidateLabels := fun _ _ => None |}.


(** A request of two series and four profiles, the third of 48 bytes. *)
Definition oversizedRequest : distributormodel.PushRequest :=
  {| distributormodel.Series :=
       [{| distributormodel.SeriesLabels := seriesLabels;
           distributormodel.Samples := [rawSample plainProfile "a"] |};
        {| distributormodel.SeriesLabels :=
             [label "__name__" "memory"; label "service_name" "svc"];
           distributormodel.Samples :=
             [rawSample plainProfile "b"; rawSample regionProfile "c";
              rawSample plainProfile "d"] |}];
     distributormodel.RawProfileSize := 0;
     distributormodel.RawProfileType := distributormodel.RawProfileTypePPROF |}.

End Example.

(* ===================================================================== *)
(** * Properties *)
(* ===================================================================== *)

(** ** Integer conversions *)

Section GoIntFacts.

Lemma signed_small (w x : Z) :
  0 < w -> - 2 ^ (w - 1) <= x < 2 ^ (w - 1) -> GoInt.signed w x = x.
Proof.
  intros Hw Hx. unfold GoInt.signed.
  assert (E : 2 ^ w = 2 * 2 ^ (w - 1)).
  { replace w with (Z.succ (w - 1)) at 1 by lia. apply Z.pow_succ_r. lia. }
  rewrite Z.mod_small; lia.
Qed.

Lemma int_small (x : Z) : - 2 ^ 63 <= x < 2 ^ 63 -> GoInt.int x = x.
Proof. intros Hx. apply signed_small; [lia|]. exact Hx. Qed.

Lemma int32_small (x : Z) : - 2 ^ 31 <= x < 2 ^ 31 -> GoInt.int32 x = x.
Proof. intros Hx. apply signed_small; [lia|]. exact Hx. Qed.

Lemma int_high (x : Z) : 2 ^ 63 <= x < 2 ^ 64 -> GoInt.int x = x - 2 ^ 64.
Proof.
  intros Hx. unfold GoInt.int, GoInt.signed. change (64 - 1) with 63.
  replace (x + 2 ^ 63) with ((x - 2 ^ 63) + 1 * 2 ^ 64) by lia.
  rewrite Z.mod_add by lia. rewrite Z.mod_small; lia.
Qed.

(** Signed conversion is the identity modulo [2^w]. *)
Lemma signed_mod (w x : Z) : 0 < w -> GoInt.signed w x mod 2 ^ w = x mod 2 ^ w.
Proof.
  intros Hw. unfold GoInt.signed.
  assert (0 < 2 ^ w) by (apply Z.pow_pos_nonneg; lia).
  rewrite Zminus_mod_idemp_l.
  f_equal. lia.
Qed.

Lemma signed_congr (w x y : Z) :
  x mod 2 ^ w = y mod 2 ^ w -> GoInt.signed w x = GoInt.signed w y.
Proof.
  intros H. unfold GoInt.signed.
  rewrite <- (Zplus_mod_idemp_l x), <- (Zplus_mod_idemp_l y), H. reflexivity.
Qed.

Lemma signed_idem (w x : Z) :
  0 < w -> GoInt.signed w (GoInt.signed w x) = GoInt.signed w x.
Proof. intros Hw. apply signed_congr. now apply signed_mod. Qed.

Lemma signed_add_l (w a b : Z) :
  0 < w -> GoInt.signed w (GoInt.signed w a + b) = GoInt.signed w (a + b).
Proof.
  intros Hw. apply signed_congr.
  rewrite <- Zplus_mod_idemp_l, signed_mod by assumption.
  now rewrite Zplus_mod_idemp_l.
Qed.

Lemma signed_eqm (w x : Z) : 0 < w -> eqm (2 ^ w) (GoInt.signed w x) x.
Proof. intros Hw. now apply signed_mod. Qed.

Lemma signed_add_r (w a b : Z) :
  0 < w -> GoInt.signed w (a + GoInt.signed w b) = GoInt.signed w (a + b).
Proof.
  intros Hw. rewrite (Z.add_comm a), signed_add_l by assumption.
  now rewrite Z.add_comm.
Qed.

End GoIntFacts.

#[local] Existing Instances eqm_setoid Zplus_eqm Zminus_eqm.

(** Two 64-bit sums are equal when they are equal before the cuts. *)
Ltac solve_wrap :=
  unfold GoInt.int64, GoInt.int32, GoInt.int;
  apply signed_congr;
  match goal with |- ?a mod ?m = ?b mod ?m => change (eqm m a b) end;
  rewrite ?signed_eqm by lia;
  unfold eqm; f_equal; lia.

(** ** Tokens *)

Section TokenFacts.

Lemma bytes_app (s t : string) :
  fnv.bytes (s +:+ t) = fnv.bytes s ++ fnv.bytes t.
Proof.
  unfold fnv.bytes. induction s as [|c s IH]; [reflexivity|].
  change (String c s +:+ t) with (String c (s +:+ t)).
  unfold String.list_byte_of_string in *. cbn. now rewrite IH.
Qed.

Lemma Write_fnv1_from (h : Z) (data : list byte) :
  fnv.Write h data = fnv.fnv1_from h data.
Proof.
  unfold fnv.Write. revert h.
  induction data as [|c data IH]; intros h; [reflexivity|].
  cbn [fold_left fnv.fnv1_from]. apply IH.
Qed.

Lemma fnv1_from_app (h : Z) (d1 d2 : list byte) :
  fnv.fnv1_from h (d1 ++ d2) = fnv.fnv1_from (fnv.fnv1_from h d1) d2.
Proof.
  revert h. induction d1 as [|c d1 IH]; intros h; [reflexivity|].
  cbn. apply IH.
Qed.

(** Two writes are one write of the concatenation. *)
Lemma TokenFor_concat (tenantID labels : string) :
  TokenFor tenantID labels = fnv.FNV1_32 (fnv.bytes (tenantID +:+ labels)).
Proof.
  unfold TokenFor, fnv.FNV1_32, fnv.Sum32, fnv.New32.
  now rewrite bytes_app, fnv1_from_app, !Write_fnv1_from.
Qed.

Lemma fnv1_from_range (data : list byte) (h : Z) :
  0 <= h < 2 ^ 32 -> 0 <= fnv.fnv1_from h data < 2 ^ 32.
Proof.
  revert h. induction data as [|c data IH]; intros h Hh; [exact Hh|].
  cbn [fnv.fnv1_from]. apply IH.
  assert (Hm : 0 <= GoInt.uint32 (h * fnv.prime32) < 2 ^ 32)
    by (apply Z.mod_pos_bound; lia).
  assert (Hc : 0 <= fnv.byteval c < 2 ^ 8).
  { unfold fnv.byteval. pose proof (Byte.to_N_bounded c). lia. }
  split.
  - apply Z.lxor_nonneg. lia.
  - destruct (Z.eq_dec (Z.lxor (GoInt.uint32 (h * fnv.prime32)) (fnv.byteval c)) 0)
      as [->|Hne]; [lia|].
    apply Z.log2_lt_cancel. rewrite Z.log2_pow2 by lia.
    eapply Z.le_lt_trans; [apply Z.log2_lxor; lia|].
    apply Z.max_lub_lt.
    + destruct (Z.eq_dec (GoInt.uint32 (h * fnv.prime32)) 0) as [->|?];
        [cbn; lia|].
      apply Z.log2_lt_pow2; lia.
    + destruct (Z.eq_dec (fnv.byteval c) 0) as [->|?]; [cbn; lia|].
      assert (Z.log2 (fnv.byteval c) < 8) by (apply Z.log2_lt_pow2; lia).
      lia.
Qed.

End TokenFacts.

(** C3, as the code has it.  [TokenFor] is the 32-bit FNV-1 hash (multiply,
    then xor: [fnv.New32]) of the bytes of [tenantID] followed by the bytes of
    [labels]; the token fits 32 bits. *)
Theorem TokenFor_is_FNV1 (tenantID labels : string) :
  TokenFor tenantID labels = fnv.FNV1_32 (fnv.bytes tenantID ++ fnv.bytes labels)
  /\ 0 <= TokenFor tenantID labels < 2 ^ 32.
Proof.
  split.
  - rewrite TokenFor_concat. now rewrite bytes_app.
  - rewrite TokenFor_concat. apply fnv1_from_range. unfold fnv.offset32. lia.
Qed.

(** C3 as the spec words it fails: the token of tenant [a] with an empty
    label string is not the FNV-1a hash of the byte [a]. *)
Lemma TokenFor_not_FNV1a :
  TokenFor "a" "" <> fnv.FNV1a32 (fnv.bytes "a" ++ fnv.bytes "").
Proof. vm_compute. discriminate. Qed.

(** C4, as the code has it.  [TokenFor] is a function of the concatenation
    of tenant id and label string: inputs with the same concatenation have
    the same token (the converse fails, the hash has collisions). *)
Theorem TokenFor_equal_on_equal_strings (t1 l1 t2 l2 : string) :
  t1 +:+ l1 = t2 +:+ l2 -> TokenFor t1 l1 = TokenFor t2 l2.
Proof. intros H. now rewrite !TokenFor_concat, H. Qed.

Lemma TokenFor_equal_on_equal_strings_witness :
  "t1" +:+ "{}" = "t" +:+ "1{}" /\ TokenFor "t1" "{}" = TokenFor "t" "1{}".
Proof.
  split; [reflexivity|].
  apply (TokenFor_equal_on_equal_strings "t1" "{}" "t" "1{}"). reflexivity.
Defined.

(** C4 as the spec words it fails: two label sets of one tenant with
    different canonical strings and the same token. *)
Lemma TokenFor_collision :
  let a := one_label_string "service_name" "svc1162789" in
  let b := one_label_string "service_name" "svc1379192" in
  ~ (TokenFor "t1" a = TokenFor "t1" b <-> "t1" +:+ a = "t1" +:+ b).
Proof.
  intros a b [H _].
  assert (Ht : TokenFor "t1" a = TokenFor "t1" b) by (vm_compute; reflexivity).
  specialize (H Ht). vm_compute in H. discriminate H.
Qed.

(** ** The order on label names *)

Section NameOrder.

Lemma compare_refl (a : string) : String.compare a a = Eq.
Proof.
  pose proof (String.compare_antisym a a) as H.
  destruct (String.compare a a); [reflexivity|discriminate..].
Qed.

Lemma ltb_irrefl (a : string) : String.ltb a a = false.
Proof. unfold String.ltb. now rewrite compare_refl. Qed.

Lemma ltb_leb (a b : string) : String.ltb a b = true -> String.leb a b = true.
Proof. unfold String.ltb, String.leb. now destruct (String.compare a b). Qed.

Lemma ltb_false_leb (a b : string) :
  String.ltb a b = false <-> String.leb b a = true.
Proof.
  unfold String.ltb, String.leb. rewrite (String.compare_antisym a b).
  destruct (String.compare b a); cbn; split; congruence.
Qed.

Lemma ltb_asym (a b : string) : String.ltb a b = true -> String.ltb b a = false.
Proof. intros H. apply ltb_false_leb. now apply ltb_leb. Qed.

Lemma ltb_neq (a b : string) : String.ltb a b = true -> a <> b.
Proof. intros H ->. rewrite ltb_irrefl in H. discriminate. Qed.

Lemma ltb_total (a b : string) :
  String.ltb a b = false -> String.ltb b a = false -> a = b.
Proof.
  intros H1 H2. apply String.leb_antisym; now apply ltb_false_leb.
Qed.

Lemma leb_trans (a b c : string) :
  String.leb a b = true -> String.leb b c = true -> String.leb a c = true.
Proof.
  intros H1 H2. apply Is_true_true.
  change (String.le a c). transitivity b; apply Is_true_true; assumption.
Qed.

Lemma ltb_leb_trans (a b c : string) :
  String.ltb a b = true -> String.leb b c = true -> String.ltb a c = true.
Proof.
  intros H1 H2. destruct (String.ltb a c) eqn:E; [reflexivity|].
  apply ltb_false_leb in E.
  assert (b = a).
  { apply String.leb_antisym; [eapply leb_trans; eassumption|now apply ltb_leb]. }
  subst b. rewrite ltb_irrefl in H1. discriminate.
Qed.

Lemma ltb_trans (a b c : string) :
  String.ltb a b = true -> String.ltb b c = true -> String.ltb a c = true.
Proof. intros H1 H2. eapply ltb_leb_trans; [eassumption|now apply ltb_leb]. Qed.

End NameOrder.

(** ** Label lists *)

Section LabelFacts.

Implicit Types (ls : Labels) (l x y : LabelPair) (n : string).

Lemma Less_neq x y :
  phlaremodel.Less x y = true -> String.eqb (Name y) (Name x) = false.
Proof.
  intros H. apply String.eqb_neq. intros E.
  unfold phlaremodel.Less in H. rewrite E, ltb_irrefl in H. discriminate.
Qed.

Lemma Less_trans x y z :
  phlaremodel.Less x y = true -> phlaremodel.Less y z = true ->
  phlaremodel.Less x z = true.
Proof. unfold phlaremodel.Less. apply ltb_trans. Qed.

Lemma ordered_neq_Less x y :
  sort.ordered x y -> Name y <> Name x -> phlaremodel.Less x y = true.
Proof.
  unfold sort.ordered, phlaremodel.Less. intros H1 H2.
  destruct (String.ltb (Name x) (Name y)) eqn:E; [reflexivity|].
  exfalso. apply H2. now apply ltb_total.
Qed.

Lemma Clone_id ls : phlaremodel.Clone ls = ls.
Proof.
  induction ls as [|[n v] ls IH]; cbn; [reflexivity|].
  f_equal. exact IH.
Qed.

Lemma GetLabel_Some ls n l :
  phlaremodel.GetLabel ls n = Some l -> l ∈ ls /\ Name l = n.
Proof.
  induction ls as [|x ls IH]; cbn; [discriminate|].
  destruct (String.eqb (Name x) n) eqn:E.
  - intros [= ->]. split; [left|now apply String.eqb_eq].
  - intros H. destruct (IH H) as [? ?]. split; [now right|assumption].
Qed.

Lemma GetLabel_None ls n :
  phlaremodel.GetLabel ls n = None <-> (forall l, l ∈ ls -> Name l <> n).
Proof.
  induction ls as [|x ls IH]; cbn.
  - split; [intros _ l Hl; inversion Hl|reflexivity].
  - destruct (String.eqb (Name x) n) eqn:E.
    + apply String.eqb_eq in E. split; [discriminate|].
      intros H. exfalso. apply (H x); [left|assumption].
    + apply String.eqb_neq in E. rewrite IH. split.
      * intros H l Hl. inversion Hl; subst; [assumption|now apply H].
      * intros H l Hl. apply H. now right.
Qed.

Lemma GetLabel_app ls1 ls2 n :
  phlaremodel.GetLabel (ls1 ++ ls2) n =
  match phlaremodel.GetLabel ls1 n with
  | Some l => Some l
  | None => phlaremodel.GetLabel ls2 n
  end.
Proof.
  induction ls1 as [|x ls1 IH]; cbn; [reflexivity|].
  destruct (String.eqb (Name x) n); [reflexivity|exact IH].
Qed.

Lemma GetLabel_ascending ls l :
  ascending ls -> l ∈ ls -> phlaremodel.GetLabel ls (Name l) = Some l.
Proof.
  intros Hs. induction Hs as [|x ls Hs IH Hall]; intros Hl; [inversion Hl|].
  cbn. inversion Hl as [|? ? ? Hin]; subst.
  - now rewrite String.eqb_refl.
  - rewrite Forall_forall in Hall.
    rewrite String.eqb_sym, (Less_neq x l); [now apply IH|].
    now apply Hall.
Qed.

Lemma Get_GetLabel ls n :
  phlaremodel.Get ls n =
  match phlaremodel.GetLabel ls n with Some l => Value l | None => "" end.
Proof.
  induction ls as [|x ls IH]; cbn; [reflexivity|].
  destruct (String.eqb (Name x) n); [reflexivity|exact IH].
Qed.

(** *** The stable sort *)

Lemma insert_permutation x ls : Permutation (sort.insert x ls) (x :: ls).
Proof.
  induction ls as [|y ls IH]; cbn; [reflexivity|].
  destruct (phlaremodel.Less y x); [|reflexivity].
  rewrite IH. apply perm_swap.
Qed.

Lemma Stable_permutation ls : Permutation (sort.Stable ls) ls.
Proof.
  induction ls as [|x ls IH]; cbn; [reflexivity|].
  rewrite insert_permutation. now apply perm_skip.
Qed.

Lemma insert_ordered x ls :
  Sorted sort.ordered ls -> Sorted sort.ordered (sort.insert x ls).
Proof.
  induction ls as [|y ls IH]; cbn; intros Hs.
  - repeat constructor.
  - inversion Hs as [|? ? Hs' Hhd]; subst.
    destruct (phlaremodel.Less y x) eqn:E.
    + constructor; [now apply IH|].
      destruct ls as [|z ls]; cbn.
      * constructor. unfold sort.ordered, phlaremodel.Less in *.
        now apply ltb_asym.
      * destruct (phlaremodel.Less z x).
        -- inversion Hhd; subst. now constructor.
        -- constructor. unfold sort.ordered, phlaremodel.Less in *.
           now apply ltb_asym.
    + constructor; [assumption|]. constructor. exact E.
Qed.

Lemma Stable_ordered ls : Sorted sort.ordered (sort.Stable ls).
Proof.
  induction ls as [|x ls IH]; cbn; [constructor|]. now apply insert_ordered.
Qed.

Lemma GetLabel_insert x ls n :
  phlaremodel.GetLabel (sort.insert x ls) n =
  if String.eqb (Name x) n then Some x else phlaremodel.GetLabel ls n.
Proof.
  induction ls as [|y ls IH]; cbn; [reflexivity|].
  destruct (phlaremodel.Less y x) eqn:E; cbn; [|reflexivity].
  rewrite IH. destruct (String.eqb (Name y) n) eqn:Ey; [|reflexivity].
  apply String.eqb_eq in Ey. subst n. now rewrite (Less_neq y x).
Qed.

(** Stability: the first label of each name stays the first of that name. *)
Lemma GetLabel_Stable ls n :
  phlaremodel.GetLabel (sort.Stable ls) n = phlaremodel.GetLabel ls n.
Proof.
  induction ls as [|x ls IH]; cbn; [reflexivity|].
  rewrite GetLabel_insert. now rewrite IH.
Qed.

Lemma insert_ascending x ls :
  Forall (fun y => phlaremodel.Less x y = true) ls -> sort.insert x ls = x :: ls.
Proof.
  destruct ls as [|y ls]; cbn; [reflexivity|].
  intros H. inversion H as [|? ? Hy _]; subst.
  unfold phlaremodel.Less in *. now rewrite (ltb_asym _ _ Hy).
Qed.

Lemma Stable_ascending ls : ascending ls -> sort.Stable ls = ls.
Proof.
  intros Hs. induction Hs as [|x ls Hs IH Hall]; cbn; [reflexivity|].
  rewrite IH. now apply insert_ascending.
Qed.

End LabelFacts.

(** *** De-duplication *)

Section UniqueFacts.

Implicit Types (ls : Labels) (l x y last : LabelPair) (n : string).

Lemma GetLabel_unique_after last ls n :
  phlaremodel.GetLabel (last :: phlaremodel.unique_after last ls) n =
  phlaremodel.GetLabel (last :: ls) n.
Proof.
  revert last. induction ls as [|l ls IH]; intros last; [reflexivity|].
  cbn [phlaremodel.unique_after].
  destruct (String.eqb (Name l) (Name last)) eqn:E.
  - rewrite IH. cbn. apply String.eqb_eq in E. rewrite E.
    destruct (String.eqb (Name last) n); reflexivity.
  - specialize (IH l). cbn in *.
    destruct (String.eqb (Name last) n); [reflexivity|exact IH].
Qed.

(** Keeping the first occurrence: the first label of each name is the same
    before and after. *)
Lemma GetLabel_Unique ls n :
  phlaremodel.GetLabel (phlaremodel.Unique ls) n = phlaremodel.GetLabel ls n.
Proof. destruct ls as [|l ls]; [reflexivity|]. apply GetLabel_unique_after. Qed.

Lemma Sorted_skip_same last l ls :
  Name l = Name last ->
  Sorted sort.ordered (last :: l :: ls) -> Sorted sort.ordered (last :: ls).
Proof.
  intros E Hs. inversion Hs as [|? ? Hs' _]; subst.
  inversion Hs' as [|? ? Hs'' Hhd]; subst.
  constructor; [assumption|].
  destruct ls as [|z ls]; constructor.
  inversion Hhd as [|? ? Hord]; subst.
  unfold sort.ordered, phlaremodel.Less in *. now rewrite <- E.
Qed.

Lemma unique_after_HdRel last ls :
  Sorted sort.ordered (last :: ls) ->
  HdRel (fun a b => phlaremodel.Less a b = true) last
    (phlaremodel.unique_after last ls).
Proof.
  induction ls as [|l ls IH]; intros Hs; cbn; [constructor|].
  destruct (String.eqb (Name l) (Name last)) eqn:E.
  - apply IH. apply String.eqb_eq in E. eapply Sorted_skip_same; eassumption.
  - constructor. inversion Hs as [|? ? _ Hhd]; subst.
    inversion Hhd; subst. apply ordered_neq_Less; [assumption|].
    now apply String.eqb_neq.
Qed.

Lemma unique_after_Sorted last ls :
  Sorted sort.ordered (last :: ls) ->
  Sorted (fun a b => phlaremodel.Less a b = true)
    (last :: phlaremodel.unique_after last ls).
Proof.
  revert last. induction ls as [|l ls IH]; intros last Hs.
  - cbn. repeat constructor.
  - constructor; [|now apply unique_after_HdRel].
    cbn. destruct (String.eqb (Name l) (Name last)) eqn:E.
    + apply String.eqb_eq in E.
      pose proof (IH last (Sorted_skip_same _ _ _ E Hs)) as H.
      now inversion H.
    + apply IH. now inversion Hs.
Qed.

Lemma Unique_ascending ls :
  Sorted sort.ordered ls -> ascending (phlaremodel.Unique ls).
Proof.
  intros Hs. apply Sorted_StronglySorted.
  - intros x y z. apply Less_trans.
  - destruct ls as [|l ls]; [constructor|]. now apply unique_after_Sorted.
Qed.

Lemma unique_after_ascending last ls :
  ascending (last :: ls) -> phlaremodel.unique_after last ls = ls.
Proof.
  revert last. induction ls as [|l ls IH]; intros last Hs; [reflexivity|].
  inversion Hs as [|? ? Hs' Hall]; subst. inversion Hall; subst.
  cbn. rewrite (Less_neq last l) by assumption. f_equal. now apply IH.
Qed.

Lemma Unique_ascending_id ls : ascending ls -> phlaremodel.Unique ls = ls.
Proof.
  destruct ls as [|l ls]; [reflexivity|]. intros Hs. cbn. f_equal.
  now apply unique_after_ascending.
Qed.

Lemma appendResolved_mapM p m pl :
  appendResolved p m pl = (fun r => m ++ r) <$> mapM (resolveLabel p) pl.
Proof.
  revert m. induction pl as [|l pl IH]; intros m; cbn.
  - now rewrite app_nil_r.
  - destruct (resolveLabel p l) as [lp|]; cbn; [|reflexivity].
    rewrite IH. destruct (mapM (resolveLabel p) pl); cbn; [|reflexivity].
    now rewrite <- app_assoc.
Qed.

End UniqueFacts.

(** C7.  With [sl] sorted by name without a name twice, and the sample
    labels [pl] resolved through the string table of the profile,
    [mergeSeriesAndSampleLabels] returns a list that is sorted ascending by
    name without a name twice, whose label of each name is the first label
    of that name in [sl] followed by the resolved [pl] (the stable sort and
    the de-duplication keep the first occurrence): every series label is
    kept, a sample label is kept only under a name no series label has, and
    every sample label name is present.  Without sample labels the result
    is [sl]. *)
Theorem mergeSeriesAndSampleLabels_series_first
    (p : googlev1.Profile) (sl : Labels) (pl : list googlev1.Label) :
  ascending sl ->
  Forall (fun l => is_Some (resolveLabel p l)) pl ->
  exists resolved m,
    mapM (resolveLabel p) pl = Some resolved /\
    mergeSeriesAndSampleLabels p sl pl = Some m /\
    m = phlaremodel.Unique (sort.Stable (sl ++ resolved)) /\
    ascending m /\
    (forall n, phlaremodel.GetLabel m n =
               phlaremodel.GetLabel (sl ++ resolved) n) /\
    (forall l, l ∈ sl -> l ∈ m) /\
    (forall l, l ∈ m ->
       l ∈ sl \/ (l ∈ resolved /\ phlaremodel.GetLabel sl (Name l) = None)) /\
    (forall l, l ∈ resolved -> exists l', l' ∈ m /\ Name l' = Name l) /\
    (pl = [] -> m = sl).
Proof.
  intros Hsl Hres.
  assert (Hmap : exists resolved, mapM (resolveLabel p) pl = Some resolved).
  { apply mapM_is_Some. exact Hres. }
  destruct Hmap as [resolved Hmap].
  exists resolved, (phlaremodel.Unique (sort.Stable (sl ++ resolved))).
  assert (Hget : forall n,
    phlaremodel.GetLabel (phlaremodel.Unique (sort.Stable (sl ++ resolved))) n =
    phlaremodel.GetLabel (sl ++ resolved) n).
  { intros n. now rewrite GetLabel_Unique, GetLabel_Stable. }
  assert (Hasc : ascending (phlaremodel.Unique (sort.Stable (sl ++ resolved)))).
  { apply Unique_ascending, Stable_ordered. }
  split; [exact Hmap|]. split.
  { unfold mergeSeriesAndSampleLabels.
    rewrite appendResolved_mapM, Hmap, Clone_id. reflexivity. }
  split; [reflexivity|]. split; [exact Hasc|]. split; [exact Hget|].
  split; [|split; [|split]].
  - intros l Hl.
    assert (H : phlaremodel.GetLabel (sl ++ resolved) (Name l) = Some l).
    { rewrite GetLabel_app, (GetLabel_ascending sl l Hsl Hl). reflexivity. }
    rewrite <- Hget in H. now apply GetLabel_Some in H.
  - intros l Hl. pose proof (GetLabel_ascending _ l Hasc Hl) as H.
    rewrite Hget, GetLabel_app in H.
    destruct (phlaremodel.GetLabel sl (Name l)) as [l0|] eqn:E.
    + injection H as ->. left. now apply GetLabel_Some in E.
    + right. split; [now apply GetLabel_Some in H|reflexivity].
  - intros l Hl.
    destruct (phlaremodel.GetLabel (sl ++ resolved) (Name l)) as [l'|] eqn:E.
    + exists l'. rewrite <- Hget in E. now apply GetLabel_Some in E.
    + exfalso. rewrite GetLabel_None in E. apply (E l); [|reflexivity].
      apply elem_of_app. now right.
  - intros ->. cbn in Hmap. injection Hmap as <-. rewrite app_nil_r.
    rewrite (Stable_ascending sl Hsl). now apply Unique_ascending_id.
Qed.

Lemma mergeSeriesAndSampleLabels_series_first_witness :
  ascending Example.seriesLabels /\
  Forall (fun l => is_Some (resolveLabel Example.profile l)) Example.sampleLabels /\
  mergeSeriesAndSampleLabels Example.profile Example.seriesLabels
    Example.sampleLabels =
  Some [Example.label "__name__" "cpu"; Example.label "service_name" "svc";
        Example.label "span_name" "render"].
Proof.
  assert (H1 : ascending Example.seriesLabels).
  { repeat constructor. }
  assert (H2 : Forall (fun l => is_Some (resolveLabel Example.profile l))
                 Example.sampleLabels).
  { repeat constructor; eexists; reflexivity. }
  split; [exact H1|]. split; [exact H2|].
  destruct (mergeSeriesAndSampleLabels_series_first
              Example.profile Example.seriesLabels Example.sampleLabels H1 H2)
    as (resolved & m & Hmap & Hm & Heq & _).
  rewrite Hm, Heq. vm_compute in Hmap. injection Hmap as <-. reflexivity.
Defined.

(** ** Session limits *)

Section SessionFacts.

Context {L : Limits} {C : phlaremodel.SessionIDCodec}.

Implicit Types (ls labels : Labels) (l x : LabelPair) (n : string).

Lemma elem_of_Delete ls n x :
  x ∈ phlaremodel.Delete ls n <-> x ∈ ls /\ Name x <> n.
Proof.
  unfold phlaremodel.Delete. rewrite !list_elem_of_In, filter_In.
  rewrite negb_true_iff, String.eqb_neq. reflexivity.
Qed.

Lemma GetLabel_Delete ls n : phlaremodel.GetLabel (phlaremodel.Delete ls n) n = None.
Proof. apply GetLabel_None. intros l Hl. now apply elem_of_Delete in Hl. Qed.

Lemma GetLabel_Delete_ne ls n m :
  m <> n ->
  phlaremodel.GetLabel (phlaremodel.Delete ls n) m = phlaremodel.GetLabel ls m.
Proof.
  intros Hne. induction ls as [|x ls IH]; cbn; [reflexivity|].
  destruct (String.eqb (Name x) n) eqn:E; cbn.
  - apply String.eqb_eq in E. subst n.
    rewrite (proj2 (String.eqb_neq (Name x) m)) by congruence. exact IH.
  - destruct (String.eqb (Name x) m); [reflexivity|exact IH].
Qed.

Lemma Delete_sublist ls n : sublist (phlaremodel.Delete ls n) ls.
Proof.
  induction ls as [|x ls IH]; cbn; [constructor|].
  destruct (negb (String.eqb (Name x) n)); now constructor.
Qed.

(** With the limit at zero the session id label is stripped. *)
Lemma limitMaxSessionsPerSeries_zero tenantID labels :
  MaxSessionsPerSeries tenantID = 0 ->
  limitMaxSessionsPerSeries tenantID labels =
  phlaremodel.Delete labels phlaremodel.LabelNameSessionID.
Proof. unfold limitMaxSessionsPerSeries. now intros ->. Qed.

(** What the code writes into the label for a session id that parses. *)
Lemma limitMaxSessionsPerSeries_parsed tenantID labels l v :
  MaxSessionsPerSeries tenantID <> 0 ->
  phlaremodel.GetLabel labels phlaremodel.LabelNameSessionID = Some l ->
  phlaremodel.ParseSessionID (Value l) = Some v ->
  limitMaxSessionsPerSeries tenantID labels =
  phlaremodel.setValue labels phlaremodel.LabelNameSessionID
    (phlaremodel.SessionID_String
       (GoInt.uint64 (GoInt.rem (GoInt.int v) (MaxSessionsPerSeries tenantID)))).
Proof.
  intros Hn Hl Hv. unfold limitMaxSessionsPerSeries.
  rewrite (proj2 (Z.eqb_neq _ _) Hn), Hl, Hv. reflexivity.
Qed.

(** Below [2^63] the conversion to [int] keeps the id and the reduction is
    the residue modulo the limit. *)
Lemma reduce_session_low v N :
  0 < N -> 0 <= v < 2 ^ 63 ->
  GoInt.uint64 (GoInt.rem (GoInt.int v) N) = v mod N.
Proof.
  intros HN Hv. rewrite int_small by lia. unfold GoInt.rem.
  rewrite Z.rem_mod_nonneg by lia.
  pose proof (Z.mod_pos_bound v N HN).
  pose proof (Z.mod_le v N ltac:(lia) HN).
  unfold GoInt.uint64, GoInt.unsigned. apply Z.mod_small. lia.
Qed.

(** From [2^63] on the conversion to [int] is negative and so is the
    remainder: the id written back is not the residue. *)
Lemma reduce_session_high v N :
  0 < N < 2 ^ 63 -> 2 ^ 63 <= v < 2 ^ 64 ->
  GoInt.rem (GoInt.int v) N <> 0 ->
  2 ^ 64 - N < GoInt.uint64 (GoInt.rem (GoInt.int v) N) < 2 ^ 64.
Proof.
  intros HN Hv. rewrite int_high by lia. unfold GoInt.rem. intros Hr.
  assert (Hb : - N < Z.rem (v - 2 ^ 64) N <= 0).
  { replace (v - 2 ^ 64) with (- (2 ^ 64 - v)) in * by lia.
    rewrite Z.rem_opp_l in * by lia.
    pose proof (Z.rem_bound_pos (2 ^ 64 - v) N ltac:(lia) ltac:(lia)). lia. }
  unfold GoInt.uint64, GoInt.unsigned.
  replace (Z.rem (v - 2 ^ 64) N)
    with ((Z.rem (v - 2 ^ 64) N + 2 ^ 64) + (-1) * 2 ^ 64) by lia.
  rewrite Z.mod_add by lia. rewrite Z.mod_small; lia.
Qed.

End SessionFacts.

(** C9, on session ids from [2^63] on.  With [MaxSessionsPerSeries] 8, the
    label [session_id=ffffffffffffffff] (the id [2^64-1], residue 7) is
    left as it is: [int(sessionID)] is [-1], [-1 % 8] is [-1], and
    [SessionID(-1)] is [2^64-1] again. *)
Theorem limitMaxSessionsPerSeries_high_id_not_reduced :
  let L := Example.limits8 in
  let C := SessionHex.codec in
  phlaremodel.ParseSessionID "ffffffffffffffff" = Some (2 ^ 64 - 1) /\
  phlaremodel.SessionID_String ((2 ^ 64 - 1) mod 8) = "0000000000000007" /\
  limitMaxSessionsPerSeries "t1"
    [Example.label "session_id" "ffffffffffffffff"] =
  [Example.label "session_id" "ffffffffffffffff"].
Proof. vm_compute. repeat split; reflexivity. Qed.

(** C10.  When the limit is not zero and the value of the session id label
    does not parse, [limitMaxSessionsPerSeries] returns the labels without
    the session id label: no label of that name is left, and the labels of
    every other name are the labels given, in their order. *)
Theorem limitMaxSessionsPerSeries_unparsable_deleted
    {L : Limits} {C : phlaremodel.SessionIDCodec}
    (tenantID : string) (labels : Labels) (l : LabelPair) :
  MaxSessionsPerSeries tenantID <> 0 ->
  phlaremodel.GetLabel labels phlaremodel.LabelNameSessionID = Some l ->
  phlaremodel.ParseSessionID (Value l) = None ->
  let r := limitMaxSessionsPerSeries tenantID labels in
  r = phlaremodel.Delete labels phlaremodel.LabelNameSessionID /\
  phlaremodel.GetLabel r phlaremodel.LabelNameSessionID = None /\
  (forall x, x ∈ r <-> x ∈ labels /\ Name x <> phlaremodel.LabelNameSessionID) /\
  (forall n, n <> phlaremodel.LabelNameSessionID ->
     phlaremodel.GetLabel r n = phlaremodel.GetLabel labels n) /\
  sublist r labels.
Proof.
  intros Hn Hl Hv r.
  assert (Hr : r = phlaremodel.Delete labels phlaremodel.LabelNameSessionID).
  { unfold r, limitMaxSessionsPerSeries.
    rewrite (proj2 (Z.eqb_neq _ _) Hn), Hl, Hv. reflexivity. }
  rewrite Hr. split; [reflexivity|]. split; [apply GetLabel_Delete|].
  split; [intros x; apply elem_of_Delete|].
  split; [intros n Hne; now apply GetLabel_Delete_ne|apply Delete_sublist].
Qed.

Lemma limitMaxSessionsPerSeries_unparsable_deleted_witness :
  let L := Example.limits8 in
  let C := SessionHex.codec in
  let labels := [Example.label "__name__" "cpu";
                 Example.label "session_id" "not-a-session-id";
                 Example.label "service_name" "svc"] in
  MaxSessionsPerSeries "t1" <> 0 /\
  phlaremodel.GetLabel labels phlaremodel.LabelNameSessionID =
    Some (Example.label "session_id" "not-a-session-id") /\
  phlaremodel.ParseSessionID "not-a-session-id" = None /\
  limitMaxSessionsPerSeries "t1" labels =
    [Example.label "__name__" "cpu"; Example.label "service_name" "svc"].
Proof.
  intros L C labels.
  assert (H1 : MaxSessionsPerSeries "t1" <> 0) by (cbn; lia).
  assert (H2 : phlaremodel.GetLabel labels phlaremodel.LabelNameSessionID =
               Some (Example.label "session_id" "not-a-session-id"))
    by reflexivity.
  assert (H3 : phlaremodel.ParseSessionID "not-a-session-id" = None)
    by reflexivity.
  split; [exact H1|]. split; [exact H2|]. split; [exact H3|].
  destruct (limitMaxSessionsPerSeries_unparsable_deleted "t1" labels _ H1 H2 H3)
    as [Hr _].
  rewrite Hr. reflexivity.
Defined.

(** The spec's example of the reduction: the id 42 under a limit of 8
    becomes the id 2, in the same sixteen digits. *)
Example limitMaxSessionsPerSeries_42_mod_8 :
  let L := Example.limits8 in
  let C := SessionHex.codec in
  limitMaxSessionsPerSeries "t1"
    [Example.label "service_name" "svc";
     Example.label "session_id" "000000000000002a"] =
  [Example.label "service_name" "svc";
   Example.label "session_id" "0000000000000002"].
Proof. vm_compute. reflexivity. Qed.

(** ** Label normalisation *)

Section NormalizeFacts.

Implicit Types (ls labels : Labels) (l x : LabelPair) (n : string).

Lemma Sorted_ordered_NoDup_ascending ls :
  Sorted sort.ordered ls -> NoDup (Name <$> ls) -> ascending ls.
Proof.
  intros Hs Hnd. apply Sorted_StronglySorted; [intros x y z; apply Less_trans|].
  induction Hs as [|x ls Hs IH Hhd]; [constructor|].
  cbn in Hnd. apply NoDup_cons in Hnd as [Hx Hnd].
  constructor; [now apply IH|].
  destruct Hhd as [|y ls' Hord]; constructor.
  apply ordered_neq_Less; [assumption|].
  intros E. apply Hx. rewrite <- E. cbn. left.
Qed.

Lemma ascending_NoDup ls : ascending ls -> NoDup (Name <$> ls).
Proof.
  intros Hs. induction Hs as [|x ls Hs IH Hall]; cbn; [constructor|].
  apply NoDup_cons. split; [|exact IH].
  intros Hin. apply list_elem_of_fmap in Hin as (y & E & Hy).
  rewrite Forall_forall in Hall. specialize (Hall y Hy).
  apply Less_neq in Hall. apply String.eqb_neq in Hall. congruence.
Qed.

Lemma GetLabel_not_named ls n :
  n ∉ (Name <$> ls) <-> phlaremodel.GetLabel ls n = None.
Proof.
  rewrite GetLabel_None. split.
  - intros H l Hl E. apply H. rewrite <- E. now apply list_elem_of_fmap_2.
  - intros H Hin. apply list_elem_of_fmap in Hin as (y & E & Hy).
    now apply (H y Hy).
Qed.

(** Two sorted permutations of labels with distinct names are the same
    list: on such labels every sort is the stable sort. *)
Lemma ascending_permutation_unique ls1 ls2 :
  ascending ls1 -> ascending ls2 -> Permutation ls1 ls2 -> ls1 = ls2.
Proof.
  intros H1. revert ls2. induction H1 as [|x ls1 H1 IH Hall1]; intros ls2 H2 Hp.
  - apply Permutation_nil in Hp. now subst.
  - destruct H2 as [|y ls2 H2 Hall2].
    + symmetry in Hp. apply Permutation_nil in Hp. discriminate.
    + rewrite Forall_forall in Hall1, Hall2.
      assert (Hxy : x = y).
      { assert (Hx : x ∈ y :: ls2) by (rewrite <- Hp; left).
        assert (Hy : y ∈ x :: ls1) by (rewrite Hp; left).
        apply elem_of_cons in Hx as [?|Hx]; [assumption|].
        apply elem_of_cons in Hy as [?|Hy]; [congruence|].
        specialize (Hall1 y Hy). specialize (Hall2 x Hx).
        unfold phlaremodel.Less in *. rewrite (ltb_asym _ _ Hall1) in Hall2.
        discriminate. }
      subst y. f_equal. apply IH; [assumption|].
      now apply Permutation_cons_inv in Hp.
Qed.

End NormalizeFacts.

(** C8.  A series whose label names are distinct and whose [service_name]
    label, if it has one, has a value: after the normalisation loop of
    [PushParsed], with any [sort.Sort] that returns a sorted permutation,
    its labels are sorted ascending by name, no name occurs
    twice, and there is a [service_name] label with a value; when the input
    had no [service_name] label the labels are those of the input and
    [service_name=unspecified], and otherwise they are those of the
    input. *)
Theorem normalizeLabels_sorted_unique_service_name
    {S : sort.Sorter} (labels : Labels) :
  sort.sorts S ->
  NoDup (Name <$> labels) ->
  (forall l, l ∈ labels -> Name l = phlaremodel.LabelNameServiceName ->
             Value l <> "") ->
  let r := normalizeLabels labels in
  ascending r /\
  NoDup (Name <$> r) /\
  phlaremodel.Get r phlaremodel.LabelNameServiceName <> "" /\
  (phlaremodel.LabelNameServiceName ∉ (Name <$> labels) ->
     phlaremodel.Get r phlaremodel.LabelNameServiceName = "unspecified" /\
     Permutation r
       (labels ++ [{| Name := phlaremodel.LabelNameServiceName;
                      Value := "unspecified" |}])) /\
  (phlaremodel.LabelNameServiceName ∈ (Name <$> labels) -> Permutation r labels).
Proof.
  intros Hsort Hnd Hval r.
  set (svc := {| Name := phlaremodel.LabelNameServiceName; Value := "unspecified" |}).
  assert (Hcase :
    ((phlaremodel.LabelNameServiceName ∉ (Name <$> labels)) /\
     r = sort.Sort (labels ++ [svc])) \/
    (exists l, l ∈ labels /\ Name l = phlaremodel.LabelNameServiceName /\
               Value l <> "" /\ r = sort.Sort labels)).
  { unfold r, normalizeLabels. rewrite Get_GetLabel.
    destruct (phlaremodel.GetLabel labels phlaremodel.LabelNameServiceName)
      as [l|] eqn:E.
    - right. apply GetLabel_Some in E as [Hl Hn]. exists l.
      pose proof (Hval l Hl Hn) as Hv.
      rewrite (proj2 (String.eqb_neq _ _) Hv). auto.
    - left. split; [now apply GetLabel_not_named|reflexivity]. }
  assert (Hget : forall ls l, ascending ls -> l ∈ ls ->
            phlaremodel.Get ls (Name l) = Value l).
  { intros ls l Hs Hl. now rewrite Get_GetLabel, (GetLabel_ascending ls l Hs Hl). }
  destruct Hcase as [[Hno ->]|(l & Hl & Hn & Hv & ->)].
  - assert (Hnd' : NoDup (Name <$> (labels ++ [svc]))).
    { rewrite fmap_app. apply NoDup_app. split; [assumption|]. split.
      - intros x Hx Hin. cbn in Hin. apply list_elem_of_singleton in Hin.
        subst x. contradiction.
      - cbn. apply NoDup_singleton. }
    destruct (Hsort (labels ++ [svc])) as [Hp Hord].
    assert (Hnd'' : NoDup (Name <$> sort.Sort (labels ++ [svc]))).
    { now rewrite Hp. }
    assert (Hasc : ascending (sort.Sort (labels ++ [svc]))).
    { now apply Sorted_ordered_NoDup_ascending. }
    assert (Hsvc : phlaremodel.Get (sort.Sort (labels ++ [svc]))
                     phlaremodel.LabelNameServiceName = "unspecified").
    { apply (Hget _ svc Hasc). rewrite Hp. apply elem_of_app. right. left. }
    split; [assumption|]. split; [assumption|]. split.
    { rewrite Hsvc. discriminate. }
    split; [auto|]. intros Hin. contradiction.
  - destruct (Hsort labels) as [Hp Hord].
    assert (Hnd'' : NoDup (Name <$> sort.Sort labels)) by now rewrite Hp.
    assert (Hasc : ascending (sort.Sort labels)).
    { now apply Sorted_ordered_NoDup_ascending. }
    split; [assumption|]. split; [assumption|]. split.
    { rewrite <- Hn, (Hget _ l Hasc); [assumption|]. now rewrite Hp. }
    split; [|auto]. intros Hno. exfalso. apply Hno. rewrite <- Hn.
    now apply list_elem_of_fmap_2.
Qed.

(** The spec's example: [__name__=cpu] alone becomes [__name__=cpu],
    [service_name=unspecified], whichever sort is used. *)
Lemma normalizeLabels_sorted_unique_service_name_witness :
  let S := sort.stableSorter in
  let labels := [Example.label "__name__" "cpu"] in
  sort.sorts S /\
  NoDup (Name <$> labels) /\
  (forall l, l ∈ labels -> Name l = phlaremodel.LabelNameServiceName ->
             Value l <> "") /\
  normalizeLabels labels =
    [Example.label "__name__" "cpu"; Example.label "service_name" "unspecified"].
Proof.
  intros S labels.
  assert (H0 : sort.sorts S).
  { intros ls. split; [apply Stable_permutation|apply Stable_ordered]. }
  assert (H1 : NoDup (Name <$> labels)).
  { cbn. apply NoDup_singleton. }
  assert (H2 : forall l, l ∈ labels ->
             Name l = phlaremodel.LabelNameServiceName -> Value l <> "").
  { intros l Hl. apply list_elem_of_singleton in Hl. subst l. discriminate. }
  split; [exact H0|]. split; [exact H1|]. split; [exact H2|].
  destruct (normalizeLabels_sorted_unique_service_name labels H0 H1 H2)
    as (Hasc & _ & _ & Hnew & _).
  apply ascending_permutation_unique.
  - exact Hasc.
  - repeat constructor.
  - apply Hnew. cbn. intros Hin. apply list_elem_of_singleton in Hin.
    discriminate.
Defined.

(** ** Splitting profiles by sample labels *)

Section SplitFacts.

Context {P : pprof.Ops}.








End SplitFacts.

Section SplitTotal.

Context {P : pprof.Ops}.





End SplitTotal.


(** *** The example grouping meets the contracts *)

Section ExampleOps.




End ExampleOps.


(** The split of the example request: the labelled profile gives a series
    per region, the unlabelled profile stays in the series it came in. *)
Example extractSampleSeries_example :
  let P := Example.ops in
  exists out newProfiles,
    extractSampleSeries Example.request = Some (out, newProfiles) /\
    List.map distributormodel.SeriesLabels out =
      [ [Example.label "__name__" "cpu"; Example.label "region" "eu";
         Example.label "service_name" "svc"];
        [Example.label "__name__" "cpu"; Example.label "region" "us";
         Example.label "service_name" "svc"];
        Example.seriesLabels ] /\
    List.map (fun s => samplesOf (distributormodel.Samples s)) out = [2; 1; 2]%nat.
Proof. intros P. eexists _, _. split; [vm_compute; reflexivity|]. split; reflexivity. Qed.

(** ** The push path up to the rate-limit gate *)

Section MonadFacts.

Lemma trace_bind {A B : Type} (m : M A) (k : A -> M B) (w : World) :
  trace ((m ≫= k) w) =
  trace (m w) ++
  match result (m w) with
  | Done a => trace (k a (world (m w)))
  | _ => []
  end.
Proof.
  unfold mbind, M_bind, bind.
  destruct (result (m w)); cbn; now rewrite ?app_nil_r.
Qed.

Lemma result_bind {A B : Type} (m : M A) (k : A -> M B) (w : World) :
  result ((m ≫= k) w) =
  match result (m w) with
  | Done a => result (k a (world (m w)))
  | Failed e => Failed e
  | Panicked => Panicked
  end.
Proof. unfold mbind, M_bind, bind. now destruct (result (m w)). Qed.

Lemma world_bind {A B : Type} (m : M A) (k : A -> M B) (w : World) :
  world ((m ≫= k) w) =
  match result (m w) with
  | Done a => world (k a (world (m w)))
  | _ => world (m w)
  end.
Proof. unfold mbind, M_bind, bind. now destruct (result (m w)). Qed.

Lemma silent_bind {A B : Type} (m : M A) (k : A -> M B) :
  silent m -> (forall a, silent (k a)) -> silent (m ≫= k).
Proof.
  intros Hm Hk w. rewrite trace_bind, Hm. cbn.
  destruct (result (m w)); [apply Hk|reflexivity..].
Qed.

Lemma silent_ret {A : Type} (a : A) : silent (mret a).
Proof. intros w. reflexivity. Qed.

Lemma silent_fail {A : Type} (e : PushError) : silent (@fail A e).
Proof. intros w. reflexivity. Qed.

Lemma silent_discard reason tenantID totalProfiles totalBytes :
  silent (discard reason tenantID totalProfiles totalBytes).
Proof. intros w. reflexivity. Qed.

End MonadFacts.

Section GateFacts.

Context {L : Limits} {C : phlaremodel.SessionIDCodec} {Srt : sort.Sorter}
        {P : pprof.Ops} {V : validation.Ops} {R : limiter.RateLimiter}
        {G : ring.ReadRing} {E : Environment}.

Lemma addLabelSizes_sum labels total :
  GoInt.int64 total = total ->
  addLabelSizes labels total = GoInt.int64 (total + labelBytes labels).
Proof.
  unfold addLabelSizes. revert total.
  induction labels as [|lbs labels IH]; intros total Hfit; cbn.
  - now rewrite Z.add_0_r.
  - rewrite IH by (apply signed_idem; lia). unfold labelBytes. solve_wrap.
Qed.

Lemma measureSamples_silent tenantID have labels samples tb tp :
  silent (measureSamples tenantID have labels samples tb tp).
Proof.
  revert tb tp. induction samples as [|raw samples IH]; intros tb tp; cbn.
  - apply silent_ret.
  - destruct (validation.ValidateProfile _ _ _ _ _); [|apply IH].
    apply silent_bind; [apply silent_discard|intros _; apply silent_fail].
Qed.

Lemma measureSeries_silent tenantID have series tb tp :
  silent (measureSeries tenantID have series tb tp).
Proof.
  revert tb tp. induction series as [|sr series IH]; intros tb tp; cbn.
  - apply silent_ret.
  - apply silent_bind; [apply measureSamples_silent|]. intros totals.
    apply silent_bind; [apply IH|]. intros rest. apply silent_ret.
Qed.

Lemma measureSamples_Done tenantID have labels samples tb tp w tb' tp' :
  GoInt.int64 tb = tb -> GoInt.int64 tp = tp ->
  result (measureSamples tenantID have labels samples tb tp w) = Done (tb', tp') ->
  world (measureSamples tenantID have labels samples tb tp w) = w /\
  tb' = GoInt.int64 (tb + profileBytes have samples) /\
  tp' = GoInt.int64 (tp + GoInt.len samples).
Proof.
  revert tb tp. induction samples as [|raw samples IH]; intros tb tp Hb Hp; cbn.
  - intros [= <- <-]. rewrite !Z.add_0_r. auto.
  - destruct (validation.ValidateProfile _ _ _ _ _).
    + rewrite result_bind. cbn. discriminate.
    + intros H. apply IH in H as (Hw & -> & ->); try (apply signed_idem; lia).
      split; [exact Hw|]. unfold GoInt.len, profileBytes. cbn [length].
      split; solve_wrap.
Qed.

Lemma measureSeries_Done tenantID have series tb tp w measured :
  GoInt.int64 tb = tb -> GoInt.int64 tp = tp ->
  result (measureSeries tenantID have series tb tp w) = Done measured ->
  world (measureSeries tenantID have series tb tp w) = w /\
  measured.2.1 = GoInt.int64 (tb + bytesOf have series) /\
  measured.2.2 = GoInt.int64 (tp + profilesOf series).
Proof.
  revert tb tp w measured.
  induction series as [|sr series IH]; intros tb tp w measured Hb Hp; cbn.
  - intros [= <-]. cbn. rewrite !Z.add_0_r. auto.
  - rewrite result_bind, world_bind.
    destruct (result (measureSamples _ _ _ _ _ _ w)) as [[tb1 tp1]| |] eqn:E1;
      [|discriminate..].
    apply measureSamples_Done in E1 as (Hw1 & -> & ->);
      [|rewrite addLabelSizes_sum by assumption; apply signed_idem; lia|assumption].
    rewrite Hw1, result_bind, world_bind. cbn [fst snd].
    destruct (result (measureSeries _ _ series _ _ w)) as [rest| |] eqn:E2;
      [|discriminate..].
    apply IH in E2 as (Hw2 & Hb2 & Hp2); try (apply signed_idem; lia).
    cbn. intros [= <-]. cbn [fst snd]. rewrite Hw2, Hb2, Hp2.
    split; [reflexivity|].
    rewrite addLabelSizes_sum by assumption.
    unfold bytesOf, profilesOf. split; solve_wrap.
Qed.

End GateFacts.

Section AfterGate.

Context {L : Limits} {C : phlaremodel.SessionIDCodec} {Srt : sort.Sorter}
        {P : pprof.Ops} {V : validation.Ops} {R : limiter.RateLimiter}
        {G : ring.ReadRing} {E : Environment}.

Lemma tokens_silent tenantID tb tp profileSeries :
  silent (tokens tenantID tb tp profileSeries).
Proof.
  induction profileSeries as [|series rest IH]; cbn; [apply silent_ret|].
  destruct (validation.ValidateLabels _ _).
  - apply silent_bind; [apply silent_discard|intros _; apply silent_fail].
  - apply silent_bind; [exact IH|intros keys; apply silent_ret].
Qed.

Lemma rewriteSamples_silent samples : silent (rewriteSamples samples).
Proof.
  induction samples as [|raw samples IH]; cbn; [apply silent_ret|].
  destruct (pprof.WriteTo _); [|apply silent_fail].
  apply silent_bind; [intros w; reflexivity|]. intros id.
  apply silent_bind; [exact IH|intros rest; apply silent_ret].
Qed.

Lemma newTrackers_silent profileSeries : silent (newTrackers profileSeries).
Proof.
  induction profileSeries as [|series rest IH]; cbn; [apply silent_ret|].
  apply silent_bind; [apply rewriteSamples_silent|]. intros samples.
  apply silent_bind; [exact IH|intros profiles; apply silent_ret].
Qed.

Lemma shardSelect_silent tenantID i keys profiles maps :
  silent (shardSelect tenantID i keys profiles maps).
Proof.
  revert i profiles maps.
  induction keys as [|key keys IH]; intros i profiles maps; cbn;
    [apply silent_ret|].
  destruct (ring.ShuffleShardGet _ _ _); [apply IH|apply silent_fail].
Qed.

Lemma spawn_trace ingesterDescs entries w :
  trace (spawn ingesterDescs entries w) =
  List.map (fun entry => SendProfilesStarted entry.1) entries.
Proof.
  revert w. induction entries as [|[addr samples] entries IH]; intros w; cbn;
    [reflexivity|].
  rewrite trace_bind. cbn. f_equal. rewrite trace_bind, IH.
  destruct (result (spawn ingesterDescs entries w)); cbn; now rewrite app_nil_r.
Qed.

Lemma dispatch_trace profiles maps w :
  trace (dispatch profiles maps w) =
  List.map (fun entry => SendProfilesStarted entry.1) (map_to_list maps.1).
Proof.
  unfold dispatch. rewrite trace_bind, spawn_trace.
  destruct (result (spawn _ _ w)); cbn; now rewrite app_nil_r.
Qed.


End AfterGate.



(** ** Shard selection *)

Section ShardFacts.

Context {L : Limits} {C : phlaremodel.SessionIDCodec} {Srt : sort.Sorter}
        {P : pprof.Ops} {V : validation.Ops} {R : limiter.RateLimiter}
        {G : ring.ReadRing} {E : Environment}.

Lemma tokens_Done tenantID tb tp profileSeries w keys :
  result (tokens tenantID tb tp profileSeries w) = Done keys ->
  keys =
  List.map
    (fun series =>
       TokenFor tenantID (LabelPairsString (distributormodel.SeriesLabels series)))
    profileSeries.
Proof.
  revert keys. induction profileSeries as [|series rest IH]; intros keys; cbn.
  - now intros [= <-].
  - destruct (validation.ValidateLabels _ _).
    + rewrite result_bind. cbn. discriminate.
    + rewrite result_bind.
      destruct (result (tokens _ _ _ rest w)) as [keys'| |]; [|discriminate..].
      cbn. intros [= <-]. f_equal. now apply IH.
Qed.

Lemma newTrackers_Done profileSeries w profiles :
  result (newTrackers profileSeries w) = Done profiles ->
  Forall2 freshTracker profileSeries profiles.
Proof.
  revert w profiles.
  induction profileSeries as [|series rest IH]; intros w profiles; cbn.
  - intros [= <-]. constructor.
  - rewrite result_bind.
    destruct (result (rewriteSamples _ w)) as [samples| |]; [|discriminate..].
    rewrite result_bind.
    destruct (result (newTrackers rest _)) as [profiles'| |] eqn:En;
      [|discriminate..].
    cbn. intros [= <-]. constructor; [|eapply IH; exact En].
    repeat split.
Qed.

Lemma shardSelect_Done tenantID i keys profiles maps w selected :
  result (shardSelect tenantID i keys profiles maps w) = Done selected ->
  length selected.1 = length profiles /\
  (forall j, (j < i)%nat \/ (i + length keys <= j)%nat ->
     selected.1 !! j = profiles !! j) /\
  (forall k key, keys !! k = Some key ->
     exists replicationSet,
       ring.ShuffleShardGet tenantID (IngestionTenantShardSize tenantID) key =
         Some replicationSet /\
       selected.1 !! (i + k)%nat =
         setQuorum replicationSet <$> profiles !! (i + k)%nat).
Proof.
  revert i profiles maps.
  induction keys as [|key keys IH]; intros i profiles maps; cbn.
  - intros [= <-]. cbn. split; [reflexivity|]. split; [reflexivity|].
    intros k key Hk. inversion Hk.
  - destruct (ring.ShuffleShardGet tenantID (IngestionTenantShardSize tenantID) key)
      as [replicationSet|] eqn:Eg; [|discriminate].
    intros H. apply IH in H as (Hlen & Hout & Hin).
    rewrite length_alter in Hlen. split; [exact Hlen|]. split.
    + intros j Hj. rewrite Hout by lia. apply list_lookup_alter_ne. lia.
    + intros [|k] key' Hk; cbn in Hk.
      * injection Hk as <-. exists replicationSet. split; [exact Eg|].
        rewrite Nat.add_0_r, Hout by lia. apply list_lookup_alter_eq.
      * destruct (Hin k key' Hk) as (rs & Hrs & Hsel). exists rs.
        split; [exact Hrs|].
        replace (i + S k)%nat with (S i + k)%nat by lia. rewrite Hsel.
        rewrite list_lookup_alter_ne by lia. reflexivity.
Qed.

Lemma spawn_Done ingesterDescs entries w :
  result (spawn ingesterDescs entries w) =
  Done
    (List.map
       (fun entry =>
          {| ingester := default {| ring.Addr := "" |} (ingesterDescs !! entry.1);
             profileTrackers := entry.2;
             sendErr := None; index := 0; point := Calling |})
       entries).
Proof.
  revert w. induction entries as [|[addr samples] entries IH]; intros w; cbn;
    [reflexivity|].
  rewrite result_bind. cbn. rewrite result_bind, IH. reflexivity.
Qed.

(** What a push that reaches its fan-out has gone through. *)
Lemma PushParsed_Done ctx req w fan :
  result (PushParsed ctx req w) = Done fan ->
  exists tenantID profileSeries profiles w' selected,
    TenantID ctx = Some tenantID /\
    Forall2 freshTracker profileSeries profiles /\
    result
      (shardSelect tenantID 0
         (List.map
            (fun series =>
               TokenFor tenantID
                 (LabelPairsString (distributormodel.SeriesLabels series)))
            profileSeries)
         profiles (∅, ∅) w') = Done selected /\
    fan =
      {| trackers := selected.1;
         push := {| samplesPending := GoInt.int32 (GoInt.len selected.1);
                    samplesFailed := 0; done := []; err := [] |};
         senders :=
           List.map
             (fun entry =>
                {| ingester :=
                     default {| ring.Addr := "" |} (selected.2.2 !! entry.1);
                   profileTrackers := entry.2;
                   sendErr := None; index := 0; point := Calling |})
             (map_to_list selected.2.1);
         caller := Waiting |}.
Proof.
  unfold PushParsed. destruct (TenantID ctx) as [tenantID|]; [|discriminate].
  rewrite result_bind.
  destruct (result (measureSeries _ _ _ _ _ w)) as [measured| |]; [|discriminate..].
  destruct (measured.2.2 =? 0); [discriminate|].
  rewrite result_bind. cbn [allowN result world].
  destruct (negb _).
  { rewrite result_bind. cbn. discriminate. }
  rewrite result_bind. cbn [emit result world].
  destruct (extractSeries measured.1) as [[profileSeries newProfiles]|];
    [|discriminate].
  rewrite result_bind.
  destruct (result (tokens _ _ _ _ _)) as [keys| |] eqn:Ek; [|discriminate..].
  apply tokens_Done in Ek. subst keys.
  rewrite result_bind.
  destruct (result (newTrackers _ _)) as [profiles| |] eqn:En; [|discriminate..].
  apply newTrackers_Done in En.
  rewrite result_bind.
  destruct (result (shardSelect _ _ _ _ _ _)) as [selected| |] eqn:Es;
    [|discriminate..].
  unfold dispatch. rewrite result_bind, spawn_Done. cbn. intros [= <-].
  eexists tenantID, profileSeries, profiles, _, selected.
  split; [reflexivity|]. split; [exact En|]. split; [exact Es|reflexivity].
Qed.

End ShardFacts.

(** C2.  In a push that reaches its fan-out, the tracker of every series
    holds the quorum of the replication set the ring returned for the token
    of the series: [minSuccess] is [len(Instances) - MaxErrors],
    [maxFailures] is [MaxErrors], and [minSuccess + maxFailures ==
    len(Instances)] holds as the comparison of [int]s it is in Go. *)
Theorem PushParsed_minSuccess_maxFailures
    {L : Limits} {C : phlaremodel.SessionIDCodec} {Srt : sort.Sorter}
    {P : pprof.Ops} {V : validation.Ops} {R : limiter.RateLimiter}
    {G : ring.ReadRing} {E : Environment}
    (ctx : Context) (req : distributormodel.PushRequest) (w : World)
    (fan : Fanout) (i : nat) (tracker : profileTracker) :
  result (PushParsed ctx req w) = Done fan ->
  trackers fan !! i = Some tracker ->
  exists tenantID replicationSet,
    TenantID ctx = Some tenantID /\
    ring.ShuffleShardGet tenantID (IngestionTenantShardSize tenantID)
      (TokenFor tenantID
         (LabelPairsString (distributormodel.SeriesLabels (profile tracker)))) =
      Some replicationSet /\
    minSuccess tracker =
      GoInt.int (GoInt.len (ring.Instances replicationSet) -
                 ring.MaxErrors replicationSet) /\
    maxFailures tracker = ring.MaxErrors replicationSet /\
    GoInt.int (minSuccess tracker + maxFailures tracker) =
      GoInt.int (GoInt.len (ring.Instances replicationSet)).
Proof.
  intros Hdone Hi.
  apply PushParsed_Done in Hdone
    as (tenantID & profileSeries & profiles & w' & selected & Ht & Hfresh & Hsel & ->).
  cbn [trackers] in Hi.
  apply shardSelect_Done in Hsel as (Hlen & _ & Hin).
  assert (Hlt : (i < length profiles)%nat).
  { rewrite <- Hlen. eapply lookup_lt_Some. exact Hi. }
  pose proof (Forall2_length _ _ _ Hfresh) as Hlen2.
  destruct (lookup_lt_is_Some_2 profileSeries i ltac:(lia)) as [series Hs].
  destruct (lookup_lt_is_Some_2 profiles i Hlt) as [tr0 Htr0].
  destruct (Forall2_lookup_lr _ _ _ _ _ _ Hfresh Hs Htr0) as (Hlabels & _).
  destruct (Hin i _ (list_lookup_fmap_Some_2 _ _ _ _ Hs)) as (rs & Hrs & Hq).
  cbn in Hq. rewrite Hi, Htr0 in Hq. cbn in Hq. injection Hq as ->.
  exists tenantID, rs. cbn [setQuorum profile minSuccess maxFailures].
  rewrite Hlabels. split; [exact Ht|]. split; [exact Hrs|].
  split; [reflexivity|]. split; [reflexivity|]. solve_wrap.
Qed.

(** The example request on a ring of three ingesters that tolerates one
    error: every tracker asks for two successes and allows one failure. *)
Lemma PushParsed_minSuccess_maxFailures_witness :
  let L := Example.limits8 in
  let C := SessionHex.codec in
  let Srt := sort.stableSorter in
  let P := Example.ops in
  let V := Example.validationOps in
  let R := Example.limiterOpen in
  let G := Example.ring3 in
  let E := Example.environment in
  exists fan tracker,
    result (PushParsed Example.context Example.request Example.world0) = Done fan /\
    trackers fan !! 0%nat = Some tracker /\
    minSuccess tracker = 2 /\ maxFailures tracker = 1 /\
    GoInt.int (minSuccess tracker + maxFailures tracker) = 3.
Proof.
  intros L C Srt P V R G E.
  let r := eval vm_compute in
    (result (PushParsed Example.context Example.request Example.world0)) in
  match r with Done ?f => pose (fan := f) end.
  let r := eval vm_compute in (trackers fan !! 0%nat) in
  match r with Some ?t => pose (tracker := t) end.
  assert (H1 : result (PushParsed Example.context Example.request Example.world0)
               = Done fan) by (vm_compute; reflexivity).
  assert (H2 : trackers fan !! 0%nat = Some tracker) by reflexivity.
  exists fan, tracker. split; [exact H1|]. split; [exact H2|].
  destruct (PushParsed_minSuccess_maxFailures Example.context Example.request
              Example.world0 fan 0 tracker H1 H2)
    as (tenantID & replicationSet & _ & Hrs & Hmin & Hmax & Hsum).
  cbn in Hrs. injection Hrs as <-.
  split; [exact Hmin|]. split; [exact Hmax|exact Hsum].
Defined.

(** ** The quorum of a replicated push *)

Section Counting.

Lemma occurrences_app t l1 l2 :
  occurrences t (l1 ++ l2) = (occurrences t l1 + occurrences t l2)%nat.
Proof. unfold occurrences. now rewrite List.filter_app, length_app. Qed.

Lemma occurrences_take_S t l k x :
  l !! k = Some x ->
  occurrences t (take (S k) l) =
  (occurrences t (take k l) + if Nat.eqb t x then 1%nat else 0%nat)%nat.
Proof.
  intros H. rewrite (take_S_r _ _ _ H), occurrences_app.
  unfold occurrences at 3. cbn. now destruct (Nat.eqb t x).
Qed.

Lemma occurrences_take_le t l k :
  (occurrences t (take k l) <= occurrences t l)%nat.
Proof.
  rewrite <- (take_drop k l) at 2. rewrite occurrences_app. lia.
Qed.

Lemma sum_list_with_insert {A : Type} (f : A -> nat) (l : list A) i x y :
  l !! i = Some x ->
  (sum_list_with f (<[i:=y]> l) + f x = sum_list_with f l + f y)%nat.
Proof.
  revert i. induction l as [|a l IH]; intros [|i] H; simpl in *;
    try discriminate.
  - injection H as ->. lia.
  - specialize (IH i H). lia.
Qed.

Lemma sum_list_with_le {A : Type} (f g : A -> nat) (l : list A) :
  (forall a, (f a <= g a)%nat) -> (sum_list_with f l <= sum_list_with g l)%nat.
Proof.
  intros H. induction l as [|a l IH]; cbn; [lia|]. specialize (H a). lia.
Qed.

Lemma sum_list_with_indicator_le {A : Type} (p : A -> bool) (l : list A) :
  (sum_list_with (fun a => if p a then 1%nat else 0%nat) l <= length l)%nat.
Proof. induction l as [|a l IH]; cbn; [lia|]. destruct (p a); lia. Qed.

Lemma sum_list_with_indicator_all {A : Type} (p : A -> bool) (l : list A) :
  sum_list_with (fun a => if p a then 1%nat else 0%nat) l = length l ->
  Forall (fun a => p a = true) l.
Proof.
  induction l as [|a l IH]; cbn; intros H; [constructor|].
  pose proof (sum_list_with_indicator_le p l).
  destruct (p a) eqn:Ea; [|lia]. constructor; [exact Ea|]. apply IH. lia.
Qed.

End Counting.

Section QuorumState.

Lemma registeredBy_le t sd :
  (registeredBy t sd <= occurrences t (profileTrackers sd))%nat.
Proof.
  unfold registeredBy. destruct (point sd), (sendErr sd);
    try lia; apply occurrences_take_le.
Qed.

Lemma registered_le_capacity st t : (registered st t <= capacity st t)%nat.
Proof. apply sum_list_with_le. intros sd. apply registeredBy_le. Qed.

Lemma acknowledged_ge t sd : (registeredBy t sd <= acknowledged t sd)%nat.
Proof.
  unfold registeredBy, acknowledged. destruct (point sd), (sendErr sd);
    try lia; apply occurrences_take_le.
Qed.

Lemma registered_le_acknowledgements st t :
  (registered st t <= acknowledgements st t)%nat.
Proof. apply sum_list_with_le. intros sd. apply acknowledged_ge. Qed.

Lemma reachedCount_le st : (reachedCount st <= length (trackers st))%nat.
Proof. apply sum_list_with_indicator_le. Qed.

Lemma elem_of_insert_inv {A : Type} (l : list A) i x y :
  y ∈ <[i:=x]> l -> y = x \/ y ∈ l.
Proof.
  revert i. induction l as [|a l IH]; intros [|i] H; cbn in *.
  - inversion H.
  - inversion H.
  - apply elem_of_cons in H as [->|H]; [now left|]. right. now right.
  - apply elem_of_cons in H as [->|H]; [right; left|].
    destruct (IH i H) as [->|?]; [now left|]. right. now right.
Qed.

End QuorumState.

Section QuorumUpdates.

Implicit Types (st : Fanout) (sd : Sender) (tr : profileTracker).

Lemma registered_insert st st' s sd sd' t :
  senders st !! s = Some sd -> senders st' = <[s:=sd']> (senders st) ->
  (registered st' t + registeredBy t sd =
   registered st t + registeredBy t sd')%nat.
Proof.
  intros H E. unfold registered. rewrite E. now apply sum_list_with_insert.
Qed.

Lemma capacity_insert st st' s sd sd' t :
  senders st !! s = Some sd -> senders st' = <[s:=sd']> (senders st) ->
  profileTrackers sd' = profileTrackers sd ->
  capacity st' t = capacity st t.
Proof.
  intros H E Hp. unfold capacity. rewrite E.
  pose proof (sum_list_with_insert
                (fun sd => occurrences t (profileTrackers sd)) _ _ _ sd' H) as Hs.
  simpl in Hs. rewrite Hp in Hs. lia.
Qed.

Lemma pendingCount_insert st st' s sd sd' :
  senders st !! s = Some sd -> senders st' = <[s:=sd']> (senders st) ->
  (pendingCount st' + (if pendingb sd then 1 else 0) =
   pendingCount st + (if pendingb sd' then 1 else 0))%nat.
Proof.
  intros H E. unfold pendingCount. rewrite E.
  now apply (sum_list_with_insert (fun sd => if pendingb sd then 1%nat else 0%nat)).
Qed.

Lemma reachedCount_insert st st' t tr tr' :
  trackers st !! t = Some tr -> trackers st' = <[t:=tr']> (trackers st) ->
  (reachedCount st' + (if reachedb tr then 1 else 0) =
   reachedCount st + (if reachedb tr' then 1 else 0))%nat.
Proof.
  intros H E. unfold reachedCount. rewrite E.
  now apply (sum_list_with_insert (fun tr => if reachedb tr then 1%nat else 0%nat)).
Qed.

Lemma reachedCount_same st st' :
  trackers st' = trackers st -> reachedCount st' = reachedCount st.
Proof. intros E. unfold reachedCount. now rewrite E. Qed.

Lemma registered_same st st' t :
  senders st' = senders st -> registered st' t = registered st t.
Proof. intros E. unfold registered. now rewrite E. Qed.

Lemma atDone_insert (l : list Sender) s sd' :
  point sd' <> AtDone ->
  (exists sd, sd ∈ <[s:=sd']> l /\ point sd = AtDone) ->
  exists sd, sd ∈ l /\ point sd = AtDone.
Proof.
  intros Hp (sd & Hin & Hd).
  apply elem_of_insert_inv in Hin as [->|Hin]; [contradiction|eauto].
Qed.

(** A move of a goroutine between points of its loop, its error and its
    index kept, leaves the increments it has registered as they are. *)
Lemma registeredBy_at pt sd t :
  point sd <> Calling -> pt <> Calling ->
  registeredBy t (at_ pt sd) = registeredBy t sd.
Proof.
  unfold registeredBy. simpl. destruct (point sd), pt; congruence.
Qed.

End QuorumUpdates.

Section QuorumPreservation.

Implicit Types (st : Fanout) (sd : Sender) (tr : profileTracker).

(** A step of a goroutine that touches neither a profile tracker nor
    [samplesPending]. *)
Lemma invariant_sender st s sd sd' pu :
  invariant st ->
  senders st !! s = Some sd ->
  profileTrackers sd' = profileTrackers sd ->
  point sd' <> Calling -> point sd' <> AtDone ->
  (forall t, registeredBy t sd' = registeredBy t sd) ->
  pendingb sd' = false -> pendingb sd = false ->
  samplesPending pu = samplesPending (push st) ->
  (done pu <> [] ->
   point sd = AtDone \/ done (push st) <> []) ->
  invariant
    {| trackers := trackers st; push := pu;
       senders := <[s:=sd']> (senders st); caller := caller st |}.
Proof.
  intros [Hlen Hmin Hcap Hcall Hsucc Hpend Hdone] Hs Hp Hc Hd Hreg Hpb' Hpb Hsp Hch.
  set (st' := {| trackers := trackers st; push := pu;
                 senders := <[s:=sd']> (senders st); caller := caller st |}).
  assert (Hregs : forall t, registered st' t = registered st t).
  { intros t. pose proof (registered_insert st st' s sd sd' t Hs eq_refl) as H.
    rewrite Hreg in H. lia. }
  assert (Hpc : pendingCount st' = pendingCount st).
  { pose proof (pendingCount_insert st st' s sd sd' Hs eq_refl) as H.
    rewrite Hpb, Hpb' in H. lia. }
  assert (Hrc : reachedCount st' = reachedCount st) by reflexivity.
  constructor.
  - exact Hlen.
  - exact Hmin.
  - intros t. rewrite (capacity_insert st st' s sd sd' t Hs eq_refl Hp). apply Hcap.
  - apply Forall_insert; [exact Hcall|]. intros Hc'. contradiction.
  - intros t tr Ht. rewrite Hregs. now apply Hsucc.
  - destruct Hpend as (decs & H1 & H2). exists decs. rewrite Hpc, Hrc.
    split; [|exact H2]. cbn [st' push trackers]. now rewrite Hsp.
  - intros H. rewrite Hrc. change (length (trackers st')) with (length (trackers st)).
    apply Hdone. destruct H as [H|[H|H]].
    + left. now apply (atDone_insert (senders st) s sd' Hd).
    + destruct (Hch H) as [Hsd|Hdn]; [|now right; left].
      left. exists sd. split; [|exact Hsd].
      eapply list_elem_of_lookup_2. exact Hs.
    + now right; right.
Qed.

(** A step of the caller. *)
Lemma invariant_select st pu ca :
  invariant st ->
  samplesPending pu = samplesPending (push st) ->
  (done pu <> [] \/ ca = Returned None ->
   done (push st) <> [] \/ caller st = Returned None) ->
  invariant
    {| trackers := trackers st; push := pu;
       senders := senders st; caller := ca |}.
Proof.
  intros [Hlen Hmin Hcap Hcall Hsucc Hpend Hdone] Hsp Hch.
  constructor; try assumption.
  - destruct Hpend as (decs & H1 & H2). exists decs.
    split; [|exact H2]. cbn [push trackers]. now rewrite Hsp.
  - intros H. apply Hdone. destruct H as [H|H]; [now left|]. right. now apply Hch.
Qed.

(** [samplesPending.Dec()]. *)
Lemma invariant_pending st s sd :
  invariant st ->
  senders st !! s = Some sd -> point sd = AtPending ->
  let v := GoInt.int32 (samplesPending (push st) - 1) in
  invariant
    {| trackers := trackers st;
       push := {| samplesPending := v; samplesFailed := samplesFailed (push st);
                  done := done (push st); err := err (push st) |};
       senders := <[s:=at_ (if v =? 0 then AtDone else AtLoop) sd]> (senders st);
       caller := caller st |}.
Proof.
  intros [Hlen Hmin Hcap Hcall Hsucc Hpend Hdone] Hs Hpt v.
  set (sd' := at_ (if v =? 0 then AtDone else AtLoop) sd).
  set (st' := {| trackers := trackers st;
                 push := {| samplesPending := v;
                            samplesFailed := samplesFailed (push st);
                            done := done (push st); err := err (push st) |};
                 senders := <[s:=sd']> (senders st); caller := caller st |}).
  assert (Hne : point sd' <> Calling /\ point sd' <> AtPending).
  { unfold sd'. simpl. destruct (v =? 0); split; discriminate. }
  destruct Hne as [Hc Hnp].
  assert (Hregs : forall t, registered st' t = registered st t).
  { intros t. pose proof (registered_insert st st' s sd sd' t Hs eq_refl) as H.
    assert (Hr : registeredBy t sd' = registeredBy t sd).
    { unfold sd'. apply registeredBy_at; [rewrite Hpt; discriminate|].
      destruct (v =? 0); discriminate. }
    rewrite Hr in H. lia. }
  pose proof (pendingCount_insert st st' s sd sd' Hs eq_refl) as Hpc.
  assert (Hb : pendingb sd = true).
  { unfold pendingb. rewrite Hpt. now destruct (decide _). }
  assert (Hb' : pendingb sd' = false).
  { unfold pendingb. destruct (decide (point sd' = AtPending)); congruence. }
  rewrite Hb, Hb' in Hpc.
  assert (Hrc : reachedCount st' = reachedCount st) by reflexivity.
  destruct Hpend as (decs & H1 & H2).
  pose proof (reachedCount_le st) as Hle.
  assert (Hv : v = Z.of_nat (length (trackers st)) - Z.of_nat (S decs)).
  { unfold v. rewrite H1. rewrite int32_small; lia. }
  constructor.
  - exact Hlen.
  - exact Hmin.
  - intros t. rewrite (capacity_insert st st' s sd sd' t Hs eq_refl eq_refl).
    apply Hcap.
  - apply Forall_insert; [exact Hcall|]. intros Hc'. contradiction.
  - intros t tr Ht. rewrite Hregs. now apply Hsucc.
  - exists (S decs). split; [exact Hv|]. lia.
  - intros H. rewrite Hrc. change (length (trackers st')) with (length (trackers st)).
    assert (Hall : reachedCount st = length (trackers st) \/ v = 0).
    { destruct H as [(sd0 & Hin & Hd0)|[H|H]].
      - apply elem_of_insert_inv in Hin as [->|Hin].
        + right. unfold sd' in Hd0. simpl in Hd0.
          destruct (v =? 0) eqn:Ev; [now apply Z.eqb_eq|discriminate].
        + left. apply Hdone. left. eauto.
      - left. apply Hdone. now right; left.
      - left. apply Hdone. now right; right. }
    destruct Hall as [Hall|Hv0]; [exact Hall|]. lia.
Qed.

End QuorumPreservation.

Section QuorumTrackers.

Implicit Types (st : Fanout) (sd : Sender) (tr : profileTracker).

(** [failed.Inc()]: a failure registers no success. *)
Lemma invariant_failed st s sd t tr e :
  invariant st ->
  senders st !! s = Some sd -> point sd = AtLoop -> sendErr sd = Some e ->
  trackers st !! t = Some tr ->
  let v := GoInt.int32 (failed tr + 1) in
  invariant
    {| trackers :=
         <[t:={| profile := profile tr; minSuccess := minSuccess tr;
                 maxFailures := maxFailures tr; succeeded := succeeded tr;
                 failed := v |}]> (trackers st);
       push := push st;
       senders :=
         <[s:=next (if v <=? GoInt.int32 (maxFailures tr) then AtLoop
                    else AtSamplesFailed) sd]> (senders st);
       caller := caller st |}.
Proof.
  intros [Hlen Hmin Hcap Hcall Hsucc Hpend Hdone] Hs Hpt He Ht v.
  set (tr' := {| profile := profile tr; minSuccess := minSuccess tr;
                 maxFailures := maxFailures tr; succeeded := succeeded tr;
                 failed := v |}).
  set (sd' := next (if v <=? GoInt.int32 (maxFailures tr) then AtLoop
                    else AtSamplesFailed) sd).
  set (st' := {| trackers := <[t:=tr']> (trackers st); push := push st;
                 senders := <[s:=sd']> (senders st); caller := caller st |}).
  assert (Hpt' : point sd' <> Calling /\ point sd' <> AtDone /\
                 point sd' <> AtPending).
  { unfold sd'. simpl. destruct (v <=? _); repeat split; discriminate. }
  destruct Hpt' as (Hc & Hd & Hnp).
  assert (Hregs : forall t0, registered st' t0 = registered st t0).
  { intros t0. pose proof (registered_insert st st' s sd sd' t0 Hs eq_refl) as H.
    assert (Hr : registeredBy t0 sd' = 0%nat /\ registeredBy t0 sd = 0%nat).
    { unfold registeredBy, sd'. simpl. rewrite He, Hpt.
      destruct (v <=? _); split; reflexivity. }
    destruct Hr as [Hr1 Hr2]. rewrite Hr1, Hr2 in H. lia. }
  assert (Hpc : pendingCount st' = pendingCount st).
  { pose proof (pendingCount_insert st st' s sd sd' Hs eq_refl) as H.
    assert (Hb : pendingb sd = false) by (unfold pendingb; now rewrite Hpt).
    assert (Hb' : pendingb sd' = false).
    { unfold pendingb. destruct (decide (point sd' = AtPending)); congruence. }
    rewrite Hb, Hb' in H. lia. }
  assert (Hrc : reachedCount st' = reachedCount st).
  { pose proof (reachedCount_insert st st' t tr tr' Ht eq_refl) as H.
    change (reachedb tr') with (reachedb tr) in H. lia. }
  assert (Hlen' : length (trackers st') = length (trackers st)).
  { apply length_insert. }
  constructor.
  - rewrite Hlen'. exact Hlen.
  - apply Forall_insert; [exact Hmin|].
    rewrite Forall_forall in Hmin. apply (Hmin tr).
    eapply list_elem_of_lookup_2. exact Ht.
  - intros t0. rewrite (capacity_insert st st' s sd sd' t0 Hs eq_refl eq_refl).
    apply Hcap.
  - apply Forall_insert; [exact Hcall|]. intros Hc'. contradiction.
  - intros t0 tr0 Ht0. rewrite Hregs. cbn [st' trackers] in Ht0.
    destruct (decide (t = t0)) as [->|Hne].
    + rewrite list_lookup_insert_eq in Ht0 by (eapply lookup_lt_Some; exact Ht).
      injection Ht0 as <-. cbn [tr' succeeded]. now apply Hsucc.
    + rewrite list_lookup_insert_ne in Ht0 by exact Hne. now apply Hsucc.
  - destruct Hpend as (decs & H1 & H2). exists decs. rewrite Hpc, Hrc, Hlen'.
    split; [exact H1|exact H2].
  - intros H. rewrite Hrc, Hlen'. apply Hdone. destruct H as [H|[H|H]].
    + left. now apply (atDone_insert (senders st) s sd' Hd).
    + now right; left.
    + now right; right.
Qed.

(** [succeeded.Inc()]. *)
Lemma invariant_succeeded st s sd t tr :
  invariant st ->
  senders st !! s = Some sd -> point sd = AtLoop -> sendErr sd = None ->
  profileTrackers sd !! index sd = Some t -> trackers st !! t = Some tr ->
  let v := GoInt.int32 (succeeded tr + 1) in
  invariant
    {| trackers :=
         <[t:={| profile := profile tr; minSuccess := minSuccess tr;
                 maxFailures := maxFailures tr; succeeded := v;
                 failed := failed tr |}]> (trackers st);
       push := push st;
       senders :=
         <[s:=next (if v =? GoInt.int32 (minSuccess tr) then AtPending
                    else AtLoop) sd]> (senders st);
       caller := caller st |}.
Proof.
  intros [Hlen Hmin Hcap Hcall Hsucc Hpend Hdone] Hs Hpt He Hidx Ht v.
  set (tr' := {| profile := profile tr; minSuccess := minSuccess tr;
                 maxFailures := maxFailures tr; succeeded := v;
                 failed := failed tr |}).
  set (sd' := next (if v =? GoInt.int32 (minSuccess tr) then AtPending
                    else AtLoop) sd).
  set (st' := {| trackers := <[t:=tr']> (trackers st); push := push st;
                 senders := <[s:=sd']> (senders st); caller := caller st |}).
  assert (Hpt' : point sd' <> Calling /\ point sd' <> AtDone).
  { unfold sd'. simpl. destruct (v =? _); split; discriminate. }
  destruct Hpt' as (Hc & Hd).
  assert (Hby : forall t0,
    registeredBy t0 sd' =
    (registeredBy t0 sd + if Nat.eqb t0 t then 1 else 0)%nat).
  { intros t0. unfold registeredBy, sd'. simpl. rewrite He, Hpt.
    rewrite (occurrences_take_S t0 _ _ _ Hidx).
    destruct (v =? _); reflexivity. }
  assert (Hregs : forall t0,
    registered st' t0 = (registered st t0 + if Nat.eqb t0 t then 1 else 0)%nat).
  { intros t0. pose proof (registered_insert st st' s sd sd' t0 Hs eq_refl) as H.
    rewrite Hby in H. lia. }
  assert (Hcap' : forall t0, capacity st' t0 = capacity st t0).
  { intros t0. apply (capacity_insert st st' s sd sd' t0 Hs eq_refl eq_refl). }
  assert (Hlen' : length (trackers st') = length (trackers st)).
  { apply length_insert. }
  assert (Hmt : - 2 ^ 31 <= minSuccess tr < 2 ^ 31).
  { rewrite Forall_forall in Hmin. apply (Hmin tr).
    eapply list_elem_of_lookup_2. exact Ht. }
  (* the counter does not wrap *)
  assert (Hv : v = Z.of_nat (registered st t) + 1).
  { unfold v. rewrite (Hsucc t tr Ht).
    pose proof (registered_le_capacity st' t) as Hle.
    rewrite Hregs, Nat.eqb_refl, Hcap' in Hle.
    specialize (Hcap t). rewrite int32_small; lia. }
  assert (Hm : GoInt.int32 (minSuccess tr) = minSuccess tr)
    by (apply int32_small; exact Hmt).
  pose proof (reachedCount_insert st st' t tr tr' Ht eq_refl) as Hrc.
  pose proof (pendingCount_insert st st' s sd sd' Hs eq_refl) as Hpc.
  assert (Hb : pendingb sd = false) by (unfold pendingb; now rewrite Hpt).
  rewrite Hb in Hpc.
  assert (Hr : reachedb tr =
               (1 <=? minSuccess tr) && (minSuccess tr <=? Z.of_nat (registered st t))).
  { unfold reachedb. now rewrite (Hsucc t tr Ht). }
  assert (Hr' : reachedb tr' = (1 <=? minSuccess tr) && (minSuccess tr <=? v))
    by reflexivity.
  assert (Hcount :
    (exists decs : nat,
       samplesPending (push st) = Z.of_nat (length (trackers st)) - Z.of_nat decs /\
       (decs + pendingCount st' = reachedCount st')%nat) /\
    (reachedCount st <= reachedCount st')%nat).
  { destruct Hpend as (decs & H1 & H2).
    destruct (v =? GoInt.int32 (minSuccess tr)) eqn:Ev.
    - apply Z.eqb_eq in Ev. rewrite Hm in Ev.
      assert (Hb' : pendingb sd' = true) by reflexivity.
      assert (Hrt : reachedb tr = false).
      { rewrite Hr. apply andb_false_iff. right. apply Z.leb_gt. lia. }
      assert (Hrt' : reachedb tr' = true).
      { rewrite Hr'. apply andb_true_iff. split; apply Z.leb_le; lia. }
      rewrite Hb' in Hpc. rewrite Hrt, Hrt' in Hrc.
      split; [exists decs; split; [exact H1|lia]|lia].
    - apply Z.eqb_neq in Ev. rewrite Hm in Ev.
      assert (Hb' : pendingb sd' = false) by reflexivity.
      assert (Hrt : reachedb tr' = reachedb tr).
      { rewrite Hr, Hr'. f_equal.
        destruct (Z.leb_spec (minSuccess tr) v),
                 (Z.leb_spec (minSuccess tr) (Z.of_nat (registered st t)));
          try reflexivity; lia. }
      rewrite Hb' in Hpc. rewrite Hrt in Hrc.
      split; [exists decs; split; [exact H1|lia]|lia]. }
  destruct Hcount as [Hpend' Hmono].
  constructor.
  - rewrite Hlen'. exact Hlen.
  - apply Forall_insert; [exact Hmin|exact Hmt].
  - intros t0. rewrite Hcap'. apply Hcap.
  - apply Forall_insert; [exact Hcall|]. intros Hc'. contradiction.
  - intros t0 tr0 Ht0. rewrite Hregs. cbn [st' trackers] in Ht0.
    destruct (decide (t = t0)) as [<-|Hne].
    + rewrite list_lookup_insert_eq in Ht0 by (eapply lookup_lt_Some; exact Ht).
      injection Ht0 as <-. cbn [tr' succeeded]. rewrite Nat.eqb_refl. lia.
    + rewrite list_lookup_insert_ne in Ht0 by exact Hne.
      rewrite (proj2 (Nat.eqb_neq t0 t)) by congruence.
      rewrite Nat.add_0_r. now apply Hsucc.
  - rewrite Hlen'. exact Hpend'.
  - intros H. rewrite Hlen'.
    assert (Hall : reachedCount st = length (trackers st)).
    { apply Hdone. destruct H as [H|[H|H]].
      - left. now apply (atDone_insert (senders st) s sd' Hd).
      - now right; left.
      - now right; right. }
    pose proof (reachedCount_le st') as Hle. rewrite Hlen' in Hle. lia.
Qed.

End QuorumTrackers.

Section QuorumSteps.

Lemma registeredBy_returned e sd t :
  point sd = Calling -> index sd = 0%nat ->
  registeredBy t (returned e sd) = registeredBy t sd.
Proof.
  intros Hp Hi. unfold registeredBy. simpl. rewrite Hp, Hi.
  destruct e; reflexivity.
Qed.

(** Every step keeps the invariant. *)
Lemma invariant_step st st' : invariant st -> step st st' -> invariant st'.
Proof.
  intros Hinv Hstep.
  inversion Hstep as
    [ st0 s sd e Hs Hp
    | st0 s sd t tr Hs Hp He Hidx Ht
    | st0 s sd Hs Hp
    | st0 s sd Hs Hp Hd
    | st0 s sd t tr e Hs Hp He Hidx Ht
    | st0 s sd Hs Hp
    | st0 s sd e Hs Hp He Herr
    | st0 e rest Hc Herr
    | st0 u rest Hc Hd
    | st0 Hc ]; subst;
    unfold setSender, setTracker, setPush, setCaller;
    cbn [trackers push senders caller].
  - apply (invariant_sender st s sd); try reflexivity; try discriminate;
      try assumption.
    + intros t. apply registeredBy_returned; [exact Hp|].
      destruct Hinv as [_ _ _ Hcall _ _ _]. rewrite Forall_forall in Hcall.
      apply Hcall; [|exact Hp]. eapply list_elem_of_lookup_2. exact Hs.
    + unfold pendingb. now rewrite Hp.
    + intros H. now right.
  - now apply invariant_succeeded.
  - now apply invariant_pending.
  - apply (invariant_sender st s sd); try reflexivity; try discriminate;
      try assumption.
    + intros t. apply registeredBy_at; [rewrite Hp|]; discriminate.
    + unfold pendingb. now rewrite Hp.
    + intros _. now left.
  - now apply (invariant_failed st s sd t tr e).
  - apply (invariant_sender st s sd); try reflexivity; try assumption.
    + simpl. destruct (_ =? 1); discriminate.
    + simpl. destruct (_ =? 1); discriminate.
    + intros t. apply registeredBy_at; [rewrite Hp; discriminate|].
      destruct (_ =? 1); discriminate.
    + unfold pendingb. simpl. destruct (_ =? 1); reflexivity.
    + unfold pendingb. now rewrite Hp.
    + intros H. now right.
  - apply (invariant_sender st s sd); try reflexivity; try discriminate;
      try assumption.
    + intros t. apply registeredBy_at; [rewrite Hp|]; discriminate.
    + unfold pendingb. now rewrite Hp.
    + intros H. now right.
  - apply invariant_select; [assumption|reflexivity|].
    intros [H|H]; [now left|discriminate].
  - apply invariant_select; [assumption|reflexivity|].
    intros _. left. rewrite Hd. discriminate.
  - apply invariant_select; [assumption|reflexivity|].
    intros [H|H]; [now left|discriminate].
Qed.

Lemma invariant_reaches st st' : invariant st -> reaches st st' -> invariant st'.
Proof.
  intros Hinv Hr. induction Hr as [|st1 st2 st3 Hstep _ IH]; [exact Hinv|].
  apply IH. eapply invariant_step; eassumption.
Qed.

(** The steps change neither the quorum a tracker asks for nor the number
    of trackers. *)
Lemma step_minSuccess st st' t tr' :
  step st st' -> trackers st' !! t = Some tr' ->
  exists tr, trackers st !! t = Some tr /\ minSuccess tr = minSuccess tr' /\
             profile tr = profile tr'.
Proof.
  intros Hstep.
  inversion Hstep as
    [ st0 s sd e Hs Hp
    | st0 s sd t0 tr Hs Hp He Hidx Ht
    | st0 s sd Hs Hp
    | st0 s sd Hs Hp Hd
    | st0 s sd t0 tr e Hs Hp He Hidx Ht
    | st0 s sd Hs Hp
    | st0 s sd e Hs Hp He Herr
    | st0 e rest Hc Herr
    | st0 u rest Hc Hd
    | st0 Hc ]; subst;
    unfold setSender, setTracker, setPush, setCaller;
    cbn [trackers push senders caller]; intros H; eauto.
  - destruct (decide (t0 = t)) as [->|Hne].
    + rewrite list_lookup_insert_eq in H by (eapply lookup_lt_Some; exact Ht).
      injection H as <-. eauto.
    + rewrite list_lookup_insert_ne in H by exact Hne. eauto.
  - destruct (decide (t0 = t)) as [->|Hne].
    + rewrite list_lookup_insert_eq in H by (eapply lookup_lt_Some; exact Ht).
      injection H as <-. eauto.
    + rewrite list_lookup_insert_ne in H by exact Hne. eauto.
Qed.

Lemma reaches_minSuccess st st' t tr' :
  reaches st st' -> trackers st' !! t = Some tr' ->
  exists tr, trackers st !! t = Some tr /\ minSuccess tr = minSuccess tr' /\
             profile tr = profile tr'.
Proof.
  intros Hr. revert tr'.
  induction Hr as [st|st1 st2 st3 Hstep _ IH]; intros tr' H; [eauto|].
  destruct (IH tr' H) as (tr2 & H2 & Hm2 & Hp2).
  destruct (step_minSuccess _ _ _ _ Hstep H2) as (tr1 & H1 & Hm1 & Hp1).
  exists tr1. split; [exact H1|]. split; congruence.
Qed.

(** In a state of a push in which the caller has returned the response,
    every tracker has registered the successes it asks for, and each of
    them is an acknowledgement. *)
Lemma invariant_success st t tr :
  invariant st -> caller st = Returned None ->
  trackers st !! t = Some tr ->
  minSuccess tr <= succeeded tr /\
  succeeded tr = Z.of_nat (registered st t) /\
  minSuccess tr <= Z.of_nat (acknowledgements st t).
Proof.
  intros [Hlen Hmin Hcap Hcall Hsucc Hpend Hdone] Hc Ht.
  assert (Hall : reachedCount st = length (trackers st)).
  { apply Hdone. now right; right. }
  apply sum_list_with_indicator_all in Hall. rewrite Forall_forall in Hall.
  assert (Hr : reachedb tr = true).
  { apply Hall. eapply list_elem_of_lookup_2. exact Ht. }
  unfold reachedb in Hr. apply andb_true_iff in Hr as [_ Hr].
  apply Z.leb_le in Hr.
  pose proof (Hsucc t tr Ht) as Hs.
  pose proof (registered_le_acknowledgements st t).
  split; [exact Hr|]. split; [exact Hs|]. lia.
Qed.

End QuorumSteps.

(** ** The fan-out of a push meets the invariant *)

Section FanoutFacts.

Context {L : Limits} {C : phlaremodel.SessionIDCodec} {Srt : sort.Sorter}
        {P : pprof.Ops} {V : validation.Ops} {R : limiter.RateLimiter}
        {G : ring.ReadRing} {E : Environment}.

Lemma assigned_appendTracker t addr i (m : gmap string (list nat)) :
  assigned t (appendTracker addr i m) =
  (assigned t m + if Nat.eqb t i then 1 else 0)%nat.
Proof.
  unfold assigned, appendTracker.
  assert (Hone : occurrences t [i] = if Nat.eqb t i then 1%nat else 0%nat).
  { unfold occurrences. simpl. now destruct (Nat.eqb t i). }
  destruct (m !! addr) as [l|] eqn:El; simpl.
  - rewrite <- insert_delete_eq.
    rewrite map_to_list_insert by apply lookup_delete_eq.
    rewrite <- (map_to_list_delete m addr l El). simpl.
    rewrite occurrences_app, Hone. lia.
  - rewrite map_to_list_insert by exact El. simpl. rewrite Hone. lia.
Qed.

Lemma assigned_assignInstances t i instances
    (maps : gmap string (list nat) * gmap string ring.InstanceDesc) :
  assigned t (assignInstances i instances maps).1 =
  (assigned t maps.1 + if Nat.eqb t i then length instances else 0)%nat.
Proof.
  unfold assignInstances. revert maps.
  induction instances as [|ingester instances IH]; intros maps; simpl.
  - destruct (Nat.eqb t i); lia.
  - rewrite IH. simpl. rewrite assigned_appendTracker.
    destruct (Nat.eqb t i); lia.
Qed.

Lemma shardSelect_assigned tenantID i keys profiles maps w selected t :
  ringFits32 ->
  result (shardSelect tenantID i keys profiles maps w) = Done selected ->
  ((t < i)%nat -> assigned t selected.2.1 = assigned t maps.1) /\
  Z.of_nat (assigned t selected.2.1) < Z.of_nat (assigned t maps.1) + 2 ^ 31.
Proof.
  intros Hring. revert i profiles maps.
  induction keys as [|key keys IH]; intros i profiles maps; simpl.
  - intros [= <-]. simpl. split; [reflexivity|lia].
  - destruct (ring.ShuffleShardGet tenantID (IngestionTenantShardSize tenantID) key)
      as [replicationSet|] eqn:Eg; [|discriminate].
    destruct (Hring _ _ _ _ Eg) as [Hlen _]. unfold GoInt.len in Hlen.
    intros H. apply IH in H as [Hlt Hle].
    rewrite assigned_assignInstances in Hlt, Hle.
    destruct (Nat.eqb_spec t i) as [->|Hne].
    + split; [lia|]. rewrite Hlt by lia. lia.
    + split; [intros Hti; rewrite Hlt by lia; lia|]. lia.
Qed.

Lemma shardSelect_Forall (Q : profileTracker -> Prop) tenantID i keys profiles
    maps w selected :
  (forall key replicationSet tr,
     ring.ShuffleShardGet tenantID (IngestionTenantShardSize tenantID) key =
       Some replicationSet ->
     Q tr -> Q (setQuorum replicationSet tr)) ->
  Forall Q profiles ->
  result (shardSelect tenantID i keys profiles maps w) = Done selected ->
  Forall Q selected.1.
Proof.
  intros HQ. revert i profiles maps.
  induction keys as [|key keys IH]; intros i profiles maps Hall; simpl.
  - now intros [= <-].
  - destruct (ring.ShuffleShardGet tenantID (IngestionTenantShardSize tenantID) key)
      as [replicationSet|] eqn:Eg; [|discriminate].
    apply IH. apply Forall_alter; [exact Hall|].
    intros tr _ Htr. now apply (HQ key).
Qed.

Lemma sum_list_with_map {A B : Type} (f : B -> nat) (g : A -> B) (l : list A) :
  sum_list_with f (List.map g l) = sum_list_with (fun a => f (g a)) l.
Proof. induction l as [|a l IH]; simpl; [reflexivity|]. now rewrite IH. Qed.

Lemma sum_list_with_zero {A : Type} (f : A -> nat) (l : list A) :
  Forall (fun a => f a = 0%nat) l -> sum_list_with f l = 0%nat.
Proof. induction 1 as [|a l Ha _ IH]; simpl; [reflexivity|]. lia. Qed.

(** The state [PushParsed] hands to its goroutines meets the invariant. *)
Lemma PushParsed_invariant ctx req w fan :
  ringFits32 ->
  result (PushParsed ctx req w) = Done fan ->
  GoInt.len (trackers fan) < 2 ^ 31 ->
  invariant fan.
Proof.
  intros Hring Hdone Hlen.
  apply PushParsed_Done in Hdone
    as (tenantID & profileSeries & profiles & w' & selected & Ht & Hfresh & Hsel & ->).
  cbn [trackers] in Hlen. unfold GoInt.len in Hlen.
  assert (Hfresh' : Forall (fun tr => succeeded tr = 0 /\ minSuccess tr = 0) profiles).
  { clear Hsel. induction Hfresh as [|sr tr srs trs (_ & Hs & _ & Hm) _ IH];
      constructor; auto. }
  assert (Hzero : Forall (fun tr => succeeded tr = 0) selected.1).
  { eapply (shardSelect_Forall (fun tr => succeeded tr = 0)); [| |exact Hsel].
    - intros key rs tr _ H. exact H.
    - eapply Forall_impl; [exact Hfresh'|]. now intros tr [? _]. }
  assert (Hmin : Forall (fun tr => - 2 ^ 31 <= minSuccess tr < 2 ^ 31) selected.1).
  { eapply (shardSelect_Forall (fun tr => - 2 ^ 31 <= minSuccess tr < 2 ^ 31));
      [| |exact Hsel].
    - intros key rs tr Hrs _. destruct (Hring _ _ _ _ Hrs) as [Hl Hm].
      simpl. unfold GoInt.len in *. rewrite int_small; lia.
    - eapply Forall_impl; [exact Hfresh'|]. intros tr [_ ->]. lia. }
  set (mk := fun entry : string * list nat =>
               {| ingester := default {| ring.Addr := "" |} (selected.2.2 !! entry.1);
                  profileTrackers := entry.2;
                  sendErr := None; index := 0; point := Calling |}).
  assert (Hcalling : Forall (fun sd => point sd = Calling /\ index sd = 0%nat)
                       (List.map mk (map_to_list selected.2.1))).
  { apply Forall_forall. intros sd Hsd.
    apply list_elem_of_In, in_map_iff in Hsd as (entry & <- & _). now split. }
  constructor; cbn [trackers push senders caller].
  - exact Hlen.
  - exact Hmin.
  - intros t. unfold capacity. cbn [senders]. rewrite sum_list_with_map.
    destruct (shardSelect_assigned _ _ _ _ _ _ _ t Hring Hsel) as [_ Hle].
    unfold assigned in Hle. cbn [fst] in Hle.
    rewrite map_to_list_empty in Hle. simpl in Hle. exact Hle.
  - eapply Forall_impl; [exact Hcalling|]. now intros sd [_ ?].
  - intros t tr Htr. rewrite Forall_forall in Hzero.
    rewrite (Hzero tr) by (eapply list_elem_of_lookup_2; exact Htr).
    unfold registered. cbn [senders]. rewrite sum_list_with_zero; [reflexivity|].
    eapply Forall_impl; [exact Hcalling|].
    intros sd [Hp _]. unfold registeredBy. now rewrite Hp.
  - exists 0%nat. split.
    + simpl. unfold GoInt.len. rewrite int32_small; lia.
    + unfold pendingCount, reachedCount. cbn [senders trackers].
      rewrite !sum_list_with_zero; [reflexivity| |].
      * eapply Forall_impl; [exact Hzero|]. intros tr Hs. unfold reachedb.
        rewrite Hs. destruct (Z.leb_spec 1 (minSuccess tr)); [|reflexivity].
        simpl. destruct (Z.leb_spec (minSuccess tr) 0); [lia|reflexivity].
      * eapply Forall_impl; [exact Hcalling|]. intros sd [Hp _].
        unfold pendingb. now rewrite Hp.
  - intros [(sd & Hin & Hd)|[H|H]]; [|contradiction|discriminate].
    rewrite Forall_forall in Hcalling. destruct (Hcalling sd Hin) as [Hp _].
    congruence.
Qed.

End FanoutFacts.

(** ** Schedules *)

Section ScheduleFacts.

Lemma exec_step a st st' : exec a st = Some st' -> step st st'.
Proof.
  destruct a as [s e| | |]; simpl.
  - destruct (senders st !! s) as [sd|] eqn:Hs; [|discriminate].
    destruct (point sd) eqn:Hp.
    + intros [= <-]. now apply step_call.
    + destruct (profileTrackers sd !! index sd) as [t|] eqn:Hi; [|discriminate].
      destruct (trackers st !! t) as [tr|] eqn:Ht; [|discriminate].
      destruct (sendErr sd) as [e'|] eqn:He; intros [= <-].
      * now apply (step_failed st s sd t tr e').
      * now apply step_succeeded.
    + intros [= <-]. now apply step_pending.
    + destruct (done (push st)) eqn:Hd; [|discriminate].
      intros [= <-]. now apply step_done.
    + intros [= <-]. now apply step_samplesFailed.
    + destruct (sendErr sd) as [e'|] eqn:He; [|discriminate].
      destruct (err (push st)) eqn:Herr; [|discriminate].
      intros [= <-]. now apply step_err.
  - destruct (caller st) eqn:Hc; [|discriminate].
    destruct (err (push st)) as [|e rest] eqn:Herr; [discriminate|].
    intros [= <-]. now apply step_select_err.
  - destruct (caller st) eqn:Hc; [|discriminate].
    destruct (done (push st)) as [|u rest] eqn:Hd; [discriminate|].
    intros [= <-]. now apply (step_select_done st u rest).
  - destruct (caller st) eqn:Hc; [|discriminate].
    intros [= <-]. now apply step_select_ctx.
Qed.

Lemma run_reaches schedule st st' : run schedule st = Some st' -> reaches st st'.
Proof.
  revert st. induction schedule as [|a schedule IH]; intros st; simpl.
  - intros [= <-]. apply rtc_refl.
  - destruct (exec a st) as [st1|] eqn:Ea; [|discriminate].
    intros H. eapply rtc_l; [eapply exec_step; exact Ea|now apply IH].
Qed.

Lemma step_quorums st st' :
  step st st' -> minSuccess <$> trackers st' = minSuccess <$> trackers st.
Proof.
  intros Hstep.
  inversion Hstep as
    [ st0 s sd e Hs Hp
    | st0 s sd t0 tr Hs Hp He Hidx Ht
    | st0 s sd Hs Hp
    | st0 s sd Hs Hp Hd
    | st0 s sd t0 tr e Hs Hp He Hidx Ht
    | st0 s sd Hs Hp
    | st0 s sd e Hs Hp He Herr
    | st0 e rest Hc Herr
    | st0 u rest Hc Hd
    | st0 Hc ]; subst;
    unfold setSender, setTracker, setPush, setCaller;
    cbn [trackers push senders caller]; try reflexivity.
  - rewrite list_fmap_insert. apply list_insert_id.
    rewrite list_lookup_fmap, Ht. reflexivity.
  - rewrite list_fmap_insert. apply list_insert_id.
    rewrite list_lookup_fmap, Ht. reflexivity.
Qed.

Lemma reaches_quorums st st' :
  reaches st st' -> minSuccess <$> trackers st' = minSuccess <$> trackers st.
Proof.
  induction 1 as [|st1 st2 st3 Hstep _ IH]; [reflexivity|].
  rewrite IH. now apply step_quorums.
Qed.

End ScheduleFacts.

(** C1.  With a ring whose replication sets fit the 32-bit counters and
    fewer than [2^31] series: in every state a push reaches from its
    fan-out in which the caller has returned the response (the [select]
    took [done]), every series has received at least as many
    acknowledgements, pushes that carried it and returned without error, as
    the [minSuccess] recorded in its tracker. *)
Theorem PushParsed_success_quorum
    {L : Limits} {C : phlaremodel.SessionIDCodec} {Srt : sort.Sorter}
    {P : pprof.Ops} {V : validation.Ops} {R : limiter.RateLimiter}
    {G : ring.ReadRing} {E : Environment}
    (ctx : Context) (req : distributormodel.PushRequest) (w : World)
    (fan st : Fanout) (t : nat) (tracker : profileTracker) :
  ringFits32 ->
  result (PushParsed ctx req w) = Done fan ->
  GoInt.len (trackers fan) < 2 ^ 31 ->
  reaches fan st ->
  caller st = Returned None ->
  trackers fan !! t = Some tracker ->
  minSuccess tracker <= Z.of_nat (acknowledgements st t).
Proof.
  intros Hring Hdone Hlen Hreach Hret Ht.
  pose proof (PushParsed_invariant ctx req w fan Hring Hdone Hlen) as Hinv.
  pose proof (invariant_reaches fan st Hinv Hreach) as Hinv'.
  pose proof (reaches_quorums fan st Hreach) as Hq.
  assert (Hst : exists tr, trackers st !! t = Some tr /\
                           minSuccess tr = minSuccess tracker).
  { assert (H : (minSuccess <$> trackers st) !! t = Some (minSuccess tracker)).
    { rewrite Hq, list_lookup_fmap, Ht. reflexivity. }
    rewrite list_lookup_fmap in H.
    destruct (trackers st !! t) as [tr|]; [|discriminate].
    injection H as H. eauto. }
  destruct Hst as (tr & Htr & Hm).
  destruct (invariant_success st t tr Hinv' Hret Htr) as (_ & _ & Hack).
  now rewrite <- Hm.
Qed.

(** The example push under the example schedule: two ingesters answer, one
    fails, the caller gets the response, and the first series has its two
    acknowledgements. *)
Lemma PushParsed_success_quorum_witness :
  let L := Example.limits8 in
  let C := SessionHex.codec in
  let Srt := sort.stableSorter in
  let P := Example.ops in
  let V := Example.validationOps in
  let R := Example.limiterOpen in
  let G := Example.ring3 in
  let E := Example.environment in
  exists fan st tracker,
    ringFits32 /\
    result (PushParsed Example.context Example.request Example.world0) = Done fan /\
    GoInt.len (trackers fan) < 2 ^ 31 /\
    reaches fan st /\
    caller st = Returned None /\
    trackers fan !! 0%nat = Some tracker /\
    minSuccess tracker = 2 /\
    acknowledgements st 0 = 2%nat /\
    minSuccess tracker <= Z.of_nat (acknowledgements st 0).
Proof.
  intros L C Srt P V R G E.
  let r := eval vm_compute in
    (result (PushParsed Example.context Example.request Example.world0)) in
  match r with Done ?f => pose (fan := f) end.
  let r := eval vm_compute in (run Example.schedule fan) in
  match r with Some ?s => pose (st := s) end.
  let r := eval vm_compute in (trackers fan !! 0%nat) in
  match r with Some ?t => pose (tracker := t) end.
  assert (H1 : ringFits32).
  { intros tenantID size key rs Hrs. cbn in Hrs. injection Hrs as <-.
    cbn. unfold GoInt.len. cbn. lia. }
  assert (H2 : result (PushParsed Example.context Example.request Example.world0)
               = Done fan) by (vm_compute; reflexivity).
  assert (H3 : GoInt.len (trackers fan) < 2 ^ 31) by (vm_compute; reflexivity).
  assert (H4 : reaches fan st).
  { apply (run_reaches Example.schedule). vm_compute. reflexivity. }
  assert (H5 : caller st = Returned None) by reflexivity.
  assert (H6 : trackers fan !! 0%nat = Some tracker) by reflexivity.
  exists fan, st, tracker.
  split; [exact H1|]. split; [exact H2|]. split; [exact H3|].
  split; [exact H4|]. split; [exact H5|]. split; [exact H6|].
  split; [reflexivity|]. split; [vm_compute; reflexivity|].
  exact (PushParsed_success_quorum Example.context Example.request Example.world0
           fan st 0 tracker H1 H2 H3 H4 H5 H6).
Defined.

(* ===================================================================== *)
(** * Further properties of the distributor *)
(* ===================================================================== *)

(** Equations between wrapped sums: both sides are reduced modulo the
    width, and the sums compared. *)
Ltac wrap_eq :=
  unfold GoInt.int64, GoInt.int32, GoInt.int;
  apply signed_congr;
  match goal with |- ?a mod ?m = ?b mod ?m => change (eqm m a b) end;
  rewrite ?signed_eqm by lia;
  unfold eqm;
  match goal with
  | |- ?a mod ?m = ?b mod ?m => replace a with b by lia; reflexivity
  end.

(** ** The session limit *)

Section SessionLimitFacts.

Context {L : Limits} {C : phlaremodel.SessionIDCodec}.

Implicit Types (ls labels : Labels) (l x : LabelPair) (n m v : string).

Lemma GetLabel_setValue ls n v l :
  phlaremodel.GetLabel ls n = Some l ->
  phlaremodel.GetLabel (phlaremodel.setValue ls n v) n =
  Some {| Name := Name l; Value := v |}.
Proof.
  induction ls as [|y ls IH]; cbn; [discriminate|].
  destruct (String.eqb (Name y) n) eqn:En; cbn.
  - intros [= <-]. now rewrite En.
  - intros H. rewrite En. now apply IH.
Qed.

Lemma GetLabel_setValue_ne ls n m v :
  m <> n ->
  phlaremodel.GetLabel (phlaremodel.setValue ls n v) m = phlaremodel.GetLabel ls m.
Proof.
  intros Hne. induction ls as [|y ls IH]; cbn; [reflexivity|].
  destruct (String.eqb (Name y) n) eqn:En; cbn.
  - apply String.eqb_eq in En.
    assert (Hm : String.eqb (Name y) m = false).
    { apply String.eqb_neq. congruence. }
    now rewrite Hm.
  - destruct (String.eqb (Name y) m); [reflexivity|exact IH].
Qed.

Lemma setValue_names ls n v :
  Name <$> phlaremodel.setValue ls n v = Name <$> ls.
Proof.
  induction ls as [|y ls IH]; cbn; [reflexivity|].
  destruct (String.eqb (Name y) n); cbn; [reflexivity|now rewrite IH].
Qed.

Lemma Delete_setValue ls n v :
  phlaremodel.Delete (phlaremodel.setValue ls n v) n = phlaremodel.Delete ls n.
Proof.
  induction ls as [|y ls IH]; cbn; [reflexivity|].
  destruct (String.eqb (Name y) n) eqn:En; cbn; rewrite En; cbn.
  - reflexivity.
  - f_equal. exact IH.
Qed.

Lemma Delete_Delete ls n :
  phlaremodel.Delete (phlaremodel.Delete ls n) n = phlaremodel.Delete ls n.
Proof.
  induction ls as [|y ls IH]; cbn; [reflexivity|].
  destruct (String.eqb (Name y) n) eqn:En; cbn; [exact IH|].
  rewrite En. cbn. f_equal. exact IH.
Qed.

Lemma Delete_absent ls n :
  phlaremodel.GetLabel ls n = None -> phlaremodel.Delete ls n = ls.
Proof.
  induction ls as [|y ls IH]; cbn; [reflexivity|].
  destruct (String.eqb (Name y) n); cbn; [discriminate|].
  intros H. f_equal. now apply IH.
Qed.

(** Whatever the limit and the session id, the labels of the other names
    come back as they were given. *)
Lemma limitMaxSessionsPerSeries_Delete tenantID labels :
  phlaremodel.Delete (limitMaxSessionsPerSeries tenantID labels)
    phlaremodel.LabelNameSessionID =
  phlaremodel.Delete labels phlaremodel.LabelNameSessionID.
Proof.
  unfold limitMaxSessionsPerSeries.
  destruct (MaxSessionsPerSeries tenantID =? 0); [apply Delete_Delete|].
  destruct (phlaremodel.GetLabel labels phlaremodel.LabelNameSessionID) as [l|];
    [|reflexivity].
  destruct (phlaremodel.ParseSessionID (Value l)) as [v|].
  - apply Delete_setValue.
  - apply Delete_Delete.
Qed.

End SessionLimitFacts.

(** X1.  With [MaxSessionsPerSeries] 0, [limitMaxSessionsPerSeries] strips
    every label named [session_id], a second one as well: no label of that
    name is left, whatever its value, and the session id is not parsed. *)
Theorem limitMaxSessionsPerSeries_zero_strips
    {L : Limits} {C : phlaremodel.SessionIDCodec}
    (tenantID : string) (labels : Labels) :
  MaxSessionsPerSeries tenantID = 0 ->
  let r := limitMaxSessionsPerSeries tenantID labels in
  (forall x, x ∈ r <-> x ∈ labels /\ Name x <> phlaremodel.LabelNameSessionID) /\
  phlaremodel.GetLabel r phlaremodel.LabelNameSessionID = None /\
  sublist r labels.
Proof.
  intros H0 r.
  assert (Hr : r = phlaremodel.Delete labels phlaremodel.LabelNameSessionID).
  { apply limitMaxSessionsPerSeries_zero, H0. }
  rewrite Hr. split; [intros x; apply elem_of_Delete|].
  split; [apply GetLabel_Delete|apply Delete_sublist].
Qed.

Lemma limitMaxSessionsPerSeries_zero_strips_witness :
  let L := Example.limits0 in
  let C := SessionHex.codec in
  let labels := [Example.label "session_id" "000000000000002a";
                 Example.label "service_name" "svc";
                 Example.label "session_id" "zz"] in
  MaxSessionsPerSeries "t1" = 0 /\
  limitMaxSessionsPerSeries "t1" labels = [Example.label "service_name" "svc"] /\
  phlaremodel.GetLabel (limitMaxSessionsPerSeries "t1" labels)
    phlaremodel.LabelNameSessionID = None.
Proof.
  intros L C labels.
  assert (H0 : MaxSessionsPerSeries "t1" = 0) by reflexivity.
  split; [exact H0|]. split; [reflexivity|].
  exact (proj1 (proj2 (limitMaxSessionsPerSeries_zero_strips "t1" labels H0))).
Defined.

(** X2.  [limitMaxSessionsPerSeries] never touches a label of another name:
    whatever the limit and whatever the session id, the labels not named
    [session_id] are returned as given and in their order, and labels
    without a [session_id] label are returned unchanged. *)
Theorem limitMaxSessionsPerSeries_other_labels_untouched
    {L : Limits} {C : phlaremodel.SessionIDCodec}
    (tenantID : string) (labels : Labels) :
  let r := limitMaxSessionsPerSeries tenantID labels in
  phlaremodel.Delete r phlaremodel.LabelNameSessionID =
    phlaremodel.Delete labels phlaremodel.LabelNameSessionID /\
  (forall n, n <> phlaremodel.LabelNameSessionID ->
     phlaremodel.GetLabel r n = phlaremodel.GetLabel labels n) /\
  (phlaremodel.GetLabel labels phlaremodel.LabelNameSessionID = None ->
     r = labels).
Proof.
  intros r. pose proof (limitMaxSessionsPerSeries_Delete tenantID labels) as Hd.
  split; [exact Hd|]. split.
  - intros n Hn.
    rewrite <- (GetLabel_Delete_ne r _ n Hn), <- (GetLabel_Delete_ne labels _ n Hn).
    unfold r. now rewrite Hd.
  - intros Hnone. unfold r, limitMaxSessionsPerSeries. rewrite Hnone.
    destruct (MaxSessionsPerSeries tenantID =? 0); [|reflexivity].
    now apply Delete_absent.
Qed.

(** X3.  With a limit [N > 0] and a session id below [2^63], the value of
    the first [session_id] label becomes the id modulo [N], rendered by
    [SessionID.String]; the names of the labels, their order and every
    other label stay as they were. *)
Theorem limitMaxSessionsPerSeries_reduces_low_ids
    {L : Limits} {C : phlaremodel.SessionIDCodec}
    (tenantID : string) (labels : Labels) (l : LabelPair) (v : Z) :
  0 < MaxSessionsPerSeries tenantID ->
  phlaremodel.GetLabel labels phlaremodel.LabelNameSessionID = Some l ->
  phlaremodel.ParseSessionID (Value l) = Some v ->
  0 <= v < 2 ^ 63 ->
  let r := limitMaxSessionsPerSeries tenantID labels in
  phlaremodel.GetLabel r phlaremodel.LabelNameSessionID =
    Some {| Name := Name l;
            Value := phlaremodel.SessionID_String
                       (v mod MaxSessionsPerSeries tenantID) |} /\
  Name <$> r = Name <$> labels /\
  (forall n, n <> phlaremodel.LabelNameSessionID ->
     phlaremodel.GetLabel r n = phlaremodel.GetLabel labels n).
Proof.
  intros HN Hl Hv Hrange r.
  assert (Hr : r = phlaremodel.setValue labels phlaremodel.LabelNameSessionID
                 (phlaremodel.SessionID_String
                    (v mod MaxSessionsPerSeries tenantID))).
  { unfold r. rewrite (limitMaxSessionsPerSeries_parsed tenantID labels l v);
      [|lia|assumption|assumption].
    now rewrite reduce_session_low. }
  rewrite Hr. split; [now apply GetLabel_setValue|].
  split; [apply setValue_names|].
  intros n Hn. now apply GetLabel_setValue_ne.
Qed.

Lemma limitMaxSessionsPerSeries_reduces_low_ids_witness :
  let L := Example.limits8 in
  let C := SessionHex.codec in
  let labels := [Example.label "service_name" "svc";
                 Example.label "session_id" "000000000000002a"] in
  0 < MaxSessionsPerSeries "t1" /\
  phlaremodel.GetLabel labels phlaremodel.LabelNameSessionID =
    Some (Example.label "session_id" "000000000000002a") /\
  phlaremodel.ParseSessionID "000000000000002a" = Some 42 /\
  0 <= 42 < 2 ^ 63 /\
  phlaremodel.GetLabel (limitMaxSessionsPerSeries "t1" labels)
    phlaremodel.LabelNameSessionID =
    Some (Example.label "session_id" "0000000000000002").
Proof.
  intros L C labels.
  assert (H1 : 0 < MaxSessionsPerSeries "t1") by reflexivity.
  assert (H2 : phlaremodel.GetLabel labels phlaremodel.LabelNameSessionID =
               Some (Example.label "session_id" "000000000000002a"))
    by reflexivity.
  assert (H3 : phlaremodel.ParseSessionID
                 (Value (Example.label "session_id" "000000000000002a")) = Some 42)
    by reflexivity.
  assert (H4 : 0 <= 42 < 2 ^ 63) by lia.
  split; [exact H1|]. split; [exact H2|]. split; [exact H3|]. split; [exact H4|].
  exact (proj1 (limitMaxSessionsPerSeries_reduces_low_ids "t1" labels _ 42
                  H1 H2 H3 H4)).
Defined.

(** X4.  With a limit [N > 0], whatever 64-bit session id the label holds,
    the id written back is below [N] or above [2^64 - N]: a series keeps one
    of at most [2N - 1] session ids. *)
Theorem limitMaxSessionsPerSeries_session_values
    {L : Limits} {C : phlaremodel.SessionIDCodec}
    (tenantID : string) (labels : Labels) (l : LabelPair) (v : Z) :
  0 < MaxSessionsPerSeries tenantID < 2 ^ 63 ->
  phlaremodel.GetLabel labels phlaremodel.LabelNameSessionID = Some l ->
  phlaremodel.ParseSessionID (Value l) = Some v ->
  0 <= v < 2 ^ 64 ->
  exists id,
    phlaremodel.GetLabel (limitMaxSessionsPerSeries tenantID labels)
      phlaremodel.LabelNameSessionID =
      Some {| Name := Name l; Value := phlaremodel.SessionID_String id |} /\
    (0 <= id < MaxSessionsPerSeries tenantID \/
     2 ^ 64 - MaxSessionsPerSeries tenantID < id < 2 ^ 64).
Proof.
  intros HN Hl Hv Hrange.
  rewrite (limitMaxSessionsPerSeries_parsed tenantID labels l v);
    [|lia|assumption|assumption].
  eexists. split; [now apply GetLabel_setValue|].
  destruct (Z_lt_ge_dec v (2 ^ 63)) as [Hlow|Hhigh].
  - left. rewrite reduce_session_low by lia. apply Z.mod_pos_bound. lia.
  - destruct (Z.eq_dec (GoInt.rem (GoInt.int v) (MaxSessionsPerSeries tenantID)) 0)
      as [E0|Hne].
    + left. rewrite E0. unfold GoInt.uint64, GoInt.unsigned.
      rewrite Z.mod_0_l by lia. lia.
    + right. apply reduce_session_high; [assumption|lia|assumption].
Qed.

Lemma limitMaxSessionsPerSeries_session_values_witness :
  let L := Example.limits8 in
  let C := SessionHex.codec in
  let labels := [Example.label "session_id" "fffffffffffffffe"] in
  exists id,
    0 < MaxSessionsPerSeries "t1" < 2 ^ 63 /\
    phlaremodel.ParseSessionID "fffffffffffffffe" = Some (2 ^ 64 - 2) /\
    phlaremodel.GetLabel (limitMaxSessionsPerSeries "t1" labels)
      phlaremodel.LabelNameSessionID =
      Some (Example.label "session_id" (phlaremodel.SessionID_String id)) /\
    (0 <= id < 8 \/ 2 ^ 64 - 8 < id < 2 ^ 64).
Proof.
  intros L C labels.
  assert (H1 : 0 < MaxSessionsPerSeries "t1" < 2 ^ 63) by (cbn; lia).
  assert (H2 : phlaremodel.GetLabel labels phlaremodel.LabelNameSessionID =
               Some (Example.label "session_id" "fffffffffffffffe"))
    by reflexivity.
  assert (H3 : phlaremodel.ParseSessionID
                 (Value (Example.label "session_id" "fffffffffffffffe")) =
               Some (2 ^ 64 - 2)) by reflexivity.
  assert (H4 : 0 <= 2 ^ 64 - 2 < 2 ^ 64) by lia.
  destruct (limitMaxSessionsPerSeries_session_values "t1" labels _ _ H1 H2 H3 H4)
    as (id & Hid & Hb).
  exists id. split; [exact H1|]. split; [exact H3|]. split; [exact Hid|exact Hb].
Defined.

(** ** The merge of series and sample labels *)

Section MergeFacts.

Implicit Types (p : googlev1.Profile) (sl m : Labels) (pl : list googlev1.Label).

Lemma stringAt_None p i : googlev1.stringAt p i = None <-> outOfRange p i.
Proof.
  unfold googlev1.stringAt, outOfRange, GoInt.len.
  destruct (i <? 0) eqn:Ei.
  - apply Z.ltb_lt in Ei. split; [intros _; now left|reflexivity].
  - apply Z.ltb_ge in Ei. rewrite lookup_ge_None. split.
    + intros H. right. lia.
    + intros [H|H]; lia.
Qed.

Lemma resolveLabel_None p l :
  resolveLabel p l = None <->
  outOfRange p (googlev1.Key l) \/ outOfRange p (googlev1.Str l).
Proof.
  unfold resolveLabel. rewrite <- !stringAt_None.
  destruct (googlev1.stringAt p (googlev1.Key l)),
           (googlev1.stringAt p (googlev1.Str l)); split;
    try (intros [?|?]); try discriminate; auto.
Qed.

Lemma mapM_None_resolve p pl :
  mapM (resolveLabel p) pl = None <->
  exists l, l ∈ pl /\ resolveLabel p l = None.
Proof.
  induction pl as [|l pl IH]; cbn.
  - split; [discriminate|]. intros (l & Hl & _). inversion Hl.
  - destruct (resolveLabel p l) as [lp|] eqn:E; cbn.
    + destruct (mapM (resolveLabel p) pl) as [r|]; cbn.
      * split; [discriminate|]. intros (l' & Hl' & Hn).
        apply elem_of_cons in Hl' as [->|Hl']; [congruence|].
        assert (H : Some r = None) by (apply IH; eauto). discriminate.
      * split; [|reflexivity]. intros _.
        destruct (proj1 IH eq_refl) as (l' & Hl' & Hn).
        exists l'. split; [now right|exact Hn].
    + split; [|reflexivity]. intros _. exists l. split; [left|exact E].
Qed.

Lemma merge_None p sl pl :
  mergeSeriesAndSampleLabels p sl pl = None <->
  mapM (resolveLabel p) pl = None.
Proof.
  unfold mergeSeriesAndSampleLabels. rewrite appendResolved_mapM.
  destruct (mapM (resolveLabel p) pl); cbn; split; congruence.
Qed.

Lemma merge_Some p sl pl m :
  mergeSeriesAndSampleLabels p sl pl = Some m ->
  exists resolved,
    mapM (resolveLabel p) pl = Some resolved /\
    m = phlaremodel.Unique (sort.Stable (sl ++ resolved)).
Proof.
  unfold mergeSeriesAndSampleLabels. rewrite appendResolved_mapM, Clone_id.
  destruct (mapM (resolveLabel p) pl) as [resolved|]; cbn; [|discriminate].
  intros [= <-]. eauto.
Qed.

Lemma merge_Some_resolves p sl pl m :
  mergeSeriesAndSampleLabels p sl pl = Some m ->
  Forall (fun l => is_Some (resolveLabel p l)) pl.
Proof.
  intros H. apply Forall_forall. intros l Hl.
  destruct (resolveLabel p l) eqn:E; [eauto|].
  assert (Hn : mergeSeriesAndSampleLabels p sl pl = None).
  { apply merge_None, mapM_None_resolve. eauto. }
  congruence.
Qed.

Lemma unique_after_length (last : LabelPair) (ls : Labels) :
  (length (phlaremodel.unique_after last ls) <= length ls)%nat.
Proof.
  revert last. induction ls as [|l ls IH]; intros last; cbn; [lia|].
  destruct (String.eqb (Name l) (Name last)); cbn.
  - specialize (IH last). lia.
  - specialize (IH l). lia.
Qed.

Lemma Unique_length (ls : Labels) :
  (length (phlaremodel.Unique ls) <= length ls)%nat.
Proof.
  destruct ls as [|l ls]; cbn; [lia|].
  pose proof (unique_after_length l ls). lia.
Qed.

Lemma merge_ascending p sl pl m :
  mergeSeriesAndSampleLabels p sl pl = Some m -> ascending m.
Proof.
  intros H. apply merge_Some in H as (resolved & _ & ->).
  apply Unique_ascending, Stable_ordered.
Qed.

Lemma merge_keeps_series_labels p sl pl m l :
  ascending sl -> mergeSeriesAndSampleLabels p sl pl = Some m ->
  l ∈ sl -> l ∈ m.
Proof.
  intros Hsl H Hl. apply merge_Some in H as (resolved & _ & ->).
  assert (Hg : phlaremodel.GetLabel
                 (phlaremodel.Unique (sort.Stable (sl ++ resolved))) (Name l) =
               Some l).
  { rewrite GetLabel_Unique, GetLabel_Stable, GetLabel_app.
    now rewrite (GetLabel_ascending sl l Hsl Hl). }
  now apply GetLabel_Some in Hg.
Qed.

End MergeFacts.

(** X5.  [mergeSeriesAndSampleLabels] panics exactly when a sample label
    has a [Key] or a [Str] outside the string table of the profile: the
    series labels play no part in it, and [Num] and [NumUnit] are not
    read. *)
Theorem mergeSeriesAndSampleLabels_panics_iff
    (p : googlev1.Profile) (sl : Labels) (pl : list googlev1.Label) :
  mergeSeriesAndSampleLabels p sl pl = None <->
  exists l, l ∈ pl /\
    (outOfRange p (googlev1.Key l) \/ outOfRange p (googlev1.Str l)).
Proof.
  rewrite merge_None, mapM_None_resolve.
  split; intros (l & Hl & H); exists l; (split; [exact Hl|]);
    now apply resolveLabel_None.
Qed.

(** X6.  Whatever the series labels are, sorted or not, with a name twice
    or not: what [mergeSeriesAndSampleLabels] returns is sorted ascending
    by name without a name twice, holds under each name the first label of
    that name among the series labels followed by the resolved sample
    labels, holds no label that is not one of those, and is no longer than
    the two together. *)
Theorem mergeSeriesAndSampleLabels_sorted_unique
    (p : googlev1.Profile) (sl : Labels) (pl : list googlev1.Label) (m : Labels) :
  mergeSeriesAndSampleLabels p sl pl = Some m ->
  exists resolved,
    mapM (resolveLabel p) pl = Some resolved /\
    ascending m /\
    (forall n, phlaremodel.GetLabel m n =
               phlaremodel.GetLabel (sl ++ resolved) n) /\
    (forall l, l ∈ m -> l ∈ sl ++ resolved) /\
    (length m <= length sl + length pl)%nat.
Proof.
  intros H. pose proof (merge_ascending _ _ _ _ H) as Hasc.
  apply merge_Some in H as (resolved & Hmap & ->).
  exists resolved. split; [exact Hmap|]. split; [exact Hasc|].
  assert (Hget : forall n,
    phlaremodel.GetLabel (phlaremodel.Unique (sort.Stable (sl ++ resolved))) n =
    phlaremodel.GetLabel (sl ++ resolved) n).
  { intros n. now rewrite GetLabel_Unique, GetLabel_Stable. }
  split; [exact Hget|]. split.
  - intros l Hl. pose proof (GetLabel_ascending _ l Hasc Hl) as Hg.
    rewrite Hget in Hg. now apply GetLabel_Some in Hg.
  - pose proof (Unique_length (sort.Stable (sl ++ resolved))) as Hu.
    pose proof (Permutation_length (Stable_permutation (sl ++ resolved))) as Hp.
    apply length_mapM in Hmap. rewrite length_app in Hp. lia.
Qed.

Lemma mergeSeriesAndSampleLabels_sorted_unique_witness :
  let sl := [Example.label "service_name" "svc"; Example.label "__name__" "cpu";
             Example.label "service_name" "late"] in
  mergeSeriesAndSampleLabels Example.profile sl Example.sampleLabels =
    Some [Example.label "__name__" "cpu"; Example.label "service_name" "svc";
          Example.label "span_name" "render"] /\
  ascending [Example.label "__name__" "cpu"; Example.label "service_name" "svc";
             Example.label "span_name" "render"].
Proof.
  intros sl.
  assert (H : mergeSeriesAndSampleLabels Example.profile sl Example.sampleLabels =
    Some [Example.label "__name__" "cpu"; Example.label "service_name" "svc";
          Example.label "span_name" "render"]) by reflexivity.
  split; [exact H|].
  destruct (mergeSeriesAndSampleLabels_sorted_unique _ _ _ _ H)
    as (resolved & _ & Hasc & _).
  exact Hasc.
Defined.

(** ** The split, series by series *)

Section SplitShape.

Context {P : pprof.Ops}.

Implicit Types (p q : googlev1.Profile) (sl : Labels)
  (raw : distributormodel.ProfileSample) (sr s : distributormodel.ProfileSeries).

Lemma Forall2_elem_of_l {A B : Type} (R : A -> B -> Prop) (l : list A)
    (k : list B) (x : A) :
  Forall2 R l k -> x ∈ l -> exists y, y ∈ k /\ R x y.
Proof.
  induction 1 as [|a b l k Hab _ IH]; intros Hx; [inversion Hx|].
  apply elem_of_cons in Hx as [->|Hx].
  - exists b. split; [left|exact Hab].
  - destruct (IH Hx) as (y & Hy & HR). exists y. split; [now right|exact HR].
Qed.

Lemma Forall2_elem_of_r {A B : Type} (R : A -> B -> Prop) (l : list A)
    (k : list B) (y : B) :
  Forall2 R l k -> y ∈ k -> exists x, x ∈ l /\ R x y.
Proof.
  induction 1 as [|a b l k Hab _ IH]; intros Hy; [inversion Hy|].
  apply elem_of_cons in Hy as [->|Hy].
  - exists a. split; [left|exact Hab].
  - destruct (IH Hy) as (x & Hx & HR). exists x. split; [now right|exact HR].
Qed.

Lemma exportGroups_None p sl groups :
  exportGroups p sl groups = None ->
  exists g, g ∈ groups /\
    mergeSeriesAndSampleLabels p sl (pprof.GroupLabels g) = None.
Proof.
  induction groups as [|g groups IH]; cbn; [discriminate|].
  destruct (mergeSeriesAndSampleLabels p sl (pprof.GroupLabels g)) as [m|] eqn:E.
  - destruct (exportGroups p sl groups) as [[series profiles]|]; [discriminate|].
    intros _. destruct (IH eq_refl) as (g' & Hg' & Hn).
    exists g'. split; [now right|exact Hn].
  - intros _. exists g. split; [left|exact E].
Qed.

Lemma exportGroups_Some p sl groups series profiles :
  exportGroups p sl groups = Some (series, profiles) ->
  Forall2
    (fun g s =>
       mergeSeriesAndSampleLabels p sl (pprof.GroupLabels g) =
         Some (distributormodel.SeriesLabels s))
    groups series /\
  List.map distributormodel.Samples series =
  List.map (fun q => [exportedSample q]) profiles.
Proof.
  revert series profiles.
  induction groups as [|g groups IH]; cbn; intros series profiles H.
  - injection H as <- <-. split; [constructor|reflexivity].
  - destruct (mergeSeriesAndSampleLabels p sl (pprof.GroupLabels g)) as [m|] eqn:E;
      [|discriminate].
    destruct (exportGroups p sl groups) as [[series' profiles']|]; [|discriminate].
    injection H as <- <-. destruct (IH _ _ eq_refl) as [IH1 IH2].
    split; [constructor; [exact E|exact IH1]|].
    cbn. now rewrite IH2.
Qed.

(** The test of [extractSampleSeries] for a profile without sample
    labels. *)
Lemma unlabelled_test p :
  unlabelled p <->
  match pprof.GroupSamplesWithoutLabels p pprof.SpanIDLabelName with
  | [] => true
  | [g] => (length (pprof.GroupLabels g) =? 0)%nat
  | _ => false
  end = true.
Proof.
  unfold unlabelled. cbn zeta.
  destruct (pprof.GroupSamplesWithoutLabels p pprof.SpanIDLabelName)
    as [|g [|g' groups]].
  - split; [reflexivity|now left].
  - rewrite Nat.eqb_eq, length_zero_iff_nil. split.
    + intros [H|(g0 & [= <-] & H)]; [discriminate|exact H].
    + intros H. right. eauto.
  - split; [|discriminate].
    intros [H|(g0 & H & _)]; discriminate.
Qed.

Lemma unlabelled_groupsResolve raw :
  unlabelled (prepared (distributormodel.Profile raw)) -> groupsResolve raw.
Proof.
  unfold unlabelled, groupsResolve. cbn zeta.
  intros [->|(g & -> & Hg)]; [constructor|].
  constructor; [|constructor]. rewrite Hg. constructor.
Qed.

Lemma extractSamples_unfold sl raw samples :
  extractSamples sl (raw :: samples) =
  let p := prepared (distributormodel.Profile raw) in
  match extractSamples sl samples with
  | None => None
  | Some (kept, split, profiles) =>
      if match pprof.GroupSamplesWithoutLabels p pprof.SpanIDLabelName with
         | [] => true
         | [g] => (length (pprof.GroupLabels g) =? 0)%nat
         | _ => false
         end
      then Some (keptSample raw :: kept, split, profiles)
      else
        match exportGroups p sl
                (pprof.GroupSamplesWithoutLabels p pprof.SpanIDLabelName) with
        | None => None
        | Some (split1, profiles1) =>
            Some (kept, split1 ++ split, profiles1 ++ profiles)
        end
  end.
Proof.
  cbn [extractSamples]. cbn zeta.
  destruct (extractSamples sl samples) as [[[kept split] profiles]|]; reflexivity.
Qed.

(** What the loop over the samples of a series returns: the samples it
    keeps are samples of the series, prepared; each series it splits off
    was merged from the labels of the series and those of a group of one
    of the samples, and holds one exported profile. *)
Lemma extractSamples_Some sl samples kept split profiles :
  extractSamples sl samples = Some (kept, split, profiles) ->
  Forall groupsResolve samples /\
  (forall k, k ∈ kept -> exists raw, raw ∈ samples /\ k = keptSample raw) /\
  Forall
    (fun s => exists raw g,
       raw ∈ samples /\
       mergeSeriesAndSampleLabels (prepared (distributormodel.Profile raw)) sl
         (pprof.GroupLabels g) = Some (distributormodel.SeriesLabels s))
    split /\
  List.map distributormodel.Samples split =
  List.map (fun q => [exportedSample q]) profiles.
Proof.
  revert kept split profiles.
  induction samples as [|raw samples IH]; intros kept split profiles H.
  - cbn in H. injection H as <- <- <-.
    split; [constructor|]. split; [intros k Hk; inversion Hk|].
    split; [constructor|reflexivity].
  - rewrite extractSamples_unfold in H. cbn zeta in H.
    destruct (extractSamples sl samples) as [[[kept' split'] profiles']|];
      [|discriminate].
    destruct (IH _ _ _ eq_refl) as (IH1 & IH2 & IH3 & IH4).
    assert (Hsplit' : Forall
      (fun s => exists raw0 g,
         raw0 ∈ raw :: samples /\
         mergeSeriesAndSampleLabels (prepared (distributormodel.Profile raw0)) sl
           (pprof.GroupLabels g) = Some (distributormodel.SeriesLabels s))
      split').
    { eapply Forall_impl; [exact IH3|]. cbn.
      intros s (raw0 & g & Hr & Hm). exists raw0, g. split; [now right|exact Hm]. }
    match type of H with (if ?b then _ else _) = _ => destruct b eqn:Eb end.
    + injection H as <- <- <-.
      split; [constructor; [|exact IH1]|].
      { now apply unlabelled_groupsResolve, unlabelled_test. }
      split; [|split; [exact Hsplit'|exact IH4]].
      intros k Hk. apply elem_of_cons in Hk as [->|Hk].
      * exists raw. split; [left|reflexivity].
      * destruct (IH2 k Hk) as (raw0 & Hr & ->). exists raw0. split; [now right|reflexivity].
    + destruct (exportGroups _ _ _) as [[split1 profiles1]|] eqn:Eg; [|discriminate].
      injection H as <- <- <-.
      apply exportGroups_Some in Eg as [Eg1 Eg2].
      split; [constructor; [|exact IH1]|].
      { unfold groupsResolve. cbn zeta. apply Forall_forall. intros g Hg.
        destruct (Forall2_elem_of_l _ _ _ _ Eg1 Hg) as (s & _ & Hm).
        eapply merge_Some_resolves. exact Hm. }
      split.
      { intros k Hk. destruct (IH2 k Hk) as (raw0 & Hr & ->).
        exists raw0. split; [now right|reflexivity]. }
      split.
      { apply Forall_app. split; [|exact Hsplit'].
        apply Forall_forall. intros s Hs.
        destruct (Forall2_elem_of_r _ _ _ _ Eg1 Hs) as (g & _ & Hm).
        exists raw, g. split; [left|exact Hm]. }
      rewrite !map_app. now rewrite Eg2, IH4.
Qed.

Lemma extractSamples_None sl samples :
  extractSamples sl samples = None ->
  exists raw g, raw ∈ samples /\
    g ∈ pprof.GroupSamplesWithoutLabels (prepared (distributormodel.Profile raw))
          pprof.SpanIDLabelName /\
    mergeSeriesAndSampleLabels (prepared (distributormodel.Profile raw)) sl
      (pprof.GroupLabels g) = None.
Proof.
  induction samples as [|raw samples IH]; [discriminate|].
  rewrite extractSamples_unfold. cbn zeta.
  destruct (extractSamples sl samples) as [[[kept split] profiles]|].
  - match goal with |- (if ?b then _ else _) = _ -> _ => destruct b end;
      [discriminate|].
    destruct (exportGroups _ _ _) as [[split1 profiles1]|] eqn:Eg; [discriminate|].
    intros _. apply exportGroups_None in Eg as (g & Hg & Hm).
    exists raw, g. split; [left|]. split; assumption.
  - intros _. destruct (IH eq_refl) as (raw0 & g & Hr & Hg & Hm).
    exists raw0, g. split; [now right|]. split; assumption.
Qed.

Lemma extractSeries_unfold sr series :
  extractSeries (sr :: series) =
  match extractSamples (distributormodel.SeriesLabels sr)
          (distributormodel.Samples sr) with
  | None => None
  | Some (kept, split, profiles) =>
      match extractSeries series with
      | None => None
      | Some (rest, profiles') =>
          Some (split ++
                (if (0 <? length kept)%nat
                 then [{| distributormodel.SeriesLabels :=
                            distributormodel.SeriesLabels sr;
                          distributormodel.Samples := kept |}]
                 else []) ++ rest,
                profiles ++ profiles')
      end
  end.
Proof. reflexivity. Qed.

End SplitShape.

Section SplitSeries.

Context {P : pprof.Ops}.

Implicit Types (p q : googlev1.Profile) (sl : Labels)
  (raw : distributormodel.ProfileSample) (sr s : distributormodel.ProfileSeries).

Lemma map_eq_elem_of_l {A B D : Type} (f : A -> D) (g : B -> D)
    (l : list A) (k : list B) (x : A) :
  List.map f l = List.map g k -> x ∈ l -> exists y, y ∈ k /\ f x = g y.
Proof.
  revert k. induction l as [|a l IH]; intros [|b k] H Hx;
    try discriminate; [inversion Hx|].
  cbn in H. injection H as Hab H.
  apply elem_of_cons in Hx as [->|Hx].
  - exists b. split; [left|exact Hab].
  - destruct (IH k H Hx) as (y & Hy & E). exists y. split; [now right|exact E].
Qed.

Lemma map_eq_elem_of_r {A B D : Type} (f : A -> D) (g : B -> D)
    (l : list A) (k : list B) (y : B) :
  List.map f l = List.map g k -> y ∈ k -> exists x, x ∈ l /\ f x = g y.
Proof.
  intros H Hy. symmetry in H.
  destruct (map_eq_elem_of_l g f k l y H Hy) as (x & Hx & E). eauto.
Qed.

(** Where an output series of [extractSampleSeries] comes from: it is a
    series of the request with the samples kept, or it was split off a
    sample of a series of the request. *)
Lemma extractSeries_Some series out profiles :
  extractSeries series = Some (out, profiles) ->
  Forall (fun sr => Forall groupsResolve (distributormodel.Samples sr)) series /\
  Forall
    (fun s =>
       distributormodel.Samples s <> [] /\
       exists sr, sr ∈ series /\
         ((distributormodel.SeriesLabels s = distributormodel.SeriesLabels sr /\
           forall k, k ∈ distributormodel.Samples s ->
             exists raw, raw ∈ distributormodel.Samples sr /\ k = keptSample raw) \/
          (exists raw g q,
             raw ∈ distributormodel.Samples sr /\
             mergeSeriesAndSampleLabels (prepared (distributormodel.Profile raw))
               (distributormodel.SeriesLabels sr) (pprof.GroupLabels g) =
               Some (distributormodel.SeriesLabels s) /\
             distributormodel.Samples s = [exportedSample q] /\ q ∈ profiles)))
    out /\
  (forall q, q ∈ profiles ->
     exists s, s ∈ out /\ distributormodel.Samples s = [exportedSample q]) /\
  (length profiles <= length out)%nat.
Proof.
  revert out profiles.
  induction series as [|sr series IH]; intros out profiles H.
  - cbn in H. injection H as <- <-.
    split; [constructor|]. split; [constructor|].
    split; [intros q Hq; inversion Hq|reflexivity].
  - rewrite extractSeries_unfold in H.
    destruct (extractSamples (distributormodel.SeriesLabels sr)
                (distributormodel.Samples sr))
      as [[[kept split] profiles1]|] eqn:Es; [|discriminate].
    destruct (extractSeries series) as [[rest profiles2]|]; [|discriminate].
    injection H as <- <-.
    apply extractSamples_Some in Es as (Hres & Hkept & Hsplit & Hmap).
    destruct (IH _ _ eq_refl) as (IH1 & IH2 & IH3 & IH4).
    split; [constructor; assumption|]. split; [|split].
    + apply Forall_app. split; [|apply Forall_app; split].
      * apply Forall_forall. intros s Hs.
        destruct (map_eq_elem_of_l _ _ _ _ s Hmap Hs) as (q & Hq & Eq).
        split; [rewrite Eq; discriminate|].
        rewrite Forall_forall in Hsplit.
        destruct (Hsplit s Hs) as (raw & g & Hraw & Hm).
        exists sr. split; [left|]. right. exists raw, g, q.
        split; [exact Hraw|]. split; [exact Hm|]. split; [exact Eq|].
        apply elem_of_app. now left.
      * destruct kept as [|k kept]; cbn; [constructor|].
        constructor; [|constructor]. cbn. split; [discriminate|].
        exists sr. split; [left|]. left. split; [reflexivity|exact Hkept].
      * eapply Forall_impl; [exact IH2|]. cbn.
        intros s (Hne & sr' & Hsr' & Hcase). split; [exact Hne|].
        exists sr'. split; [now right|].
        destruct Hcase as [Hcase|(raw & g & q & H1 & H2 & H3 & H4)];
          [now left|].
        right. exists raw, g, q. split; [exact H1|]. split; [exact H2|].
        split; [exact H3|]. apply elem_of_app. now right.
    + intros q Hq. apply elem_of_app in Hq as [Hq|Hq].
      * destruct (map_eq_elem_of_r _ _ _ _ q Hmap Hq) as (s & Hs & Eq).
        exists s. split; [|exact Eq]. apply elem_of_app. now left.
      * destruct (IH3 q Hq) as (s & Hs & Eq).
        exists s. split; [|exact Eq].
        apply elem_of_app. right. apply elem_of_app. now right.
    + apply (f_equal (@length _)) in Hmap. rewrite !length_map in Hmap.
      rewrite !length_app. lia.
Qed.

Lemma extractSeries_None series :
  extractSeries series = None ->
  exists sr raw g,
    sr ∈ series /\ raw ∈ distributormodel.Samples sr /\
    g ∈ pprof.GroupSamplesWithoutLabels (prepared (distributormodel.Profile raw))
          pprof.SpanIDLabelName /\
    mergeSeriesAndSampleLabels (prepared (distributormodel.Profile raw))
      (distributormodel.SeriesLabels sr) (pprof.GroupLabels g) = None.
Proof.
  induction series as [|sr series IH]; [discriminate|].
  rewrite extractSeries_unfold.
  destruct (extractSamples (distributormodel.SeriesLabels sr)
              (distributormodel.Samples sr))
    as [[[kept split] profiles1]|] eqn:Es.
  - destruct (extractSeries series) as [[rest profiles2]|]; [discriminate|].
    intros _. destruct (IH eq_refl) as (sr' & raw & g & H1 & H2 & H3 & H4).
    exists sr', raw, g. split; [now right|]. auto.
  - intros _. apply extractSamples_None in Es as (raw & g & H2 & H3 & H4).
    exists sr, raw, g. split; [left|]. auto.
Qed.

Lemma extractSamples_unlabelled sl samples :
  Forall (fun raw => unlabelled (prepared (distributormodel.Profile raw))) samples ->
  extractSamples sl samples = Some (List.map keptSample samples, [], []).
Proof.
  induction 1 as [|raw samples Hraw _ IH]; [reflexivity|].
  rewrite extractSamples_unfold. cbn zeta. rewrite IH.
  apply unlabelled_test in Hraw. now rewrite Hraw.
Qed.

End SplitSeries.

(** X7.  [extractSampleSeries] returns no series without samples: a series
    of the request that has none is dropped, a series split off holds the
    one profile exported for it.  Every profile it allocates is the profile
    of such a series, so there are no more new profiles than output
    series. *)
Theorem extractSampleSeries_no_empty_series
    {P : pprof.Ops} (req : distributormodel.PushRequest)
    (out : list distributormodel.ProfileSeries) (newProfiles : list googlev1.Profile) :
  extractSampleSeries req = Some (out, newProfiles) ->
  Forall (fun s => distributormodel.Samples s <> []) out /\
  (forall q, q ∈ newProfiles ->
     exists s, s ∈ out /\ distributormodel.Samples s = [exportedSample q]) /\
  (length newProfiles <= length out)%nat.
Proof.
  intros H. apply extractSeries_Some in H as (_ & Hout & Hnew & Hlen).
  split; [|split; assumption].
  eapply Forall_impl; [exact Hout|]. cbn. now intros s [Hne _].
Qed.

Lemma extractSampleSeries_no_empty_series_witness :
  let P := Example.ops in
  exists out newProfiles,
    extractSampleSeries Example.request = Some (out, newProfiles) /\
    Forall (fun s => distributormodel.Samples s <> []) out /\
    length newProfiles = 2%nat /\ length out = 3%nat.
Proof.
  intros P.
  let r := eval vm_compute in (extractSampleSeries Example.request) in
  match r with Some (?o, ?n) => pose (out := o); pose (newProfiles := n) end.
  assert (H : extractSampleSeries Example.request = Some (out, newProfiles))
    by (vm_compute; reflexivity).
  exists out, newProfiles. split; [exact H|].
  destruct (extractSampleSeries_no_empty_series _ _ _ H) as (H1 & _ & _).
  split; [exact H1|]. split; reflexivity.
Defined.

(** X8.  When no profile of the request has sample labels, the request is
    not modified: [extractSampleSeries] allocates no profile and returns
    the series of the request that have samples, in their order, with
    their labels and samples. *)
Theorem extractSampleSeries_unlabelled_request
    {P : pprof.Ops} (req : distributormodel.PushRequest) :
  Forall
    (fun sr =>
       Forall (fun raw => unlabelled (prepared (distributormodel.Profile raw)))
         (distributormodel.Samples sr))
    (distributormodel.Series req) ->
  extractSampleSeries req =
  Some (List.map keptSeries
          (List.filter
             (fun sr => (0 <? length (distributormodel.Samples sr))%nat)
             (distributormodel.Series req)),
        []).
Proof.
  unfold extractSampleSeries.
  induction 1 as [|sr series Hsr _ IH]; [reflexivity|].
  rewrite extractSeries_unfold, (extractSamples_unlabelled _ _ Hsr), IH.
  rewrite length_map. cbn [List.filter].
  destruct (0 <? length (distributormodel.Samples sr))%nat; reflexivity.
Qed.

Lemma extractSampleSeries_unlabelled_request_witness :
  let P := Example.ops in
  Forall
    (fun sr =>
       Forall (fun raw => unlabelled (prepared (distributormodel.Profile raw)))
         (distributormodel.Samples sr))
    (distributormodel.Series Example.plainRequest) /\
  extractSampleSeries Example.plainRequest =
  Some ([{| distributormodel.SeriesLabels := Example.seriesLabels;
            distributormodel.Samples :=
              [Example.rawSample Example.plainProfile "b"] |}], []).
Proof.
  intros P.
  assert (H : Forall
    (fun sr =>
       Forall (fun raw => unlabelled (prepared (distributormodel.Profile raw)))
         (distributormodel.Samples sr))
    (distributormodel.Series Example.plainRequest)).
  { constructor; [|constructor; [constructor|constructor]].
    constructor; [|constructor]. right. eexists. split; reflexivity. }
  split; [exact H|].
  rewrite (extractSampleSeries_unlabelled_request Example.plainRequest H).
  reflexivity.
Defined.

(** X9.  When the labels of every series of the request are sorted by name
    without a name twice, so are the labels of every series
    [extractSampleSeries] returns, and each of them holds all the labels of
    the series of the request it comes from: the split adds sample labels,
    it never drops or changes a series label. *)
Theorem extractSampleSeries_keeps_series_labels
    {P : pprof.Ops} (req : distributormodel.PushRequest)
    (out : list distributormodel.ProfileSeries) (newProfiles : list googlev1.Profile) :
  Forall (fun sr => ascending (distributormodel.SeriesLabels sr))
    (distributormodel.Series req) ->
  extractSampleSeries req = Some (out, newProfiles) ->
  Forall
    (fun s =>
       ascending (distributormodel.SeriesLabels s) /\
       exists sr, sr ∈ distributormodel.Series req /\
         forall l, l ∈ distributormodel.SeriesLabels sr ->
                   l ∈ distributormodel.SeriesLabels s)
    out.
Proof.
  intros Hasc H. apply extractSeries_Some in H as (_ & Hout & _).
  rewrite Forall_forall in Hasc.
  eapply Forall_impl; [exact Hout|]. cbn.
  intros s (_ & sr & Hsr & [[El _]|(raw & g & q & _ & Hm & _)]).
  - rewrite El. split; [now apply Hasc|]. exists sr. split; [exact Hsr|]. auto.
  - split; [eapply merge_ascending; exact Hm|].
    exists sr. split; [exact Hsr|]. intros l Hl.
    eapply merge_keeps_series_labels; [|exact Hm|exact Hl]. now apply Hasc.
Qed.

Lemma extractSampleSeries_keeps_series_labels_witness :
  let P := Example.ops in
  exists out newProfiles,
    Forall (fun sr => ascending (distributormodel.SeriesLabels sr))
      (distributormodel.Series Example.request) /\
    extractSampleSeries Example.request = Some (out, newProfiles) /\
    Forall
      (fun s =>
         ascending (distributormodel.SeriesLabels s) /\
         exists sr, sr ∈ distributormodel.Series Example.request /\
           forall l, l ∈ distributormodel.SeriesLabels sr ->
                     l ∈ distributormodel.SeriesLabels s)
      out.
Proof.
  intros P.
  let r := eval vm_compute in (extractSampleSeries Example.request) in
  match r with Some (?o, ?n) => pose (out := o); pose (newProfiles := n) end.
  assert (H : extractSampleSeries Example.request = Some (out, newProfiles))
    by (vm_compute; reflexivity).
  assert (Hasc : Forall (fun sr => ascending (distributormodel.SeriesLabels sr))
                   (distributormodel.Series Example.request)).
  { repeat constructor. }
  exists out, newProfiles. split; [exact Hasc|]. split; [exact H|].
  exact (extractSampleSeries_keeps_series_labels _ _ _ Hasc H).
Defined.

(** X10.  [extractSampleSeries] panics exactly when, in some profile of the
    request, a group of samples has a label whose [Key] or [Str] lies
    outside the string table of the profile. *)
Theorem extractSampleSeries_panics_iff
    {P : pprof.Ops} (req : distributormodel.PushRequest) :
  extractSampleSeries req = None <->
  exists sr raw g l,
    sr ∈ distributormodel.Series req /\
    raw ∈ distributormodel.Samples sr /\
    let p := prepared (distributormodel.Profile raw) in
    g ∈ pprof.GroupSamplesWithoutLabels p pprof.SpanIDLabelName /\
    l ∈ pprof.GroupLabels g /\
    (outOfRange p (googlev1.Key l) \/ outOfRange p (googlev1.Str l)).
Proof.
  unfold extractSampleSeries. split.
  - intros H. apply extractSeries_None in H as (sr & raw & g & H1 & H2 & H3 & H4).
    apply merge_None, mapM_None_resolve in H4 as (l & Hl & Hn).
    apply resolveLabel_None in Hn.
    exists sr, raw, g, l. cbn zeta. auto.
  - intros (sr & raw & g & l & H1 & H2 & H3 & H4 & H5). cbn zeta in *.
    destruct (extractSeries (distributormodel.Series req)) as [[out profiles]|] eqn:E;
      [|reflexivity].
    exfalso. apply extractSeries_Some in E as (Hres & _).
    rewrite Forall_forall in Hres. specialize (Hres sr H1).
    rewrite Forall_forall in Hres. specialize (Hres raw H2).
    unfold groupsResolve in Hres. cbn zeta in Hres.
    rewrite Forall_forall in Hres. specialize (Hres g H3).
    rewrite Forall_forall in Hres. specialize (Hres l H4).
    apply resolveLabel_None in H5. rewrite H5 in Hres. now destruct Hres.
Qed.

(** ** The sizes of symbols and samples *)

Lemma signed_eqm_congr (w x y : Z) :
  0 < w -> eqm (2 ^ w) x y -> eqm (2 ^ w) (GoInt.signed w x) (GoInt.signed w y).
Proof.
  intros Hw H. unfold eqm in *. now rewrite !signed_mod.
Qed.

#[local] Instance signed64_eqm :
  Proper (eqm (2 ^ 64) ==> eqm (2 ^ 64)) (GoInt.signed 64).
Proof. intros x y H. apply signed_eqm_congr; [lia|exact H]. Qed.

Section SizeFacts.

Context {P : pprof.Ops}.

Implicit Types (p : googlev1.Profile) (l : googlev1.Label) (s : googlev1.Sample).

Lemma labelStringsLen_None p l :
  labelStringsLen p l = None <->
  outOfRange p (googlev1.Key l) \/ outOfRange p (googlev1.Str l) \/
  outOfRange p (googlev1.NumUnit l).
Proof.
  unfold labelStringsLen. rewrite <- !stringAt_None.
  destruct (googlev1.stringAt p (googlev1.Key l)),
           (googlev1.stringAt p (googlev1.Str l)),
           (googlev1.stringAt p (googlev1.NumUnit l)); split;
    try (intros [?|[?|?]]); try discriminate; auto.
Qed.

Lemma countLabels_None p labels n :
  countLabels p labels n = None <->
  exists l, l ∈ labels /\ labelStringsLen p l = None.
Proof.
  revert n. induction labels as [|l labels IH]; intros n; cbn.
  - split; [discriminate|]. intros (l & Hl & _). inversion Hl.
  - destruct (labelStringsLen p l) as [k|] eqn:E.
    + rewrite IH. split; intros (l' & Hl' & Hn).
      * exists l'. split; [now right|exact Hn].
      * apply elem_of_cons in Hl' as [->|Hl']; [congruence|eauto].
    + split; [|reflexivity]. intros _. exists l. split; [left|exact E].
Qed.

Lemma countSampleLabels_None p samples n :
  countSampleLabels p samples n = None <->
  exists s l, s ∈ samples /\ l ∈ googlev1.SampleLabel s /\
              labelStringsLen p l = None.
Proof.
  revert n. induction samples as [|s samples IH]; intros n; cbn.
  - split; [discriminate|]. intros (s & l & Hs & _). inversion Hs.
  - destruct (countLabels p (googlev1.SampleLabel s) n) as [k|] eqn:E.
    + rewrite IH. split; intros (s' & l & Hs' & Hl & Hn).
      * exists s', l. split; [now right|]. auto.
      * apply elem_of_cons in Hs' as [->|Hs']; [|eauto].
        assert (Hc : countLabels p (googlev1.SampleLabel s) n = None).
        { apply countLabels_None. eauto. }
        congruence.
    + split; [|reflexivity]. intros _.
      apply countLabels_None in E as (l & Hl & Hn).
      exists s, l. split; [left|]. auto.
Qed.

Lemma countSampleLabels_unlabelled p samples n :
  Forall (fun s => googlev1.SampleLabel s = []) samples ->
  countSampleLabels p samples n = Some n.
Proof.
  induction 1 as [|s samples Hs _ IH]; cbn; [reflexivity|].
  rewrite Hs. cbn. exact IH.
Qed.

Lemma outOfRange_withoutSamples p i :
  outOfRange (withoutSamples p) i <-> outOfRange p i.
Proof. reflexivity. Qed.

End SizeFacts.

(** X11.  The two sizes [profileSizeBytes] returns add up, in [int64], to
    the full size of the profile: the bytes of the sample labels are moved
    from the symbols to the samples, none is lost or counted twice. *)
Theorem profileSizeBytes_sizes_add_up
    {P : pprof.Ops} (p : googlev1.Profile) (symbols samples : Z) :
  profileSizeBytes p = Some (symbols, samples) ->
  GoInt.int64 (symbols + samples) = GoInt.int64 (pprof.SizeVT p).
Proof.
  unfold profileSizeBytes.
  destruct (countSampleLabels (withoutSamples p) (googlev1.ProfileSample p) 0)
    as [n|]; [|discriminate].
  intros [= <- <-]. solve_wrap.
Qed.

Lemma profileSizeBytes_sizes_add_up_witness :
  let P := Example.sizedOps in
  profileSizeBytes Example.regionProfile = Some (16, 72) /\
  pprof.SizeVT Example.regionProfile = 88 /\
  GoInt.int64 (16 + 72) = GoInt.int64 (pprof.SizeVT Example.regionProfile).
Proof.
  intros P.
  assert (H : profileSizeBytes Example.regionProfile = Some (16, 72))
    by (vm_compute; reflexivity).
  split; [exact H|]. split; [reflexivity|].
  exact (profileSizeBytes_sizes_add_up Example.regionProfile 16 72 H).
Defined.

(** X12.  [profileSizeBytes] panics exactly when some label of some sample
    of the profile has a [Key], a [Str] or a [NumUnit] outside the string
    table. *)
Theorem profileSizeBytes_panics_iff {P : pprof.Ops} (p : googlev1.Profile) :
  profileSizeBytes p = None <->
  exists s l,
    s ∈ googlev1.ProfileSample p /\ l ∈ googlev1.SampleLabel s /\
    (outOfRange p (googlev1.Key l) \/ outOfRange p (googlev1.Str l) \/
     outOfRange p (googlev1.NumUnit l)).
Proof.
  assert (Hn : profileSizeBytes p = None <->
               countSampleLabels (withoutSamples p) (googlev1.ProfileSample p) 0 =
               None).
  { unfold profileSizeBytes.
    destruct (countSampleLabels (withoutSamples p) (googlev1.ProfileSample p) 0);
      split; congruence. }
  rewrite Hn, countSampleLabels_None.
  split; intros (s & l & Hs & Hl & H); exists s, l;
    (split; [exact Hs|]); (split; [exact Hl|]);
    apply labelStringsLen_None in H; exact H.
Qed.

(** X13.  For a profile whose samples carry no labels, and so for a profile
    without samples, [profileSizeBytes] does not panic and moves nothing:
    the symbols are the size of the profile without its samples, the
    samples are the rest of the full size. *)
Theorem profileSizeBytes_without_labels {P : pprof.Ops} (p : googlev1.Profile) :
  Forall (fun s => googlev1.SampleLabel s = []) (googlev1.ProfileSample p) ->
  profileSizeBytes p =
  Some (GoInt.int64 (pprof.SizeVT (withoutSamples p)),
        GoInt.int64 (pprof.SizeVT p - pprof.SizeVT (withoutSamples p))) /\
  (googlev1.ProfileSample p = [] ->
   profileSizeBytes p = Some (GoInt.int64 (pprof.SizeVT p), 0)).
Proof.
  intros H.
  assert (E : profileSizeBytes p =
    Some (GoInt.int64 (pprof.SizeVT (withoutSamples p)),
          GoInt.int64 (pprof.SizeVT p - pprof.SizeVT (withoutSamples p)))).
  { unfold profileSizeBytes. rewrite (countSampleLabels_unlabelled _ _ _ H).
    f_equal. f_equal; solve_wrap. }
  split; [exact E|]. intros Hnil. rewrite E.
  assert (Hp : withoutSamples p = p).
  { destruct p as [st sm tn]. cbn in Hnil. subst sm. reflexivity. }
  rewrite Hp, Z.sub_diag. reflexivity.
Qed.

Lemma profileSizeBytes_without_labels_witness :
  let P := Example.sizedOps in
  Forall (fun s => googlev1.SampleLabel s = [])
    (googlev1.ProfileSample Example.plainProfile) /\
  profileSizeBytes Example.plainProfile = Some (10, 32).
Proof.
  intros P.
  assert (H : Forall (fun s => googlev1.SampleLabel s = [])
                (googlev1.ProfileSample Example.plainProfile)).
  { repeat constructor. }
  split; [exact H|].
  rewrite (proj1 (profileSizeBytes_without_labels Example.plainProfile H)).
  reflexivity.
Defined.

(** ** Push *)

Section PushFacts.

Context {D : RawDecoder}.

Lemma parseSamples_None samples size :
  parseSamples samples size = None <->
  exists g, g ∈ samples /\ RawFromBytes (pushv1.RawProfile g) = None.
Proof.
  revert size. induction samples as [|g samples IH]; intros size; cbn.
  - split; [discriminate|]. intros (g & Hg & _). inversion Hg.
  - destruct (RawFromBytes (pushv1.RawProfile g)) as [profile|] eqn:E.
    + destruct (parseSamples samples _) as [[rest size']|] eqn:Ep.
      * split; [discriminate|]. intros (g' & Hg' & Hn).
        apply elem_of_cons in Hg' as [->|Hg']; [congruence|].
        assert (H : parseSamples samples
                      (GoInt.int (size + GoInt.len (pushv1.RawProfile g))) = None)
          by (apply IH; eauto).
        congruence.
      * split; [|reflexivity]. intros _.
        apply IH in Ep as (g' & Hg' & Hn). exists g'. split; [now right|exact Hn].
    + split; [|reflexivity]. intros _. exists g. split; [left|exact E].
Qed.

Lemma parseSamples_Some samples size parsed size' :
  GoInt.int size = size ->
  parseSamples samples size = Some (parsed, size') ->
  Forall2 parsedSample samples parsed /\
  size' =
  GoInt.int (size +
             fold_right (fun g m => GoInt.len (pushv1.RawProfile g) + m) 0 samples).
Proof.
  revert size parsed size'.
  induction samples as [|g samples IH]; intros size parsed size' Hsize; cbn.
  - intros [= <- <-]. split; [constructor|]. now rewrite Z.add_0_r.
  - destruct (RawFromBytes (pushv1.RawProfile g)) as [profile|] eqn:E;
      [|discriminate].
    destruct (parseSamples samples _) as [[rest size1]|] eqn:Ep; [|discriminate].
    intros [= <- <-]. apply IH in Ep as [IH1 ->]; [|apply signed_idem; lia].
    split; [constructor; [|exact IH1]|].
    + split; [exact E|]. split; reflexivity.
    + wrap_eq.
Qed.

Lemma parseSeries_None grpcSeries size :
  parseSeries grpcSeries size = None <->
  exists sr g, sr ∈ grpcSeries /\ g ∈ pushv1.Samples sr /\
               RawFromBytes (pushv1.RawProfile g) = None.
Proof.
  revert size. induction grpcSeries as [|sr grpcSeries IH]; intros size; cbn.
  - split; [discriminate|]. intros (sr & g & Hsr & _). inversion Hsr.
  - destruct (parseSamples (pushv1.Samples sr) size) as [[samples size1]|] eqn:Es.
    + destruct (parseSeries grpcSeries size1) as [[rest size2]|] eqn:Ep.
      * split; [discriminate|]. intros (sr' & g & Hsr' & Hg & Hn).
        apply elem_of_cons in Hsr' as [->|Hsr'].
        -- assert (H : parseSamples (pushv1.Samples sr) size = None)
             by (apply parseSamples_None; eauto).
           congruence.
        -- assert (H : parseSeries grpcSeries size1 = None) by (apply IH; eauto).
           congruence.
      * split; [|reflexivity]. intros _.
        apply IH in Ep as (sr' & g & Hsr' & Hg & Hn).
        exists sr', g. split; [now right|]. auto.
    + split; [|reflexivity]. intros _.
      apply parseSamples_None in Es as (g & Hg & Hn).
      exists sr, g. split; [left|]. auto.
Qed.

Lemma parseSeries_Some grpcSeries size series size' :
  GoInt.int size = size ->
  parseSeries grpcSeries size = Some (series, size') ->
  Forall2
    (fun sr s =>
       distributormodel.SeriesLabels s = pushv1.Labels sr /\
       Forall2 parsedSample (pushv1.Samples sr) (distributormodel.Samples s))
    grpcSeries series /\
  size' = GoInt.int (size + rawBytes grpcSeries).
Proof.
  revert size series size'.
  induction grpcSeries as [|sr grpcSeries IH]; intros size series size' Hsize;
    cbn [parseSeries].
  - intros [= <- <-]. split; [constructor|]. cbn. now rewrite Z.add_0_r.
  - change (rawBytes (sr :: grpcSeries))
      with (fold_right (fun g m => GoInt.len (pushv1.RawProfile g) + m) 0
              (pushv1.Samples sr) + rawBytes grpcSeries).
    destruct (parseSamples (pushv1.Samples sr) size) as [[samples size1]|] eqn:Es;
      [|discriminate].
    destruct (parseSeries grpcSeries size1) as [[rest size2]|] eqn:Ep;
      [|discriminate].
    intros [= <- <-].
    apply parseSamples_Some in Es as [Hs ->]; [|exact Hsize].
    apply IH in Ep as [IH1 ->]; [|apply signed_idem; lia].
    split; [constructor; [|exact IH1]|].
    + split; [reflexivity|exact Hs].
    + wrap_eq.
Qed.

End PushFacts.

(** X14.  When a raw profile of the request does not parse, [Push] returns
    [InvalidArgument] and does nothing else: no counter is updated, the
    rate limiter is not asked and nothing is sent, whether the caller is
    authenticated or not. *)
Theorem Push_unparsable_rejected
    {L : Limits} {C : phlaremodel.SessionIDCodec} {Srt : sort.Sorter}
    {P : pprof.Ops} {V : validation.Ops} {R : limiter.RateLimiter}
    {G : ring.ReadRing} {E : Environment} {D : RawDecoder}
    (ctx : Context) (grpcReq : pushv1.PushRequest) (w : World)
    (sr : pushv1.RawProfileSeries) (g : pushv1.RawSample) :
  sr ∈ pushv1.Series grpcReq -> g ∈ pushv1.Samples sr ->
  RawFromBytes (pushv1.RawProfile g) = None ->
  let o := Push ctx grpcReq w in
  result o = Failed (ConnectError CodeInvalidArgument) /\
  world o = w /\ trace o = [].
Proof.
  intros Hsr Hg Hn o.
  assert (Hp : parseSeries (pushv1.Series grpcReq) 0 = None).
  { apply parseSeries_None. eauto. }
  unfold o, Push. rewrite Hp. auto.
Qed.

Lemma Push_unparsable_rejected_witness :
  let L := Example.limits8 in
  let C := SessionHex.codec in
  let Srt := sort.stableSorter in
  let P := Example.ops in
  let V := Example.validationOps in
  let R := Example.limiterOpen in
  let G := Example.ring3 in
  let E := Example.environment in
  let D := Example.decoder in
  let o := Push Example.anonymous Example.brokenRequest Example.world0 in
  RawFromBytes [] = None /\
  result o = Failed (ConnectError CodeInvalidArgument) /\
  world o = Example.world0 /\ trace o = [].
Proof.
  intros L C Srt P V R G E D o.
  split; [reflexivity|].
  refine (Push_unparsable_rejected Example.anonymous Example.brokenRequest
            Example.world0 _ {| pushv1.RawProfile := []; pushv1.ID := "b" |}
            _ _ _).
  - left.
  - right. left.
  - reflexivity.
Defined.

(** X15.  When every raw profile of the request parses, [Push] is
    [PushParsed] on the request that has the series of the push in their
    order, each with its labels and, for each raw sample, the profile
    parsed from it with its bytes and its id; [RawProfileSize] is the sum
    of the lengths of the raw profiles, as an [int], and [RawProfileType]
    is empty. *)
Theorem Push_parsed
    {L : Limits} {C : phlaremodel.SessionIDCodec} {Srt : sort.Sorter}
    {P : pprof.Ops} {V : validation.Ops} {R : limiter.RateLimiter}
    {G : ring.ReadRing} {E : Environment} {D : RawDecoder}
    (ctx : Context) (grpcReq : pushv1.PushRequest) :
  Forall
    (fun sr =>
       Forall (fun g => is_Some (RawFromBytes (pushv1.RawProfile g)))
         (pushv1.Samples sr))
    (pushv1.Series grpcReq) ->
  exists req,
    Push ctx grpcReq = PushParsed ctx req /\
    Forall2
      (fun sr s =>
         distributormodel.SeriesLabels s = pushv1.Labels sr /\
         Forall2 parsedSample (pushv1.Samples sr) (distributormodel.Samples s))
      (pushv1.Series grpcReq) (distributormodel.Series req) /\
    distributormodel.RawProfileSize req =
      GoInt.int (rawBytes (pushv1.Series grpcReq)) /\
    distributormodel.RawProfileType req = "".
Proof.
  intros Hall.
  destruct (parseSeries (pushv1.Series grpcReq) 0) as [[series size]|] eqn:Ep.
  - exists {| distributormodel.Series := series;
              distributormodel.RawProfileSize := size;
              distributormodel.RawProfileType := "" |}.
    split; [unfold Push; now rewrite Ep|].
    apply parseSeries_Some in Ep as [Hs ->]; [|reflexivity].
    split; [exact Hs|]. split; reflexivity.
  - exfalso. apply parseSeries_None in Ep as (sr & g & Hsr & Hg & Hn).
    rewrite Forall_forall in Hall. specialize (Hall sr Hsr).
    rewrite Forall_forall in Hall. specialize (Hall g Hg).
    rewrite Hn in Hall. now destruct Hall.
Qed.

Lemma Push_parsed_witness :
  let L := Example.limits8 in
  let C := SessionHex.codec in
  let Srt := sort.stableSorter in
  let P := Example.ops in
  let V := Example.validationOps in
  let R := Example.limiterOpen in
  let G := Example.ring3 in
  let E := Example.environment in
  let D := Example.decoder in
  exists req,
    Forall
      (fun sr =>
         Forall (fun g => is_Some (RawFromBytes (pushv1.RawProfile g)))
           (pushv1.Samples sr))
      (pushv1.Series Example.grpcRequest) /\
    Push Example.context Example.grpcRequest = PushParsed Example.context req /\
    distributormodel.RawProfileSize req = 3.
Proof.
  intros L C Srt P V R G E D.
  assert (H : Forall
      (fun sr =>
         Forall (fun g => is_Some (RawFromBytes (pushv1.RawProfile g)))
           (pushv1.Samples sr))
      (pushv1.Series Example.grpcRequest)).
  { repeat constructor; eexists; reflexivity. }
  destruct (Push_parsed Example.context Example.grpcRequest H)
    as (req & Hreq & _ & Hsize & _).
  exists req. split; [exact H|]. split; [exact Hreq|].
  rewrite Hsize. reflexivity.
Defined.

(** ** The outcomes of PushParsed *)

Section OutcomeFacts.

Context {L : Limits} {C : phlaremodel.SessionIDCodec} {Srt : sort.Sorter}
        {P : pprof.Ops} {V : validation.Ops} {R : limiter.RateLimiter}
        {G : ring.ReadRing} {E : Environment}.

Lemma sameCounters_refl w : sameCounters w w.
Proof. split; reflexivity. Qed.

Lemma sameCounters_trans w1 w2 w3 :
  sameCounters w1 w2 -> sameCounters w2 w3 -> sameCounters w1 w3.
Proof. intros [H1 H2] [H3 H4]. split; congruence. Qed.

(** The accounting loop ends with its totals or with [InvalidArgument]. *)
Lemma measureSamples_outcome tenantID have labels samples tb tp w :
  (exists totals, result (measureSamples tenantID have labels samples tb tp w) =
                  Done totals) \/
  result (measureSamples tenantID have labels samples tb tp w) =
    Failed (ConnectError CodeInvalidArgument).
Proof.
  revert tb tp. induction samples as [|raw samples IH]; intros tb tp; cbn.
  - left. eauto.
  - destruct (validation.ValidateProfile _ _ _ _ _); [|apply IH].
    right. rewrite result_bind. reflexivity.
Qed.

Lemma measureSeries_outcome tenantID have series tb tp w :
  (exists measured, result (measureSeries tenantID have series tb tp w) =
                    Done measured) \/
  result (measureSeries tenantID have series tb tp w) =
    Failed (ConnectError CodeInvalidArgument).
Proof.
  revert tb tp w. induction series as [|sr series IH]; intros tb tp w; cbn.
  - left. eauto.
  - rewrite result_bind.
    destruct (measureSamples_outcome tenantID have
                (limitMaxSessionsPerSeries tenantID (distributormodel.SeriesLabels sr))
                (distributormodel.Samples sr)
                (addLabelSizes (distributormodel.SeriesLabels sr) tb) tp w)
      as [[totals ->]| ->]; [|now right].
    rewrite result_bind.
    destruct (IH totals.1 totals.2
                (world (measureSamples tenantID have
                   (limitMaxSessionsPerSeries tenantID
                      (distributormodel.SeriesLabels sr))
                   (distributormodel.Samples sr)
                   (addLabelSizes (distributormodel.SeriesLabels sr) tb) tp w)))
      as [[rest ->]| ->]; [|now right].
    left. cbn. eauto.
Qed.

(** A series without samples adds its labels to the bytes and nothing to
    the profiles. *)
Lemma measureSeries_no_samples tenantID have series tb tp w :
  Forall (fun sr => distributormodel.Samples sr = []) series ->
  exists measured tb',
    measureSeries tenantID have series tb tp w =
    {| world := w; trace := []; result := Done (measured, (tb', tp)) |}.
Proof.
  intros H. revert tb. induction H as [|sr series Hsr _ IH]; intros tb; cbn.
  - eexists _, _. reflexivity.
  - rewrite Hsr. cbn.
    destruct (IH (addLabelSizes (distributormodel.SeriesLabels sr) tb))
      as (measured & tb' & Hm).
    unfold mbind, M_bind, bind. cbn. unfold mret, M_ret, ret. cbn.
    rewrite Hm. cbn. eexists _, _. reflexivity.
Qed.

Lemma tokens_outcome tenantID tb tp profileSeries w :
  (exists keys, result (tokens tenantID tb tp profileSeries w) = Done keys /\
                world (tokens tenantID tb tp profileSeries w) = w) \/
  result (tokens tenantID tb tp profileSeries w) =
    Failed (ConnectError CodeInvalidArgument).
Proof.
  induction profileSeries as [|series rest IH]; cbn.
  - left. eauto.
  - destruct (validation.ValidateLabels _ _).
    + right. rewrite result_bind. reflexivity.
    + rewrite result_bind, world_bind.
      destruct IH as [(keys & -> & Hw)| ->]; [|now right].
      left. cbn. rewrite Hw. eauto.
Qed.

(** The loop that rewrites the samples draws one identifier for each
    sample, in order, and touches no counter; it stops at the first profile
    that cannot be written. *)
Lemma rewriteSamples_outcome samples w :
  sameCounters w (world (rewriteSamples samples w)) /\
  ((exists rewritten,
      result (rewriteSamples samples w) = Done rewritten /\
      uuids (world (rewriteSamples samples w)) = (uuids w + length samples)%nat /\
      List.map distributormodel.ID rewritten =
        List.map NewString (seq (uuids w) (length samples)) /\
      Forall2
        (fun raw sample =>
           distributormodel.Profile sample = distributormodel.Profile raw /\
           pprof.WriteTo (distributormodel.Profile raw) =
             Some (distributormodel.RawProfile sample))
        samples rewritten) \/
   result (rewriteSamples samples w) = Failed WriteError).
Proof.
  revert w. induction samples as [|raw samples IH]; intros w; cbn.
  - split; [apply sameCounters_refl|]. left. exists []. cbn.
    rewrite Nat.add_0_r. repeat split. constructor.
  - destruct (pprof.WriteTo (distributormodel.Profile raw)) as [bw|] eqn:Ew;
      [|split; [apply sameCounters_refl|now right]].
    rewrite world_bind, result_bind. cbn [newUUID result world].
    rewrite world_bind, result_bind.
    set (w1 := {| DiscardedProfiles := DiscardedProfiles w;
                  DiscardedBytes := DiscardedBytes w;
                  uuids := S (uuids w) |}).
    destruct (IH w1) as [Hc [(rewritten & Hr & Hu & Hids & Hall)|Hf]].
    + rewrite Hr. cbn. split; [exact Hc|]. left.
      eexists. split; [reflexivity|]. rewrite Hu. cbn.
      split; [lia|]. split; [now rewrite Hids|].
      constructor; [|exact Hall]. cbn. auto.
    + rewrite Hf. cbn. split; [exact Hc|]. now right.
Qed.

Lemma newTrackers_outcome profileSeries w :
  sameCounters w (world (newTrackers profileSeries w)) /\
  ((exists profiles,
      result (newTrackers profileSeries w) = Done profiles /\
      uuids (world (newTrackers profileSeries w)) =
        (uuids w + length (trackedSamples profiles))%nat /\
      List.map distributormodel.ID (trackedSamples profiles) =
        List.map NewString (seq (uuids w) (length (trackedSamples profiles))) /\
      Forall
        (fun sample =>
           pprof.WriteTo (distributormodel.Profile sample) =
             Some (distributormodel.RawProfile sample))
        (trackedSamples profiles)) \/
   result (newTrackers profileSeries w) = Failed WriteError).
Proof.
  revert w. induction profileSeries as [|series rest IH]; intros w; cbn.
  - split; [apply sameCounters_refl|]. left. exists []. cbn.
    rewrite Nat.add_0_r. repeat split. constructor.
  - rewrite world_bind, result_bind.
    destruct (rewriteSamples_outcome (distributormodel.Samples series) w)
      as [Hc1 [(rewritten & Hr & Hu & Hids & Hall)|Hf]];
      [|rewrite Hf; split; [exact Hc1|now right]].
    rewrite Hr. rewrite world_bind, result_bind.
    destruct (IH (world (rewriteSamples (distributormodel.Samples series) w)))
      as [Hc2 [(profiles & Hr2 & Hu2 & Hids2 & Hall2)|Hf2]].
    + rewrite Hr2. cbn [result world M_ret mret ret].
      split; [eapply sameCounters_trans; eassumption|]. left.
      eexists. split; [reflexivity|].
      unfold trackedSamples in *. cbn [List.map concat profile distributormodel.Samples].
      pose proof (Forall2_length _ _ _ Hall) as Hlen.
      set (ts := concat _) in *.
      split; [rewrite Hu2, Hu, length_app; lia|]. split.
      * rewrite map_app, length_app, seq_app, map_app, Hids, Hids2, Hu, Hlen.
        reflexivity.
      * apply Forall_app. split; [|exact Hall2].
        apply Forall_forall. intros sample Hs.
        destruct (Forall2_elem_of_r _ _ _ _ Hall Hs) as (raw & _ & Ep & Ew).
        now rewrite Ep.
    + rewrite Hf2. cbn. split; [eapply sameCounters_trans; eassumption|].
      now right.
Qed.

Lemma shardSelect_outcome tenantID i keys profiles maps w :
  world (shardSelect tenantID i keys profiles maps w) = w /\
  ((exists selected,
      result (shardSelect tenantID i keys profiles maps w) = Done selected) \/
   result (shardSelect tenantID i keys profiles maps w) = Failed RingError).
Proof.
  revert i profiles maps.
  induction keys as [|key keys IH]; intros i profiles maps; cbn.
  - split; [reflexivity|]. left. eauto.
  - destruct (ring.ShuffleShardGet _ _ _); [apply IH|].
    split; [reflexivity|now right].
Qed.

Lemma spawn_world ingesterDescs entries w :
  world (spawn ingesterDescs entries w) = w.
Proof.
  revert w. induction entries as [|[addr samples] entries IH]; intros w; cbn;
    [reflexivity|].
  rewrite world_bind. cbn. rewrite world_bind, spawn_Done. cbn. apply IH.
Qed.

Lemma dispatch_outcome profiles maps w :
  world (dispatch profiles maps w) = w /\
  exists fan, result (dispatch profiles maps w) = Done fan.
Proof.
  unfold dispatch. rewrite world_bind, result_bind, spawn_Done, spawn_world.
  cbn. eauto.
Qed.

End OutcomeFacts.

(** ** Routing *)

Section RoutingFacts.

Context {L : Limits} {C : phlaremodel.SessionIDCodec} {Srt : sort.Sorter}
        {P : pprof.Ops} {V : validation.Ops} {R : limiter.RateLimiter}
        {G : ring.ReadRing} {E : Environment}.

Implicit Types (m : gmap string (list nat))
  (maps : gmap string (list nat) * gmap string ring.InstanceDesc).

Lemma occurrences_replicate t n i :
  occurrences t (replicate n i) = if Nat.eqb t i then n else 0%nat.
Proof.
  unfold occurrences. induction n as [|n IH]; cbn.
  - now destruct (Nat.eqb t i).
  - destruct (Nat.eqb t i) eqn:Et; cbn; [now rewrite IH|exact IH].
Qed.

Lemma appendTracker_lookup addr a i m :
  default [] (appendTracker a i m !! addr) =
  default [] (m !! addr) ++ (if String.eqb a addr then [i] else []).
Proof.
  unfold appendTracker. destruct (String.eqb a addr) eqn:Ea.
  - apply String.eqb_eq in Ea. subst a. now rewrite lookup_insert_eq.
  - apply String.eqb_neq in Ea. rewrite lookup_insert_ne by exact Ea.
    now rewrite app_nil_r.
Qed.

Lemma assignInstances_lookup addr i instances maps :
  default [] ((assignInstances i instances maps).1 !! addr) =
  default [] (maps.1 !! addr) ++ replicate (instancesAt addr instances) i.
Proof.
  unfold assignInstances, instancesAt. revert maps.
  induction instances as [|d instances IH]; intros maps; cbn.
  - now rewrite app_nil_r.
  - rewrite IH. cbn [fst]. rewrite appendTracker_lookup.
    destruct (String.eqb (ring.Addr d) addr); cbn.
    + now rewrite <- app_assoc.
    + now rewrite app_nil_r.
Qed.

Lemma assignInstances_descs i instances maps :
  descsFiled maps -> descsFiled (assignInstances i instances maps).
Proof.
  unfold assignInstances. revert maps.
  induction instances as [|d instances IH]; intros maps Hm; cbn; [exact Hm|].
  apply IH. intros addr l. cbn. unfold appendTracker.
  destruct (decide (ring.Addr d = addr)) as [<-|Hne].
  - intros _. exists d. now rewrite lookup_insert_eq.
  - rewrite !lookup_insert_ne by exact Hne. apply Hm.
Qed.

Lemma shardSelect_descs tenantID i keys profiles maps w selected :
  descsFiled maps ->
  result (shardSelect tenantID i keys profiles maps w) = Done selected ->
  descsFiled selected.2.
Proof.
  revert i profiles maps.
  induction keys as [|key keys IH]; intros i profiles maps Hm; cbn.
  - now intros [= <-].
  - destruct (ring.ShuffleShardGet _ _ _) as [rs|]; [|discriminate].
    apply IH. now apply assignInstances_descs.
Qed.

(** The trackers filed under an address after shard selection: the
    tracker of a key is filed once for each instance at that address in
    the replication set of the key. *)
Lemma shardSelect_lookup tenantID i keys profiles maps w selected addr t :
  result (shardSelect tenantID i keys profiles maps w) = Done selected ->
  occurrences t (default [] (selected.2.1 !! addr)) =
  (occurrences t (default [] (maps.1 !! addr)) +
   if (i <=? t)%nat
   then from_option (routedTo addr tenantID) 0%nat (keys !! (t - i)%nat)
   else 0)%nat.
Proof.
  revert i profiles maps.
  induction keys as [|key keys IH]; intros i profiles maps; cbn [shardSelect].
  - intros [= <-]. rewrite lookup_nil. cbn. destruct (i <=? t)%nat; lia.
  - destruct (ring.ShuffleShardGet tenantID (IngestionTenantShardSize tenantID) key)
      as [rs|] eqn:Eg; [|discriminate].
    intros H. rewrite (IH _ _ _ H), assignInstances_lookup, occurrences_app,
      occurrences_replicate.
    destruct (Nat.eqb t i) eqn:Eti.
    + apply Nat.eqb_eq in Eti. subst t.
      rewrite Nat.sub_diag. cbn [lookup list_lookup from_option].
      unfold routedTo at 2. rewrite Eg.
      destruct (S i <=? i)%nat eqn:E1; [apply Nat.leb_le in E1; lia|].
      destruct (i <=? i)%nat eqn:E2; [lia|apply Nat.leb_gt in E2; lia].
    + apply Nat.eqb_neq in Eti.
      destruct (i <=? t)%nat eqn:E2.
      * apply Nat.leb_le in E2.
        destruct (S i <=? t)%nat eqn:E1; [|apply Nat.leb_gt in E1; lia].
        replace (t - i)%nat with (S (t - S i)%nat) by lia.
        change ((key :: keys) !! S (t - S i)%nat) with (keys !! (t - S i)%nat).
        lia.
      * apply Nat.leb_gt in E2.
        destruct (S i <=? t)%nat eqn:E1; [apply Nat.leb_le in E1; lia|lia].
Qed.

Lemma map_profile_alter (f : profileTracker -> profileTracker) i
    (profiles : list profileTracker) :
  (forall tr, profile (f tr) = profile tr) ->
  List.map profile (alter f i profiles) = List.map profile profiles.
Proof.
  intros Hf. revert i. induction profiles as [|tr profiles IH]; intros [|i]; cbn;
    try reflexivity.
  - now rewrite Hf.
  - now rewrite IH.
Qed.

Lemma shardSelect_profiles tenantID i keys profiles maps w selected :
  result (shardSelect tenantID i keys profiles maps w) = Done selected ->
  List.map profile selected.1 = List.map profile profiles.
Proof.
  revert i profiles maps.
  induction keys as [|key keys IH]; intros i profiles maps; cbn.
  - now intros [= <-].
  - destruct (ring.ShuffleShardGet _ _ _) as [rs|]; [|discriminate].
    intros H. rewrite (IH _ _ _ H). now apply map_profile_alter.
Qed.

End RoutingFacts.

(** ** The stages of PushParsed *)

Section StageFacts.

Context {L : Limits} {C : phlaremodel.SessionIDCodec} {Srt : sort.Sorter}
        {P : pprof.Ops} {V : validation.Ops} {R : limiter.RateLimiter}
        {G : ring.ReadRing} {E : Environment}.

(** The fan-out [PushParsed] sets up from the trackers and the maps of the
    shard selection. *)
Lemma dispatch_Done profiles maps w :
  result (dispatch profiles maps w) =
  Done
    {| trackers := profiles;
       push := {| samplesPending := GoInt.int32 (GoInt.len profiles);
                  samplesFailed := 0; done := []; err := [] |};
       senders :=
         List.map
           (fun entry =>
              {| ingester := default {| ring.Addr := "" |} (maps.2 !! entry.1);
                 profileTrackers := entry.2;
                 sendErr := None; index := 0; point := Calling |})
           (map_to_list maps.1);
       caller := Waiting |}.
Proof. unfold dispatch. rewrite result_bind, spawn_Done. reflexivity. Qed.

(** What follows the rate limiter's approval: the split, the tokens, the
    trackers, the shard selection and the start of the goroutines. *)
Lemma afterGate_stages tenantID tb tp series w :
  let o :=
    (emit ExtractSampleSeriesCalled;;
     match extractSeries series with
     | None => panic
     | Some (profileSeries, newProfiles) =>
         keys ← tokens tenantID tb tp profileSeries;
         profiles ← newTrackers profileSeries;
         selected ← shardSelect tenantID 0 keys profiles (∅, ∅);
         dispatch selected.1 selected.2
     end) w in
  (trace o = [ExtractSampleSeriesCalled] /\
   (result o = Panicked \/
    result o = Failed (ConnectError CodeInvalidArgument) \/
    ((result o = Failed WriteError \/ result o = Failed RingError) /\
     sameCounters w (world o)))) \/
  (exists profileSeries newProfiles profiles selected,
     extractSeries series = Some (profileSeries, newProfiles) /\
     result (newTrackers profileSeries w) = Done profiles /\
     result
       (shardSelect tenantID 0
          (List.map
             (fun series =>
                TokenFor tenantID
                  (LabelPairsString (distributormodel.SeriesLabels series)))
             profileSeries)
          profiles (∅, ∅) (world (newTrackers profileSeries w))) = Done selected /\
     world o = world (newTrackers profileSeries w) /\
     trace o =
       ExtractSampleSeriesCalled ::
       List.map (fun entry => SendProfilesStarted entry.1)
         (map_to_list selected.2.1) /\
     result o = result (dispatch selected.1 selected.2 w)).
Proof.
  intros o. subst o.
  rewrite trace_bind, result_bind, world_bind. cbn [emit trace result world app].
  destruct (extractSeries series) as [[profileSeries newProfiles]|];
    [|left; split; [reflexivity|now left]].
  rewrite trace_bind, result_bind, world_bind, tokens_silent. cbn [app].
  destruct (tokens_outcome tenantID tb tp profileSeries w)
    as [(keys & Hk & Hkw)|Hk]; rewrite Hk;
    [|left; split; [reflexivity|right; now left]].
  pose proof (tokens_Done _ _ _ _ _ _ Hk) as ->. rewrite Hkw.
  rewrite trace_bind, result_bind, world_bind, newTrackers_silent. cbn [app].
  destruct (newTrackers_outcome profileSeries w)
    as [Hc [(profiles & Hn & _)|Hn]]; rewrite Hn.
  2:{ left. split; [reflexivity|]. right. right. split; [now left|exact Hc]. }
  rewrite trace_bind, result_bind, world_bind, shardSelect_silent. cbn [app].
  match goal with
  | |- context [shardSelect ?t ?i ?ks ?ps ?ms ?w0] =>
      destruct (shardSelect_outcome t i ks ps ms w0) as [Hsw [[selected Hs]|Hs]]
  end; rewrite Hs.
  2:{ left. split; [reflexivity|]. right. right. split; [now right|].
      rewrite Hsw. exact Hc. }
  right. exists profileSeries, newProfiles, profiles, selected.
  split; [reflexivity|]. split; [exact Hn|]. split; [exact Hs|].
  rewrite Hsw. destruct (dispatch_outcome selected.1 selected.2
                           (world (newTrackers profileSeries w))) as [Hdw _].
  split; [exact Hdw|]. split.
  { rewrite ?tokens_silent, ?newTrackers_silent, ?shardSelect_silent,
      dispatch_trace. reflexivity. }
  now rewrite !dispatch_Done.
Qed.

Lemma PushParsed_stages ctx req w tenantID :
  TenantID ctx = Some tenantID ->
  let o := PushParsed ctx req w in
  (trace o = [] /\ result o = Failed (ConnectError CodeInvalidArgument)) \/
  (exists n, trace o = [AllowNCalled tenantID n false] /\
             result o = Failed (ConnectError CodeResourceExhausted)) \/
  (exists n,
     trace o = [AllowNCalled tenantID n true; ExtractSampleSeriesCalled] /\
     (result o = Panicked \/
      result o = Failed (ConnectError CodeInvalidArgument) \/
      ((result o = Failed WriteError \/ result o = Failed RingError) /\
       sameCounters w (world o)))) \/
  (exists n profileSeries profiles selected,
     result (newTrackers profileSeries w) = Done profiles /\
     result
       (shardSelect tenantID 0
          (List.map
             (fun series =>
                TokenFor tenantID
                  (LabelPairsString (distributormodel.SeriesLabels series)))
             profileSeries)
          profiles (∅, ∅) (world (newTrackers profileSeries w))) = Done selected /\
     world o = world (newTrackers profileSeries w) /\
     trace o =
       AllowNCalled tenantID n true :: ExtractSampleSeriesCalled ::
       List.map (fun entry => SendProfilesStarted entry.1)
         (map_to_list selected.2.1) /\
     result o = result (dispatch selected.1 selected.2 w)).
Proof.
  intros Ht o.
  pose proof (eq_refl (trace o)) as Htr.
  pose proof (eq_refl (result o)) as Hres.
  pose proof (eq_refl (world o)) as Hw.
  unfold o at 2 in Htr. unfold o at 2 in Hres. unfold o at 2 in Hw.
  clearbody o. unfold PushParsed in Htr, Hres, Hw. rewrite Ht in Htr, Hres, Hw.
  rewrite trace_bind, measureSeries_silent in Htr.
  rewrite result_bind in Hres. rewrite world_bind in Hw.
  cbn [app] in Htr.
  match type of Hres with
  | context [measureSeries ?t ?h ?s 0 0 w] =>
      destruct (measureSeries_outcome t h s 0 0 w) as [[measured Hm]|Hm];
      [pose proof (measureSeries_Done t h s 0 0 w measured eq_refl eq_refl Hm)
         as (Hmw & _)|]
  end; rewrite Hm in Htr, Hres, Hw; [|left; split; assumption].
  rewrite Hmw in Htr, Hres, Hw.
  destruct (measured.2.2 =? 0); [left; split; assumption|].
  rewrite trace_bind in Htr. rewrite result_bind in Hres. rewrite world_bind in Hw.
  cbn [allowN trace result world] in Htr, Hres, Hw.
  destruct (limiter.AllowN TimeNow tenantID (GoInt.int measured.2.1)) eqn:Ea;
    cbn [negb] in Htr, Hres, Hw.
  - pose proof (afterGate_stages tenantID measured.2.1 measured.2.2
                  measured.1 w) as Hafter.
    cbn zeta in Hafter.
    destruct Hafter as [[Htr' Hres']|(profileSeries & newProfiles & profiles &
                                      selected & _ & Hn & Hs & Hw' & Htr' & Hres')].
    + right. right. left. exists (GoInt.int measured.2.1).
      rewrite Htr, Hres, Hw, Htr'. split; [reflexivity|exact Hres'].
    + right. right. right.
      exists (GoInt.int measured.2.1), profileSeries, profiles, selected.
      rewrite Htr, Hres, Hw, Htr'.
      split; [exact Hn|]. split; [exact Hs|]. split; [exact Hw'|].
      split; [reflexivity|exact Hres'].
  - right. left. exists (GoInt.int measured.2.1).
    rewrite trace_bind in Htr. rewrite result_bind in Hres.
    cbn in Htr, Hres. split; assumption.
Qed.

End StageFacts.

Section FanFacts.

Context {L : Limits} {C : phlaremodel.SessionIDCodec} {Srt : sort.Sorter}
        {P : pprof.Ops} {V : validation.Ops} {R : limiter.RateLimiter}
        {G : ring.ReadRing} {E : Environment}.

(** The sender of an entry of [samplesByIngester]. *)
Lemma PushParsed_fan ctx req w fan :
  result (PushParsed ctx req w) = Done fan ->
  exists tenantID n profileSeries profiles selected,
    TenantID ctx = Some tenantID /\
    result (newTrackers profileSeries w) = Done profiles /\
    result
      (shardSelect tenantID 0
         (List.map
            (fun series =>
               TokenFor tenantID
                 (LabelPairsString (distributormodel.SeriesLabels series)))
            profileSeries)
         profiles (∅, ∅) (world (newTrackers profileSeries w))) = Done selected /\
    world (PushParsed ctx req w) = world (newTrackers profileSeries w) /\
    trace (PushParsed ctx req w) =
      AllowNCalled tenantID n true :: ExtractSampleSeriesCalled ::
      List.map (fun entry => SendProfilesStarted entry.1)
        (map_to_list selected.2.1) /\
    fan =
      {| trackers := selected.1;
         push := {| samplesPending := GoInt.int32 (GoInt.len selected.1);
                    samplesFailed := 0; done := []; err := [] |};
         senders :=
           List.map
             (fun entry =>
                {| ingester :=
                     default {| ring.Addr := "" |} (selected.2.2 !! entry.1);
                   profileTrackers := entry.2;
                   sendErr := None; index := 0; point := Calling |})
             (map_to_list selected.2.1);
         caller := Waiting |}.
Proof.
  intros H.
  destruct (TenantID ctx) as [tenantID|] eqn:Ht.
  2:{ unfold PushParsed in H. rewrite Ht in H. discriminate. }
  destruct (PushParsed_stages ctx req w tenantID Ht)
    as [[_ Hr]|[(n & _ & Hr)|[(n & _ & Hr)|
        (n & profileSeries & profiles & selected & Hn & Hs & Hw & Htr & Hr)]]].
  - rewrite Hr in H. discriminate.
  - rewrite Hr in H. discriminate.
  - rewrite H in Hr. destruct Hr as [Hr|[Hr|[[Hr|Hr] _]]]; discriminate.
  - exists tenantID, n, profileSeries, profiles, selected.
    rewrite dispatch_Done, H in Hr. injection Hr as ->.
    repeat split; assumption.
Qed.

Lemma occurrences_pos_elem_of t (l : list nat) :
  (0 < occurrences t l)%nat -> t ∈ l.
Proof.
  unfold occurrences. induction l as [|x l IH]; cbn; [lia|].
  destruct (Nat.eqb t x) eqn:Et.
  - apply Nat.eqb_eq in Et. subst x. intros _. left.
  - intros H. right. now apply IH.
Qed.

Lemma instancesAt_pos d instances :
  d ∈ instances -> (0 < instancesAt (ring.Addr d) instances)%nat.
Proof.
  unfold instancesAt. induction instances as [|x instances IH]; intros Hd;
    [inversion Hd|].
  cbn. apply elem_of_cons in Hd as [<-|Hd].
  - rewrite String.eqb_refl. cbn. lia.
  - destruct (String.eqb (ring.Addr x) (ring.Addr d)); cbn; [lia|now apply IH].
Qed.

Lemma descsFiled_empty : descsFiled (∅, ∅).
Proof. intros addr l H. cbn in H. rewrite lookup_empty in H. discriminate. Qed.

(** A goroutine of the fan-out stands for an entry of [samplesByIngester]:
    its address is the key of the entry, its trackers are the value. *)
Lemma sender_entry
    (maps : gmap string (list nat) * gmap string ring.InstanceDesc) sd :
  descsFiled maps ->
  sd ∈ List.map
         (fun entry =>
            {| ingester := default {| ring.Addr := "" |} (maps.2 !! entry.1);
               profileTrackers := entry.2;
               sendErr := None; index := 0; point := Calling |})
         (map_to_list maps.1) ->
  maps.1 !! addrOf sd = Some (profileTrackers sd) /\
  sendErr sd = None /\ index sd = 0%nat /\ point sd = Calling.
Proof.
  intros Hm Hsd. apply list_elem_of_In, in_map_iff in Hsd as ([addr l] & <- & Hin).
  apply list_elem_of_In, elem_of_map_to_list in Hin.
  destruct (Hm addr l Hin) as (d & Hd & Ed).
  unfold addrOf. cbn. rewrite Hd. cbn. rewrite Ed. auto.
Qed.

Lemma entry_sender
    (maps : gmap string (list nat) * gmap string ring.InstanceDesc) addr l :
  descsFiled maps -> maps.1 !! addr = Some l ->
  exists sd,
    sd ∈ List.map
           (fun entry =>
              {| ingester := default {| ring.Addr := "" |} (maps.2 !! entry.1);
                 profileTrackers := entry.2;
                 sendErr := None; index := 0; point := Calling |})
           (map_to_list maps.1) /\
    addrOf sd = addr /\ profileTrackers sd = l.
Proof.
  intros Hm Hl. destruct (Hm addr l Hl) as (d & Hd & Ed).
  eexists. split.
  - apply list_elem_of_In, in_map_iff. exists (addr, l). split; [reflexivity|].
    apply list_elem_of_In, elem_of_map_to_list. exact Hl.
  - unfold addrOf. cbn. rewrite Hd. cbn. auto.
Qed.


End FanFacts.



(** X17.  A push of an authenticated tenant that carries no profile, no
    series or only series without samples, is turned away with
    [InvalidArgument]: the rate limiter is not asked and, other than for
    an invalid profile, no discard counter is updated. *)
Theorem PushParsed_no_profiles
    {L : Limits} {C : phlaremodel.SessionIDCodec} {Srt : sort.Sorter}
    {P : pprof.Ops} {V : validation.Ops} {R : limiter.RateLimiter}
    {G : ring.ReadRing} {E : Environment}
    (ctx : Context) (req : distributormodel.PushRequest) (w : World)
    (tenantID : string) :
  TenantID ctx = Some tenantID ->
  Forall (fun sr => distributormodel.Samples sr = []) (distributormodel.Series req) ->
  let o := PushParsed ctx req w in
  result o = Failed (ConnectError CodeInvalidArgument) /\
  world o = w /\ trace o = [].
Proof.
  intros Ht Hall o. subst o. unfold PushParsed. rewrite Ht.
  assert (Hall' : Forall (fun sr => distributormodel.Samples sr = [])
                    (List.map normalizeSeries (distributormodel.Series req))).
  { clear -Hall. induction Hall; cbn; constructor; assumption. }
  cbn zeta.
  match goal with
  | |- context [measureSeries ?t ?h ?s 0 0] =>
      destruct (measureSeries_no_samples t h s 0 0 w Hall')
        as (measured & tb' & Hm)
  end.
  unfold mbind, M_bind, bind. rewrite Hm. cbn. auto.
Qed.

Lemma PushParsed_no_profiles_witness :
  let L := Example.limits8 in
  let C := SessionHex.codec in
  let Srt := sort.stableSorter in
  let P := Example.ops in
  let V := Example.validationOps in
  let R := Example.limiterOpen in
  let G := Example.ring3 in
  let E := Example.environment in
  let o := PushParsed Example.context Example.emptyRequest Example.world0 in
  TenantID Example.context = Some "t1" /\
  Forall (fun sr => distributormodel.Samples sr = [])
    (distributormodel.Series Example.emptyRequest) /\
  result o = Failed (ConnectError CodeInvalidArgument) /\
  world o = Example.world0 /\ trace o = [].
Proof.
  intros L C Srt P V R G E o.
  assert (H1 : TenantID Example.context = Some "t1") by reflexivity.
  assert (H2 : Forall (fun sr => distributormodel.Samples sr = [])
                 (distributormodel.Series Example.emptyRequest)).
  { repeat constructor. }
  split; [exact H1|]. split; [exact H2|].
  exact (PushParsed_no_profiles Example.context Example.emptyRequest
           Example.world0 "t1" H1 H2).
Defined.



Section TrackedFacts.

Lemma trackedSamples_profiles (l1 l2 : list profileTracker) :
  List.map profile l1 = List.map profile l2 ->
  trackedSamples l1 = trackedSamples l2.
Proof.
  intros H. unfold trackedSamples.
  rewrite <- !(List.map_map profile distributormodel.Samples). now rewrite H.
Qed.

Lemma map_lookup_eq {A B : Type} (f : A -> B) (l1 l2 : list A) i x :
  List.map f l1 = List.map f l2 -> l1 !! i = Some x ->
  exists y, l2 !! i = Some y /\ f y = f x.
Proof.
  revert l2 i. induction l1 as [|a l1 IH]; intros [|b l2] i H Hx;
    try discriminate.
  cbn in H. injection H as Hab H. destruct i as [|i]; cbn in Hx.
  - injection Hx as <-. exists b. split; [reflexivity|now symmetry].
  - apply (IH l2 i H Hx).
Qed.

End TrackedFacts.

(** X19.  When [PushParsed] reaches its [select], every sample of every
    series it is about to send has the bytes its profile was written to
    and an identifier drawn for it from [uuid.NewString]: the identifiers
    are the next ones, one for each sample in the order of the series, and
    what the request gave as identifiers and bytes is gone. *)
Theorem PushParsed_fresh_ids
    {L : Limits} {C : phlaremodel.SessionIDCodec} {Srt : sort.Sorter}
    {P : pprof.Ops} {V : validation.Ops} {R : limiter.RateLimiter}
    {G : ring.ReadRing} {E : Environment}
    (ctx : Context) (req : distributormodel.PushRequest) (w : World)
    (fan : Fanout) :
  result (PushParsed ctx req w) = Done fan ->
  let samples := trackedSamples (trackers fan) in
  List.map distributormodel.ID samples =
    List.map NewString (seq (uuids w) (length samples)) /\
  uuids (world (PushParsed ctx req w)) = (uuids w + length samples)%nat /\
  Forall
    (fun sample =>
       pprof.WriteTo (distributormodel.Profile sample) =
         Some (distributormodel.RawProfile sample))
    samples.
Proof.
  intros H samples. subst samples.
  destruct (PushParsed_fan ctx req w fan H)
    as (tenantID & n & profileSeries & profiles & selected &
        Ht & Hn & Hs & Hw & Htr & ->).
  cbn [trackers].
  rewrite (trackedSamples_profiles _ _ (shardSelect_profiles _ _ _ _ _ _ _ Hs)).
  destruct (newTrackers_outcome profileSeries w)
    as [_ [(profiles' & Hr & Hu & Hids & Hall)|Hf]]; [|congruence].
  rewrite Hn in Hr. injection Hr as <-.
  rewrite Hw. auto.
Qed.

Lemma PushParsed_fresh_ids_witness :
  let L := Example.limits8 in
  let C := SessionHex.codec in
  let Srt := sort.stableSorter in
  let P := Example.ops in
  let V := Example.validationOps in
  let R := Example.limiterOpen in
  let G := Example.ring3 in
  let E := Example.environment in
  let o := PushParsed Example.context Example.request Example.world0 in
  exists fan,
    result o = Done fan /\
    length (trackedSamples (trackers fan)) = 3%nat /\
    uuids (world o) = (uuids Example.world0 + 3)%nat.
Proof.
  intros L C Srt P V R G E o.
  let r := eval vm_compute in (result o) in
  match r with Done ?f => pose (fan := f) end.
  assert (H : result o = Done fan) by (vm_compute; reflexivity).
  exists fan. split; [exact H|]. split; [reflexivity|].
  destruct (PushParsed_fresh_ids Example.context Example.request
              Example.world0 fan H) as (_ & Hu & _).
  exact Hu.
Defined.

(** X20.  When [PushParsed] reaches its [select], each series is handed to
    the ingesters of the replication set the ring returned for its token
    and to no other: a goroutine carries the series once for each instance
    of that set at its address, and every instance of the set has a
    goroutine that carries the series. *)
Theorem PushParsed_routes_to_replication_set
    {L : Limits} {C : phlaremodel.SessionIDCodec} {Srt : sort.Sorter}
    {P : pprof.Ops} {V : validation.Ops} {R : limiter.RateLimiter}
    {G : ring.ReadRing} {E : Environment}
    (ctx : Context) (req : distributormodel.PushRequest) (w : World)
    (fan : Fanout) (t : nat) (tracker : profileTracker) :
  result (PushParsed ctx req w) = Done fan ->
  trackers fan !! t = Some tracker ->
  exists tenantID replicationSet,
    TenantID ctx = Some tenantID /\
    ring.ShuffleShardGet tenantID (IngestionTenantShardSize tenantID)
      (TokenFor tenantID
         (LabelPairsString (distributormodel.SeriesLabels (profile tracker)))) =
      Some replicationSet /\
    (forall sd, sd ∈ senders fan ->
       occurrences t (profileTrackers sd) =
       instancesAt (addrOf sd) (ring.Instances replicationSet)) /\
    (forall d, d ∈ ring.Instances replicationSet ->
       exists sd, sd ∈ senders fan /\ addrOf sd = ring.Addr d /\
                  t ∈ profileTrackers sd).
Proof.
  intros H Htr.
  destruct (PushParsed_fan ctx req w fan H)
    as (tenantID & n & profileSeries & profiles & selected &
        Ht & Hn & Hs & _ & _ & ->).
  cbn [trackers senders] in *.
  pose proof (shardSelect_descs _ _ _ _ _ _ _ descsFiled_empty Hs) as Hd.
  pose proof (shardSelect_profiles _ _ _ _ _ _ _ Hs) as Hprof.
  pose proof (newTrackers_Done _ _ _ Hn) as Hfresh.
  destruct (map_lookup_eq profile _ _ t tracker Hprof Htr) as (tr0 & Htr0 & Ep).
  destruct (Forall2_lookup_r _ _ _ _ _ Hfresh Htr0) as (series & Hser & Hf).
  destruct Hf as (El & _).
  set (key := TokenFor tenantID
                (LabelPairsString (distributormodel.SeriesLabels series))).
  assert (Hkey :
    List.map
      (fun series =>
         TokenFor tenantID
           (LabelPairsString (distributormodel.SeriesLabels series)))
      profileSeries !! t = Some key).
  { change (List.map ?f profileSeries) with (f <$> profileSeries).
    rewrite list_lookup_fmap, Hser. reflexivity. }
  destruct (shardSelect_Done _ _ _ _ _ _ _ Hs) as (_ & _ & Hin).
  destruct (Hin t key Hkey) as (rs & Hrs & _).
  assert (Hocc : forall addr,
    occurrences t (default [] (selected.2.1 !! addr)) =
    instancesAt addr (ring.Instances rs)).
  { intros addr. rewrite (shardSelect_lookup _ _ _ _ _ _ _ addr t Hs).
    cbn [fst]. rewrite lookup_empty. cbn [default].
    rewrite Nat.sub_0_r, Hkey. cbn. unfold routedTo. now rewrite Hrs. }
  exists tenantID, rs. split; [exact Ht|]. split.
  { rewrite <- Ep, El. exact Hrs. }
  split.
  - intros sd Hsd. destruct (sender_entry selected.2 sd Hd Hsd) as (Hl & _).
    rewrite <- Hocc, Hl. reflexivity.
  - intros d Hdin. pose proof (instancesAt_pos d _ Hdin) as Hpos.
    rewrite <- Hocc in Hpos.
    destruct (selected.2.1 !! ring.Addr d) as [l|] eqn:El'; [|cbn in Hpos; lia].
    cbn in Hpos.
    destruct (entry_sender selected.2 _ l Hd El') as (sd & Hsd & Ea & Epl).
    exists sd. split; [exact Hsd|]. split; [exact Ea|].
    rewrite Epl. now apply occurrences_pos_elem_of.
Qed.

Lemma PushParsed_routes_to_replication_set_witness :
  let L := Example.limits8 in
  let C := SessionHex.codec in
  let Srt := sort.stableSorter in
  let P := Example.ops in
  let V := Example.validationOps in
  let R := Example.limiterOpen in
  let G := Example.ring3 in
  let E := Example.environment in
  let o := PushParsed Example.context Example.request Example.world0 in
  exists fan tracker,
    result o = Done fan /\
    trackers fan !! 1%nat = Some tracker /\
    List.map (fun sd => (addrOf sd, profileTrackers sd)) (senders fan) =
      [("ingester-3", [0; 1; 2]%nat); ("ingester-1", [0; 1; 2]%nat);
       ("ingester-2", [0; 1; 2]%nat)] /\
    forall sd, sd ∈ senders fan -> 1%nat ∈ profileTrackers sd.
Proof.
  intros L C Srt P V R G E o.
  let r := eval vm_compute in (result o) in
  match r with Done ?f => pose (fan := f) end.
  let r := eval vm_compute in (trackers fan !! 1%nat) in
  match r with Some ?t => pose (tracker := t) end.
  assert (H : result o = Done fan) by (vm_compute; reflexivity).
  assert (Ht : trackers fan !! 1%nat = Some tracker) by reflexivity.
  exists fan, tracker. split; [exact H|]. split; [exact Ht|].
  split; [vm_compute; reflexivity|].
  destruct (PushParsed_routes_to_replication_set Example.context Example.request
              Example.world0 fan 1 tracker H Ht)
    as (tenantID & rs & _ & Hrs & Hocc & _).
  cbn in Hrs. injection Hrs as <-.
  intros sd Hsd. apply occurrences_pos_elem_of. rewrite (Hocc sd Hsd).
  repeat (apply elem_of_cons in Hsd as [->|Hsd]); [vm_compute; lia..|].
  inversion Hsd.
Defined.

(** ** The fan-out comes to an end *)

Section WorkFacts.

Implicit Types (st : Fanout) (sd : Sender).

Lemma work_setSender st st' s sd sd' :
  senders st !! s = Some sd ->
  senders st' = <[s:=sd']> (senders st) -> caller st' = caller st ->
  (remaining sd' < remaining sd)%nat ->
  (work st' < work st)%nat.
Proof.
  intros Hs Hsd Hc Hlt. unfold work. rewrite Hsd, Hc.
  pose proof (sum_list_with_insert remaining (senders st) s sd sd' Hs). lia.
Qed.

Lemma remaining_next pt sd t :
  profileTrackers sd !! index sd = Some t -> point sd = AtLoop ->
  (remaining (next pt sd) < remaining sd)%nat.
Proof.
  intros Ht Hp. apply lookup_lt_Some in Ht.
  unfold remaining. rewrite Hp. cbn [next profileTrackers index point].
  destruct pt; lia.
Qed.

Lemma step_work st st' : step st st' -> (work st' < work st)%nat.
Proof.
  intros Hstep. destruct Hstep as
    [st s sd e Hs Hp
    |st s sd t tr Hs Hp He Ht Htr v
    |st s sd Hs Hp v
    |st s sd Hs Hp Hd
    |st s sd t tr e Hs Hp He Ht Htr v
    |st s sd Hs Hp v
    |st s sd e Hs Hp He Herr
    |st e rest Hc Herr
    |st u rest Hc Hd
    |st Hc].
  - eapply work_setSender; [exact Hs|reflexivity|reflexivity|].
    unfold remaining. rewrite Hp. cbn. lia.
  - eapply work_setSender; [exact Hs|reflexivity|reflexivity|].
    now apply (remaining_next _ sd t).
  - eapply work_setSender; [exact Hs|reflexivity|reflexivity|].
    unfold remaining. rewrite Hp. cbn. destruct (v =? 0); lia.
  - eapply work_setSender; [exact Hs|reflexivity|reflexivity|].
    unfold remaining. rewrite Hp. cbn. lia.
  - eapply work_setSender; [exact Hs|reflexivity|reflexivity|].
    now apply (remaining_next _ sd t).
  - eapply work_setSender; [exact Hs|reflexivity|reflexivity|].
    unfold remaining. rewrite Hp. cbn. destruct (v =? 1); lia.
  - eapply work_setSender; [exact Hs|reflexivity|reflexivity|].
    unfold remaining. rewrite Hp. cbn. lia.
  - unfold work. cbn. rewrite Hc. lia.
  - unfold work. cbn. rewrite Hc. lia.
  - unfold work. cbn. rewrite Hc. lia.
Qed.

Lemma run_nsteps schedule st st' :
  run schedule st = Some st' -> nsteps step (length schedule) st st'.
Proof.
  revert st. induction schedule as [|a schedule IH]; intros st; cbn.
  - intros [= <-]. constructor.
  - destruct (exec a st) as [st1|] eqn:Ea; [|discriminate].
    intros H. econstructor; [eapply exec_step; exact Ea|now apply IH].
Qed.

End WorkFacts.

(** X21.  The fan-out comes to an end under every schedule: each atomic
    operation of a goroutine or of the caller uses up some of the work the
    state has left, so a run from a state is no longer than its work: one
    operation for the [select], and for each goroutine one for its call
    and at most three for each series it carries. *)
Theorem fanout_terminates (n : nat) (st st' : Fanout) :
  nsteps step n st st' -> (n + work st' <= work st)%nat.
Proof.
  induction 1 as [st|n st st1 st2 Hstep _ IH]; [lia|].
  apply step_work in Hstep. lia.
Qed.

Lemma fanout_terminates_witness :
  let L := Example.limits8 in
  let C := SessionHex.codec in
  let Srt := sort.stableSorter in
  let P := Example.ops in
  let V := Example.validationOps in
  let R := Example.limiterOpen in
  let G := Example.ring3 in
  let E := Example.environment in
  exists fan st,
    result (PushParsed Example.context Example.request Example.world0) = Done fan /\
    nsteps step 17 fan st /\
    work fan = 31%nat /\
    (17 + work st <= 31)%nat.
Proof.
  intros L C Srt P V R G E.
  let r := eval vm_compute in
    (result (PushParsed Example.context Example.request Example.world0)) in
  match r with Done ?f => pose (fan := f) end.
  let r := eval vm_compute in (run Example.schedule fan) in
  match r with Some ?s => pose (st := s) end.
  assert (H : nsteps step 17 fan st).
  { apply (run_nsteps Example.schedule). vm_compute. reflexivity. }
  exists fan, st. split; [vm_compute; reflexivity|]. split; [exact H|].
  split; [reflexivity|].
  exact (fanout_terminates 17 fan st H).
Defined.

(** ** The channels of the push tracker *)

Section ChannelCounts.

Implicit Types (st : Fanout) (sd : Sender) (pt : Point).

Lemma sum_list_with_lookup {A : Type} (f : A -> nat) (l : list A) i x :
  l !! i = Some x -> (f x <= sum_list_with f l)%nat.
Proof.
  revert i. induction l as [|a l IH]; intros [|i] H; try discriminate; simpl in *.
  - injection H as ->. lia.
  - specialize (IH i H). lia.
Qed.

Lemma standing_insert pt st st' s sd sd' :
  senders st !! s = Some sd -> senders st' = <[s:=sd']> (senders st) ->
  (standing pt st' + (if decide (point sd = pt) then 1 else 0) =
   standing pt st + (if decide (point sd' = pt) then 1 else 0))%nat.
Proof.
  intros Hs Hsd. unfold standing. rewrite Hsd.
  apply (sum_list_with_insert
           (fun sd => if decide (point sd = pt) then 1%nat else 0%nat)
           _ _ _ _ Hs).
Qed.

Lemma standing_same pt st st' :
  senders st' = senders st -> standing pt st' = standing pt st.
Proof. intros H. unfold standing. now rewrite H. Qed.

Lemma standing_moved pt st st' s sd sd' :
  senders st !! s = Some sd -> senders st' = <[s:=sd']> (senders st) ->
  point sd <> pt -> point sd' <> pt ->
  standing pt st' = standing pt st.
Proof.
  intros Hs Hsd H1 H2. pose proof (standing_insert pt st st' s sd sd' Hs Hsd) as H.
  destruct (decide (point sd = pt)); [contradiction|].
  destruct (decide (point sd' = pt)); [contradiction|]. lia.
Qed.

Lemma standing_left pt st st' s sd sd' :
  senders st !! s = Some sd -> senders st' = <[s:=sd']> (senders st) ->
  point sd = pt -> point sd' <> pt ->
  (standing pt st' + 1 = standing pt st)%nat.
Proof.
  intros Hs Hsd H1 H2. pose proof (standing_insert pt st st' s sd sd' Hs Hsd) as H.
  destruct (decide (point sd = pt)); [|contradiction].
  destruct (decide (point sd' = pt)); [contradiction|]. lia.
Qed.

Lemma standing_arrived pt st st' s sd sd' :
  senders st !! s = Some sd -> senders st' = <[s:=sd']> (senders st) ->
  point sd <> pt -> point sd' = pt ->
  standing pt st' = (standing pt st + 1)%nat.
Proof.
  intros Hs Hsd H1 H2. pose proof (standing_insert pt st st' s sd sd' Hs Hsd) as H.
  destruct (decide (point sd = pt)); [contradiction|].
  destruct (decide (point sd' = pt)); [|contradiction]. lia.
Qed.

Lemma standing_pos pt st s sd :
  senders st !! s = Some sd -> point sd = pt -> (0 < standing pt st)%nat.
Proof.
  intros Hs Hp. unfold standing.
  pose proof (sum_list_with_lookup
                (fun sd => if decide (point sd = pt) then 1%nat else 0%nat)
                (senders st) s sd Hs) as H.
  simpl in H. destruct (decide (point sd = pt)); [lia|contradiction].
Qed.

Lemma standing_zero pt st sd :
  standing pt st = 0%nat -> sd ∈ senders st -> point sd <> pt.
Proof.
  intros H0 Hin Hp. apply list_elem_of_lookup in Hin as [s Hs].
  pose proof (standing_pos pt st s sd Hs Hp). lia.
Qed.

Lemma pendingCount_pos st s sd :
  senders st !! s = Some sd -> point sd = AtPending -> (0 < pendingCount st)%nat.
Proof.
  intros Hs Hp. unfold pendingCount.
  assert (Hb : pendingb sd = true).
  { unfold pendingb. rewrite Hp. now destruct (decide (AtPending = AtPending)). }
  pose proof (sum_list_with_lookup
                (fun sd => if pendingb sd then 1%nat else 0%nat)
                (senders st) s sd Hs) as H.
  cbv beta in H. rewrite Hb in H. exact H.
Qed.

End ChannelCounts.

Section DoneOnce.

Implicit Types (st : Fanout) (sd : Sender).

Lemma doneOnce_same st st' :
  doneTokens st' = doneTokens st ->
  samplesPending (push st') = samplesPending (push st) ->
  length (trackers st') = length (trackers st) ->
  doneOnce st -> doneOnce st'.
Proof.
  intros Ht Hp Hl [H1 H2 H3]. constructor; rewrite ?Ht, ?Hp, ?Hl; assumption.
Qed.

Lemma doneTokens_moved st st' s sd sd' :
  senders st !! s = Some sd -> senders st' = <[s:=sd']> (senders st) ->
  done (push st') = done (push st) -> caller st' = caller st ->
  point sd <> AtDone -> point sd' <> AtDone ->
  doneTokens st' = doneTokens st.
Proof.
  intros Hs Hsd Hd Hc H1 H2. unfold doneTokens.
  now rewrite Hd, Hc, (standing_moved AtDone st st' s sd sd' Hs Hsd H1 H2).
Qed.

Lemma next_point_ne (b : bool) (p1 p2 q : Point) sd :
  p1 <> q -> p2 <> q -> point (next (if b then p1 else p2) sd) <> q.
Proof. intros H1 H2. destruct b; simpl; assumption. Qed.

Lemma at_point_ne (b : bool) (p1 p2 q : Point) sd :
  p1 <> q -> p2 <> q -> point (at_ (if b then p1 else p2) sd) <> q.
Proof. intros H1 H2. destruct b; simpl; assumption. Qed.

Lemma doneOnce_step st st' :
  invariant st -> doneOnce st -> step st st' -> doneOnce st'.
Proof.
  intros Hinv Hd Hstep. destruct Hstep as
    [st s sd e Hs Hp
    |st s sd t tr Hs Hp He Ht Htr v
    |st s sd Hs Hp v
    |st s sd Hs Hp Hdn
    |st s sd t tr e Hs Hp He Ht Htr v
    |st s sd Hs Hp v
    |st s sd e Hs Hp He Herr
    |st e rest Hc Herr
    |st u rest Hc Hdn
    |st Hc].
  - apply (doneOnce_same st); [|reflexivity|reflexivity|exact Hd].
    eapply doneTokens_moved; [exact Hs|reflexivity..| |discriminate].
    rewrite Hp. discriminate.
  - apply (doneOnce_same st); [|reflexivity| |exact Hd].
    + eapply doneTokens_moved; [exact Hs|reflexivity..| |].
      * rewrite Hp. discriminate.
      * apply next_point_ne; discriminate.
    + simpl. apply length_insert.
  - (* samplesPending.Dec() *)
    destruct Hinv as [Hlen _ _ _ _ (decs & Hsp & Hdecs) _].
    pose proof (reachedCount_le st) as Hle.
    pose proof (pendingCount_pos st s sd Hs Hp) as Hpos.
    assert (Hv : v = samplesPending (push st) - 1).
    { unfold v. rewrite int32_small; lia. }
    destruct Hd as [H1 H2 H3].
    assert (H0 : doneTokens st = 0%nat).
    { destruct (doneTokens st) as [|[|k]] eqn:Ek; [reflexivity| |lia].
      specialize (H2 eq_refl). lia. }
    set (sd' := at_ (if v =? 0 then AtDone else AtLoop) sd).
    set (st' := setSender s sd' _).
    assert (Hne : point sd <> AtDone) by (rewrite Hp; discriminate).
    destruct (v =? 0) eqn:Ev.
    + apply Z.eqb_eq in Ev.
      assert (Ht' : doneTokens st' = 1%nat).
      { unfold doneTokens.
        rewrite (standing_arrived AtDone st st' s sd sd' Hs eq_refl Hne eq_refl).
        unfold doneTokens in H0. simpl in *. lia. }
      constructor; [lia| |intros; exact Ht'].
      intros _. simpl. exact Ev.
    + apply Z.eqb_neq in Ev.
      assert (Ht' : doneTokens st' = 0%nat).
      { unfold doneTokens.
        rewrite (standing_moved AtDone st st' s sd sd' Hs eq_refl Hne);
          [|discriminate].
        unfold doneTokens in H0. simpl in *. lia. }
      constructor; [lia|intros; lia|].
      intros Hz. simpl in Hz. contradiction.
  - apply (doneOnce_same st); [|reflexivity|reflexivity|exact Hd].
    unfold doneTokens.
    pose proof (standing_left AtDone st
                  (setSender s (at_ AtLoop sd)
                     (setPush
                        {| samplesPending := samplesPending (push st);
                           samplesFailed := samplesFailed (push st);
                           done := [tt]; err := err (push st) |} st))
                  s sd (at_ AtLoop sd) Hs eq_refl Hp) as Hst.
    simpl in *. rewrite Hdn. simpl.
    assert (Hx : AtLoop <> AtDone) by discriminate. specialize (Hst Hx). lia.
  - apply (doneOnce_same st); [|reflexivity| |exact Hd].
    + eapply doneTokens_moved; [exact Hs|reflexivity..| |].
      * rewrite Hp. discriminate.
      * apply next_point_ne; discriminate.
    + simpl. apply length_insert.
  - apply (doneOnce_same st); [|reflexivity|reflexivity|exact Hd].
    eapply doneTokens_moved; [exact Hs|reflexivity..| |].
    + rewrite Hp. discriminate.
    + apply at_point_ne; discriminate.
  - apply (doneOnce_same st); [|reflexivity|reflexivity|exact Hd].
    eapply doneTokens_moved; [exact Hs|reflexivity..| |discriminate].
    rewrite Hp. discriminate.
  - apply (doneOnce_same st); [|reflexivity|reflexivity|exact Hd].
    unfold doneTokens, standing. simpl. rewrite Hc. reflexivity.
  - apply (doneOnce_same st); [|reflexivity|reflexivity|exact Hd].
    unfold doneTokens, standing. simpl. rewrite Hc, Hdn. simpl. lia.
  - apply (doneOnce_same st); [|reflexivity|reflexivity|exact Hd].
    unfold doneTokens, standing. simpl. rewrite Hc. reflexivity.
Qed.

Lemma doneOnce_reaches st st' :
  invariant st -> doneOnce st -> reaches st st' -> doneOnce st'.
Proof.
  intros Hinv Hd Hr. induction Hr as [st|st st1 st2 Hstep _ IH]; [exact Hd|].
  apply IH; [eapply invariant_step; eassumption|].
  eapply doneOnce_step; eassumption.
Qed.

End DoneOnce.

Section Indexed.

Implicit Types (st : Fanout) (sd : Sender).

Lemma indexed_sender st st' s sd sd' :
  indexed st ->
  senders st !! s = Some sd -> senders st' = <[s:=sd']> (senders st) ->
  length (trackers st') = length (trackers st) ->
  profileTrackers sd' = profileTrackers sd ->
  (index sd' <= length (profileTrackers sd))%nat ->
  (point sd' = Calling -> index sd' = 0%nat) ->
  (point sd' = AtSamplesFailed \/ point sd' = AtErr -> sendErr sd' <> None) ->
  indexed st'.
Proof.
  intros [H1 H2 H3 H4] Hs Hsd Hl Hp Hi Hc He.
  constructor; rewrite Hsd, ?Hl; (apply Forall_insert; [assumption|]).
  - rewrite Hp. apply (Forall_lookup_1 _ _ _ _ H1 Hs).
  - now rewrite Hp.
  - exact Hc.
  - exact He.
Qed.

Lemma indexed_other st st' :
  senders st' = senders st -> length (trackers st') = length (trackers st) ->
  indexed st -> indexed st'.
Proof.
  intros Hs Hl [H1 H2 H3 H4]. constructor; rewrite Hs, ?Hl; assumption.
Qed.

Lemma indexed_step st st' : indexed st -> step st st' -> indexed st'.
Proof.
  intros Hi Hstep.
  assert (Hle : forall s sd, senders st !! s = Some sd ->
                  (index sd <= length (profileTrackers sd))%nat).
  { intros s sd Hs. apply (Forall_lookup_1 _ _ _ _ (idx_le st Hi) Hs). }
  assert (Herrv : forall s sd, senders st !! s = Some sd ->
                  point sd = AtSamplesFailed \/ point sd = AtErr ->
                  sendErr sd <> None).
  { intros s sd Hs. apply (Forall_lookup_1 _ _ _ _ (idx_err st Hi) Hs). }
  destruct Hstep as
    [st s sd e Hs Hp
    |st s sd t tr Hs Hp He Ht Htr v
    |st s sd Hs Hp v
    |st s sd Hs Hp Hdn
    |st s sd t tr e Hs Hp He Ht Htr v
    |st s sd Hs Hp v
    |st s sd e Hs Hp He Herr
    |st e rest Hc Herr
    |st u rest Hc Hdn
    |st Hc].
  - eapply (indexed_sender st _ s sd); [exact Hi|exact Hs|reflexivity..| | |].
    + simpl. eauto.
    + discriminate.
    + intros [H|H]; discriminate.
  - eapply (indexed_sender st _ s sd); [exact Hi|exact Hs|reflexivity| |reflexivity| | |].
    + simpl. apply length_insert.
    + simpl. apply lookup_lt_Some in Ht. lia.
    + simpl. destruct (v =? _); discriminate.
    + simpl. destruct (v =? _); intros [H|H]; discriminate.
  - eapply (indexed_sender st _ s sd); [exact Hi|exact Hs|reflexivity..| | |].
    + simpl. eauto.
    + simpl. destruct (v =? 0); discriminate.
    + simpl. destruct (v =? 0); intros [H|H]; discriminate.
  - eapply (indexed_sender st _ s sd); [exact Hi|exact Hs|reflexivity..| | |].
    + simpl. eauto.
    + discriminate.
    + intros [H|H]; discriminate.
  - eapply (indexed_sender st _ s sd); [exact Hi|exact Hs|reflexivity| |reflexivity| | |].
    + simpl. apply length_insert.
    + simpl. apply lookup_lt_Some in Ht. lia.
    + simpl. destruct (v <=? _); discriminate.
    + simpl. rewrite He. discriminate.
  - eapply (indexed_sender st _ s sd); [exact Hi|exact Hs|reflexivity..| | |].
    + simpl. eauto.
    + simpl. destruct (v =? 1); discriminate.
    + simpl. intros _. apply (Herrv s sd Hs). now left.
  - eapply (indexed_sender st _ s sd); [exact Hi|exact Hs|reflexivity..| | |].
    + simpl. eauto.
    + discriminate.
    + intros [H|H]; discriminate.
  - apply (indexed_other st); [reflexivity..|exact Hi].
  - apply (indexed_other st); [reflexivity..|exact Hi].
  - apply (indexed_other st); [reflexivity..|exact Hi].
Qed.

Lemma indexed_reaches st st' : indexed st -> reaches st st' -> indexed st'.
Proof.
  intros Hi Hr. induction Hr as [st|st st1 st2 Hstep _ IH]; [exact Hi|].
  apply IH. eapply indexed_step; eassumption.
Qed.

End Indexed.

Section Failing.

Implicit Types (st : Fanout) (sd : Sender) (tr : profileTracker).

Lemma occurrences_le_length t (l : list nat) : (occurrences t l <= length l)%nat.
Proof.
  unfold occurrences. induction l as [|x l IH]; simpl; [lia|].
  destruct (Nat.eqb t x); simpl; lia.
Qed.

Lemma failedBy_le t sd : (failedBy t sd <= length (profileTrackers sd))%nat.
Proof.
  unfold failedBy.
  pose proof (occurrences_take_le t (profileTrackers sd) (index sd)).
  pose proof (occurrences_le_length t (profileTrackers sd)).
  destruct (point sd), (sendErr sd); lia.
Qed.

Lemma failedCount_le_carried st t : (failedCount st t <= carried st)%nat.
Proof. apply sum_list_with_le. intros sd. apply failedBy_le. Qed.

Lemma failedBy_le_failures t sd :
  (failedBy t sd <=
   match point sd, sendErr sd with
   | Calling, _ => 0
   | _, None => 0
   | _, Some _ => occurrences t (profileTrackers sd)
   end)%nat.
Proof.
  unfold failedBy.
  pose proof (occurrences_take_le t (profileTrackers sd) (index sd)).
  destruct (point sd), (sendErr sd); lia.
Qed.

Lemma failedCount_le_failures st t : (failedCount st t <= failures st t)%nat.
Proof.
  unfold failedCount, failures. apply sum_list_with_le. intros sd.
  apply failedBy_le_failures.
Qed.

Lemma sum_list_with_Forall_le {A : Type} (f g : A -> nat) (l : list A) :
  Forall (fun a => (f a <= g a)%nat) l ->
  (sum_list_with f l <= sum_list_with g l)%nat.
Proof. induction 1; simpl; lia. Qed.

Lemma visited_le_carried st : indexed st -> (visited st <= carried st)%nat.
Proof. intros Hi. apply sum_list_with_Forall_le, (idx_le st Hi). Qed.

Lemma failedCount_insert st st' s sd sd' t :
  senders st !! s = Some sd -> senders st' = <[s:=sd']> (senders st) ->
  (failedCount st' t + failedBy t sd = failedCount st t + failedBy t sd')%nat.
Proof.
  intros H E. unfold failedCount. rewrite E. now apply sum_list_with_insert.
Qed.

Lemma carried_insert st st' s sd sd' :
  senders st !! s = Some sd -> senders st' = <[s:=sd']> (senders st) ->
  profileTrackers sd' = profileTrackers sd ->
  carried st' = carried st.
Proof.
  intros H E Hp. unfold carried. rewrite E.
  pose proof (sum_list_with_insert
                (fun sd => length (profileTrackers sd)) _ _ _ sd' H) as Hs.
  simpl in Hs. rewrite Hp in Hs. lia.
Qed.

Lemma visited_insert st st' s sd sd' :
  senders st !! s = Some sd -> senders st' = <[s:=sd']> (senders st) ->
  (visited st' + index sd = visited st + index sd')%nat.
Proof.
  intros H E. unfold visited. rewrite E. now apply sum_list_with_insert.
Qed.

Lemma exceeded_same st st' :
  trackers st' = trackers st -> exceeded st -> exceeded st'.
Proof. intros E (t & tr & Ht & Hlt). exists t, tr. now rewrite E. Qed.

Lemma exceeded_insert st st' t tr tr' :
  trackers st !! t = Some tr -> trackers st' = <[t:=tr']> (trackers st) ->
  maxFailures tr' = maxFailures tr -> failed tr <= failed tr' ->
  exceeded st -> exceeded st'.
Proof.
  intros Ht E Hm Hf (t0 & tr0 & Ht0 & Hlt).
  destruct (decide (t = t0)) as [<-|Hne].
  - exists t, tr'. rewrite E, list_lookup_insert_eq
      by (eapply lookup_lt_Some; exact Ht).
    split; [reflexivity|]. rewrite Ht in Ht0. injection Ht0 as <-. lia.
  - exists t0, tr0. rewrite E, list_lookup_insert_ne by exact Hne. auto.
Qed.

(** A step that leaves the count of failures alone. *)
Lemma failing_frame st st' :
  failing st ->
  carried st' = carried st ->
  Forall (fun tr => 0 <= maxFailures tr < 2 ^ 31) (trackers st') ->
  (forall t tr, trackers st' !! t = Some tr ->
                failed tr = Z.of_nat (failedCount st' t)) ->
  samplesFailed (push st') = samplesFailed (push st) ->
  samplesFailed (push st') + Z.of_nat (standing AtSamplesFailed st') <=
    Z.of_nat (visited st') ->
  (errTokens st' <= errTokens st)%nat ->
  ((0 < standing AtSamplesFailed st')%nat \/ samplesFailed (push st') <> 0 ->
   exceeded st') ->
  (forall e, caller st' = Returned (Some e) -> e = ContextError \/ exceeded st') ->
  failing st'.
Proof.
  intros [H1 H2 H3 [H4 H4'] H5 H6 H7 H8] Hc Hm Hf Hsf Hst Herr Hex Hcal.
  constructor; try assumption.
  - now rewrite Hc.
  - rewrite Hsf. split; [exact H4|]. now rewrite <- Hsf.
  - lia.
  - rewrite Hsf. intros Hz. specialize (H6 Hz). lia.
Qed.

End Failing.

Section FailingSteps.

Implicit Types (st : Fanout) (sd : Sender) (tr : profileTracker).

Lemma failedBy_at pt sd t :
  point sd <> Calling -> pt <> Calling ->
  failedBy t (at_ pt sd) = failedBy t sd.
Proof.
  intros H1 H2. unfold failedBy. simpl.
  destruct (point sd), pt; try contradiction; reflexivity.
Qed.

Lemma failedBy_returned e sd t :
  point sd = Calling -> index sd = 0%nat ->
  failedBy t (returned e sd) = failedBy t sd.
Proof.
  intros Hp Hi. unfold failedBy. simpl. rewrite Hp, Hi. now destruct e.
Qed.

Lemma failedBy_next_ok pt sd t :
  point sd = AtLoop -> sendErr sd = None -> failedBy t (next pt sd) = failedBy t sd.
Proof.
  intros Hp He. unfold failedBy. simpl. rewrite Hp, He. now destruct pt.
Qed.

Lemma failedBy_next_err pt sd t t0 e :
  point sd = AtLoop -> sendErr sd = Some e -> pt <> Calling ->
  profileTrackers sd !! index sd = Some t0 ->
  failedBy t (next pt sd) =
  (failedBy t sd + if Nat.eqb t t0 then 1 else 0)%nat.
Proof.
  intros Hp He Hpt Ht. unfold failedBy. simpl. rewrite Hp, He.
  rewrite (occurrences_take_S t _ _ t0 Ht).
  destruct pt; try contradiction; reflexivity.
Qed.

Lemma errTokens_moved st st' s sd sd' :
  senders st !! s = Some sd -> senders st' = <[s:=sd']> (senders st) ->
  err (push st') = err (push st) ->
  point sd <> AtErr -> point sd' <> AtErr ->
  errTokens st' = errTokens st.
Proof.
  intros Hs Hsd He H1 H2. unfold errTokens.
  now rewrite He, (standing_moved AtErr st st' s sd sd' Hs Hsd H1 H2).
Qed.

(** A goroutine moves on without touching the count of failures. *)
Lemma failing_quiet st st' s sd sd' :
  failing st ->
  senders st !! s = Some sd -> senders st' = <[s:=sd']> (senders st) ->
  samplesFailed (push st') = samplesFailed (push st) ->
  err (push st') = err (push st) -> caller st' = caller st ->
  profileTrackers sd' = profileTrackers sd ->
  (index sd <= index sd')%nat ->
  (forall t, failedBy t sd' = failedBy t sd) ->
  point sd <> AtSamplesFailed -> point sd <> AtErr ->
  point sd' <> AtSamplesFailed -> point sd' <> AtErr ->
  Forall (fun tr => 0 <= maxFailures tr < 2 ^ 31) (trackers st') ->
  (forall t tr', trackers st' !! t = Some tr' ->
     exists tr, trackers st !! t = Some tr /\ failed tr' = failed tr) ->
  (exceeded st -> exceeded st') ->
  failing st'.
Proof.
  intros Hf Hs Hsd Hsf Herr Hc Hp Hi Hfb H1 H2 H3 H4 Hmax Htr Hex.
  assert (Hfc : forall t, failedCount st' t = failedCount st t).
  { intros t. pose proof (failedCount_insert st st' s sd sd' t Hs Hsd) as H.
    rewrite Hfb in H. lia. }
  pose proof (visited_insert st st' s sd sd' Hs Hsd) as Hv.
  pose proof (standing_moved AtSamplesFailed st st' s sd sd' Hs Hsd H1 H3) as Hst.
  apply (failing_frame st st' Hf).
  - now apply (carried_insert st st' s sd sd').
  - exact Hmax.
  - intros t tr' Ht. destruct (Htr t tr' Ht) as (tr & Ht0 & ->).
    rewrite Hfc. now apply (f_failed st Hf).
  - exact Hsf.
  - rewrite Hsf, Hst. pose proof (f_sf st Hf) as [_ H]. lia.
  - rewrite (errTokens_moved st st' s sd sd' Hs Hsd Herr H2 H4). lia.
  - rewrite Hsf, Hst. intros H. apply Hex, (f_exceeded st Hf), H.
  - rewrite Hc. intros e He. destruct (f_caller st Hf e He); auto.
Qed.

(** The caller takes a case of its [select]. *)
Lemma failing_caller st st' :
  failing st ->
  senders st' = senders st -> trackers st' = trackers st ->
  samplesFailed (push st') = samplesFailed (push st) ->
  (length (err (push st')) <= length (err (push st)))%nat ->
  (forall e, caller st' = Returned (Some e) ->
     caller st = Returned (Some e) \/ e = ContextError \/ exceeded st) ->
  failing st'.
Proof.
  intros Hf Hs Ht Hsf Herr Hc.
  assert (Hex : exceeded st -> exceeded st') by apply exceeded_same, Ht.
  apply (failing_frame st st' Hf).
  - unfold carried. now rewrite Hs.
  - rewrite Ht. apply (f_max st Hf).
  - intros t tr Htr. unfold failedCount. rewrite Hs. rewrite Ht in Htr.
    now apply (f_failed st Hf).
  - exact Hsf.
  - rewrite Hsf. unfold standing, visited. rewrite Hs. apply (f_sf st Hf).
  - unfold errTokens, standing. rewrite Hs. lia.
  - rewrite Hsf. unfold standing. rewrite Hs. intros H.
    apply Hex, (f_exceeded st Hf), H.
  - intros e He. destruct (Hc e He) as [H|[H|H]]; auto.
    destruct (f_caller st Hf e H); auto.
Qed.

Lemma trackers_same_failed st :
  forall t tr', trackers st !! t = Some tr' ->
    exists tr, trackers st !! t = Some tr /\ failed tr' = failed tr.
Proof. intros t tr' H. eauto. Qed.

Lemma trackers_insert_failed st t tr tr' :
  trackers st !! t = Some tr -> failed tr' = failed tr ->
  forall t0 tr0, <[t:=tr']> (trackers st) !! t0 = Some tr0 ->
    exists tr1, trackers st !! t0 = Some tr1 /\ failed tr0 = failed tr1.
Proof.
  intros Ht Hf t0 tr0 H. destruct (decide (t = t0)) as [<-|Hne].
  - rewrite list_lookup_insert_eq in H by (eapply lookup_lt_Some; exact Ht).
    injection H as <-. eauto.
  - rewrite list_lookup_insert_ne in H by exact Hne. eauto.
Qed.

Lemma max_insert st t tr tr' :
  Forall (fun tr => 0 <= maxFailures tr < 2 ^ 31) (trackers st) ->
  trackers st !! t = Some tr -> maxFailures tr' = maxFailures tr ->
  Forall (fun tr => 0 <= maxFailures tr < 2 ^ 31) (<[t:=tr']> (trackers st)).
Proof.
  intros Hm Ht E. apply Forall_insert; [exact Hm|]. rewrite E.
  apply (Forall_lookup_1 _ _ _ _ Hm Ht).
Qed.

End FailingSteps.

Section FailingStep.

Implicit Types (st : Fanout) (sd : Sender) (tr : profileTracker).

(** [failed.Inc()], compared with [maxFailures]. *)
Lemma failing_failed st s sd t tr e :
  indexed st -> failing st ->
  senders st !! s = Some sd -> point sd = AtLoop -> sendErr sd = Some e ->
  profileTrackers sd !! index sd = Some t -> trackers st !! t = Some tr ->
  let v := GoInt.int32 (failed tr + 1) in
  failing
    (setSender s
       (next (if v <=? GoInt.int32 (maxFailures tr) then AtLoop
              else AtSamplesFailed) sd)
       (setTracker t
          {| profile := profile tr; minSuccess := minSuccess tr;
             maxFailures := maxFailures tr; succeeded := succeeded tr;
             failed := v |} st)).
Proof.
  intros Hi Hf Hs Hp He Ht Htr v.
  set (tr' := {| profile := profile tr; minSuccess := minSuccess tr;
                 maxFailures := maxFailures tr; succeeded := succeeded tr;
                 failed := v |}).
  set (pt := if v <=? GoInt.int32 (maxFailures tr) then AtLoop else AtSamplesFailed).
  set (sd' := next pt sd).
  set (st' := setSender s sd' (setTracker t tr' st)).
  assert (Hpt : pt <> Calling /\ pt <> AtErr).
  { unfold pt. destruct (v <=? _); split; discriminate. }
  destruct Hpt as [Hpc Hpe].
  assert (Hfc : forall t0, failedCount st' t0 =
                  (failedCount st t0 + if Nat.eqb t0 t then 1 else 0)%nat).
  { intros t0. pose proof (failedCount_insert st st' s sd sd' t0 Hs eq_refl) as H.
    unfold sd' in H. rewrite (failedBy_next_err pt sd t0 t e Hp He Hpc Ht) in H.
    lia. }
  assert (Hcar : carried st' = carried st).
  { now apply (carried_insert st st' s sd sd'). }
  pose proof (f_total st Hf) as Htot.
  pose proof (failedCount_le_carried st' t) as Hle.
  rewrite Hfc, Nat.eqb_refl, Hcar in Hle.
  pose proof (f_failed st Hf t tr Htr) as Hfail.
  assert (Hv : v = failed tr + 1).
  { unfold v. rewrite int32_small; lia. }
  pose proof (Forall_lookup_1 _ _ _ _ (f_max st Hf) Htr) as Hmax. simpl in Hmax.
  assert (Hex : exceeded st -> exceeded st').
  { apply (exceeded_insert st st' t tr tr' Htr eq_refl eq_refl). simpl. lia. }
  pose proof (visited_insert st st' s sd sd' Hs eq_refl) as Hvis.
  change (index sd') with (S (index sd)) in Hvis.
  assert (Hne1 : point sd <> AtSamplesFailed) by (rewrite Hp; discriminate).
  assert (Hne2 : point sd <> AtErr) by (rewrite Hp; discriminate).
  pose proof (f_sf st Hf) as [Hsf0 Hsf].
  assert (Hst : (standing AtSamplesFailed st' =
                 standing AtSamplesFailed st +
                 if (v <=? GoInt.int32 (maxFailures tr))%Z then 0 else 1)%nat).
  { destruct (v <=? GoInt.int32 (maxFailures tr)) eqn:Ev.
    - rewrite (standing_moved AtSamplesFailed st st' s sd sd' Hs eq_refl Hne1).
      + lia.
      + unfold sd', pt. simpl. discriminate.
    - rewrite (standing_arrived AtSamplesFailed st st' s sd sd' Hs eq_refl Hne1).
      + reflexivity.
      + reflexivity. }
  apply (failing_frame st st' Hf).
  - exact Hcar.
  - now apply (max_insert st t tr tr' (f_max st Hf) Htr).
  - intros t0 tr0 Ht0. rewrite Hfc. simpl in Ht0.
    destruct (decide (t = t0)) as [<-|Hne].
    + rewrite list_lookup_insert_eq in Ht0 by (eapply lookup_lt_Some; exact Htr).
      injection Ht0 as <-. simpl. rewrite Nat.eqb_refl, Hv, Hfail. lia.
    + rewrite list_lookup_insert_ne in Ht0 by exact Hne.
      assert (E : Nat.eqb t0 t = false) by (apply Nat.eqb_neq; congruence).
      rewrite E, Nat.add_0_r. now apply (f_failed st Hf).
  - reflexivity.
  - change (samplesFailed (push st')) with (samplesFailed (push st)).
    rewrite Hst. destruct (v <=? GoInt.int32 (maxFailures tr)); lia.
  - rewrite (errTokens_moved st st' s sd sd' Hs eq_refl eq_refl Hne2); [lia|].
    exact Hpe.
  - change (samplesFailed (push st')) with (samplesFailed (push st)).
    rewrite Hst. destruct (v <=? GoInt.int32 (maxFailures tr)) eqn:Ev.
    + rewrite Nat.add_0_r. intros H. apply Hex, (f_exceeded st Hf), H.
    + intros _. apply Z.leb_gt in Ev. rewrite int32_small in Ev by lia.
      exists t, tr'. split; [|simpl; lia].
      simpl. apply list_lookup_insert_eq. eapply lookup_lt_Some. exact Htr.
  - intros e0 He0. change (caller st') with (caller st) in He0.
    destruct (f_caller st Hf e0 He0); auto.
Qed.

(** [samplesFailed.Inc()], compared with 1. *)
Lemma failing_samplesFailed st s sd :
  indexed st -> failing st ->
  senders st !! s = Some sd -> point sd = AtSamplesFailed ->
  let v := GoInt.int32 (samplesFailed (push st) + 1) in
  failing
    (setSender s (at_ (if v =? 1 then AtErr else AtLoop) sd)
       (setPush
          {| samplesPending := samplesPending (push st); samplesFailed := v;
             done := done (push st); err := err (push st) |} st)).
Proof.
  intros Hi Hf Hs Hp v.
  set (pt := if v =? 1 then AtErr else AtLoop).
  set (sd' := at_ pt sd).
  set (st' := setSender s sd' _).
  destruct Hf as [H1 H2 H3 [H4 H4'] H5 H6 H7 H8].
  pose proof (standing_pos AtSamplesFailed st s sd Hs Hp) as Hpos.
  pose proof (visited_le_carried st Hi) as Hvc.
  assert (Hv : v = samplesFailed (push st) + 1).
  { unfold v. rewrite int32_small; lia. }
  assert (Hpt : pt <> Calling /\ pt <> AtSamplesFailed).
  { unfold pt. destruct (v =? 1); split; discriminate. }
  destruct Hpt as [Hpc Hpf].
  assert (Hfc : forall t, failedCount st' t = failedCount st t).
  { intros t. pose proof (failedCount_insert st st' s sd sd' t Hs eq_refl) as H.
    unfold sd' in H. rewrite failedBy_at in H; [lia| |exact Hpc].
    rewrite Hp. discriminate. }
  pose proof (visited_insert st st' s sd sd' Hs eq_refl) as Hvis.
  change (index sd') with (index sd) in Hvis.
  pose proof (standing_left AtSamplesFailed st st' s sd sd' Hs eq_refl Hp Hpf)
    as Hst.
  assert (Hne : point sd <> AtErr) by (rewrite Hp; discriminate).
  assert (Hex : exceeded st') by (apply (exceeded_same st); [reflexivity|]; apply H7; lia).
  constructor.
  - now rewrite (carried_insert st st' s sd sd' Hs eq_refl eq_refl).
  - exact H2.
  - intros t tr Ht. rewrite Hfc. now apply H3.
  - change (samplesFailed (push st')) with v. lia.
  - unfold errTokens. change (err (push st')) with (err (push st)).
    unfold pt in *. destruct (v =? 1) eqn:Ev.
    + apply Z.eqb_eq in Ev.
      rewrite (standing_arrived AtErr st st' s sd sd' Hs eq_refl Hne eq_refl).
      assert (Hz : samplesFailed (push st) = 0) by lia.
      specialize (H6 Hz). unfold errTokens in H6. lia.
    + rewrite (standing_moved AtErr st st' s sd sd' Hs eq_refl Hne);
        [|discriminate].
      unfold errTokens in H5. exact H5.
  - change (samplesFailed (push st')) with v. lia.
  - intros _. exact Hex.
  - intros e He. change (caller st') with (caller st) in He.
    destruct (H8 e He); auto.
Qed.

Lemma failing_step st st' :
  indexed st -> failing st -> step st st' -> failing st'.
Proof.
  intros Hi Hf Hstep.
  assert (Hcal : forall s sd, senders st !! s = Some sd ->
                   point sd = Calling -> index sd = 0%nat).
  { intros s sd Hs. apply (Forall_lookup_1 _ _ _ _ (idx_calling st Hi) Hs). }
  destruct Hstep as
    [st s sd e Hs Hp
    |st s sd t tr Hs Hp He Ht Htr v
    |st s sd Hs Hp v
    |st s sd Hs Hp Hdn
    |st s sd t tr e Hs Hp He Ht Htr v
    |st s sd Hs Hp v
    |st s sd e Hs Hp He Herr
    |st e rest Hc Herr
    |st u rest Hc Hdn
    |st Hc].
  - eapply (failing_quiet st _ s sd); [exact Hf|exact Hs|reflexivity..| | | | | | | | |].
    + simpl. lia.
    + intros t. apply failedBy_returned; [exact Hp|eauto].
    + rewrite Hp. discriminate.
    + rewrite Hp. discriminate.
    + discriminate.
    + discriminate.
    + apply (f_max st Hf).
    + apply (trackers_same_failed st).
    + auto.
  - eapply (failing_quiet st _ s sd); [exact Hf|exact Hs|reflexivity..| | | | | | | | |].
    + simpl. lia.
    + intros t0. now apply failedBy_next_ok.
    + rewrite Hp. discriminate.
    + rewrite Hp. discriminate.
    + apply next_point_ne; discriminate.
    + apply next_point_ne; discriminate.
    + simpl. now apply (max_insert st t tr _ (f_max st Hf) Htr).
    + simpl. now apply (trackers_insert_failed st t tr).
    + eapply exceeded_insert; [exact Htr|reflexivity|reflexivity|simpl; lia].
  - eapply (failing_quiet st _ s sd); [exact Hf|exact Hs|reflexivity..| | | | | | | | |].
    + simpl. lia.
    + intros t. apply failedBy_at; [rewrite Hp; discriminate|].
      destruct (v =? 0); discriminate.
    + rewrite Hp. discriminate.
    + rewrite Hp. discriminate.
    + apply at_point_ne; discriminate.
    + apply at_point_ne; discriminate.
    + apply (f_max st Hf).
    + apply (trackers_same_failed st).
    + auto.
  - eapply (failing_quiet st _ s sd); [exact Hf|exact Hs|reflexivity..| | | | | | | | |].
    + simpl. lia.
    + intros t. apply failedBy_at; [rewrite Hp|]; discriminate.
    + rewrite Hp. discriminate.
    + rewrite Hp. discriminate.
    + discriminate.
    + discriminate.
    + apply (f_max st Hf).
    + apply (trackers_same_failed st).
    + auto.
  - now apply (failing_failed st s sd t tr e).
  - now apply failing_samplesFailed.
  - (* err <- err *)
    set (sd' := at_ AtLoop sd). set (st' := setSender s sd' _).
    assert (Hfc : forall t, failedCount st' t = failedCount st t).
    { intros t. pose proof (failedCount_insert st st' s sd sd' t Hs eq_refl) as H.
      unfold sd' in H. rewrite failedBy_at in H; [lia| |discriminate].
      rewrite Hp. discriminate. }
    pose proof (visited_insert st st' s sd sd' Hs eq_refl) as Hvis.
    change (index sd') with (index sd) in Hvis.
    assert (Hst : standing AtSamplesFailed st' = standing AtSamplesFailed st).
    { apply (standing_moved AtSamplesFailed st st' s sd sd' Hs eq_refl);
        [rewrite Hp|]; discriminate. }
    apply (failing_frame st st' Hf).
    + now apply (carried_insert st st' s sd sd').
    + apply (f_max st Hf).
    + intros t tr Ht. rewrite Hfc. now apply (f_failed st Hf).
    + reflexivity.
    + change (samplesFailed (push st')) with (samplesFailed (push st)).
      rewrite Hst. pose proof (f_sf st Hf) as [_ H]. lia.
    + unfold errTokens. change (err (push st')) with [e]. rewrite Herr.
      pose proof (standing_left AtErr st st' s sd sd' Hs eq_refl Hp) as H.
      assert (Hx : point sd' <> AtErr) by discriminate. specialize (H Hx).
      simpl. lia.
    + change (samplesFailed (push st')) with (samplesFailed (push st)).
      rewrite Hst. intros H. apply (exceeded_same st); [reflexivity|].
      apply (f_exceeded st Hf), H.
    + intros e0 He0. change (caller st') with (caller st) in He0.
      destruct (f_caller st Hf e0 He0) as [H|H]; [now left|right].
      now apply (exceeded_same st).
  - apply (failing_caller st); [exact Hf|reflexivity..| |].
    + simpl. rewrite Herr. simpl. lia.
    + simpl. intros e0 [= <-]. right. right.
      apply (f_exceeded st Hf). right. intros Hz.
      pose proof (f_err_zero st Hf Hz) as H0. unfold errTokens in H0.
      rewrite Herr in H0. simpl in H0. lia.
  - apply (failing_caller st); [exact Hf|reflexivity..| |].
    + simpl. lia.
    + simpl. intros e0 H. discriminate.
  - apply (failing_caller st); [exact Hf|reflexivity..| |].
    + simpl. lia.
    + simpl. intros e0 [= <-]. right. now left.
Qed.

Lemma failing_reaches st st' :
  indexed st -> failing st -> reaches st st' -> failing st'.
Proof.
  intros Hi Hf Hr. induction Hr as [st|st st1 st2 Hstep _ IH]; [exact Hf|].
  apply IH; [eapply indexed_step; eassumption|].
  eapply failing_step; eassumption.
Qed.

End FailingStep.

(** ** The fan-out as PushParsed sets it up *)

Section InitialFacts.

Context {L : Limits} {C : phlaremodel.SessionIDCodec} {Srt : sort.Sorter}
        {P : pprof.Ops} {V : validation.Ops} {R : limiter.RateLimiter}
        {G : ring.ReadRing} {E : Environment}.

Lemma elem_of_occurrences_pos t (l : list nat) :
  t ∈ l -> (0 < occurrences t l)%nat.
Proof.
  unfold occurrences. induction l as [|x l IH]; intros H; [inversion H|].
  simpl. apply elem_of_cons in H as [<-|H].
  - rewrite Nat.eqb_refl. simpl. lia.
  - destruct (Nat.eqb t x); simpl; [lia|now apply IH].
Qed.

Lemma shardSelect_assigned_exact tenantID i keys profiles maps w selected t :
  result (shardSelect tenantID i keys profiles maps w) = Done selected ->
  assigned t selected.2.1 =
  (assigned t maps.1 +
   if (i <=? t)%nat
   then from_option (replicasOf tenantID) 0%nat (keys !! (t - i)%nat)
   else 0)%nat.
Proof.
  revert i profiles maps.
  induction keys as [|key keys IH]; intros i profiles maps; cbn [shardSelect].
  - intros [= <-]. rewrite lookup_nil. simpl. destruct (i <=? t)%nat; lia.
  - destruct (ring.ShuffleShardGet tenantID (IngestionTenantShardSize tenantID) key)
      as [rs|] eqn:Eg; [|discriminate].
    intros H. rewrite (IH _ _ _ H), assigned_assignInstances.
    destruct (Nat.eqb t i) eqn:Eti.
    + apply Nat.eqb_eq in Eti. subst t.
      rewrite Nat.sub_diag.
      change ((key :: keys) !! 0%nat) with (Some key).
      unfold from_option, replicasOf at 2. rewrite Eg.
      destruct (S i <=? i)%nat eqn:E1; [apply Nat.leb_le in E1; lia|].
      destruct (i <=? i)%nat eqn:E2; [lia|apply Nat.leb_gt in E2; lia].
    + apply Nat.eqb_neq in Eti.
      destruct (i <=? t)%nat eqn:E2.
      * apply Nat.leb_le in E2.
        destruct (S i <=? t)%nat eqn:E1; [|apply Nat.leb_gt in E1; lia].
        replace (t - i)%nat with (S (t - S i)%nat) by lia.
        change ((key :: keys) !! S (t - S i)%nat) with (keys !! (t - S i)%nat).
        lia.
      * apply Nat.leb_gt in E2.
        destruct (S i <=? t)%nat eqn:E1; [apply Nat.leb_le in E1; lia|lia].
Qed.

(** A tracker of the fan-out: its quorum is that of the replication set
    of its series, its counters are at zero, and it is carried once for
    each instance of that set. *)
Lemma PushParsed_tracker ctx req w fan t tracker :
  result (PushParsed ctx req w) = Done fan ->
  trackers fan !! t = Some tracker ->
  exists tenantID replicationSet,
    TenantID ctx = Some tenantID /\
    ring.ShuffleShardGet tenantID (IngestionTenantShardSize tenantID)
      (TokenFor tenantID
         (LabelPairsString (distributormodel.SeriesLabels (profile tracker)))) =
      Some replicationSet /\
    minSuccess tracker =
      GoInt.int (GoInt.len (ring.Instances replicationSet) -
                 ring.MaxErrors replicationSet) /\
    maxFailures tracker = ring.MaxErrors replicationSet /\
    succeeded tracker = 0 /\ failed tracker = 0 /\
    capacity fan t = length (ring.Instances replicationSet).
Proof.
  intros H Htr.
  destruct (PushParsed_fan ctx req w fan H)
    as (tenantID & n & profileSeries & profiles & selected &
        Ht & Hn & Hs & _ & _ & ->).
  cbn [trackers senders] in *.
  pose proof (newTrackers_Done _ _ _ Hn) as Hfresh.
  destruct (shardSelect_Done _ _ _ _ _ _ _ Hs) as (Hlen & _ & Hin).
  assert (Hlt : (t < length profiles)%nat).
  { rewrite <- Hlen. eapply lookup_lt_Some. exact Htr. }
  destruct (lookup_lt_is_Some_2 _ _ Hlt) as [tr0 Htr0].
  destruct (Forall2_lookup_r _ _ _ _ _ Hfresh Htr0) as (series & Hser & Hf).
  destruct Hf as (El & Hsucc & Hfail & _).
  set (key := TokenFor tenantID
                (LabelPairsString (distributormodel.SeriesLabels series))).
  assert (Hkey :
    List.map
      (fun series =>
         TokenFor tenantID
           (LabelPairsString (distributormodel.SeriesLabels series)))
      profileSeries !! t = Some key).
  { change (List.map ?f profileSeries) with (f <$> profileSeries).
    rewrite list_lookup_fmap, Hser. reflexivity. }
  destruct (Hin t key Hkey) as (rs & Hrs & Hsel).
  simpl in Hsel. rewrite Htr, Htr0 in Hsel. simpl in Hsel.
  injection Hsel as ->. simpl.
  exists tenantID, rs. split; [exact Ht|]. split; [rewrite El; exact Hrs|].
  split; [reflexivity|]. split; [reflexivity|]. split; [exact Hsucc|].
  split; [exact Hfail|].
  unfold capacity. cbn [senders]. rewrite sum_list_with_map.
  pose proof (shardSelect_assigned_exact _ _ _ _ _ _ _ t Hs) as Ha.
  unfold assigned in Ha. cbn [fst] in Ha. rewrite map_to_list_empty in Ha.
  cbn [sum_list_with] in Ha. rewrite Nat.sub_0_r, Hkey in Ha.
  simpl in Ha. unfold replicasOf in Ha. rewrite Hrs in Ha. exact Ha.
Qed.

Lemma PushParsed_senders ctx req w fan :
  result (PushParsed ctx req w) = Done fan ->
  caller fan = Waiting /\
  push fan =
    {| samplesPending := GoInt.int32 (GoInt.len (trackers fan));
       samplesFailed := 0; done := []; err := [] |} /\
  Forall
    (fun sd =>
       point sd = Calling /\ index sd = 0%nat /\
       Forall (fun t => (t < length (trackers fan))%nat) (profileTrackers sd))
    (senders fan).
Proof.
  intros H.
  destruct (PushParsed_fan ctx req w fan H)
    as (tenantID & n & profileSeries & profiles & selected &
        Ht & Hn & Hs & _ & _ & ->).
  cbn [trackers senders caller push].
  split; [reflexivity|]. split; [reflexivity|].
  pose proof (shardSelect_descs _ _ _ _ _ _ _ descsFiled_empty Hs) as Hd.
  pose proof (newTrackers_Done _ _ _ Hn) as Hfresh.
  destruct (shardSelect_Done _ _ _ _ _ _ _ Hs) as (Hlen & _ & _).
  apply Forall_forall. intros sd Hsd.
  destruct (sender_entry selected.2 sd Hd Hsd) as (Hl & _ & Hi & Hp).
  split; [exact Hp|]. split; [exact Hi|].
  apply Forall_forall. intros t Hin.
  apply elem_of_occurrences_pos in Hin.
  pose proof (shardSelect_lookup _ _ _ _ _ _ _ (addrOf sd) t Hs) as Ho.
  rewrite Hl in Ho. cbn [fst default] in Ho. rewrite lookup_empty in Ho.
  cbn [default] in Ho. rewrite Nat.sub_0_r in Ho.
  destruct (List.map _ profileSeries !! t) as [key|] eqn:Ek.
  - apply lookup_lt_Some in Ek. rewrite length_map in Ek.
    rewrite Hlen, <- (Forall2_length _ _ _ Hfresh). exact Ek.
  - simpl in Ho. unfold occurrences in *. simpl in Ho. lia.
Qed.

Lemma standing_initial pt fan :
  Forall (fun sd => point sd = Calling) (senders fan) -> pt <> Calling ->
  standing pt fan = 0%nat.
Proof.
  intros Hall Hpt. unfold standing. apply sum_list_with_zero.
  eapply Forall_impl; [exact Hall|]. intros sd Hp. simpl.
  destruct (decide (point sd = pt)); [congruence|reflexivity].
Qed.

Lemma PushParsed_channels ctx req w fan :
  ringFits32 ->
  result (PushParsed ctx req w) = Done fan ->
  GoInt.len (trackers fan) < 2 ^ 31 ->
  Z.of_nat (carried fan) < 2 ^ 31 ->
  indexed fan /\ doneOnce fan /\ failing fan.
Proof.
  intros Hring H Hlen Hcar.
  destruct (PushParsed_senders ctx req w fan H) as (Hc & Hpush & Hsd).
  assert (Hcalling : Forall (fun sd => point sd = Calling) (senders fan)).
  { eapply Forall_impl; [exact Hsd|]. now intros sd (? & _). }
  assert (Hidx : Forall (fun sd => index sd = 0%nat) (senders fan)).
  { eapply Forall_impl; [exact Hsd|]. now intros sd (_ & ? & _). }
  assert (Hst : forall pt, pt <> Calling -> standing pt fan = 0%nat).
  { intros pt. now apply standing_initial. }
  split; [|split].
  - constructor.
    + eapply Forall_impl; [exact Hsd|]. now intros sd (_ & _ & ?).
    + eapply Forall_impl; [exact Hidx|]. intros sd ->. lia.
    + eapply Forall_impl; [exact Hidx|]. auto.
    + eapply Forall_impl; [exact Hcalling|]. intros sd Hp [Hq|Hq]; congruence.
  - assert (H0 : doneTokens fan = 0%nat).
    { unfold doneTokens. rewrite Hst by discriminate. rewrite Hpush, Hc.
      reflexivity. }
    constructor; rewrite H0; [lia|discriminate|].
    rewrite Hpush. simpl. unfold GoInt.len in *. rewrite int32_small; lia.
  - constructor.
    + exact Hcar.
    + apply Forall_forall. intros tr Htr.
      apply list_elem_of_lookup in Htr as [t Htr].
      destruct (PushParsed_tracker ctx req w fan t tr H Htr)
        as (tenantID & rs & _ & Hrs & _ & -> & _).
      apply (Hring _ _ _ _ Hrs).
    + intros t tr Htr.
      destruct (PushParsed_tracker ctx req w fan t tr H Htr)
        as (tenantID & rs & _ & _ & _ & _ & _ & -> & _).
      unfold failedCount. rewrite sum_list_with_zero; [reflexivity|].
      eapply Forall_impl; [exact Hcalling|]. intros sd Hp.
      unfold failedBy. now rewrite Hp.
    + rewrite Hpush. simpl. rewrite Hst by discriminate. lia.
    + unfold errTokens. rewrite Hst by discriminate. rewrite Hpush. simpl. lia.
    + intros _. unfold errTokens. rewrite Hst by discriminate.
      rewrite Hpush. reflexivity.
    + rewrite Hst by discriminate. rewrite Hpush. simpl.
      intros [Hx|Hx]; [lia|contradiction].
    + rewrite Hc. discriminate.
Qed.

End InitialFacts.

(** ** The count of failures beyond the quorum *)

Section Tallied.

Implicit Types (st : Fanout) (sd : Sender) (tr : profileTracker).

Lemma excess_insert st st' t tr tr' :
  trackers st !! t = Some tr -> trackers st' = <[t:=tr']> (trackers st) ->
  (excess st' + Z.to_nat (failed tr - maxFailures tr) =
   excess st + Z.to_nat (failed tr' - maxFailures tr'))%nat.
Proof.
  intros Ht E. unfold excess. rewrite E.
  apply (sum_list_with_insert
           (fun tr => Z.to_nat (failed tr - maxFailures tr)) _ _ _ _ Ht).
Qed.

(** A step that leaves the count of failures alone. *)
Lemma tallied_frame st st' :
  tallied st ->
  samplesFailed (push st') = samplesFailed (push st) ->
  standing AtSamplesFailed st' = standing AtSamplesFailed st ->
  excess st' = excess st ->
  (caller st' = Waiting -> caller st = Waiting /\ errTokens st' = errTokens st) ->
  tallied st'.
Proof.
  intros [H1 H2] Hsf Hst Hex Hc. constructor.
  - now rewrite Hsf, Hst, Hex.
  - rewrite Hsf. intros Hw Hz. destruct (Hc Hw) as [Hw' ->]. now apply H2.
Qed.

(** A goroutine moves on without touching the count of failures. *)
Lemma tallied_quiet st st' s sd sd' :
  tallied st ->
  senders st !! s = Some sd -> senders st' = <[s:=sd']> (senders st) ->
  samplesFailed (push st') = samplesFailed (push st) ->
  err (push st') = err (push st) -> caller st' = caller st ->
  excess st' = excess st ->
  point sd <> AtSamplesFailed -> point sd <> AtErr ->
  point sd' <> AtSamplesFailed -> point sd' <> AtErr ->
  tallied st'.
Proof.
  intros Ht Hs Hsd Hsf Herr Hc Hex H1 H2 H3 H4.
  apply (tallied_frame st st' Ht Hsf).
  - now apply (standing_moved AtSamplesFailed st st' s sd sd').
  - exact Hex.
  - rewrite Hc. intros Hw. split; [exact Hw|].
    now apply (errTokens_moved st st' s sd sd').
Qed.

Lemma excess_same_failed st t tr tr' :
  trackers st !! t = Some tr ->
  failed tr' = failed tr -> maxFailures tr' = maxFailures tr ->
  excess (setTracker t tr' st) = excess st.
Proof.
  intros Ht Hf Hm.
  pose proof (excess_insert st (setTracker t tr' st) t tr tr' Ht eq_refl) as H.
  rewrite Hf, Hm in H. lia.
Qed.

Lemma tallied_step st st' :
  indexed st -> failing st -> tallied st -> step st st' -> tallied st'.
Proof.
  intros Hi Hf Ht Hstep.
  destruct Hstep as
    [st s sd e Hs Hp
    |st s sd t tr Hs Hp He Hix Htr v
    |st s sd Hs Hp v
    |st s sd Hs Hp Hdn
    |st s sd t tr e Hs Hp He Hix Htr v
    |st s sd Hs Hp v
    |st s sd e Hs Hp He Herr
    |st e rest Hc Herr
    |st u rest Hc Hdn
    |st Hc].
  - eapply (tallied_quiet st _ s sd); [exact Ht|exact Hs|reflexivity..| | | |];
      rewrite ?Hp; discriminate.
  - eapply (tallied_quiet st _ s sd);
      [exact Ht|exact Hs|reflexivity|reflexivity|reflexivity|reflexivity| | | | |].
    + now apply (excess_same_failed st t tr).
    + rewrite Hp. discriminate.
    + rewrite Hp. discriminate.
    + apply next_point_ne; discriminate.
    + apply next_point_ne; discriminate.
  - eapply (tallied_quiet st _ s sd); [exact Ht|exact Hs|reflexivity..| | | |];
      rewrite ?Hp; try discriminate; apply at_point_ne; discriminate.
  - eapply (tallied_quiet st _ s sd); [exact Ht|exact Hs|reflexivity..| | | |];
      rewrite ?Hp; discriminate.
  - (* failed.Inc() *)
    set (tr' := {| profile := profile tr; minSuccess := minSuccess tr;
                   maxFailures := maxFailures tr; succeeded := succeeded tr;
                   failed := v |}).
    set (pt := if v <=? GoInt.int32 (maxFailures tr) then AtLoop else AtSamplesFailed).
    set (sd' := next pt sd).
    set (st' := setSender s sd' (setTracker t tr' st)).
    assert (Hpt : pt <> Calling /\ pt <> AtErr).
    { unfold pt. destruct (v <=? _); split; discriminate. }
    destruct Hpt as [Hpc Hpe].
    pose proof (f_total st Hf) as Htot.
    pose proof (f_failed st Hf t tr Htr) as Hfail.
    pose proof (Forall_lookup_1 _ _ _ _ (f_max st Hf) Htr) as Hmax.
    simpl in Hmax.
    pose proof (failedCount_insert st st' s sd sd' t Hs eq_refl) as Hfc.
    pose proof (failedCount_le_carried st' t) as Hle'.
    assert (Hcar : carried st' = carried st).
    { now apply (carried_insert st st' s sd sd'). }
    unfold sd' in Hfc.
    rewrite (failedBy_next_err pt sd t t e Hp He Hpc Hix), Nat.eqb_refl in Hfc.
    assert (Hv : v = failed tr + 1).
    { unfold v. rewrite int32_small; lia. }
    pose proof (excess_insert st (setTracker t tr' st) t tr tr' Htr eq_refl) as Hex.
    change (excess (setTracker t tr' st)) with (excess st') in Hex.
    simpl in Hex.
    assert (Hne1 : point sd <> AtSamplesFailed) by (rewrite Hp; discriminate).
    assert (Hne2 : point sd <> AtErr) by (rewrite Hp; discriminate).
    destruct Ht as [H1 H2].
    assert (Hm32 : GoInt.int32 (maxFailures tr) = maxFailures tr).
    { apply int32_small. lia. }
    assert (Hst : (standing AtSamplesFailed st' =
                   standing AtSamplesFailed st +
                   if (v <=? maxFailures tr)%Z then 0 else 1)%nat).
    { rewrite <- Hm32.
      destruct (v <=? GoInt.int32 (maxFailures tr)) eqn:Ev.
      - rewrite (standing_moved AtSamplesFailed st st' s sd sd' Hs eq_refl Hne1).
        + lia.
        + unfold sd', pt. simpl. discriminate.
      - rewrite (standing_arrived AtSamplesFailed st st' s sd sd' Hs eq_refl Hne1).
        + reflexivity.
        + reflexivity. }
    constructor.
    + change (samplesFailed (push st')) with (samplesFailed (push st)).
      rewrite Hst.
      destruct (v <=? maxFailures tr) eqn:Ev;
        [apply Z.leb_le in Ev|apply Z.leb_gt in Ev]; lia.
    + change (caller st') with (caller st).
      change (samplesFailed (push st')) with (samplesFailed (push st)).
      intros Hw Hz.
      rewrite (errTokens_moved st st' s sd sd' Hs eq_refl eq_refl Hne2 Hpe).
      now apply H2.
  - (* samplesFailed.Inc() *)
    set (sd' := at_ _ sd). set (st' := setSender s sd' _).
    pose proof (standing_pos AtSamplesFailed st s sd Hs Hp) as Hpos.
    pose proof (visited_le_carried st Hi) as Hvc.
    pose proof (f_total st Hf) as Htot.
    pose proof (f_sf st Hf) as [Hsf0 Hsf].
    assert (Hv : v = samplesFailed (push st) + 1).
    { unfold v. rewrite int32_small; lia. }
    assert (Hne : point sd <> AtErr) by (rewrite Hp; discriminate).
    destruct Ht as [H1 H2].
    constructor.
    + change (samplesFailed (push st')) with v.
      change (excess st') with (excess st).
      assert (Hx : point sd' <> AtSamplesFailed).
      { unfold sd'. apply at_point_ne; discriminate. }
      pose proof (standing_left AtSamplesFailed st st' s sd sd' Hs eq_refl Hp Hx).
      lia.
    + change (caller st') with (caller st). intros Hw _.
      unfold errTokens. change (err (push st')) with (err (push st)).
      unfold sd' in *. destruct (v =? 1) eqn:Ev.
      * apply Z.eqb_eq in Ev.
        rewrite (standing_arrived AtErr st st' s sd _ Hs eq_refl Hne eq_refl).
        assert (Hz : samplesFailed (push st) = 0) by lia.
        pose proof (f_err_zero st Hf Hz) as H0. unfold errTokens in H0. lia.
      * apply Z.eqb_neq in Ev.
        rewrite (standing_moved AtErr st st' s sd _ Hs eq_refl Hne)
          by (simpl; discriminate).
        apply (H2 Hw). lia.
  - (* err <- err *)
    set (sd' := at_ AtLoop sd). set (st' := setSender s sd' _).
    apply (tallied_frame st st' Ht); [reflexivity| |reflexivity|].
    + apply (standing_moved AtSamplesFailed st st' s sd sd' Hs eq_refl);
        [rewrite Hp|]; discriminate.
    + intros Hw. split; [exact Hw|]. unfold errTokens.
      change (err (push st')) with [e]. rewrite Herr.
      assert (Hx : point sd' <> AtErr) by discriminate.
      pose proof (standing_left AtErr st st' s sd sd' Hs eq_refl Hp Hx).
      simpl. lia.
  - apply (tallied_frame st _ Ht); [reflexivity..|]. simpl. discriminate.
  - apply (tallied_frame st _ Ht); [reflexivity..|]. simpl. discriminate.
  - apply (tallied_frame st _ Ht); [reflexivity..|]. simpl. discriminate.
Qed.

Lemma tallied_reaches st st' :
  indexed st -> failing st -> tallied st -> reaches st st' -> tallied st'.
Proof.
  intros Hi Hf Ht Hr.
  induction Hr as [st|st st1 st2 Hstep _ IH]; [exact Ht|].
  apply IH.
  - eapply indexed_step; eassumption.
  - eapply failing_step; eassumption.
  - eapply tallied_step; eassumption.
Qed.

End Tallied.

(** ** The error the caller receives *)

Section Reporting.

Implicit Types (st : Fanout) (sd : Sender) (e : PushError).

Lemma reportedBy_insert st st' s sd sd' e :
  senders st !! s = Some sd -> senders st' = <[s:=sd']> (senders st) ->
  (point sd <> Calling -> point sd' <> Calling /\ sendErr sd' = sendErr sd) ->
  reportedBy st e -> reportedBy st' e.
Proof.
  intros Hs Hsd Hk (sd0 & Hin & Hp & He).
  apply list_elem_of_lookup in Hin as [s0 Hs0].
  destruct (decide (s = s0)) as [<-|Hne].
  - rewrite Hs in Hs0. injection Hs0 as <-.
    destruct (Hk Hp) as [Hp' He']. exists sd'. split; [|split].
    + rewrite Hsd. eapply list_elem_of_lookup_2.
      apply list_lookup_insert_eq. eapply lookup_lt_Some. exact Hs.
    + exact Hp'.
    + now rewrite He'.
  - exists sd0. split; [|auto].
    rewrite Hsd. eapply list_elem_of_lookup_2.
    rewrite list_lookup_insert_ne by exact Hne. exact Hs0.
Qed.

Lemma reporting_sender st st' s sd sd' :
  reporting st ->
  senders st !! s = Some sd -> senders st' = <[s:=sd']> (senders st) ->
  err (push st') = err (push st) -> caller st' = caller st ->
  (point sd <> Calling -> point sd' <> Calling /\ sendErr sd' = sendErr sd) ->
  reporting st'.
Proof.
  intros [H1 H2] Hs Hsd He Hc Hk. constructor.
  - rewrite He. intros e Hin.
    apply (reportedBy_insert st st' s sd sd' e Hs Hsd Hk), H1, Hin.
  - rewrite Hc. intros e Hr. destruct (H2 e Hr) as [H|H]; [now left|right].
    now apply (reportedBy_insert st st' s sd sd' e Hs Hsd Hk).
Qed.

Lemma reporting_step st st' : reporting st -> step st st' -> reporting st'.
Proof.
  intros Hr Hstep.
  destruct Hstep as
    [st s sd e Hs Hp
    |st s sd t tr Hs Hp He Hix Htr v
    |st s sd Hs Hp v
    |st s sd Hs Hp Hdn
    |st s sd t tr e Hs Hp He Hix Htr v
    |st s sd Hs Hp v
    |st s sd e Hs Hp He Herr
    |st e rest Hc Herr
    |st u rest Hc Hdn
    |st Hc].
  - eapply (reporting_sender st _ s sd); [exact Hr|exact Hs|reflexivity..|].
    intros H. contradiction.
  - eapply (reporting_sender st _ s sd); [exact Hr|exact Hs|reflexivity..|].
    intros _. split; [apply next_point_ne; discriminate|reflexivity].
  - eapply (reporting_sender st _ s sd); [exact Hr|exact Hs|reflexivity..|].
    intros _. split; [apply at_point_ne; discriminate|reflexivity].
  - eapply (reporting_sender st _ s sd); [exact Hr|exact Hs|reflexivity..|].
    intros _. split; [discriminate|reflexivity].
  - eapply (reporting_sender st _ s sd); [exact Hr|exact Hs|reflexivity..|].
    intros _. split; [apply next_point_ne; discriminate|reflexivity].
  - eapply (reporting_sender st _ s sd); [exact Hr|exact Hs|reflexivity..|].
    intros _. split; [apply at_point_ne; discriminate|reflexivity].
  - (* err <- err *)
    set (sd' := at_ AtLoop sd). set (st' := setSender s sd' _).
    assert (Hk : point sd <> Calling ->
                 point sd' <> Calling /\ sendErr sd' = sendErr sd).
    { intros _. split; [discriminate|reflexivity]. }
    destruct Hr as [H1 H2]. constructor.
    + change (err (push st')) with [e]. intros e0 Hin.
      apply list_elem_of_singleton in Hin as ->.
      exists sd'. split; [|split; [discriminate|exact He]].
      eapply list_elem_of_lookup_2. simpl.
      apply list_lookup_insert_eq. eapply lookup_lt_Some. exact Hs.
    + change (caller st') with (caller st). intros e0 Hr.
      destruct (H2 e0 Hr) as [H|H]; [now left|right].
      now apply (reportedBy_insert st st' s sd sd' e0 Hs eq_refl Hk).
  - destruct Hr as [H1 H2]. constructor; simpl.
    + intros e0 Hin. apply H1. rewrite Herr. now right.
    + intros e0 [= <-]. right. apply H1. rewrite Herr. now left.
  - destruct Hr as [H1 H2]. constructor; simpl.
    + exact H1.
    + intros e0 H. discriminate.
  - destruct Hr as [H1 H2]. constructor; simpl.
    + exact H1.
    + intros e0 [= <-]. now left.
Qed.

Lemma reporting_reaches st st' : reporting st -> reaches st st' -> reporting st'.
Proof.
  intros Hr Hreach.
  induction Hreach as [st|st st1 st2 Hstep _ IH]; [exact Hr|].
  apply IH. eapply reporting_step; eassumption.
Qed.

End Reporting.

(** ** What a push leaves as it is *)

Section Static.

Implicit Types (st : Fanout) (sd : Sender) (tr : profileTracker).

Lemma step_quorumOf st st' :
  step st st' -> quorumOf <$> trackers st' = quorumOf <$> trackers st.
Proof.
  intros Hstep.
  destruct Hstep as
    [st s sd e Hs Hp
    |st s sd t tr Hs Hp He Hix Htr v
    |st s sd Hs Hp v
    |st s sd Hs Hp Hdn
    |st s sd t tr e Hs Hp He Hix Htr v
    |st s sd Hs Hp v
    |st s sd e Hs Hp He Herr
    |st e rest Hc Herr
    |st u rest Hc Hdn
    |st Hc];
    unfold setSender, setTracker, setPush, setCaller;
    cbn [trackers push senders caller]; try reflexivity.
  - rewrite list_fmap_insert. apply list_insert_id.
    rewrite list_lookup_fmap, Htr. reflexivity.
  - rewrite list_fmap_insert. apply list_insert_id.
    rewrite list_lookup_fmap, Htr. reflexivity.
Qed.

Lemma reaches_quorumOf st st' :
  reaches st st' -> quorumOf <$> trackers st' = quorumOf <$> trackers st.
Proof.
  induction 1 as [|st1 st2 st3 Hstep _ IH]; [reflexivity|].
  rewrite IH. now apply step_quorumOf.
Qed.

Lemma reaches_tracker st st' t tr :
  reaches st st' -> trackers st' !! t = Some tr ->
  exists tr0, trackers st !! t = Some tr0 /\
    profile tr = profile tr0 /\ minSuccess tr = minSuccess tr0 /\
    maxFailures tr = maxFailures tr0.
Proof.
  intros Hr Ht. pose proof (reaches_quorumOf st st' Hr) as Hq.
  assert (H : (quorumOf <$> trackers st) !! t = Some (quorumOf tr)).
  { rewrite <- Hq, list_lookup_fmap, Ht. reflexivity. }
  rewrite list_lookup_fmap in H.
  destruct (trackers st !! t) as [tr0|]; [|discriminate].
  injection H as H1 H2 H3. exists tr0. auto.
Qed.

Lemma reaches_tracker_back st st' t tr0 :
  reaches st st' -> trackers st !! t = Some tr0 ->
  exists tr, trackers st' !! t = Some tr /\
    profile tr = profile tr0 /\ minSuccess tr = minSuccess tr0 /\
    maxFailures tr = maxFailures tr0.
Proof.
  intros Hr Ht. pose proof (reaches_quorumOf st st' Hr) as Hq.
  assert (H : (quorumOf <$> trackers st') !! t = Some (quorumOf tr0)).
  { rewrite Hq, list_lookup_fmap, Ht. reflexivity. }
  rewrite list_lookup_fmap in H.
  destruct (trackers st' !! t) as [tr|]; [|discriminate].
  injection H as H1 H2 H3. exists tr. auto.
Qed.

Lemma reaches_length st st' :
  reaches st st' -> length (trackers st') = length (trackers st).
Proof.
  intros Hr. pose proof (reaches_quorumOf st st' Hr) as Hq.
  apply (f_equal length) in Hq. now rewrite !length_fmap in Hq.
Qed.

Lemma step_capacity st st' t : step st st' -> capacity st' t = capacity st t.
Proof.
  intros Hstep.
  destruct Hstep as
    [st s sd e Hs Hp
    |st s sd t0 tr Hs Hp He Hix Htr v
    |st s sd Hs Hp v
    |st s sd Hs Hp Hdn
    |st s sd t0 tr e Hs Hp He Hix Htr v
    |st s sd Hs Hp v
    |st s sd e Hs Hp He Herr
    |st e rest Hc Herr
    |st u rest Hc Hdn
    |st Hc];
    try reflexivity;
    eapply (capacity_insert st _ s sd); try exact Hs; reflexivity.
Qed.

Lemma reaches_capacity st st' t : reaches st st' -> capacity st' t = capacity st t.
Proof.
  induction 1 as [|st1 st2 st3 Hstep _ IH]; [reflexivity|].
  rewrite IH. now apply step_capacity.
Qed.

End Static.

(** ** Once every goroutine has left its loop *)

Section Quiescent.

Implicit Types (st : Fanout) (sd : Sender) (tr : profileTracker).

Lemma sum_list_with_all_zero {A : Type} (f : A -> nat) (l : list A) :
  sum_list_with f l = 0%nat -> Forall (fun a => f a = 0%nat) l.
Proof.
  induction l as [|a l IH]; simpl; intros H; constructor; [lia|].
  apply IH. lia.
Qed.

Lemma sum_list_with_indicator_Forall {A : Type} (p : A -> bool) (l : list A) :
  Forall (fun a => p a = true) l ->
  sum_list_with (fun a => if p a then 1%nat else 0%nat) l = length l.
Proof. induction 1 as [|a l Ha _ IH]; simpl; [reflexivity|]. rewrite Ha. lia. Qed.

Lemma finished_counts t sd :
  finished sd ->
  (registeredBy t sd + failedBy t sd = occurrences t (profileTrackers sd))%nat.
Proof.
  intros [Hp Hi]. unfold registeredBy, failedBy.
  rewrite Hp, Hi, firstn_all. destruct (sendErr sd); lia.
Qed.

Lemma quiescent_counts st t :
  Forall finished (senders st) ->
  (registered st t + failedCount st t = capacity st t)%nat.
Proof.
  unfold registered, failedCount, capacity.
  induction 1 as [|sd l Hsd _ IH]; simpl; [reflexivity|].
  pose proof (finished_counts t sd Hsd). lia.
Qed.

Lemma quiescent_standing pt st :
  Forall finished (senders st) -> pt <> AtLoop -> standing pt st = 0%nat.
Proof.
  intros Hall Hpt. unfold standing. apply sum_list_with_zero.
  eapply Forall_impl; [exact Hall|]. intros sd [Hp _]. simpl.
  destruct (decide (point sd = pt)); [congruence|reflexivity].
Qed.

Lemma quiescent_pending st :
  Forall finished (senders st) -> pendingCount st = 0%nat.
Proof.
  intros Hall. unfold pendingCount. apply sum_list_with_zero.
  eapply Forall_impl; [exact Hall|]. intros sd [Hp _]. simpl.
  unfold pendingb. rewrite Hp.
  destruct (decide (AtLoop = AtPending)); [discriminate|reflexivity].
Qed.

End Quiescent.

Section FanoutProperties.

Context {L : Limits} {C : phlaremodel.SessionIDCodec} {Srt : sort.Sorter}
        {P : pprof.Ops} {V : validation.Ops} {R : limiter.RateLimiter}
        {G : ring.ReadRing} {E : Environment}.

Lemma PushParsed_tallied ctx req w fan :
  ringFits32 ->
  result (PushParsed ctx req w) = Done fan ->
  tallied fan.
Proof.
  intros Hring H.
  destruct (PushParsed_senders ctx req w fan H) as (Hc & Hpush & Hsd).
  assert (Hcalling : Forall (fun sd => point sd = Calling) (senders fan)).
  { eapply Forall_impl; [exact Hsd|]. now intros sd (? & _). }
  constructor.
  - rewrite Hpush. simpl.
    rewrite (standing_initial AtSamplesFailed fan Hcalling) by discriminate.
    unfold excess. rewrite sum_list_with_zero; [reflexivity|].
    apply Forall_forall. intros tr Htr.
    apply list_elem_of_lookup in Htr as [t Htr].
    destruct (PushParsed_tracker ctx req w fan t tr H Htr)
      as (tenantID & rs & _ & Hrs & _ & Hm & _ & Hf & _).
    destruct (Hring _ _ _ _ Hrs) as [_ Hmax]. rewrite Hf, Hm. lia.
  - rewrite Hpush. simpl. intros _ Hz. contradiction.
Qed.

Lemma PushParsed_reporting ctx req w fan :
  result (PushParsed ctx req w) = Done fan -> reporting fan.
Proof.
  intros H.
  destruct (PushParsed_senders ctx req w fan H) as (Hc & Hpush & _).
  constructor.
  - rewrite Hpush. simpl. intros e He. inversion He.
  - rewrite Hc. discriminate.
Qed.

End FanoutProperties.

(** X22.  With a ring whose replication sets fit the 32-bit counters,
    fewer than [2^31] series and fewer than [2^31] series handed to the
    ingesters in all: in every state a push reaches from its fan-out, a
    goroutine that has not left the loop of [sendProfiles] can do its next
    operation.  Its tracker exists, and its send on [done] or on [err]
    finds the channel empty: no goroutine blocks, whether the caller has
    returned or not. *)
Theorem sendProfiles_never_blocks
    {L : Limits} {C : phlaremodel.SessionIDCodec} {Srt : sort.Sorter}
    {P : pprof.Ops} {V : validation.Ops} {R : limiter.RateLimiter}
    {G : ring.ReadRing} {E : Environment}
    (ctx : Context) (req : distributormodel.PushRequest) (w : World)
    (fan st : Fanout) (s : nat) (sd : Sender) (e : option PushError) :
  ringFits32 ->
  result (PushParsed ctx req w) = Done fan ->
  GoInt.len (trackers fan) < 2 ^ 31 ->
  Z.of_nat (carried fan) < 2 ^ 31 ->
  reaches fan st ->
  senders st !! s = Some sd ->
  ~ finished sd ->
  is_Some (exec (Advance s e) st) /\
  (point sd = AtDone -> done (push st) = []) /\
  (point sd = AtErr -> err (push st) = []).
Proof.
  intros Hring Hdone Hlen Hcar Hreach Hs Hnf.
  pose proof (PushParsed_invariant ctx req w fan Hring Hdone Hlen) as Hinv.
  destruct (PushParsed_channels ctx req w fan Hring Hdone Hlen Hcar)
    as (Hi & Hd & Hf).
  pose proof (doneOnce_reaches fan st Hinv Hd Hreach) as Hd'.
  pose proof (indexed_reaches fan st Hi Hreach) as Hi'.
  pose proof (failing_reaches fan st Hi Hf Hreach) as Hf'.
  assert (Hdn : point sd = AtDone -> done (push st) = []).
  { intros Hp. pose proof (standing_pos AtDone st s sd Hs Hp) as Hpos.
    pose proof (once_le st Hd') as Hle. unfold doneTokens in Hle.
    destruct (done (push st)); [reflexivity|]. simpl in Hle. lia. }
  assert (Her : point sd = AtErr -> err (push st) = []).
  { intros Hp. pose proof (standing_pos AtErr st s sd Hs Hp) as Hpos.
    pose proof (f_err st Hf') as Hle. unfold errTokens in Hle.
    destruct (err (push st)); [reflexivity|]. simpl in Hle. lia. }
  split; [|split; assumption].
  unfold exec. rewrite Hs.
  destruct (point sd) eqn:Hp; try (eexists; reflexivity).
  - (* at the head of the loop *)
    pose proof (Forall_lookup_1 _ _ _ _ (idx_le st Hi') Hs) as Hle.
    simpl in Hle.
    assert (Hlt : (index sd < length (profileTrackers sd))%nat).
    { destruct (decide (index sd = length (profileTrackers sd))) as [Heq|Hne];
        [|lia].
      exfalso. apply Hnf. split; assumption. }
    destruct (lookup_lt_is_Some_2 _ _ Hlt) as [t Ht]. rewrite Ht.
    pose proof (Forall_lookup_1 _ _ _ _ (idx_valid st Hi') Hs) as Hv.
    simpl in Hv.
    assert (Htl : (t < length (trackers st))%nat).
    { rewrite Forall_forall in Hv. apply Hv.
      eapply list_elem_of_lookup_2. exact Ht. }
    destruct (lookup_lt_is_Some_2 _ _ Htl) as [tr Htr]. rewrite Htr.
    destruct (sendErr sd); eexists; reflexivity.
  - rewrite (Hdn eq_refl). eexists. reflexivity.
  - rewrite (Her eq_refl).
    pose proof (Forall_lookup_1 _ _ _ _ (idx_err st Hi') Hs) as Hse.
    simpl in Hse.
    destruct (sendErr sd) as [e'|]; [eexists; reflexivity|].
    exfalso. apply Hse; [now right|reflexivity].
Qed.

(** The example push after fifteen operations of the example schedule: the
    second goroutine has brought [samplesPending] to 0 and stands before
    its send on [done], which is empty. *)
Lemma sendProfiles_never_blocks_witness :
  let L := Example.limits8 in
  let C := SessionHex.codec in
  let Srt := sort.stableSorter in
  let P := Example.ops in
  let V := Example.validationOps in
  let R := Example.limiterOpen in
  let G := Example.ring3 in
  let E := Example.environment in
  exists fan st sd,
    ringFits32 /\
    result (PushParsed Example.context Example.request Example.world0) = Done fan /\
    GoInt.len (trackers fan) < 2 ^ 31 /\
    Z.of_nat (carried fan) < 2 ^ 31 /\
    reaches fan st /\
    senders st !! 1%nat = Some sd /\
    ~ finished sd /\
    point sd = AtDone /\
    (is_Some (exec (Advance 1 None) st) /\
     (point sd = AtDone -> done (push st) = []) /\
     (point sd = AtErr -> err (push st) = [])).
Proof.
  intros L C Srt P V R G E.
  let r := eval vm_compute in
    (result (PushParsed Example.context Example.request Example.world0)) in
  match r with Done ?f => pose (fan := f) end.
  let r := eval vm_compute in (run (take 15 Example.schedule) fan) in
  match r with Some ?s => pose (st := s) end.
  let r := eval vm_compute in (senders st !! 1%nat) in
  match r with Some ?s => pose (sd := s) end.
  assert (H1 : ringFits32).
  { intros tenantID size key rs Hrs. cbn in Hrs. injection Hrs as <-.
    cbn. unfold GoInt.len. cbn. lia. }
  assert (H2 : result (PushParsed Example.context Example.request Example.world0)
               = Done fan) by (vm_compute; reflexivity).
  assert (H3 : GoInt.len (trackers fan) < 2 ^ 31) by (vm_compute; reflexivity).
  assert (H4 : Z.of_nat (carried fan) < 2 ^ 31) by (vm_compute; reflexivity).
  assert (H5 : reaches fan st).
  { apply (run_reaches (take 15 Example.schedule)). vm_compute. reflexivity. }
  assert (H6 : senders st !! 1%nat = Some sd) by reflexivity.
  assert (H7 : ~ finished sd).
  { intros [Hp _]. discriminate Hp. }
  exists fan, st, sd.
  split; [exact H1|]. split; [exact H2|]. split; [exact H3|].
  split; [exact H4|]. split; [exact H5|]. split; [exact H6|].
  split; [exact H7|]. split; [reflexivity|].
  exact (sendProfiles_never_blocks Example.context Example.request Example.world0
           fan st 1 sd None H1 H2 H3 H4 H5 H6 H7).
Defined.

(** X23.  With a ring whose replication sets fit the 32-bit counters and
    fewer than [2^31] series handed to the ingesters in all: in every
    state a push reaches from its fan-out in which the caller has returned
    an error that is not the error of its context, some series has failed
    on more ingesters than the [maxFailures] recorded in its tracker: the
    pushes that carried it and returned an error outnumber what its
    replication set tolerates. *)
Theorem PushParsed_error_quorum
    {L : Limits} {C : phlaremodel.SessionIDCodec} {Srt : sort.Sorter}
    {P : pprof.Ops} {V : validation.Ops} {R : limiter.RateLimiter}
    {G : ring.ReadRing} {E : Environment}
    (ctx : Context) (req : distributormodel.PushRequest) (w : World)
    (fan st : Fanout) (e : PushError) :
  ringFits32 ->
  result (PushParsed ctx req w) = Done fan ->
  GoInt.len (trackers fan) < 2 ^ 31 ->
  Z.of_nat (carried fan) < 2 ^ 31 ->
  reaches fan st ->
  caller st = Returned (Some e) ->
  e <> ContextError ->
  exists t tracker,
    trackers fan !! t = Some tracker /\
    maxFailures tracker < Z.of_nat (failures st t).
Proof.
  intros Hring Hdone Hlen Hcar Hreach Hret Hne.
  destruct (PushParsed_channels ctx req w fan Hring Hdone Hlen Hcar)
    as (Hi & _ & Hf).
  pose proof (failing_reaches fan st Hi Hf Hreach) as Hf'.
  destruct (f_caller st Hf' e Hret) as [Hc|(t & tr & Htr & Hlt)];
    [contradiction|].
  destruct (reaches_tracker fan st t tr Hreach Htr) as (tr0 & Ht0 & _ & _ & Hm).
  exists t, tr0. split; [exact Ht0|].
  pose proof (f_failed st Hf' t tr Htr) as Hfail.
  pose proof (failedCount_le_failures st t). lia.
Qed.

(** The example push with two failing ingesters: the caller gets the
    error of the second, and the first series, which tolerates one failure,
    has failed on two. *)
Lemma PushParsed_error_quorum_witness :
  let L := Example.limits8 in
  let C := SessionHex.codec in
  let Srt := sort.stableSorter in
  let P := Example.ops in
  let V := Example.validationOps in
  let R := Example.limiterOpen in
  let G := Example.ring3 in
  let E := Example.environment in
  exists fan st,
    ringFits32 /\
    result (PushParsed Example.context Example.request Example.world0) = Done fan /\
    GoInt.len (trackers fan) < 2 ^ 31 /\
    Z.of_nat (carried fan) < 2 ^ 31 /\
    reaches fan st /\
    caller st = Returned (Some (IngesterError "ingester-1")) /\
    IngesterError "ingester-1" <> ContextError /\
    failures st 0 = 2%nat /\
    exists t tracker,
      trackers fan !! t = Some tracker /\
      maxFailures tracker < Z.of_nat (failures st t).
Proof.
  intros L C Srt P V R G E.
  let r := eval vm_compute in
    (result (PushParsed Example.context Example.request Example.world0)) in
  match r with Done ?f => pose (fan := f) end.
  let r := eval vm_compute in (run Example.scheduleFailing fan) in
  match r with Some ?s => pose (st := s) end.
  assert (H1 : ringFits32).
  { intros tenantID size key rs Hrs. cbn in Hrs. injection Hrs as <-.
    cbn. unfold GoInt.len. cbn. lia. }
  assert (H2 : result (PushParsed Example.context Example.request Example.world0)
               = Done fan) by (vm_compute; reflexivity).
  assert (H3 : GoInt.len (trackers fan) < 2 ^ 31) by (vm_compute; reflexivity).
  assert (H4 : Z.of_nat (carried fan) < 2 ^ 31) by (vm_compute; reflexivity).
  assert (H5 : reaches fan st).
  { apply (run_reaches Example.scheduleFailing). vm_compute. reflexivity. }
  assert (H6 : caller st = Returned (Some (IngesterError "ingester-1")))
    by reflexivity.
  assert (H7 : IngesterError "ingester-1" <> ContextError) by discriminate.
  exists fan, st.
  split; [exact H1|]. split; [exact H2|]. split; [exact H3|].
  split; [exact H4|]. split; [exact H5|]. split; [exact H6|].
  split; [exact H7|]. split; [vm_compute; reflexivity|].
  exact (PushParsed_error_quorum Example.context Example.request Example.world0
           fan st _ H1 H2 H3 H4 H5 H6 H7).
Defined.

(** X24.  In every state a push reaches from its fan-out in which the
    caller has returned an error that is not the error of its context,
    that error is the one [sendProfilesErr] returned to one of the
    goroutines of the push. *)
Theorem PushParsed_error_origin
    {L : Limits} {C : phlaremodel.SessionIDCodec} {Srt : sort.Sorter}
    {P : pprof.Ops} {V : validation.Ops} {R : limiter.RateLimiter}
    {G : ring.ReadRing} {E : Environment}
    (ctx : Context) (req : distributormodel.PushRequest) (w : World)
    (fan st : Fanout) (e : PushError) :
  result (PushParsed ctx req w) = Done fan ->
  reaches fan st ->
  caller st = Returned (Some e) ->
  e <> ContextError ->
  exists sd, sd ∈ senders st /\ point sd <> Calling /\ sendErr sd = Some e.
Proof.
  intros Hdone Hreach Hret Hne.
  pose proof (PushParsed_reporting ctx req w fan Hdone) as Hr.
  pose proof (reporting_reaches fan st Hr Hreach) as Hr'.
  destruct (r_caller st Hr' e Hret) as [Hc|H]; [contradiction|exact H].
Qed.

(** The example push with two failing ingesters: the error the caller gets
    is the one the push to ingester-1 returned. *)
Lemma PushParsed_error_origin_witness :
  let L := Example.limits8 in
  let C := SessionHex.codec in
  let Srt := sort.stableSorter in
  let P := Example.ops in
  let V := Example.validationOps in
  let R := Example.limiterOpen in
  let G := Example.ring3 in
  let E := Example.environment in
  exists fan st,
    result (PushParsed Example.context Example.request Example.world0) = Done fan /\
    reaches fan st /\
    caller st = Returned (Some (IngesterError "ingester-1")) /\
    IngesterError "ingester-1" <> ContextError /\
    exists sd, sd ∈ senders st /\ point sd <> Calling /\
               sendErr sd = Some (IngesterError "ingester-1").
Proof.
  intros L C Srt P V R G E.
  let r := eval vm_compute in
    (result (PushParsed Example.context Example.request Example.world0)) in
  match r with Done ?f => pose (fan := f) end.
  let r := eval vm_compute in (run Example.scheduleFailing fan) in
  match r with Some ?s => pose (st := s) end.
  assert (H2 : result (PushParsed Example.context Example.request Example.world0)
               = Done fan) by (vm_compute; reflexivity).
  assert (H5 : reaches fan st).
  { apply (run_reaches Example.scheduleFailing). vm_compute. reflexivity. }
  assert (H6 : caller st = Returned (Some (IngesterError "ingester-1")))
    by reflexivity.
  assert (H7 : IngesterError "ingester-1" <> ContextError) by discriminate.
  exists fan, st.
  split; [exact H2|]. split; [exact H5|]. split; [exact H6|].
  split; [exact H7|].
  exact (PushParsed_error_origin Example.context Example.request Example.world0
           fan st _ H2 H5 H6 H7).
Defined.

(** X25.  With a ring whose replication sets fit the 32-bit counters and
    tolerate fewer errors than they have instances, at least one series,
    fewer than [2^31] series and fewer than [2^31] series handed to the
    ingesters in all: in every state a push reaches from its fan-out in
    which every goroutine has left the loop of [sendProfiles] and the
    caller still waits, a message stands in [done] or in [err].  The
    [select] does not depend on the context of the caller to return. *)
Theorem PushParsed_select_ready
    {L : Limits} {C : phlaremodel.SessionIDCodec} {Srt : sort.Sorter}
    {P : pprof.Ops} {V : validation.Ops} {R : limiter.RateLimiter}
    {G : ring.ReadRing} {E : Environment}
    (ctx : Context) (req : distributormodel.PushRequest) (w : World)
    (fan st : Fanout) :
  ringFits32 ->
  ringQuorate ->
  result (PushParsed ctx req w) = Done fan ->
  trackers fan <> [] ->
  GoInt.len (trackers fan) < 2 ^ 31 ->
  Z.of_nat (carried fan) < 2 ^ 31 ->
  reaches fan st ->
  Forall finished (senders st) ->
  caller st = Waiting ->
  done (push st) <> [] \/ err (push st) <> [].
Proof.
  intros Hring Hquor Hdone Hne Hlen Hcar Hreach Hall Hw.
  pose proof (PushParsed_invariant ctx req w fan Hring Hdone Hlen) as Hinv.
  destruct (PushParsed_channels ctx req w fan Hring Hdone Hlen Hcar)
    as (Hi & Hd & Hf).
  pose proof (PushParsed_tallied ctx req w fan Hring Hdone) as Ht.
  pose proof (invariant_reaches fan st Hinv Hreach) as Hinv'.
  pose proof (doneOnce_reaches fan st Hinv Hd Hreach) as Hd'.
  pose proof (failing_reaches fan st Hi Hf Hreach) as Hf'.
  pose proof (tallied_reaches fan st Hi Hf Ht Hreach) as Ht'.
  pose proof (reaches_length fan st Hreach) as Hl.
  destruct (excess st) as [|k] eqn:Hex.
  - (* no series beyond its failures: [done] *)
    left.
    assert (Hreached : Forall (fun tr => reachedb tr = true) (trackers st)).
    { apply Forall_forall. intros tr Hin.
      apply list_elem_of_lookup in Hin as [t Htr].
      destruct (reaches_tracker fan st t tr Hreach Htr)
        as (tr0 & Ht0 & _ & Hmin & Hmax).
      destruct (PushParsed_tracker ctx req w fan t tr0 Hdone Ht0)
        as (tenantID & rs & _ & Hrs & Hm0 & Hx0 & _ & _ & Hcap).
      destruct (Hring _ _ _ _ Hrs) as [Hsize Herrs].
      pose proof (Hquor _ _ _ _ Hrs) as Hq. unfold GoInt.len in *.
      rewrite int_small in Hm0 by lia.
      pose proof (reaches_capacity fan st t Hreach) as Hcap'.
      pose proof (quiescent_counts st t Hall) as Hsum.
      pose proof (inv_succeeded st Hinv' t tr Htr) as Hsucc.
      pose proof (f_failed st Hf' t tr Htr) as Hfail.
      apply sum_list_with_all_zero in Hex. rewrite Forall_forall in Hex.
      assert (Hz : Z.to_nat (failed tr - maxFailures tr) = 0%nat).
      { apply (Hex tr). eapply list_elem_of_lookup_2. exact Htr. }
      unfold reachedb. apply andb_true_iff. split.
      - apply Z.leb_le. lia.
      - apply Z.leb_le. lia. }
    apply sum_list_with_indicator_Forall in Hreached.
    fold (reachedCount st) in Hreached.
    destruct (inv_pending st Hinv') as (decs & Hsp & Hdecs).
    rewrite (quiescent_pending st Hall) in Hdecs.
    assert (Hzero : samplesPending (push st) = 0) by lia.
    assert (Hpos : (0 < length (trackers st))%nat).
    { rewrite Hl. destruct (trackers fan); [contradiction|simpl; lia]. }
    pose proof (once_one st Hd' Hzero Hpos) as Hone.
    unfold doneTokens in Hone.
    rewrite (quiescent_standing AtDone st Hall) in Hone by discriminate.
    rewrite Hw in Hone. intros Hnil. rewrite Hnil in Hone. simpl in Hone. lia.
  - (* a series beyond its failures: [err] *)
    right.
    pose proof (t_excess st Ht') as Hsf.
    rewrite (quiescent_standing AtSamplesFailed st Hall) in Hsf by discriminate.
    assert (Hnz : samplesFailed (push st) <> 0) by lia.
    pose proof (t_err st Ht' Hw Hnz) as Hone. unfold errTokens in Hone.
    rewrite (quiescent_standing AtErr st Hall) in Hone by discriminate.
    intros Hnil. rewrite Hnil in Hone. simpl in Hone. lia.
Qed.

(** The example push once its three goroutines have run to their end, two
    of them without error: the caller still waits, and its message stands
    in [done]. *)
Lemma PushParsed_select_ready_witness :
  let L := Example.limits8 in
  let C := SessionHex.codec in
  let Srt := sort.stableSorter in
  let P := Example.ops in
  let V := Example.validationOps in
  let R := Example.limiterOpen in
  let G := Example.ring3 in
  let E := Example.environment in
  exists fan st,
    ringFits32 /\ ringQuorate /\
    result (PushParsed Example.context Example.request Example.world0) = Done fan /\
    trackers fan <> [] /\
    GoInt.len (trackers fan) < 2 ^ 31 /\
    Z.of_nat (carried fan) < 2 ^ 31 /\
    reaches fan st /\
    Forall finished (senders st) /\
    caller st = Waiting /\
    done (push st) = [tt] /\
    (done (push st) <> [] \/ err (push st) <> []).
Proof.
  intros L C Srt P V R G E.
  let r := eval vm_compute in
    (result (PushParsed Example.context Example.request Example.world0)) in
  match r with Done ?f => pose (fan := f) end.
  let r := eval vm_compute in (run Example.scheduleWaiting fan) in
  match r with Some ?s => pose (st := s) end.
  assert (H1 : ringFits32).
  { intros tenantID size key rs Hrs. cbn in Hrs. injection Hrs as <-.
    cbn. unfold GoInt.len. cbn. lia. }
  assert (H1' : ringQuorate).
  { intros tenantID size key rs Hrs. cbn in Hrs. injection Hrs as <-.
    cbn. unfold GoInt.len. cbn. lia. }
  assert (H2 : result (PushParsed Example.context Example.request Example.world0)
               = Done fan) by (vm_compute; reflexivity).
  assert (H2' : trackers fan <> []) by discriminate.
  assert (H3 : GoInt.len (trackers fan) < 2 ^ 31) by (vm_compute; reflexivity).
  assert (H4 : Z.of_nat (carried fan) < 2 ^ 31) by (vm_compute; reflexivity).
  assert (H5 : reaches fan st).
  { apply (run_reaches Example.scheduleWaiting). vm_compute. reflexivity. }
  assert (H6 : Forall finished (senders st)).
  { repeat constructor. }
  assert (H7 : caller st = Waiting) by reflexivity.
  exists fan, st.
  split; [exact H1|]. split; [exact H1'|]. split; [exact H2|].
  split; [exact H2'|]. split; [exact H3|]. split; [exact H4|].
  split; [exact H5|]. split; [exact H6|]. split; [exact H7|].
  split; [reflexivity|].
  exact (PushParsed_select_ready Example.context Example.request Example.world0
           fan st H1 H1' H2 H2' H3 H4 H5 H6 H7).
Defined.

(** ** A profile that does not pass validation *)

Section InvalidProfile.

Context {L : Limits} {C : phlaremodel.SessionIDCodec} {Srt : sort.Sorter}
        {P : pprof.Ops} {V : validation.Ops} {R : limiter.RateLimiter}
        {G : ring.ReadRing} {E : Environment}.

Lemma profileBytes_app have (l1 l2 : list distributormodel.ProfileSample) :
  profileBytes have (l1 ++ l2) = profileBytes have l1 + profileBytes have l2.
Proof.
  unfold profileBytes. induction l1 as [|raw l1 IH]; simpl; [reflexivity|].
  rewrite IH. lia.
Qed.

Lemma measureSamples_valid_prefix tenantID have labels before rest tb tp w :
  GoInt.int64 tb = tb -> GoInt.int64 tp = tp ->
  Forall (validProfile tenantID have labels) before ->
  measureSamples tenantID have labels (before ++ rest) tb tp w =
  measureSamples tenantID have labels rest
    (GoInt.int64 (tb + profileBytes have before))
    (GoInt.int64 (tp + GoInt.len before)) w.
Proof.
  intros Hb Hp Hall. revert tb tp Hb Hp.
  induction Hall as [|raw before Hraw _ IH]; intros tb tp Hb Hp.
  - simpl. unfold GoInt.len. simpl. now rewrite !Z.add_0_r, Hb, Hp.
  - cbn [app measureSamples]. unfold validProfile in Hraw. rewrite Hraw.
    rewrite IH by (apply signed_idem; lia).
    unfold GoInt.len, profileBytes. cbn [length fold_right].
    f_equal; solve_wrap.
Qed.

Lemma measureSamples_invalid tenantID have labels bad after reason tb tp w :
  validation.ValidateProfile tenantID (distributormodel.Profile bad)
    (decompressedSize have (distributormodel.Profile bad)) labels Now =
    Some reason ->
  measureSamples tenantID have labels (bad :: after) tb tp w =
  {| world :=
       discarded reason tenantID (GoInt.int64 (tp + 1))
         (GoInt.int64
            (tb + GoInt.int64 (decompressedSize have (distributormodel.Profile bad))))
         w;
     trace := [];
     result := Failed (ConnectError CodeInvalidArgument) |}.
Proof. intros H. cbn [measureSamples]. rewrite H. reflexivity. Qed.

Lemma measureSamples_valid tenantID have labels samples tb tp w :
  GoInt.int64 tb = tb -> GoInt.int64 tp = tp ->
  Forall (validProfile tenantID have labels) samples ->
  measureSamples tenantID have labels samples tb tp w =
  {| world := w; trace := [];
     result := Done (GoInt.int64 (tb + profileBytes have samples),
                     GoInt.int64 (tp + GoInt.len samples)) |}.
Proof.
  intros Hb Hp Hall.
  rewrite <- (app_nil_r samples) at 1.
  now rewrite (measureSamples_valid_prefix _ _ _ _ [] _ _ _ Hb Hp Hall).
Qed.

Lemma bind_Failed {A B : Type} (m : M A) (k : A -> M B) w w' tr e :
  m w = {| world := w'; trace := tr; result := Failed e |} ->
  (m ≫= k) w = {| world := w'; trace := tr; result := Failed e |}.
Proof. intros H. unfold mbind, M_bind, bind. rewrite H. reflexivity. Qed.

Lemma bind_Done {A B : Type} (m : M A) (k : A -> M B) w a :
  m w = {| world := w; trace := []; result := Done a |} ->
  (m ≫= k) w =
  {| world := world (k a w); trace := trace (k a w); result := result (k a w) |}.
Proof. intros H. unfold mbind, M_bind, bind. rewrite H. reflexivity. Qed.

Lemma measureSeries_valid_prefix tenantID have pre rest tb tp w w' e :
  GoInt.int64 tb = tb -> GoInt.int64 tp = tp ->
  Forall (validSeries tenantID have) pre ->
  measureSeries tenantID have rest
    (GoInt.int64 (tb + bytesOf have pre))
    (GoInt.int64 (tp + profilesOf pre)) w =
    {| world := w'; trace := []; result := Failed e |} ->
  measureSeries tenantID have (pre ++ rest) tb tp w =
    {| world := w'; trace := []; result := Failed e |}.
Proof.
  intros Hb Hp Hall. revert tb tp Hb Hp.
  induction Hall as [|sr pre Hsr _ IH]; intros tb tp Hb Hp Hrest.
  - simpl in *. now rewrite !Z.add_0_r, Hb, Hp in Hrest.
  - cbn [app measureSeries].
    assert (Hl : GoInt.int64 (addLabelSizes (distributormodel.SeriesLabels sr) tb)
                 = addLabelSizes (distributormodel.SeriesLabels sr) tb).
    { rewrite addLabelSizes_sum by assumption. apply signed_idem. lia. }
    rewrite (bind_Done _ _ w _
               (measureSamples_valid tenantID have _ _ _ tp w Hl Hp Hsr)).
    cbn [fst snd].
    assert (Hnext :
      measureSeries tenantID have (pre ++ rest)
        (GoInt.int64
           (addLabelSizes (distributormodel.SeriesLabels sr) tb +
            profileBytes have (distributormodel.Samples sr)))
        (GoInt.int64 (tp + GoInt.len (distributormodel.Samples sr))) w =
      {| world := w'; trace := []; result := Failed e |}).
    { apply IH; try (apply signed_idem; lia).
      rewrite <- Hrest. rewrite addLabelSizes_sum by assumption.
      unfold bytesOf, profilesOf. cbn [fold_right].
      f_equal; solve_wrap. }
    rewrite (bind_Failed _ _ _ _ _ _ Hnext). reflexivity.
Qed.

End InvalidProfile.

(** X26.  A profile that [ValidateProfile] turns down, after profiles and
    series that pass and that [profileSizeBytes] measures without a panic:
    [PushParsed] returns [InvalidArgument] without asking the rate limiter,
    and the counters of discarded profiles and bytes for the reason of the
    error and the tenant grow by the profiles and the bytes counted so far:
    every profile up to the one turned down, the earlier, valid ones
    included, and the labels of every series up to its own.  What follows
    the profile in the request is not counted. *)
Theorem PushParsed_invalid_profile
    {L : Limits} {C : phlaremodel.SessionIDCodec} {Srt : sort.Sorter}
    {P : pprof.Ops} {V : validation.Ops} {R : limiter.RateLimiter}
    {G : ring.ReadRing} {E : Environment}
    (ctx : Context) (req : distributormodel.PushRequest) (w : World)
    (tenantID reason : string)
    (pre post : list distributormodel.ProfileSeries)
    (sr : distributormodel.ProfileSeries)
    (before after : list distributormodel.ProfileSample)
    (bad : distributormodel.ProfileSample) :
  let haveRawPprof :=
    String.eqb (distributormodel.RawProfileType req)
      distributormodel.RawProfileTypePPROF in
  let labels :=
    limitMaxSessionsPerSeries tenantID (distributormodel.SeriesLabels sr) in
  TenantID ctx = Some tenantID ->
  List.map normalizeSeries (distributormodel.Series req) = pre ++ sr :: post ->
  distributormodel.Samples sr = before ++ bad :: after ->
  Forall (validSeries tenantID haveRawPprof) pre ->
  Forall (validProfile tenantID haveRawPprof labels) before ->
  Forall sized (concat (List.map distributormodel.Samples pre) ++ before) ->
  validation.ValidateProfile tenantID (distributormodel.Profile bad)
    (decompressedSize haveRawPprof (distributormodel.Profile bad)) labels Now =
    Some reason ->
  PushParsed ctx req w =
  {| world :=
       discarded reason tenantID
         (GoInt.int64 (profilesOf pre + GoInt.len before + 1))
         (GoInt.int64
            (bytesOf haveRawPprof pre +
             labelBytes (distributormodel.SeriesLabels sr) +
             profileBytes haveRawPprof before +
             decompressedSize haveRawPprof (distributormodel.Profile bad)))
         w;
     trace := [];
     result := Failed (ConnectError CodeInvalidArgument) |}.
Proof.
  intros have labels Ht Hseries Hsamples Hpre Hbefore _ Hbad.
  unfold PushParsed. rewrite Ht, Hseries. fold have.
  apply bind_Failed.
  apply measureSeries_valid_prefix; [reflexivity|reflexivity|exact Hpre|].
  cbn [measureSeries]. apply bind_Failed. rewrite Hsamples. fold labels.
  rewrite measureSamples_valid_prefix;
    [|rewrite addLabelSizes_sum by (apply signed_idem; lia);
      apply signed_idem; lia
     |apply signed_idem; lia|exact Hbefore].
  rewrite (measureSamples_invalid _ _ _ _ _ reason _ _ _ Hbad).
  rewrite addLabelSizes_sum by (apply signed_idem; lia).
  f_equal. unfold discarded. f_equal; f_equal; solve_wrap.
Qed.


(** A request of four profiles whose third is turned down: three profiles
    and 167 bytes are counted as discarded, the fourth profile is not. *)
Lemma PushParsed_invalid_profile_witness :
  let L := Example.limits8 in
  let C := SessionHex.codec in
  let Srt := sort.stableSorter in
  let P := Example.ops in
  let V := Example.validationSized in
  let R := Example.limiterOpen in
  let G := Example.ring3 in
  let E := Example.environment in
  let o := PushParsed Example.context Example.oversizedRequest Example.world0 in
  result o = Failed (ConnectError CodeInvalidArgument) /\
  trace o = [] /\
  counterValue "profile_size_limit" "t1" (DiscardedProfiles (world o)) = 3 /\
  counterValue "profile_size_limit" "t1" (DiscardedBytes (world o)) = 167 /\
  profilesOf (List.map normalizeSeries
                (distributormodel.Series Example.oversizedRequest)) = 4.
Proof.
  intros L C Srt P V R G E o.
  pose (first :=
    normalizeSeries
      {| distributormodel.SeriesLabels := Example.seriesLabels;
         distributormodel.Samples :=
           [Example.rawSample Example.plainProfile "a"] |}).
  pose (second :=
    normalizeSeries
      {| distributormodel.SeriesLabels :=
           [Example.label "__name__" "memory";
            Example.label "service_name" "svc"];
         distributormodel.Samples :=
           [Example.rawSample Example.plainProfile "b";
            Example.rawSample Example.regionProfile "c";
            Example.rawSample Example.plainProfile "d"] |}).
  assert (Hvalid : forall labels id,
            validProfile "t1" true labels
              (Example.rawSample Example.plainProfile id)).
  { intros labels id. reflexivity. }
  assert (Hsized : forall id,
            sized (Example.rawSample Example.plainProfile id)).
  { intros id. eexists. vm_compute. reflexivity. }
  pose proof
    (PushParsed_invalid_profile Example.context Example.oversizedRequest
       Example.world0 "t1" "profile_size_limit" [first] [] second
       [Example.rawSample Example.plainProfile "b"]
       [Example.rawSample Example.plainProfile "d"]
       (Example.rawSample Example.regionProfile "c")
       eq_refl eq_refl eq_refl
       ltac:(repeat constructor; apply Hvalid)
       ltac:(repeat constructor; apply Hvalid)
       ltac:(repeat constructor; apply Hsized)
       eq_refl) as H.
  fold o in H. rewrite H. cbn [result trace world].
  split; [reflexivity|]. split; [reflexivity|].
  split; [vm_compute; reflexivity|]. split; vm_compute; reflexivity.
Defined.


(** ** A split series whose labels do not pass validation *)

Section InvalidLabels.

Context {L : Limits} {C : phlaremodel.SessionIDCodec} {Srt : sort.Sorter}
        {P : pprof.Ops} {V : validation.Ops} {R : limiter.RateLimiter}
        {G : ring.ReadRing} {E : Environment}.



End InvalidLabels.



